(** * create-codex: the transactional file-mutation engine

    A shallow embedding of [src/atomic.ts] (retry executor, path lock,
    atomic write / copy / move, transaction log), of [src/files.ts]
    (path check, backup verifier, backup directory, and the copy of
    the skeleton files), of [exists] of [src/utils.ts] and of the
    validation and escaping of template variables of
    [src/template.ts], over a model of the parts of Node's [fs] API
    that the engine calls. *)

From stdpp Require Import gmap strings list fin_maps pretty.
From Stdlib Require Import Ascii.

Local Open Scope string_scope.
Local Open Scope list_scope.
Local Open Scope nat_scope.

(** ** Paths

    A path is the list of its "/"-separated segments as the caller
    spelled them, so ["a"; "."; "b"] and ["a"; "b"] are two spellings of
    one file.  The engine handles paths as strings; the operating system
    resolves them when a file-system call is made ([resolve]). *)

Module Path.

Definition dirname (p : list string) : list string :=
  take (length p - 1) p.

Definition basename (p : list string) : string :=
  default "" (last p).

Definition join (dir : list string) (name : string) : list string :=
  dir ++ [name].

(** One step of path resolution: "." and the empty segment stay in
    place, ".." goes up (the root is its own parent). *)
Definition resolve_step (acc : list string) (s : string) : list string :=
  if bool_decide (s = "." ∨ s = "") then acc
  else if bool_decide (s = "..") then dirname acc
  else acc ++ [s].

Definition resolve (p : list string) : list string :=
  foldl resolve_step [] p.

Definition plain (s : string) : Prop := s ≠ "." ∧ s ≠ ".." ∧ s ≠ "".

Global Instance plain_dec s : Decision (plain s).
Proof. unfold plain. apply _. Defined.

(** A path is canonical when resolution leaves it alone. *)
Definition canonical (p : list string) : Prop := Forall plain p.

Global Instance canonical_dec p : Decision (canonical p).
Proof. unfold canonical. apply _. Defined.

(** All proper prefixes of a path, the root included. *)
Definition ancestors (p : list string) : list (list string) :=
  (λ n, take n p) <$> seq 0 (length p).

(** Rendering, for messages. *)
Definition render (p : list string) : string :=
  match p with
  | [] => "."
  | s :: r => foldl (λ acc x, acc +:+ "/" +:+ x) s r
  end.

End Path.

Export Path.

(** ** The file system

    Regular files and directories, keyed by resolved path; the root is
    always a directory.  Timestamps, modes and other kinds of node are
    not modelled. *)

Inductive node : Type :=
  | File (content : string)
  | Dir.

Global Instance node_eq_dec : EqDecision node.
Proof. solve_decision. Defined.

Module Fs.

Definition node_at (m : gmap (list string) node) (q : list string) : option node :=
  match q with
  | [] => Some Dir
  | _ => m !! q
  end.

Definition is_dir (m : gmap (list string) node) (q : list string) : bool :=
  bool_decide (node_at m q = Some Dir).

Definition is_file (m : gmap (list string) node) (q : list string) : bool :=
  match node_at m q with
  | Some (File _) => true
  | _ => false
  end.

(** The errno of a path that does not resolve. *)
Definition missing (m : gmap (list string) node) (q : list string) : string :=
  if existsb (is_file m) (ancestors q) then "ENOTDIR" else "ENOENT".

(** [q] lies strictly below [a]. *)
Definition below (a q : list string) : Prop := a `prefix_of` q ∧ a ≠ q.

Global Instance below_dec a q : Decision (below a q).
Proof. unfold below. apply _. Defined.

Definition subtree (m : gmap (list string) node) (a : list string)
  : gmap (list string) node :=
  filter (λ kv, a `prefix_of` kv.1) m.

Definition without (m : gmap (list string) node) (a : list string)
  : gmap (list string) node :=
  filter (λ kv, ¬ a `prefix_of` kv.1) m.

Definition has_children (m : gmap (list string) node) (a : list string) : bool :=
  bool_decide (filter (λ kv, below a kv.1) m ≠ ∅).

(** The entries of the subtree at [a], re-rooted at [b]. *)
Definition moved (m : gmap (list string) node) (a b : list string)
  : gmap (list string) node :=
  list_to_map ((λ kv, (b ++ drop (length a) kv.1, kv.2)) <$> map_to_list (subtree m a)).

(** [fs.mkdir(q, {recursive: true})] *)
Definition mkdirp (m : gmap (list string) node) (q : list string)
  : string + gmap (list string) node :=
  if is_dir m q then inr m
  else if existsb (is_file m) (ancestors q) then inl "ENOTDIR"
  else if is_file m q then inl "EEXIST"
  else inr (foldr (λ a acc, <[a := Dir]> acc) m
              ((λ n, take n q) <$> seq 1 (length q))).

(** [fs.writeFile(q, content, {flag})]; [excl] is the "wx" flag. *)
Definition writeFile (m : gmap (list string) node) (q : list string)
    (content : string) (excl : bool) : string + gmap (list string) node :=
  if negb (is_dir m (dirname q)) then inl (missing m q)
  else match node_at m q with
       | Some n =>
           if excl then inl "EEXIST"
           else match n with
                | Dir => inl "EISDIR"
                | File _ => inr (<[q := File content]> m)
                end
       | None => inr (<[q := File content]> m)
       end.

(** [fs.rename(a, b)] *)
Definition rename (m : gmap (list string) node) (a b : list string)
  : string + gmap (list string) node :=
  match node_at m a with
  | None => inl (missing m a)
  | Some na =>
      if negb (is_dir m (dirname b)) then inl (missing m b)
      else if bool_decide (a = b) then inr m
      else if bool_decide (a `prefix_of` b) then inl "EINVAL"
      else match na, node_at m b with
           | File _, Some Dir => inl "EISDIR"
           | Dir, Some (File _) => inl "ENOTDIR"
           | Dir, Some Dir =>
               if has_children m b then inl "ENOTEMPTY"
               else inr (moved m a b ∪ without (without m b) a)
           | File c, _ => inr (<[b := File c]> (delete a m))
           | Dir, None => inr (moved m a b ∪ without m a)
           end
  end.

(** [fs.unlink(q)] *)
Definition unlink (m : gmap (list string) node) (q : list string)
  : string + gmap (list string) node :=
  match node_at m q with
  | None => inl (missing m q)
  | Some Dir => inl "EISDIR"
  | Some (File _) => inr (delete q m)
  end.

(** [fs.rm(q, {recursive: true, force: true})] *)
Definition rm (m : gmap (list string) node) (q : list string)
  : string + gmap (list string) node :=
  match node_at m q with
  | None => inr m
  | Some (File _) => inr (delete q m)
  | Some Dir => if bool_decide (q = []) then inl "EBUSY" else inr (without m q)
  end.

(** [fs.stat(q)] and [fs.access(q)]: the node, when the path resolves. *)
Definition stat (m : gmap (list string) node) (q : list string) : string + node :=
  match node_at m q with
  | None => inl (missing m q)
  | Some n => inr n
  end.

(** [fs.copyFile(a, b)] *)
Definition copyFile (m : gmap (list string) node) (a b : list string)
  : string + gmap (list string) node :=
  match node_at m a with
  | None => inl (missing m a)
  | Some Dir => inl "EISDIR"
  | Some (File c) =>
      if negb (is_dir m (dirname b)) then inl (missing m b)
      else match node_at m b with
           | Some Dir => inl "EISDIR"
           | _ => inr (<[b := File c]> m)
           end
  end.

(** [fs.cp(a, b, {recursive: true, force: true})] *)
Definition cp (m : gmap (list string) node) (a b : list string)
  : string + gmap (list string) node :=
  match node_at m a with
  | None => inl (missing m a)
  | Some (File c) =>
      match node_at m b with
      | Some Dir => inl "ERR_FS_CP_NON_DIR_TO_DIR"
      | _ => match mkdirp m (dirname b) with
             | inl e => inl e
             | inr m' => inr (<[b := File c]> m')
             end
      end
  | Some Dir =>
      if bool_decide (a `prefix_of` b) then inl "ERR_FS_CP_EINVAL"
      else if is_file m b then inl "ERR_FS_CP_DIR_TO_NON_DIR"
      else match mkdirp m b with
           | inl e => inl e
           | inr m' => inr (moved m a b ∪ m')
           end
  end.

(** [fs.readdir(q, {withFileTypes: true})]: name and node of each child. *)
Definition readdir (m : gmap (list string) node) (q : list string)
  : string + list (string * node) :=
  match node_at m q with
  | None => inl (missing m q)
  | Some (File _) => inl "ENOTDIR"
  | Some Dir =>
      inr (omap (λ kv, if bool_decide (kv.1 ≠ [] ∧ dirname kv.1 = q)
                       then Some (basename kv.1, kv.2) else None)
             (map_to_list m))
  end.

(** The bytes a read stream on [q] delivers. *)
Definition read (m : gmap (list string) node) (q : list string) : string + string :=
  match node_at m q with
  | None => inl (missing m q)
  | Some Dir => inl "EISDIR"
  | Some (File c) => inr c
  end.

End Fs.

(** ** Errors, events and the world *)

(** A JavaScript [Error]: its message and, for a Node system error, its
    [code]. *)
Record error : Type := Error { message : string; code : option string }.

Global Instance error_eq_dec : EqDecision error.
Proof. solve_decision. Defined.

(** What a run does to its environment, in order: the file-system calls
    it makes (with the paths as spelled), the timers it waits on and the
    lines it writes to the console. *)
Inductive event : Type :=
  | SysMkdir (p : list string)
  | SysWriteFile (p : list string) (content : string) (excl : bool)
  | SysRename (a b : list string)
  | SysUnlink (p : list string)
  | SysRm (p : list string)
  | SysStat (p : list string)
  | SysAccess (p : list string)
  | SysCopyFile (a b : list string)
  | SysCp (a b : list string)
  | SysUtimes (p : list string)
  | SysReaddir (p : list string)
  | SysRead (p : list string)
  | Sleep (ms : N)
  | ConsoleError (msg : string).

Global Instance event_eq_dec : EqDecision event.
Proof. solve_decision. Defined.

(** The functions a lock queue holds.  [acquireLock] creates two for
    each waiting caller: the promise's own [resolve], and the
    [wrappedResolve] closure around it. *)
Inductive callback : Type :=
  | Resolve (promise : nat)
  | WrappedResolve (promise : nat).

Global Instance callback_eq_dec : EqDecision callback.
Proof. solve_decision. Defined.

Inductive promise_state : Type := Pending | Resolved | Rejected.

Global Instance promise_state_eq_dec : EqDecision promise_state.
Proof. solve_decision. Defined.

(** What another caller does to the entry of a path while a caller
    waits in the queue of that path: [after] milliseconds later, the
    holder calls its release closure, or a caller that has set the entry
    fails to create its marker and runs the [catch] block of
    [acquireLock]. *)
Inductive departure : Type :=
  | Unlocks (after : N)
  | GivesUp (after : N).

Global Instance departure_eq_dec : EqDecision departure.
Proof. solve_decision. Defined.

Definition lapse (d : departure) : N :=
  match d with
  | Unlocks ms | GivesUp ms => ms
  end.

(** The process and its disk.  [locks] holds the keys of the module's
    [locks] map (its promise values are never awaited); [lockQueue] maps
    a key to the array object stored for it, and [arrays] is the store
    of those arrays, so that a closure holding an array sees its
    updates.  A run is the code of one caller; [departures] tells what
    the other callers do while it is suspended in a lock queue: one
    list for each such wait to come, empty when nobody lets go of the
    path before the timer of the wait fires. *)
Record World : Type := mkWorld {
  fs : gmap (list string) node;
  locks : gset (list string);
  lockQueue : gmap (list string) nat;
  arrays : gmap nat (list callback);
  promises : gmap nat promise_state;
  nextId : nat;
  now : N;
  draws : nat;
  trace : list event;
  departures : list (list departure);
}.

Definition set_fs (m : gmap (list string) node) (w : World) : World :=
  mkWorld m (locks w) (lockQueue w) (arrays w) (promises w) (nextId w) (now w) (draws w) (trace w) (departures w).
Definition set_locks (l : gset (list string)) (w : World) : World :=
  mkWorld (fs w) l (lockQueue w) (arrays w) (promises w) (nextId w) (now w) (draws w) (trace w) (departures w).
Definition set_lockQueue (q : gmap (list string) nat) (w : World) : World :=
  mkWorld (fs w) (locks w) q (arrays w) (promises w) (nextId w) (now w) (draws w) (trace w) (departures w).
Definition set_arrays (a : gmap nat (list callback)) (w : World) : World :=
  mkWorld (fs w) (locks w) (lockQueue w) a (promises w) (nextId w) (now w) (draws w) (trace w) (departures w).
Definition set_promises (p : gmap nat promise_state) (w : World) : World :=
  mkWorld (fs w) (locks w) (lockQueue w) (arrays w) p (nextId w) (now w) (draws w) (trace w) (departures w).
Definition set_nextId (n : nat) (w : World) : World :=
  mkWorld (fs w) (locks w) (lockQueue w) (arrays w) (promises w) n (now w) (draws w) (trace w) (departures w).
Definition set_now (n : N) (w : World) : World :=
  mkWorld (fs w) (locks w) (lockQueue w) (arrays w) (promises w) (nextId w) n (draws w) (trace w) (departures w).
Definition set_draws (n : nat) (w : World) : World :=
  mkWorld (fs w) (locks w) (lockQueue w) (arrays w) (promises w) (nextId w) (now w) n (trace w) (departures w).
Definition set_trace (t : list event) (w : World) : World :=
  mkWorld (fs w) (locks w) (lockQueue w) (arrays w) (promises w) (nextId w) (now w) (draws w) t (departures w).
Definition set_departures (d : list (list departure)) (w : World) : World :=
  mkWorld (fs w) (locks w) (lockQueue w) (arrays w) (promises w) (nextId w) (now w) (draws w) (trace w) d.
Definition log (e : event) (w : World) : World :=
  mkWorld (fs w) (locks w) (lockQueue w) (arrays w) (promises w) (nextId w) (now w) (draws w)
          (trace w ++ [e]) (departures w).

(** ** Computations that may throw *)

Definition ST (S A : Type) : Type := S → (error + A) * S.

Global Instance ST_ret {S} : MRet (ST S) := λ A a s, (inr a, s).

Global Instance ST_bind {S} : MBind (ST S) := λ A B f m s,
  match m s with
  | (inr a, s') => f a s'
  | (inl e, s') => (inl e, s')
  end.

Definition throw {S A} (e : error) : ST S A := λ s, (inl e, s).

(** [try { m } catch (e) { h e }] *)
Definition try_catch {S A} (m : ST S A) (h : error → ST S A) : ST S A := λ s,
  match m s with
  | (inl e, s') => h e s'
  | r => r
  end.

(** [try { m } finally { c }]: an exception of [c] replaces the outcome
    of [m]. *)
Definition try_finally {S A} (m : ST S A) (c : ST S unit) : ST S A := λ s,
  match m s with
  | (r, s') =>
      match c s' with
      | (inl e, s'') => (inl e, s'')
      | (inr _, s'') => (r, s'')
      end
  end.

(** [m.catch(() => {})] *)
Definition ignore_errors {S} (m : ST S unit) : ST S unit :=
  try_catch m (λ _, mret ()).

(** [m.then(() => true).catch(() => false)] *)
Definition succeeds {S A} (m : ST S A) : ST S bool :=
  try_catch (_ ← m; mret true) (λ _, mret false).

Definition get {S} : ST S S := λ s, (inr s, s).
Definition modify {S} (f : S → S) : ST S unit := λ s, (inr (), f s).

Abbreviation M := (ST World).

(** A file-system call: it is logged, acts on the resolved paths, and
    fails with a system error carrying the errno as [code]. *)
Definition syscall (e : event) (name : string)
    (f : gmap (list string) node → string + gmap (list string) node) : M unit := λ w,
  match f (fs w) with
  | inl c => (inl (Error (c +:+ ": " +:+ name) (Some c)), log e w)
  | inr m => (inr (), set_fs m (log e w))
  end.

Definition sysread {A} (e : event) (name : string)
    (f : gmap (list string) node → string + A) : M A := λ w,
  match f (fs w) with
  | inl c => (inl (Error (c +:+ ": " +:+ name) (Some c)), log e w)
  | inr a => (inr a, log e w)
  end.

Module fs_promises.

Definition mkdir (p : list string) : M unit :=
  syscall (SysMkdir p) "mkdir" (λ m, Fs.mkdirp m (resolve p)).

Definition writeFile (p : list string) (content : string) (excl : bool) : M unit :=
  syscall (SysWriteFile p content excl) "open" (λ m, Fs.writeFile m (resolve p) content excl).

Definition rename (a b : list string) : M unit :=
  syscall (SysRename a b) "rename" (λ m, Fs.rename m (resolve a) (resolve b)).

Definition unlink (p : list string) : M unit :=
  syscall (SysUnlink p) "unlink" (λ m, Fs.unlink m (resolve p)).

Definition rm (p : list string) : M unit :=
  syscall (SysRm p) "rm" (λ m, Fs.rm m (resolve p)).

Definition stat (p : list string) : M node :=
  sysread (SysStat p) "stat" (λ m, Fs.stat m (resolve p)).

Definition access (p : list string) : M unit :=
  _ ← sysread (SysAccess p) "access" (λ m, Fs.stat m (resolve p)); mret ().

Definition copyFile (a b : list string) : M unit :=
  syscall (SysCopyFile a b) "copyfile" (λ m, Fs.copyFile m (resolve a) (resolve b)).

Definition cp (a b : list string) : M unit :=
  syscall (SysCp a b) "cp" (λ m, Fs.cp m (resolve a) (resolve b)).

(** Timestamps are not modelled: [utimes] only checks that the path
    resolves. *)
Definition utimes (p : list string) : M unit :=
  _ ← sysread (SysUtimes p) "utime" (λ m, Fs.stat m (resolve p)); mret ().

Definition readdir (p : list string) : M (list (string * node)) :=
  sysread (SysReaddir p) "scandir" (λ m, Fs.readdir m (resolve p)).

Definition read (p : list string) : M string :=
  sysread (SysRead p) "read" (λ m, Fs.read m (resolve p)).

End fs_promises.

(** [await new Promise(resolve => setTimeout(resolve, ms))] *)
Definition sleep (ms : N) : M unit :=
  modify (λ w, set_now (now w + ms)%N (log (Sleep ms) w)).

Definition console_error (msg : string) : M unit :=
  modify (log (ConsoleError msg)).

(** Hexadecimal rendering of the low [digits] nibbles of [v]. *)
Definition hex_digits : list string :=
  ["0"; "1"; "2"; "3"; "4"; "5"; "6"; "7"; "8"; "9"; "a"; "b"; "c"; "d"; "e"; "f"].

Definition hex_digit (v : N) : string :=
  default "f" (hex_digits !! N.to_nat v).

Fixpoint hex (digits : nat) (v : N) : string :=
  match digits with
  | 0 => ""
  | S d => hex d (v / 16) +:+ hex_digit (v mod 16)
  end.

(** ** [src/atomic.ts] *)

Definition RETRY_DELAYS : list N := [100; 500; 1000; 2000; 5000]%N.
Definition LOCK_TIMEOUT : N := 30000.

(** [`${path}.lock`]: the suffix lands on the last segment. *)
Definition lockFileOf (path : list string) : list string :=
  dirname path ++ [basename path +:+ ".lock"].

(** [join(dir, `.${basename(targetPath)}.${suffix}.tmp`)] *)
Definition tempPathOf (targetPath : list string) (suffix : string) : list string :=
  join (dirname targetPath) ("." +:+ basename targetPath +:+ "." +:+ suffix +:+ ".tmp").

(** [Array.prototype.indexOf]: [None] stands for -1. *)
Fixpoint indexOf {A} `{EqDecision A} (x : A) (l : list A) : option nat :=
  match l with
  | [] => None
  | y :: r => if decide (y = x) then Some 0 else S <$> indexOf x r
  end.

Inductive OpType : Type := backup_op | write_op | copy_op.

Global Instance OpType_eq_dec : EqDecision OpType.
Proof. solve_decision. Defined.

(** An entry of [TransactionLog.operations]:
    [{ type: string; path: string; backup?: string }]. *)
Record Op : Type := mkOp {
  op_type : OpType;
  op_path : list string;
  op_backup : option (list string);
}.

Global Instance Op_eq_dec : EqDecision Op.
Proof. solve_decision. Defined.

Record TransactionLog : Type := mkTx {
  operations : list Op;
  backupDir : list string;
}.

(** The methods of a [TransactionLog] run on the object and the world. *)
Abbreviation TxM := (ST (TransactionLog * World)).

Definition liftW {A} (m : M A) : TxM A := λ s,
  match m s.2 with
  | (r, w') => (r, (s.1, w'))
  end.

Definition this : TxM TransactionLog := λ s, (inr s.1, s).

Definition set_operations (ops : list Op) : TxM unit := λ s,
  (inr (), (mkTx ops (backupDir s.1), s.2)).

(** [for (const x of l) body(x)] *)
Fixpoint for_of {S A} (l : list A) (body : A → ST S unit) : ST S unit :=
  match l with
  | [] => mret ()
  | x :: r => body x;; for_of r body
  end.

Section Engine.

(** The environment of the process: its platform, the device each
    directory resides on, the system's temporary directory, and the
    successive outputs of [crypto.randomBytes] (as numbers). *)
Context (win32 : bool)
        (dev : list string → nat)
        (tmpdir : list string)
        (entropy : nat → N).

(** [randomBytes(n).toString('hex')] *)
Definition randomHex (n : nat) : M string :=
  w ← get;
  modify (set_draws (S (draws w)));;
  mret (hex (2 * n) (entropy (draws w))).

(** *** withRetry *)

Definition is_permanent (e : error) : bool :=
  bool_decide (code e = Some "ENOENT" ∨ code e = Some "ENOTDIR" ∨ code e = Some "EISDIR").

(** [RETRY_DELAYS[Math.min(i, RETRY_DELAYS.length - 1)]] *)
Definition retry_delay (i : nat) : N :=
  default 0%N (RETRY_DELAYS !! (i `min` (length RETRY_DELAYS - 1))).

(** The [for] loop of [withRetry] from iteration [i], with
    [remaining = maxRetries - i]; it yields the value returned, or
    [lastError] when it is left by [break]. *)
Fixpoint retry_loop {T} (operation : M T) (remaining i : nat) : M (error + T) :=
  try_catch (v ← operation; mret (inr v))
    (λ lastError,
       match remaining with
       | 0 => mret (inl lastError)
       | S r =>
           sleep (retry_delay i);;
           if is_permanent lastError then mret (inl lastError)
           else retry_loop operation r (S i)
       end).

(** [new Error(`${context} failed after ${maxRetries} retries:
    ${lastError?.message || 'Unknown error'}`)] *)
Definition retry_error (context : string) (maxRetries : nat) (lastError : error) : error :=
  Error (context +:+ " failed after " +:+ pretty maxRetries +:+ " retries: "
         +:+ (if bool_decide (message lastError = "") then "Unknown error"
              else message lastError)) None.

Definition withRetry {T} (operation : M T) (context : string) (maxRetries : nat) : M T :=
  r ← retry_loop operation maxRetries 0;
  match r with
  | inr v => mret v
  | inl lastError => throw (retry_error context maxRetries lastError)
  end.

(** *** acquireLock *)

Definition new_promise : M nat :=
  w ← get;
  modify (λ w, set_nextId (S (nextId w)) (set_promises (<[nextId w := Pending]> (promises w)) w));;
  mret (nextId w).

Definition settle (pid : nat) (s : promise_state) : M unit :=
  modify (λ w, match promises w !! pid with
               | Some Pending => set_promises (<[pid := s]> (promises w)) w
               | _ => w
               end).

(** Calling a queued function.  [wrappedResolve] clears the timer and
    calls [resolve]; both settle the promise if it is still pending. *)
Definition call (f : callback) : M unit :=
  match f with
  | Resolve pid => settle pid Resolved
  | WrappedResolve pid => settle pid Resolved
  end.

(** The executor of the promise a contended caller waits on:
    [queue = lockQueue.get(path) || []], the timer is armed,
    [queue.push(wrappedResolve)], [lockQueue.set(path, queue)].
    Yields the promise and the array the timer's closure holds. *)
Definition enqueue (path : list string) : M (nat * nat) :=
  pid ← new_promise;
  w ← get;
  let queue := default (nextId w) (lockQueue w !! path) in
  modify (λ w, set_nextId (if lockQueue w !! path is Some _ then nextId w else S (nextId w)) w);;
  modify (λ w, set_arrays (<[queue := default [] (arrays w !! queue) ++ [WrappedResolve pid]]> (arrays w)) w);;
  modify (λ w, set_lockQueue (<[path := queue]> (lockQueue w)) w);;
  mret (pid, queue).

(** The timer's callback:
    [index = queue.indexOf(resolve); if (index > -1) queue.splice(index, 1);
     reject(new Error(`Lock timeout: ${path}`))]. *)
Definition on_timeout (path : list string) (pid queue : nat) : M unit :=
  w ← get;
  match indexOf (Resolve pid) (default [] (arrays w !! queue)) with
  | Some index =>
      modify (set_arrays (<[queue := delete index (default [] (arrays w !! queue))]> (arrays w)))
  | None => mret ()
  end;;
  settle pid Rejected.

(** [queue = lockQueue.get(path); if (queue && queue.length > 0) {
     next = queue.shift(); if (next) next();
     if (queue.length === 0) lockQueue.delete(path) }] *)
Definition wake_next (path : list string) : M unit :=
  w ← get;
  match lockQueue w !! path with
  | Some queue =>
      match default [] (arrays w !! queue) with
      | next :: rest =>
          modify (set_arrays (<[queue := rest]> (arrays w)));;
          call next;;
          if bool_decide (rest = []) then
            modify (λ w, set_lockQueue (delete path (lockQueue w)) w)
          else mret ()
      | [] => mret ()
      end
  | None => mret ()
  end.

(** [locks.delete(path)] and the hand-over to the next waiter: the
    [finally] block of the release closure (whose [lockResolve()] settles
    a promise nobody awaits) and the [catch] block of [acquireLock]. *)
Definition clear_lock (path : list string) : M unit :=
  modify (λ w, set_locks (locks w ∖ {[path]}) w);;
  wake_next path.

(** The closure [acquireLock] returns. *)
Definition release (path lockFile : list string) : M unit :=
  try_finally (ignore_errors (fs_promises.unlink lockFile)) (clear_lock path).

(** The code of another caller, run while this one is suspended: it
    acts on the world, but its calls are no events of this run, and an
    exception of it would be its own. *)
Definition meanwhile (m : M unit) : M unit := λ w,
  (inr (), set_trace (trace w) (m w).2).

(** A departure from [path]: the release closure of its holder, or the
    [catch] block of a caller whose marker could not be created. *)
Definition departs (path : list string) (d : departure) : M unit :=
  match d with
  | Unlocks _ => release path (lockFileOf path)
  | GivesUp _ => clear_lock path
  end.

(** The timer of the wait fires, [left] milliseconds from now and
    [delay] after it was set: the promise is rejected, and the [await]
    throws. *)
Definition expire (path : list string) (pid queue : nat) (delay left : N) : M unit :=
  modify (λ w, set_now (now w + left)%N (log (Sleep delay) w));;
  on_timeout path pid queue;;
  throw (Error ("Lock timeout: " +:+ render path) None).

(** Awaiting the queue promise.  The caller is suspended until the
    promise is settled: by [wrappedResolve], which a departure calls
    when it finds it first in the queue and which clears the timer, or
    by the timer, [delay] milliseconds after it was set.  A departure
    that would come after the timer does not happen in this wait. *)
Fixpoint await_loop (ds : list departure) (path : list string) (pid queue : nat)
    (delay left : N) : M unit :=
  match ds with
  | d :: ds' =>
      if (lapse d <? left)%N then
        modify (λ w, set_now (now w + lapse d)%N w);;
        meanwhile (departs path d);;
        w ← get;
        match promises w !! pid with
        | Some Resolved => mret ()
        | _ => await_loop ds' path pid queue delay (left - lapse d)%N
        end
      else expire path pid queue delay left
  | [] => expire path pid queue delay left
  end.

(** The timer is set to [LOCK_TIMEOUT - (Date.now() - startTime)]. *)
Definition await_queued (path : list string) (pid queue : nat) (startTime : N) : M unit :=
  w ← get;
  let delay := (LOCK_TIMEOUT - (now w - startTime))%N in
  modify (set_departures (tail (departures w)));;
  await_loop (default [] (head (departures w))) path pid queue delay delay.

(** The marker file and the table clean-up of a failed acquisition. *)
Definition create_marker (path lockFile : list string) (lockId : string) : M unit :=
  try_catch
    (withRetry (fs_promises.writeFile lockFile lockId true)
               ("acquiring lock on " +:+ render path) 3)
    (λ error, clear_lock path;; throw error).

Definition acquireLock (path : list string) : M (M unit) :=
  let lockFile := lockFileOf path in
  lockId ← randomHex 16;
  w ← get;
  let startTime := now w in
  (if bool_decide (path ∈ locks w) then
     pq ← enqueue path;
     await_queued path pq.1 pq.2 startTime
   else mret ());;
  modify (λ w, set_locks ({[path]} ∪ locks w) w);;
  create_marker path lockFile lockId;;
  mret (release path lockFile).

(** *** atomicWrite, atomicCopy, atomicMove *)

Definition atomicWrite (targetPath : list string) (content : string) : M unit :=
  let dir := dirname targetPath in
  suffix ← randomHex 8;
  let tempPath := tempPathOf targetPath suffix in
  withRetry (fs_promises.mkdir dir) ("creating directory " +:+ render dir)
            (length RETRY_DELAYS);;
  unlock ← acquireLock targetPath;
  try_finally
    (withRetry
       (fs_promises.writeFile tempPath content false;;
        if negb win32 then fs_promises.rename tempPath targetPath
        else
          try_catch (fs_promises.unlink targetPath) (λ _, mret ());;
          fs_promises.rename tempPath targetPath)
       ("atomic write to " +:+ render targetPath) (length RETRY_DELAYS))
    (try_finally (ignore_errors (fs_promises.unlink tempPath)) unlock).

Definition atomicCopy (sourcePath targetPath : list string)
    (preserveTimestamps : option bool) : M unit :=
  let dir := dirname targetPath in
  suffix ← randomHex 8;
  let tempPath := tempPathOf targetPath suffix in
  withRetry (fs_promises.mkdir dir) ("creating directory " +:+ render dir)
            (length RETRY_DELAYS);;
  unlock ← acquireLock targetPath;
  try_finally
    (withRetry
       (sourceStats ← fs_promises.stat sourcePath;
        match sourceStats with
        | Dir => fs_promises.cp sourcePath tempPath
        | File _ =>
            fs_promises.copyFile sourcePath tempPath;;
            if default false preserveTimestamps then fs_promises.utimes tempPath
            else mret ()
        end;;
        if negb win32 then fs_promises.rename tempPath targetPath
        else
          try_catch (fs_promises.rm targetPath) (λ _, mret ());;
          fs_promises.rename tempPath targetPath)
       ("atomic copy from " +:+ render sourcePath +:+ " to " +:+ render targetPath)
       (length RETRY_DELAYS))
    (try_finally (ignore_errors (fs_promises.rm tempPath)) unlock).

Definition atomicMove (sourcePath targetPath : list string) : M unit :=
  let sourceDir := dirname sourcePath in
  let targetDir := dirname targetPath in
  withRetry (fs_promises.mkdir targetDir) ("creating directory " +:+ render targetDir)
            (length RETRY_DELAYS);;
  try_catch
    (sourceStat ← fs_promises.stat sourceDir;
     targetStat ← try_catch (n ← fs_promises.stat targetDir; mret (Some n)) (λ _, mret None);
     if bool_decide (is_Some targetStat ∧ dev (resolve sourceDir) = dev (resolve targetDir))
     then
       unlock ← acquireLock targetPath;
       try_finally
         (withRetry
            (if negb win32 then fs_promises.rename sourcePath targetPath
             else
               try_catch (fs_promises.rm targetPath) (λ _, mret ());;
               fs_promises.rename sourcePath targetPath)
            ("atomic move from " +:+ render sourcePath +:+ " to " +:+ render targetPath)
            (length RETRY_DELAYS))
         unlock
     else
       atomicCopy sourcePath targetPath (Some true);;
       fs_promises.rm sourcePath)
    (λ error, throw (Error ("Atomic move failed: " +:+ message error) None)).

(** *** TransactionLog *)

(** [new TransactionLog()] *)
Definition TransactionLog_new : M TransactionLog :=
  w ← get;
  suffix ← randomHex 4;
  mret (mkTx [] (join tmpdir (".create-codex-tx-" +:+ pretty (now w) +:+ "-" +:+ suffix))).

Definition init : TxM unit :=
  tx ← this;
  liftW (fs_promises.mkdir (backupDir tx)).

Definition push (op : Op) : TxM unit :=
  tx ← this;
  set_operations (operations tx ++ [op]).

Definition backup (path : list string) : TxM unit :=
  exists_ ← liftW (succeeds (fs_promises.access path));
  if negb exists_ then mret ()
  else
    tx ← this;
    name ← liftW (randomHex 8);
    let backupPath := join (backupDir tx) name in
    liftW (atomicCopy path backupPath None);;
    push (mkOp backup_op path (Some backupPath)).

Definition write (path : list string) (content : string) : TxM unit :=
  backup path;;
  liftW (atomicWrite path content);;
  push (mkOp write_op path None).

Definition copy (source target : list string) : TxM unit :=
  backup target;;
  liftW (atomicCopy source target None);;
  push (mkOp copy_op target None).

(** The body of the loop of [rollback]. *)
Definition rollback_step (op : Op) : M unit :=
  match op_type op, op_backup op with
  | backup_op, Some b =>
      try_catch (atomicMove b (op_path op))
        (λ error,
           console_error ("Failed to rollback " +:+ render (op_path op) +:+ ": Error: "
                          +:+ message error))
  | backup_op, None => mret ()
  | _, _ => try_catch (fs_promises.rm (op_path op)) (λ _, mret ())
  end.

(** [Array.prototype.reverse] reverses [this.operations] in place and
    returns that same array, which the loop then walks. *)
Definition rollback : TxM unit :=
  tx ← this;
  set_operations (reverse (operations tx));;
  tx ← this;
  for_of (operations tx) (λ op, liftW (rollback_step op)).

Definition commit : TxM unit :=
  tx ← this;
  try_catch (liftW (fs_promises.rm (backupDir tx))) (λ _, mret ()).

End Engine.

(** ** [src/files.ts]: the backup verifier *)

(** [for (const x of l) acc = body(acc, x)], for loops that update a
    local array. *)
Fixpoint for_fold {S A B} (l : list A) (acc : B) (body : B → A → ST S B) : ST S B :=
  match l with
  | [] => mret acc
  | x :: r => acc' ← body acc x; for_fold r acc' body
  end.

Definition newline : string :=
  String (Ascii.Ascii false true false true false false false false) EmptyString.

Section Verifier.

(** The SHA-256 digest of a byte string, in hexadecimal. *)
Context (sha256 : string → string).

Definition hashFile (path : list string) : M string :=
  content ← fs_promises.read path;
  mret (sha256 content).

(** The inner function [traverse] of [getAllFiles]; [files] is the
    array it pushes to.  [fuel] bounds the depth of the recursion, and
    running out of it is the engine's stack overflow. *)
Fixpoint traverse (fuel : nat) (currentDir prefix : list string)
    (files : list (list string)) : M (list (list string)) :=
  match fuel with
  | 0 => throw (Error "Maximum call stack size exceeded" None)
  | S fuel' =>
      entries ← fs_promises.readdir currentDir;
      for_fold entries files (λ files entry,
        let fullPath := join currentDir entry.1 in
        let relativePath :=
          if bool_decide (prefix = []) then [entry.1] else join prefix entry.1 in
        match entry.2 with
        | Dir => traverse fuel' fullPath relativePath files
        | File _ => mret (files ++ [relativePath])
        end)
  end.

(** A directory tree on a finite disk is no deeper than the disk has
    entries. *)
Definition getAllFiles (dir : list string) : M (list (list string)) :=
  w ← get;
  traverse (S (size (fs w))) dir [] [].

(** The two errors [verifyBackup] throws. *)
Definition structure_mismatch : error :=
  Error ("CRITICAL: Backup verification failed - directory structure mismatch"
         +:+ newline +:+ "Action: DO NOT PROCEED - Data integrity compromised") None.

Definition sha256_mismatch : error :=
  Error ("CRITICAL: Backup verification failed" +:+ newline
         +:+ "SHA256 mismatch detected" +:+ newline
         +:+ "Action: DO NOT PROCEED - Data integrity compromised") None.

(** The two digests are computed under [Promise.all]; the reads do not
    change the disk, so their order does not matter here. *)
Definition verifyBackup (originalPath backupPath : list string) : M unit :=
  stats ← fs_promises.stat originalPath;
  match stats with
  | Dir =>
      originalFiles ← getAllFiles originalPath;
      backupFiles ← getAllFiles backupPath;
      if bool_decide (length originalFiles ≠ length backupFiles)
         || negb (forallb (λ f, bool_decide (f ∈ backupFiles)) originalFiles)
      then throw structure_mismatch
      else mret ()
  | File _ =>
      originalHash ← hashFile originalPath;
      backupHash ← hashFile backupPath;
      if bool_decide (originalHash ≠ backupHash)
      then throw sha256_mismatch
      else mret ()
  end.

End Verifier.

(** ** Interleaved callers of [acquireLock]

    JavaScript runs one task at a time and switches only at an [await].
    A caller of [acquireLock] is therefore a small state machine whose
    transitions are the pieces of code between two awaits; callers
    interleave at those points, and time passes in between. *)

Module Tasks.

(** Where a caller is suspended. *)
Inductive task_state : Type :=
  | Queued (pid queue : nat) (deadline : N)
      (** awaiting the queue promise; the timer is due at [deadline] *)
  | Creating (i : nat)
      (** in [withRetry], iteration [i]: [writeFile] of the marker issued *)
  | Created
      (** the marker is on disk; the continuation has not run yet *)
  | CreateFailed (i : nat) (e : error)
      (** [writeFile] failed; the continuation has not run yet *)
  | Backoff (i : nat) (e : error) (wake : N)
      (** awaiting the back-off timer, due at [wake] *)
  | Holding
      (** [acquireLock] has returned; the release closure is not called yet *)
  | Unlinking
      (** the release closure runs: [unlink] of the marker issued *)
  | Unlinked
      (** [unlink] is over; the [finally] block has not run yet *)
  | Released
  | Failed (e : error).
      (** [acquireLock] threw *)

Record task : Type := mkTask {
  key : list string;
  lockId : string;
  state : task_state;
}.

Record system : Type := mkSystem {
  world : World;
  tasks : gmap nat task;
}.

Section Blocks.

Context (entropy : nat → N).

(** From the call up to the first [await]. *)
Definition enter (path : list string) : M (string * task_state) :=
  lockId ← randomHex entropy 16;
  w ← get;
  let startTime := now w in
  if bool_decide (path ∈ locks w) then
    pq ← enqueue path;
    w ← get;
    mret (lockId, Queued pq.1 pq.2 (now w + (LOCK_TIMEOUT - (now w - startTime)))%N)
  else
    modify (λ w, set_locks ({[path]} ∪ locks w) w);;
    mret (lockId, Creating 0).

(** The timer of a queued caller fires. *)
Definition timer_fires (path : list string) (pid queue : nat) : M task_state :=
  on_timeout path pid queue;;
  mret (Failed (Error ("Lock timeout: " +:+ render path) None)).

(** A queued caller continues after its promise was resolved. *)
Definition resume (path : list string) : M task_state :=
  modify (λ w, set_locks ({[path]} ∪ locks w) w);;
  mret (Creating 0).

(** The operating system carries out the [writeFile] of the marker. *)
Definition marker_io (path : list string) (lockId : string) (i : nat) : M task_state :=
  try_catch (fs_promises.writeFile (lockFileOf path) lockId true;; mret Created)
            (λ e, mret (CreateFailed i e)).

(** [withRetry] is left by [break]: it throws, and the [catch] block of
    [acquireLock] clears the table and rethrows. *)
Definition abandon (path : list string) (lastError : error) : M task_state :=
  clear_lock path;;
  mret (Failed (retry_error ("acquiring lock on " +:+ render path) 3 lastError)).

(** The [catch] block of [withRetry] up to its timer. *)
Definition after_failure (path : list string) (i : nat) (e : error) : M task_state :=
  if bool_decide (i = 3) then abandon path e
  else w ← get; mret (Backoff i e (now w + retry_delay i)%N).

(** The rest of the [catch] block of [withRetry], and the next
    iteration up to its [writeFile]. *)
Definition after_backoff (path : list string) (i : nat) (e : error) : M task_state :=
  if is_permanent e then abandon path e else mret (Creating (S i)).

(** The operating system carries out the [unlink] of the marker. *)
Definition unlink_io (path : list string) : M task_state :=
  ignore_errors (fs_promises.unlink (lockFileOf path));;
  mret Unlinked.

(** The [finally] block of the release closure. *)
Definition after_unlink (path : list string) : M task_state :=
  clear_lock path;;
  mret Released.

(** Task [tid] runs one of its pieces of code. *)
Definition advance (tid : nat) (k : list string) (id : string)
    (block : M task_state) (s : system) : system :=
  match block (world s) with
  | (inr st, w') => mkSystem w' (<[tid := mkTask k id st]> (tasks s))
  | (inl _, w') => mkSystem w' (tasks s)
  end.

Definition start (tid : nat) (path : list string) (s : system) : system :=
  match enter path (world s) with
  | (inr (id, st), w') => mkSystem w' (<[tid := mkTask path id st]> (tasks s))
  | (inl _, w') => mkSystem w' (tasks s)
  end.

Inductive step : system → system → Prop :=
  | step_call tid path s :
      tasks s !! tid = None →
      step s (start tid path s)
  | step_timeout tid k id pid queue deadline s :
      tasks s !! tid = Some (mkTask k id (Queued pid queue deadline)) →
      promises (world s) !! pid = Some Pending →
      (deadline ≤ now (world s))%N →
      step s (advance tid k id (timer_fires k pid queue) s)
  | step_resume tid k id pid queue deadline s :
      tasks s !! tid = Some (mkTask k id (Queued pid queue deadline)) →
      promises (world s) !! pid = Some Resolved →
      step s (advance tid k id (resume k) s)
  | step_marker_io tid k id i s :
      tasks s !! tid = Some (mkTask k id (Creating i)) →
      step s (advance tid k id (marker_io k id i) s)
  | step_acquired tid k id s :
      tasks s !! tid = Some (mkTask k id Created) →
      step s (advance tid k id (mret Holding) s)
  | step_after_failure tid k id i e s :
      tasks s !! tid = Some (mkTask k id (CreateFailed i e)) →
      step s (advance tid k id (after_failure k i e) s)
  | step_after_backoff tid k id i e wake s :
      tasks s !! tid = Some (mkTask k id (Backoff i e wake)) →
      (wake ≤ now (world s))%N →
      step s (advance tid k id (after_backoff k i e) s)
  | step_release tid k id s :
      tasks s !! tid = Some (mkTask k id Holding) →
      step s (advance tid k id (mret Unlinking) s)
  | step_unlink_io tid k id s :
      tasks s !! tid = Some (mkTask k id Unlinking) →
      step s (advance tid k id (unlink_io k) s)
  | step_after_unlink tid k id s :
      tasks s !! tid = Some (mkTask k id Unlinked) →
      step s (advance tid k id (after_unlink k) s)
  | step_tick d s :
      step s (mkSystem (set_now (now (world s) + d)%N (world s)) (tasks s)).

(** The states the process can be in when it starts from [w0] with no
    caller. *)
Inductive reachable (w0 : World) : system → Prop :=
  | reachable_init : reachable w0 (mkSystem w0 ∅)
  | reachable_step s s' : reachable w0 s → step s s' → reachable w0 s'.

(** Task [tid] holds the lock of the path it spelled [k]. *)
Definition holds (s : system) (tid : nat) (k : list string) : Prop :=
  ∃ id, tasks s !! tid = Some (mkTask k id Holding).

End Blocks.

(** The states in which a caller owns the marker file it created. *)
Definition owner (st : task_state) : bool :=
  match st with
  | Created | Holding | Unlinking => true
  | _ => false
  end.

(** The file the marker of a caller is. *)
Definition marker (t : task) : list string :=
  resolve (lockFileOf (key t)).

(** Every owner has its marker on the disk, and no two owners have the
    same marker file. *)
Definition exclusive (s : system) : Prop :=
  ∀ tid t, tasks s !! tid = Some t → owner (state t) = true →
    Fs.is_file (fs (world s)) (marker t) = true
    ∧ ∀ tid' t', tasks s !! tid' = Some t' → owner (state t') = true →
        marker t' = marker t → tid' = tid.

End Tasks.

(** ** Worlds and clients for the statements below *)

(** The keys of a disk are resolved paths: no entry is named ".", ".."
    or "". *)
Definition canonical_keys (m : gmap (list string) node) : Prop :=
  map_Forall (λ k _, canonical k) m.

Global Instance canonical_keys_dec m : Decision (canonical_keys m).
Proof. unfold canonical_keys. apply _. Defined.

(** The number of entries strictly below [q]. *)
Definition msize (m : gmap (list string) node) (q : list string) : nat :=
  size (filter (λ kv, Fs.below q kv.1) m).

(** The relative paths of the regular files below directory [q]: those
    reached from [q] through directories only. *)
Definition file_below (m : gmap (list string) node) (q rel : list string) : Prop :=
  rel ≠ []
  ∧ (∃ c, m !! (q ++ rel) = Some (File c))
  ∧ ∀ n, 0 < n < length rel → m !! (q ++ take n rel) = Some Dir.

(** A fresh process on an empty disk. *)
Definition empty_world : World := mkWorld ∅ ∅ ∅ ∅ ∅ 0 0 0 [] [].

(** A fresh process on a disk with the given entries. *)
Definition disk (entries : list (list string * node)) : World :=
  mkWorld (list_to_map entries) ∅ ∅ ∅ ∅ 0 0 0 [] [].

(** Two files that differ in their last byte, and two directories with
    the same file names but different contents. *)
Definition sample_disk : World :=
  disk [(["a.txt"], File "old"); (["b.txt"], File "olx");
        (["d1"], Dir); (["d1"; "x"], File "1"); (["d1"; "sub"], Dir);
        (["d1"; "sub"; "y"], File "2");
        (["d2"], Dir); (["d2"; "x"], File "one"); (["d2"; "sub"], Dir);
        (["d2"; "sub"; "y"], File "two")].

(** What a client asks of a transaction. *)
Inductive command : Type :=
  | Write (path : list string) (content : string)
  | Copy (source target : list string).

Definition target (c : command) : list string :=
  match c with
  | Write p _ => p
  | Copy _ t => t
  end.

Definition sources (c : command) : list (list string) :=
  match c with
  | Write _ _ => []
  | Copy s _ => [s]
  end.

Section Client.

Context (win32 : bool) (dev : list string → nat) (entropy : nat → N).

Definition run_command (c : command) : TxM unit :=
  match c with
  | Write p content => write win32 entropy p content
  | Copy s t => copy win32 entropy s t
  end.

(** A client that issues the commands one after the other and goes on
    after a failed one; stopping at the first failure is the case where
    the failed command is the last. *)
Definition run_all (cs : list command) : TxM unit :=
  for_of cs (λ c, try_catch (run_command c) (λ _, mret ())).

End Client.

(** The skeleton that [atomicWrite] and [atomicCopy] share: the
    temporary name, the parent directory, the lock, the guarded work on
    the temporary file, its removal and the release. *)
Definition locked_region (entropy : nat → N) (targetPath : list string)
    (work cleanup : list string → M unit) : M unit :=
  let dir := dirname targetPath in
  suffix ← randomHex entropy 8;
  let tempPath := tempPathOf targetPath suffix in
  withRetry (fs_promises.mkdir dir) ("creating directory " +:+ render dir)
            (length RETRY_DELAYS);;
  unlock ← acquireLock entropy targetPath;
  try_finally (work tempPath)
    (try_finally (ignore_errors (cleanup tempPath)) unlock).

(** The world [w'] is [w] with disk [m'], lock table [L], [k] more
    random draws and the events [evs]; the waiter queues are as in
    [w]. *)
Definition arrives (w w' : World) (m' : gmap (list string) node) (L : gset (list string))
    (k : nat) (evs : list event) : Prop :=
  fs w' = m' ∧ locks w' = L ∧ lockQueue w' = lockQueue w
  ∧ draws w' = draws w + k ∧ trace w' = trace w ++ evs.

(** The names the engine makes up next to a path: lock markers end in
    ".lock", temporary files in ".tmp". *)
Definition private_name (s : string) : Prop :=
  String.list_ascii_of_string ".lock" `suffix_of` String.list_ascii_of_string s
  ∨ String.list_ascii_of_string ".tmp" `suffix_of` String.list_ascii_of_string s.

Global Instance private_name_dec s : Decision (private_name s).
Proof. unfold private_name. apply _. Defined.

(** No entry of the disk is named like a lock marker or a temporary
    file. *)
Definition unmarked (m : gmap (list string) node) : Prop :=
  map_Forall (λ k _, ¬ private_name (basename k)) m.

Global Instance unmarked_dec m : Decision (unmarked m).
Proof. unfold unmarked. apply _. Defined.

(** Where a transaction may be asked to work: its backup root, targets
    and copy sources are resolved paths, none of the targets and sources
    is named like a marker or a temporary file, and none lies in the
    backup root. *)
Definition well_placed (bdir : list string) (paths : list (list string)) : Prop :=
  canonical bdir
  ∧ Forall (λ u, canonical u ∧ ¬ private_name (basename u) ∧ ¬ bdir `prefix_of` u) paths.

Global Instance well_placed_dec bdir paths : Decision (well_placed bdir paths).
Proof. unfold well_placed. apply _. Defined.

(** The name of the backup made with the [i]-th random draw. *)
Definition backup_name (entropy : nat → N) (i : nat) : string :=
  hex 16 (entropy i).

(** The path of that backup: [join(this.backupDir, name)]. *)
Definition backup_path (entropy : nat → N) (bdir : list string) (i : nat) : list string :=
  join bdir (backup_name entropy i).

(** The random draws from the [from]-th on, [count] of them, give
    pairwise different backup names. *)
Definition fresh_names (entropy : nat → N) (from count : nat) : Prop :=
  NoDup (backup_name entropy <$> seq from count).

Global Instance fresh_names_dec entropy from count : Decision (fresh_names entropy from count).
Proof. unfold fresh_names. apply _. Defined.

(** A disk on which a transaction works undisturbed: no lock is held
    and nobody waits; nothing is named like a marker or a temporary
    file; each target has its parent directory and is not a directory
    itself, and no source is a directory; the backup root exists and
    holds nothing but the backup files made since draw [d0]. *)
Definition calm (entropy : nat → N) (bdir : list string)
    (targets srcs : list (list string)) (d0 : nat) (w : World) : Prop :=
  locks w = ∅ ∧ lockQueue w = ∅
  ∧ unmarked (fs w)
  ∧ Forall (λ t, Fs.is_dir (fs w) (dirname t) = true ∧ Fs.node_at (fs w) t ≠ Some Dir) targets
  ∧ Forall (λ s, Fs.node_at (fs w) s ≠ Some Dir) srcs
  ∧ Fs.is_dir (fs w) bdir = true
  ∧ map_Forall (λ k n, Fs.below bdir k →
                       n ≠ Dir ∧ ∃ i, d0 ≤ i < draws w ∧ k = backup_path entropy bdir i)
               (fs w).

Global Instance backup_made_dec (entropy : nat → N) (bdir k : list string) (d0 d : nat) :
  Decision (∃ i, d0 ≤ i < d ∧ k = backup_path entropy bdir i).
Proof.
  refine (cast_if (decide (k ∈ backup_path entropy bdir <$> seq d0 (d - d0))));
    abstract (first
      [ match goal with
        | H : _ ∈ _ |- _ =>
            apply list_elem_of_fmap in H as (i & -> & Hi%elem_of_seq);
            exists i; split; [lia|done]
        end
      | match goal with
        | H : ¬ _ |- _ =>
            intros (i & Hi & ->); apply H, list_elem_of_fmap;
            exists i; split; [done|apply elem_of_seq; lia]
        end ]).
Defined.

Global Instance calm_dec entropy bdir targets srcs d0 w :
  Decision (calm entropy bdir targets srcs d0 w).
Proof. unfold calm. apply _. Defined.

(** The same at the start of a transaction, when the backup root is
    still empty; every part of it can be checked by computation. *)
Definition calm_start (bdir : list string) (targets srcs : list (list string))
    (w : World) : Prop :=
  locks w = ∅ ∧ lockQueue w = ∅
  ∧ unmarked (fs w)
  ∧ Forall (λ t, Fs.is_dir (fs w) (dirname t) = true ∧ Fs.node_at (fs w) t ≠ Some Dir) targets
  ∧ Forall (λ s, Fs.node_at (fs w) s ≠ Some Dir) srcs
  ∧ Fs.is_dir (fs w) bdir = true
  ∧ map_Forall (λ k _, ¬ Fs.below bdir k) (fs w).

Global Instance calm_start_dec bdir targets srcs w : Decision (calm_start bdir targets srcs w).
Proof. unfold calm_start. apply _. Defined.

(** The file-system calls of an uncontended [atomicWrite] and
    [atomicCopy] that succeed at the first attempt, when [d] random
    draws were made before. *)
Definition write_events (win32 : bool) (entropy : nat → N) (p : list string)
    (content : string) (d : nat) : list event :=
  let tp := tempPathOf p (hex 16 (entropy d)) in
  let lf := lockFileOf p in
  [SysMkdir (dirname p); SysWriteFile lf (hex 32 (entropy (S d))) true;
   SysWriteFile tp content false]
  ++ (if win32 then [SysUnlink p] else [])
  ++ [SysRename tp p; SysUnlink tp; SysUnlink lf].

Definition copy_events (win32 : bool) (entropy : nat → N) (s p : list string)
    (preserve : bool) (d : nat) : list event :=
  let tp := tempPathOf p (hex 16 (entropy d)) in
  let lf := lockFileOf p in
  [SysMkdir (dirname p); SysWriteFile lf (hex 32 (entropy (S d))) true;
   SysStat s; SysCopyFile s tp]
  ++ (if preserve then [SysUtimes tp] else [])
  ++ (if win32 then [SysRm p] else [])
  ++ [SysRename tp p; SysRm tp; SysUnlink lf].

(** What a command is expected to record and to leave on a calm disk
    [m], when [d] random draws were made before: a backup record and a
    backup file when the target is a file, then the record and the
    content of the mutation, unless the source of a copy is missing. *)
Definition backup_record (entropy : nat → N) (bdir t : list string)
    (m : gmap (list string) node) (d : nat) : list Op :=
  match Fs.node_at m t with
  | Some (File _) => [mkOp backup_op t (Some (backup_path entropy bdir d))]
  | _ => []
  end.

Definition backed_up (entropy : nat → N) (bdir t : list string)
    (m : gmap (list string) node) (d : nat) : gmap (list string) node :=
  match Fs.node_at m t with
  | Some (File old) => <[backup_path entropy bdir d := File old]> m
  | _ => m
  end.

Definition expected_records (entropy : nat → N) (bdir : list string) (c : command)
    (m : gmap (list string) node) (d : nat) : list Op :=
  backup_record entropy bdir (target c) m d
  ++ match c with
     | Write t _ => [mkOp write_op t None]
     | Copy s t =>
         match Fs.node_at m s with
         | Some (File _) => [mkOp copy_op t None]
         | _ => []
         end
     end.

Definition expected_disk (entropy : nat → N) (bdir : list string) (c : command)
    (m : gmap (list string) node) (d : nat) : gmap (list string) node :=
  let m1 := backed_up entropy bdir (target c) m d in
  match c with
  | Write t content => <[t := File content]> m1
  | Copy s t =>
      match Fs.node_at m s with
      | Some (File content) => <[t := File content]> m1
      | _ => m1
      end
  end.

(** Replaying [added] last to first, from any world with disk [m'] and
    idle locks, ends on disk [m] with the locks idle. *)
Definition undoes (win32 : bool) (dev : list string → nat) (entropy : nat → N)
    (added : list Op) (m' m : gmap (list string) node) : Prop :=
  ∀ w2, fs w2 = m' → locks w2 = ∅ → lockQueue w2 = ∅ →
    ∃ w3, for_of (reverse added) (rollback_step win32 dev entropy) w2 = (inr (), w3)
          ∧ fs w3 = m ∧ locks w3 = ∅ ∧ lockQueue w3 = ∅.

(** A relation between the world before and after a computation holds
    of every run of it. *)
Definition steps {A} (R : relation World) (m : M A) : Prop :=
  ∀ w, R w (m w).2.

(** The computation leaves an observation of the world as it was. *)
Definition keeps {X} (obs : World → X) : relation World :=
  λ w w', obs w' = obs w.

(** The computation only appends events, all of them in [P]. *)
Definition emits (P : event → Prop) : relation World :=
  λ w w', ∃ evs, trace w' = trace w ++ evs ∧ Forall P evs.

(** What holds of the world before the computation holds after it. *)
Definition stays (P : World → Prop) : relation World :=
  λ w w', P w → P w'.

(** The computation appends events, [e] among them. *)
Definition logs (e : event) : relation World :=
  λ w w', ∃ evs, trace w' = trace w ++ evs ∧ e ∈ evs.

(** The events a run appends to the trace. *)
Definition events_since (w w' : World) : list event :=
  drop (length (trace w)) (trace w').

Definition sleeps (evs : list event) : list N :=
  omap (λ e, match e with Sleep ms => Some ms | _ => None end) evs.


(** The record a command appends once its mutation went through. *)
Definition mutation_record (c : command) : Op :=
  match c with
  | Write t _ => mkOp write_op t None
  | Copy _ t => mkOp copy_op t None
  end.

(** What one command adds to the journal of a transaction whose disk
    was [m0] at the start: at most one backup record, into the backup
    root, then at most one mutation record; the backup record is there
    when the target was a file on [m0]. *)
Definition journal_block (bdir : list string) (m0 : gmap (list string) node)
    (c : command) (blk : list Op) : Prop :=
  ∃ bks muts,
    blk = bks ++ muts
    ∧ (bks = [] ∨ ∃ name, bks = [mkOp backup_op (target c) (Some (join bdir name))])
    ∧ (muts = [] ∨ muts = [mutation_record c])
    ∧ (Fs.is_file m0 (target c) = true → bks ≠ []).

(** The events of [acquireLock]: the timers it waits on and the
    attempts to create the marker file. *)
Definition marks (p : list string) (e : event) : Prop :=
  (∃ d, e = Sleep d) ∨ (∃ id, e = SysWriteFile (lockFileOf p) id true).

(** Neither path lies at or below the other. *)
Definition unrelated (a b : list string) : Prop :=
  ¬ a `prefix_of` b ∧ ¬ b `prefix_of` a.

Global Instance unrelated_dec a b : Decision (unrelated a b).
Proof. unfold unrelated. apply _. Defined.

(** The resolved path [k] is out of the way of the engine when it
    works on the path [p]: it is not a directory on the way to [p],
    which [mkdir] could make, and it lies neither at or below [p] nor
    at or below the lock marker and the temporary files of [p]. *)
Definition aloof (k p : list string) : Prop :=
  ¬ k `prefix_of` resolve (dirname p)
  ∧ ¬ resolve p `prefix_of` k
  ∧ ¬ resolve (lockFileOf p) `prefix_of` k
  ∧ ∀ h, ¬ resolve (tempPathOf p h) `prefix_of` k.

(** No segment of the path is named like a lock marker or a temporary
    file. *)
Definition public (q : list string) : Prop :=
  Forall (λ s, ¬ private_name s) q.

Global Instance public_dec q : Decision (public q).
Proof. unfold public. apply _. Defined.

(** The fingerprint [hashFile] computes of what is at a path: none for
    a missing path and for a directory, whose read fails. *)
Definition fingerprint (sha256 : string → string) (m : gmap (list string) node)
    (q : list string) : option string :=
  match Fs.read m q with
  | inr c => Some (sha256 c)
  | inl _ => None
  end.

(** The run appends events to the trace, [e] first. *)
Definition begins (e : event) : relation World :=
  λ w w', ∃ evs, trace w' = trace w ++ e :: evs.

(** The call a step of [rollback] starts with: the removal of the path
    for a write or copy record, the [mkdir] of [atomicMove] for a
    backup record. *)
Definition first_call (op : Op) : option event :=
  match op_type op, op_backup op with
  | backup_op, Some _ => Some (SysMkdir (dirname (op_path op)))
  | backup_op, None => None
  | _, _ => Some (SysRm (op_path op))
  end.

(** The events of the step of [rollback] for a record: they start with
    its first call, and for a write or copy record that call is all. *)
Definition replays (op : Op) (seg : list event) : Prop :=
  head seg = first_call op
  ∧ (op_type op ≠ backup_op → seg = [SysRm (op_path op)]).

(** Whether a path resolves to an entry of the disk: what [backup]
    learns from [fs.access]. *)
Definition present (w : World) (p : list string) : bool :=
  bool_decide (is_Some (Fs.node_at (fs w) (resolve p))).

(** The call of a command that changes its target. *)
Definition mutation (win32 : bool) (entropy : nat → N) (c : command) : M unit :=
  match c with
  | Write t content => atomicWrite win32 entropy t content
  | Copy s t => atomicCopy win32 entropy s t None
  end.

(** What a call adds to the journal, by whether its target was there
    when it was made ([found]), by the number of random draws made
    before, and by whether the call returned: the backup record of a
    target that was found, unless the backup copy failed, and behind it
    the record of the mutation, unless the mutation failed. *)
Definition call_block (entropy : nat → N) (bdir : list string) (c : command)
    (found : bool) (d : nat) (returned : bool) (blk : list Op) : Prop :=
  let saved := mkOp backup_op (target c) (Some (backup_path entropy bdir d)) in
  match found, returned with
  | true, true => blk = [saved; mutation_record c]
  | true, false => blk = [] ∨ blk = [saved]
  | false, true => blk = [mutation_record c]
  | false, false => blk = []
  end.

(** The blocks of the calls of a client that starts in state [s]: each
    call is made in the state the one before has left. *)
Inductive journal_of (win32 : bool) (entropy : nat → N) :
    TransactionLog * World → list command → list (list Op) → Prop :=
  | journal_nil s : journal_of win32 entropy s [] []
  | journal_cons s c cs blk blocks :
      call_block entropy (backupDir s.1) c (present s.2 (target c)) (draws s.2)
        (bool_decide ((run_command win32 entropy c s).1 = inr ())) blk →
      operations (run_command win32 entropy c s).2.1 = operations s.1 ++ blk →
      journal_of win32 entropy (run_command win32 entropy c s).2 cs blocks →
      journal_of win32 entropy s (c :: cs) (blk :: blocks).

(** The number of random draws made before each call of a client: the
    backup of a call is named by the draw that comes next. *)
Fixpoint probes (win32 : bool) (entropy : nat → N) (cs : list command)
    (s : TransactionLog * World) : list nat :=
  match cs with
  | [] => []
  | c :: cs' => draws s.2 :: probes win32 entropy cs' (run_command win32 entropy c s).2
  end.

(** Targets that keep out of each other's way and out of the way of the
    backup root: no segment of a resolved target or of the resolved
    backup root is named like a lock marker or a temporary file; a
    target ends in a real name; a target lies neither in nor above the
    backup root; and two targets are the same path or neither lies in
    the other. *)
Definition separate (bdir : list string) (cs : list command) : Prop :=
  public (resolve bdir)
  ∧ Forall (λ c, plain (basename (target c))
                 ∧ public (resolve (target c))
                 ∧ unrelated (resolve (target c)) (resolve bdir)
                 ∧ Forall (λ c', resolve (target c') = resolve (target c)
                                 ∨ unrelated (resolve (target c)) (resolve (target c'))) cs)
      cs.

Global Instance separate_dec bdir cs : Decision (separate bdir cs).
Proof. unfold separate. apply _. Defined.

(** A project with a lock file of a package manager, a source
    directory and the backup root of a transaction. *)
Definition crowded_disk : World :=
  disk [(["a"], File "old"); (["yarn.lock"], File "pinned");
        (["src"], Dir); (["src"; "main"], File "code");
        (["tmp"], Dir); (["tmp"; "tx"], Dir)].

(** A client that overwrites a file twice, writes into a directory that
    is not there, copies a directory, and fails on a copy whose source
    is missing. *)
Definition mixed_client : list command :=
  [Write ["a"] "new"; Write ["d"; "x"] "fresh"; Copy ["src"] ["e"];
   Copy ["missing"] ["b"]; Write ["."; "a"] "newer"].

(** The backup records of a path in a journal. *)
Definition backups_of (t : list string) (ops : list Op) : list Op :=
  filter (λ op, op_type op = backup_op ∧ op_path op = t) ops.

(** The commands of a client that are addressed to a path. *)
Definition commands_on (t : list string) (cs : list command) : list command :=
  filter (λ c, target c = t) cs.

(** The file-system calls of the mutation of a command that succeeds at
    the first attempt. *)
Definition mutation_events (win32 : bool) (entropy : nat → N) (c : command) (d : nat) :
    list event :=
  match c with
  | Write t content => write_events win32 entropy t content d
  | Copy s t => copy_events win32 entropy s t false d
  end.

(** The calls that read what is on the disk, as a fingerprint or a
    listing has to. *)
Definition is_read (e : event) : bool :=
  match e with
  | SysRead _ | SysReaddir _ => true
  | _ => false
  end.

(** ** Sample environments *)

(** Random bytes that count up, one device, and a project with one file
    next to an initialised backup root. *)
Definition counting : nat → N := N.of_nat.

Definition one_device : list string → nat := λ _, 0.

Definition project_disk : World :=
  disk [(["a"], File "old"); (["tmp"], Dir); (["tmp"; "tx"], Dir)].

(** A client that overwrites a file, fails on a copy whose source is
    missing, creates a file and copies it over the first. *)
Definition sample_client : list command :=
  [Write ["a"] "new"; Copy ["missing"] ["b"]; Write ["c"] "fresh"; Copy ["c"] ["a"]].

(** A client that writes the same file twice. *)
Definition rewriting_client : list command :=
  [Write ["a"] "n1"; Write ["a"] "n2"].

(** A client that writes a file, and then a file in a directory named
    like the lock marker of the first. *)
Definition marker_client : list command :=
  [Write ["a"] "new"; Write ["a.lock"; "x"] "z"].

(** One caller of [acquireLock] on "a", from the call to the moment
    it holds the lock. *)
Definition lone_caller : Tasks.system :=
  Tasks.start counting 0 ["a"] (Tasks.mkSystem empty_world ∅).

Definition lone_creator : Tasks.system :=
  Tasks.advance 0 ["a"] (hex 32 (counting 0))
    (Tasks.marker_io ["a"] (hex 32 (counting 0)) 0) lone_caller.

Definition lone_holder : Tasks.system :=
  Tasks.advance 0 ["a"] (hex 32 (counting 0)) (mret Tasks.Holding) lone_creator.

(** The calls of the release closure of [path] among the events, and
    whether the guarded write to the temporary file was started. *)
Definition releases (path : list string) (evs : list event) : nat :=
  length (filter (λ e, e = SysUnlink (lockFileOf path)) evs).

Definition guarded (tempPath : list string) (content : string) (evs : list event) : bool :=
  bool_decide (SysWriteFile tempPath content false ∈ evs).

(** A disk on which the lock marker of "a" was left behind, and the
    process at the moment a second caller waits for the lock of "a". *)
Definition stale_marker_disk : World :=
  disk [(["a"], File "old"); (["a.lock"], File "stale")].

Definition waiting_world : World :=
  Tasks.world (Tasks.start counting 1 ["a"] lone_holder).

(** The promise a queued function settles. *)
Definition promise_of (f : callback) : nat :=
  match f with
  | Resolve pid | WrappedResolve pid => pid
  end.

(** The records a transaction may hold for paths among [targets]: a
    backup record names a file directly in the backup root, a write or
    copy record names no backup. *)
Definition replayable (bdir : list string) (targets : list (list string)) (op : Op) : Prop :=
  op_path op ∈ targets
  ∧ ((op_type op = backup_op ∧ ∃ name, op_backup op = Some (join bdir name))
     ∨ (op_type op ≠ backup_op ∧ op_backup op = None)).

(** The paths of the write and copy records of a journal. *)
Definition mutated (ops : list Op) : list (list string) :=
  op_path <$> filter (λ op, op_type op ≠ backup_op) ops.

(** The state of a transaction whose backups are gone: no lock is held,
    the backup root does not exist, and every target has its directory
    and is not a directory itself. *)
Definition bereft (bdir : list string) (targets : list (list string)) (w : World) : Prop :=
  locks w = ∅ ∧ lockQueue w = ∅
  ∧ canonical bdir ∧ Fs.node_at (fs w) bdir = None
  ∧ Forall (λ t, canonical t ∧ Fs.is_dir (fs w) (dirname t) = true
                 ∧ Fs.node_at (fs w) t ≠ Some Dir) targets.

(** ** [src/template.ts]: the variables of a template

    A value of a JavaScript object that holds template variables: a
    string, a boolean, [null], or anything else (given by the text
    [String(value)] makes of it).  A key that is missing or holds
    [undefined] has no value.

    A string holds the bytes of its text in UTF-8, a lone surrogate in
    the three bytes of its code.  JavaScript indexes a string by UTF-16
    code units: a code point of one to three bytes is one unit, a code
    point of four bytes is a pair of units. *)

Inductive value : Type :=
  | Null
  | Bool (b : bool)
  | Str (s : string)
  | Other (text : string).

Global Instance value_eq_dec : EqDecision value.
Proof. solve_decision. Defined.

Abbreviation TemplateVariables := (gmap string value).

Definition ALLOWED_TEMPLATE_KEYS : list string :=
  ["PROJECT_NAME"; "PACKAGE_MANAGER"; "RUNTIME"; "TIMESTAMP"; "PROJECT_PATH";
   "VERSION_CONTROL"; "FRAMEWORK"; "PURPOSE"; "PROJECT_IMPORTS"; "GIT_REMOTE_URL";
   "USER_NAME"; "USER_EMAIL"; "HAS_FRAMEWORK"; "HAS_PACKAGE_MANAGER"; "HAS_GIT";
   "INSTALL_COMMAND"; "DEV_COMMAND"; "BUILD_COMMAND"; "TEST_COMMAND"].

Definition MAX_VALUE_LENGTH : nat := 1000.

(** A byte that continues a code point, and the first byte of a code
    point of four bytes. *)
Definition is_continuation (c : Ascii.ascii) : bool :=
  (128 <=? Ascii.nat_of_ascii c) && (Ascii.nat_of_ascii c <? 192).

Definition is_pair (c : Ascii.ascii) : bool :=
  240 <=? Ascii.nat_of_ascii c.

(** [s.length] *)
Fixpoint utf16_length (s : string) : nat :=
  match s with
  | EmptyString => 0
  | String c rest =>
      (if is_continuation c then 0 else if is_pair c then 2 else 1) + utf16_length rest
  end.

(** The first unit of the pair that stands for the code point of the
    four bytes [b0 b1 b2 _], in its three bytes: the high surrogate
    [0xD800 + ((cp - 0x10000) >> 10)]. *)
Definition high_surrogate (b0 b1 b2 : Ascii.ascii) : string :=
  let cp := ((Ascii.N_of_ascii b0 mod 8) * 262144 + (Ascii.N_of_ascii b1 mod 64) * 4096
             + (Ascii.N_of_ascii b2 mod 64) * 64)%N in
  let hi := (55296 + (cp - 65536) / 1024)%N in
  String (Ascii.ascii_of_N 237)
    (String (Ascii.ascii_of_N (128 + (hi / 64) mod 64))
       (String (Ascii.ascii_of_N (128 + hi mod 64)) EmptyString)).

(** [s.slice(0, n)]: the first [n] units.  A cut in the middle of a
    pair leaves its first unit. *)
Fixpoint slice (n : nat) (s : string) : string :=
  match s with
  | EmptyString => EmptyString
  | String c rest =>
      if is_continuation c then String c (slice n rest)
      else
        match n with
        | 0 => EmptyString
        | S n' =>
            if is_pair c then
              match n' with
              | 0 =>
                  match rest with
                  | String b1 (String b2 _) => high_surrogate c b1 b2
                  | _ => EmptyString
                  end
              | S n'' => String c (slice n'' rest)
              end
            else String c (slice n' rest)
        end
  end.

(** [haystack.includes(needle)] *)
Fixpoint includes (needle haystack : string) : bool :=
  String.prefix needle haystack
  || match haystack with
     | EmptyString => false
     | String _ rest => includes needle rest
     end.

(** A regular expression that is a sequence of single characters and
    [\d], anchored at both ends. *)
Inductive char_class : Type :=
  | Digit
  | Char (c : Ascii.ascii).

Definition is_digit (c : Ascii.ascii) : bool :=
  (48 <=? Ascii.nat_of_ascii c) && (Ascii.nat_of_ascii c <=? 57).

Fixpoint matches (pattern : list char_class) (s : string) : bool :=
  match pattern, s with
  | [], EmptyString => true
  | Digit :: pattern', String c rest => is_digit c && matches pattern' rest
  | Char x :: pattern', String c rest => bool_decide (c = x) && matches pattern' rest
  | _, _ => false
  end.

(** [/^\d{4}-\d{2}-\d{2}T\d{2}:\d{2}:\d{2}\.\d{3}Z$/] *)
Definition iso_timestamp : list char_class :=
  [Digit; Digit; Digit; Digit; Char "-"; Digit; Digit; Char "-"; Digit; Digit; Char "T";
   Digit; Digit; Char ":"; Digit; Digit; Char ":"; Digit; Digit; Char ".";
   Digit; Digit; Digit; Char "Z"]%char.

(** The [switch] of [validateTemplateVariables]: whether the entry is
    assigned to [validated]. *)
Definition accepted (key : string) (v : value) : bool :=
  if bool_decide (key = "TIMESTAMP") then
    match v with Str s => matches iso_timestamp s | _ => false end
  else if bool_decide (key = "USER_EMAIL") then
    match v with Str s => includes "@" s && (utf16_length s <? 100) | _ => false end
  else if bool_decide (key ∈ ["HAS_FRAMEWORK"; "HAS_PACKAGE_MANAGER"; "HAS_GIT"]) then
    match v with Bool _ => true | _ => false end
  else if bool_decide (key ∈ ["PROJECT_NAME"; "PACKAGE_MANAGER"; "RUNTIME";
                              "VERSION_CONTROL"; "FRAMEWORK"]) then
    match v with Str s => utf16_length s <? MAX_VALUE_LENGTH | _ => false end
  else if bool_decide (key ∈ ["GIT_REMOTE_URL"; "USER_NAME"; "PROJECT_PATH"; "PURPOSE";
                              "PROJECT_IMPORTS"; "INSTALL_COMMAND"; "DEV_COMMAND";
                              "BUILD_COMMAND"; "TEST_COMMAND"]) then
    match v with Str s => utf16_length s <? MAX_VALUE_LENGTH | _ => false end
  else false.

(** The body of the loop over [Object.entries(variables)]. *)
Definition validate_entry (validated : TemplateVariables) (entry : string * value)
    : TemplateVariables :=
  if negb (bool_decide (entry.1 ∈ ALLOWED_TEMPLATE_KEYS)) then validated
  else if accepted entry.1 entry.2 then <[entry.1 := entry.2]> validated
  else validated.

Definition validateTemplateVariables (variables : TemplateVariables) : TemplateVariables :=
  let validated : TemplateVariables :=
    list_to_map [("PROJECT_NAME", Str ""); ("PACKAGE_MANAGER", Str ""); ("RUNTIME", Str "");
                 ("TIMESTAMP", Str ""); ("VERSION_CONTROL", Str ""); ("FRAMEWORK", Str "")] in
  foldl validate_entry validated (map_to_list variables).

(** [/[\x00-\x08\x0B\x0C\x0E-\x1F\x7F]/] *)
Definition is_control (c : Ascii.ascii) : bool :=
  let n := Ascii.nat_of_ascii c in
  (n <=? 8) || (n =? 11) || (n =? 12) || ((14 <=? n) && (n <=? 31)) || (n =? 127).

(** [s.replace(/[class]/g, replacement)] for a class of single
    characters. *)
Fixpoint replace_class (class : Ascii.ascii → bool) (replacement s : string) : string :=
  match s with
  | EmptyString => EmptyString
  | String c rest =>
      if class c then replacement +:+ replace_class class replacement rest
      else String c (replace_class class replacement rest)
  end.

(** [s.replace(/ab/g, replacement)] for two literal characters: the
    matches are found from left to right and do not overlap. *)
Fixpoint replace_pair (a b : Ascii.ascii) (replacement s : string) : string :=
  match s with
  | EmptyString => EmptyString
  | String x tail =>
      match tail with
      | EmptyString => String x EmptyString
      | String y rest =>
          if bool_decide (x = a ∧ y = b) then replacement +:+ replace_pair a b replacement rest
          else String x (replace_pair a b replacement tail)
      end
  end.

Definition sanitizeValue (v : option value) : string :=
  match v with
  | None | Some Null => ""
  | Some (Bool b) => if b then "true" else ""
  | Some (Other text) => slice MAX_VALUE_LENGTH text
  | Some (Str s) =>
      replace_pair "}" "}" "\}\}"
        (replace_pair "{" "{" "\{\{"
           (replace_class (λ c, bool_decide (c = "\"%char)) "\\"
              (replace_class is_control "" (slice MAX_VALUE_LENGTH s))))
  end.

(** ** [src/utils.ts] and the rest of [src/files.ts] *)

(** [exists] of [src/utils.ts]:
    [stat(path).then(() => true).catch(() => false)] *)
Definition exists_ (path : list string) : M bool :=
  succeeds (fs_promises.stat path).

(** [path.resolve(p)], the string the path check compares: the resolved
    segments, each behind a "/", and "/" alone for the root.  Paths
    start at the root of the disk, as the file-system calls take
    them. *)
Definition path_resolve (p : list string) : string :=
  "/" +:+ String.concat "/" (resolve p).

Definition path_traversal (targetPath projectPath : list string) : error :=
  Error ("SECURITY: Path traversal attempt blocked" +:+ newline
         +:+ "Target: " +:+ render targetPath +:+ newline
         +:+ "Project: " +:+ render projectPath +:+ newline
         +:+ "Action: Ensure all paths are within project directory") None.

Definition validatePathSecurity (targetPath projectPath : list string) : M unit :=
  let resolvedTarget := path_resolve targetPath in
  let resolvedProject := path_resolve projectPath in
  if negb (String.prefix resolvedProject resolvedTarget)
  then throw (path_traversal targetPath projectPath)
  else mret ().

(** A result of a function that may throw, as a computation. *)
Definition outcome {S A} (r : error + A) : ST S A :=
  match r with
  | inl e => throw e
  | inr a => mret a
  end.

(** A transaction log is an object local to its caller: the
    computation runs on it, and the object is dropped at the end. *)
Definition with_tx {A} (tx : TransactionLog) (m : TxM A) : M A := λ w,
  let r := m (tx, w) in (r.1, r.2.2).

(** [a || b] on an optional path: the empty string is falsy. *)
Definition or_else (a : option (list string)) (b : M (list string)) : M (list string) :=
  match a with
  | Some (s :: r) => mret (s :: r)
  | _ => b
  end.

Section Skeleton.

(** The environment of the engine, the digest function, the path of the
    running module, the rendering of a clock value by
    [Date.prototype.toISOString], [renderTemplate] of
    [src/template.ts], and the three methods of the logger that are
    called (each with its message). *)
Context (win32 : bool)
        (dev : list string → nat)
        (tmpdir : list string)
        (entropy : nat → N)
        (sha256 : string → string)
        (moduleFile : list string)
        (toISOString : N → string)
        (renderTemplate : string → TemplateVariables → error + string)
        (logger_debug logger_info logger_error : string → M unit).

Definition getSourceDir : list string :=
  join (join (dirname moduleFile) "..") "skel".

Definition createBackupDir (projectPath : list string) : M (list string) :=
  w ← get;
  let timestamp :=
    replace_class (λ c, bool_decide (c = ":" ∨ c = "."))%char "-" (toISOString (now w)) in
  let backupDir := join projectPath (".create-codex-backup-" +:+ timestamp) in
  withRetry (fs_promises.mkdir backupDir) "Creating backup directory" (length RETRY_DELAYS);;
  mret backupDir.

(** [content.includes('{{') ? renderTemplate(content, validatedVars) : content] *)
Definition process (content : string) (validatedVars : TemplateVariables) : error + string :=
  if includes "{{" content then renderTemplate content validatedVars else inr content.

Definition copyCodexDirectory (projectPath : list string) (variables : TemplateVariables)
    (sharedBackupDir : option (list string)) : M (nat * option (list string)) :=
  let targetDir := join projectPath ".codex" in
  let sourceDir := join getSourceDir ".codex" in
  present ← exists_ sourceDir;
  if negb present then
    logger_debug ".codex directory not found in skel, skipping";;
    mret (0, sharedBackupDir)
  else
    validatePathSecurity targetDir projectPath;;
    tx ← TransactionLog_new tmpdir entropy;
    with_tx tx
      (init;;
       try_catch
         (liftW (logger_info "Starting .codex directory copy");;
          present ← liftW (exists_ targetDir);
          backupDir ←
            (if (present : bool) then
               backupDir ← liftW (or_else sharedBackupDir (createBackupDir projectPath));
               let backupPath := join backupDir ".codex" in
               liftW (logger_info "Backing up existing .codex directory");;
               copy win32 entropy targetDir backupPath;;
               liftW (verifyBackup sha256 targetDir backupPath);;
               mret (Some backupDir)
             else mret sharedBackupDir);
          files ← liftW (getAllFiles sourceDir);
          let validatedVars := validateTemplateVariables variables in
          for_of files (λ file,
            let sourcePath := sourceDir ++ file in
            let targetPath := targetDir ++ file in
            content ← liftW (fs_promises.read sourcePath);
            processed ← outcome (process content validatedVars);
            write win32 entropy targetPath processed);;
          commit;;
          liftW (logger_info ".codex directory copy completed");;
          mret (length files, backupDir))
         (λ error,
            liftW (logger_error "Failed to copy .codex directory, rolling back");;
            rollback win32 dev entropy;;
            throw error)).

Definition copyAdditionalFiles (projectPath : list string) (variables : TemplateVariables)
    (sharedBackupDir : option (list string)) : M nat :=
  let files := ["AGENTS.md"] in
  let sourceDir := getSourceDir in
  tx ← TransactionLog_new tmpdir entropy;
  with_tx tx
    (init;;
     try_catch
       (liftW (logger_info "Copying additional files");;
        let validatedVars := validateTemplateVariables variables in
        state ← for_fold files (sharedBackupDir, 0)
          (λ state fileName,
             let sourcePath := join sourceDir fileName in
             let targetPath := join projectPath fileName in
             liftW (validatePathSecurity targetPath projectPath);;
             present ← liftW (exists_ targetPath);
             backupDir ←
               (if (present : bool) then
                  backupDir ← liftW (or_else state.1 (createBackupDir projectPath));
                  let backupPath := join backupDir fileName in
                  liftW (logger_info ("Backing up existing " +:+ fileName));;
                  copy win32 entropy targetPath backupPath;;
                  liftW (verifyBackup sha256 targetPath backupPath);;
                  mret (Some backupDir)
                else mret state.1);
             content ← liftW (fs_promises.read sourcePath);
             processed ← outcome (process content validatedVars);
             write win32 entropy targetPath processed;;
             mret (backupDir, S state.2));
        commit;;
        liftW (logger_info "Additional files copy completed");;
        mret state.2)
       (λ error,
          liftW (logger_error "Failed to copy additional files, rolling back");;
          rollback win32 dev entropy;;
          throw error)).

End Skeleton.

(** A disk that is a tree: the parent of every entry is a directory. *)
Definition tree (m : gmap (list string) node) : Prop :=
  map_Forall (λ k _, Fs.is_dir m (dirname k) = true) m.

Global Instance tree_dec m : Decision (tree m).
Proof. unfold tree. apply _. Defined.

(** No lock is held and nobody waits for one. *)
Definition idle (w : World) : Prop := locks w = ∅ ∧ lockQueue w = ∅.

Global Instance idle_dec w : Decision (idle w).
Proof. unfold idle. apply _. Defined.

(** A logger that returns without a trace in the world. *)
Definition mute (logger : string → M unit) : Prop :=
  ∀ msg w, logger msg w = (inr (), w).

(** The directory [createBackupDir] makes at clock value [t], and the
    backup root of a transaction log made at clock value [t] with the
    [d]-th random draw. *)
Definition dashed (s : string) : string :=
  replace_class (λ c, bool_decide (c = ":" ∨ c = "."))%char "-" s.

Definition user_backup_dir (toISOString : N → string) (projectPath : list string) (t : N)
    : list string :=
  join projectPath (".create-codex-backup-" +:+ dashed (toISOString t)).

Definition tx_dir (tmpdir : list string) (entropy : nat → N) (t : N) (d : nat) : list string :=
  join tmpdir (".create-codex-tx-" +:+ pretty t +:+ "-" +:+ hex 8 (entropy d)).

(** ** Sample environments of the copy

    A logger that does nothing, renderers that return a fixed text or
    throw, a clock rendering, and two disks with the package installed
    under "pkg": one with a project that has an AGENTS.md, one with a
    project that has none. *)
Definition silent_logger : string → M unit := λ _, mret ().

Definition fixed_render (text : string) : string → TemplateVariables → error + string :=
  λ _ _, inr text.

Definition failing_render : string → TemplateVariables → error + string :=
  λ _ _, inl (Error "Template rendering exceeded maximum iterations - possible infinite loop"
                None).

Definition sample_clock : N → string := λ _, "2026-01-02T03:04:05.678Z".

Definition installed_module : list string := ["pkg"; "dist"; "files.js"].

Definition used_project : World :=
  disk [(["tmp"], Dir); (["pkg"], Dir); (["pkg"; "skel"], Dir);
        (["pkg"; "skel"; "AGENTS.md"], File "# {{PROJECT_NAME}}");
        (["app"], Dir); (["app"; "AGENTS.md"], File "old")].

Definition fresh_project : World :=
  disk [(["tmp"], Dir); (["pkg"], Dir); (["pkg"; "skel"], Dir);
        (["pkg"; "skel"; "AGENTS.md"], File "# {{PROJECT_NAME}}");
        (["app"], Dir)].

Definition bare_project : World :=
  disk [(["tmp"], Dir); (["pkg"], Dir); (["app"], Dir)].

(** * Properties *)

(** ** Strings and paths *)

Lemma list_ascii_of_string_app (a b : string) :
  String.list_ascii_of_string (a +:+ b)
  = String.list_ascii_of_string a ++ String.list_ascii_of_string b.
Proof. induction a as [|c a IH]; simpl; [done|]. by rewrite IH. Qed.

Lemma string_app_length (a b : string) :
  String.length (a +:+ b) = String.length a + String.length b.
Proof. induction a as [|c a IH]; simpl; [done|]. by rewrite IH. Qed.

Lemma string_app_inv_tail (a b s : string) : a +:+ s = b +:+ s → a = b.
Proof.
  intros H. apply (f_equal String.list_ascii_of_string) in H.
  rewrite !list_ascii_of_string_app in H. apply app_inv_tail in H.
  rewrite <- (String.string_of_list_ascii_of_string a),
          <- (String.string_of_list_ascii_of_string b). by rewrite H.
Qed.

Lemma plain_long (s : string) : (3 ≤ String.length s)%nat → plain s.
Proof.
  intros H. repeat split; intros ->; simpl in H; lia.
Qed.

Lemma plain_lock (b : string) : plain (b +:+ ".lock").
Proof. apply plain_long. rewrite string_app_length. simpl. lia. Qed.

Lemma plain_temp (b h : string) : plain ("." +:+ b +:+ "." +:+ h +:+ ".tmp").
Proof. apply plain_long. rewrite !string_app_length. simpl. lia. Qed.

Lemma lock_not_temp (b b' h : string) :
  b +:+ ".lock" ≠ "." +:+ b' +:+ "." +:+ h +:+ ".tmp".
Proof.
  intros H. apply (f_equal String.list_ascii_of_string) in H.
  rewrite !list_ascii_of_string_app in H.
  apply (f_equal (@last Ascii.ascii)) in H.
  rewrite !app_assoc in H.
  rewrite !last_app in H. simpl in H.
  discriminate.
Qed.

Lemma dirname_snoc (p : list string) (s : string) : dirname (p ++ [s]) = p.
Proof.
  unfold dirname. rewrite length_app. simpl.
  replace (length p + 1 - 1) with (length p) by lia. by rewrite take_app_length.
Qed.

Lemma basename_snoc (p : list string) (s : string) : basename (p ++ [s]) = s.
Proof. unfold basename. by rewrite last_snoc. Qed.

Lemma dirname_basename (p : list string) : p ≠ [] → dirname p ++ [basename p] = p.
Proof.
  destruct p as [|x p] using rev_ind; [done|]. intros _.
  by rewrite dirname_snoc, basename_snoc.
Qed.

Lemma dirname_prefix (p : list string) : dirname p `prefix_of` p.
Proof. unfold dirname. apply prefix_take. Qed.

Lemma resolve_snoc_plain (p : list string) (s : string) :
  plain s → resolve (p ++ [s]) = resolve p ++ [s].
Proof.
  intros (H1 & H2 & H3). unfold resolve. rewrite foldl_snoc. unfold resolve_step at 1.
  rewrite bool_decide_false by (intros [?|?]; congruence).
  by rewrite bool_decide_false by congruence.
Qed.

Lemma resolve_canonical (p : list string) : canonical p → resolve p = p.
Proof.
  induction p as [|s p IH] using rev_ind; [done|].
  intros H. apply Forall_app in H as [Hp Hs]. rewrite Forall_singleton in Hs.
  rewrite resolve_snoc_plain by done. by rewrite IH.
Qed.

Lemma canonical_resolve (p : list string) : canonical (resolve p).
Proof.
  induction p as [|s p IH] using rev_ind; [by constructor|].
  unfold resolve. rewrite foldl_snoc. fold (resolve p). unfold resolve_step.
  repeat case_bool_decide.
  - done.
  - unfold dirname. by apply Forall_take.
  - apply Forall_app. split; [done|]. apply Forall_singleton.
    repeat split; naive_solver.
Qed.

Lemma canonical_dirname (p : list string) : canonical p → canonical (dirname p).
Proof. unfold dirname. apply Forall_take. Qed.

Lemma canonical_snoc (p : list string) (s : string) :
  canonical p → plain s → canonical (p ++ [s]).
Proof. intros. apply Forall_app. split; [done|]. by apply Forall_singleton. Qed.

Lemma dirname_lockFileOf (p : list string) : dirname (lockFileOf p) = dirname p.
Proof. unfold lockFileOf. apply dirname_snoc. Qed.

Lemma dirname_tempPathOf (p : list string) (h : string) :
  dirname (tempPathOf p h) = dirname p.
Proof. unfold tempPathOf, join. apply dirname_snoc. Qed.

Lemma canonical_lockFileOf (p : list string) : canonical p → canonical (lockFileOf p).
Proof.
  intros. apply canonical_snoc; [by apply canonical_dirname|apply plain_lock].
Qed.

Lemma canonical_tempPathOf (p : list string) (h : string) :
  canonical p → canonical (tempPathOf p h).
Proof.
  intros. apply canonical_snoc; [by apply canonical_dirname|apply plain_temp].
Qed.

Lemma resolve_lockFileOf (p : list string) :
  resolve (lockFileOf p) = resolve (dirname p) ++ [basename p +:+ ".lock"].
Proof. apply resolve_snoc_plain, plain_lock. Qed.

Lemma resolve_tempPathOf (p : list string) (h : string) :
  resolve (tempPathOf p h)
  = resolve (dirname p) ++ ["." +:+ basename p +:+ "." +:+ h +:+ ".tmp"].
Proof. apply resolve_snoc_plain, plain_temp. Qed.

Lemma lockFileOf_ne_tempPathOf (p p' : list string) (h : string) :
  resolve (lockFileOf p) ≠ resolve (tempPathOf p' h).
Proof.
  rewrite resolve_lockFileOf, resolve_tempPathOf. intros H.
  apply app_inj_tail in H as [_ H]. by apply lock_not_temp in H.
Qed.

Lemma lockFileOf_ne (p : list string) : lockFileOf p ≠ p.
Proof.
  unfold lockFileOf. destruct (decide (p = [])) as [->|Hp]; [done|].
  rewrite <- (dirname_basename p) at 3 by done.
  intros H. apply app_inj_tail in H as [_ H].
  apply (f_equal String.length) in H. rewrite string_app_length in H. simpl in H. lia.
Qed.

Lemma tempPathOf_ne (p : list string) (h : string) : tempPathOf p h ≠ p.
Proof.
  unfold tempPathOf, join. destruct (decide (p = [])) as [->|Hp]; [done|].
  rewrite <- (dirname_basename p) at 3 by done.
  intros H. apply app_inj_tail in H as [_ H].
  apply (f_equal String.length) in H. rewrite !string_app_length in H. simpl in H. lia.
Qed.

Lemma lockFileOf_ne_tempPathOf_spelled (p p' : list string) (h : string) :
  lockFileOf p ≠ tempPathOf p' h.
Proof.
  unfold lockFileOf, tempPathOf, join. intros H.
  apply app_inj_tail in H as [_ H]. by apply lock_not_temp in H.
Qed.

(** ** Running computations *)

Lemma bind_run {S A B} (m : ST S A) (f : A → ST S B) (s : S) :
  (m ≫= f) s = match m s with
               | (inr a, s') => f a s'
               | (inl e, s') => (inl e, s')
               end.
Proof. reflexivity. Qed.

Lemma bind_ok {S A B} (m : ST S A) (f : A → ST S B) (s s' : S) (a : A) :
  m s = (inr a, s') → (m ≫= f) s = f a s'.
Proof. intros H. by rewrite bind_run, H. Qed.

Lemma bind_err {S A B} (m : ST S A) (f : A → ST S B) (s s' : S) (e : error) :
  m s = (inl e, s') → (m ≫= f) s = (inl e, s').
Proof. intros H. by rewrite bind_run, H. Qed.

Lemma try_catch_ok {S A} (m : ST S A) (h : error → ST S A) (s s' : S) (a : A) :
  m s = (inr a, s') → try_catch m h s = (inr a, s').
Proof. intros H. unfold try_catch. by rewrite H. Qed.

Lemma try_catch_err {S A} (m : ST S A) (h : error → ST S A) (s s' : S) (e : error) :
  m s = (inl e, s') → try_catch m h s = h e s'.
Proof. intros H. unfold try_catch. by rewrite H. Qed.

Lemma liftW_run {A} (m : M A) (tx : TransactionLog) (w : World) :
  liftW m (tx, w) = ((m w).1, (tx, (m w).2)).
Proof. unfold liftW. simpl. by destruct (m w). Qed.

(** ** The retry executor ([withRetry]) *)

Lemma retry_delay_schedule :
  retry_delay <$> seq 0 5 = [100; 500; 1000; 2000; 5000]%N.
Proof. reflexivity. Qed.

Lemma retry_delay_clamped (i : nat) : 4 ≤ i → retry_delay i = 5000%N.
Proof.
  intros H. unfold retry_delay. simpl length.
  replace (i `min` (5 - 1)) with 4 by lia. reflexivity.
Qed.

(** An operation that succeeds at once is run once, with no wait. *)
Lemma withRetry_first_success {T} (op : M T) (ctx : string) (n : nat) (w w' : World) (v : T) :
  op w = (inr v, w') → withRetry op ctx n w = (inr v, w').
Proof.
  intros H. unfold withRetry. rewrite bind_run.
  destruct n; simpl; unfold try_catch; by rewrite bind_run, H.
Qed.

(** A permanent error ends the loop without another attempt, but only
    after the wait of the iteration. *)
Lemma withRetry_permanent {T} (op : M T) (ctx : string) (n : nat) (w w1 : World) (e : error) :
  op w = (inl e, w1) → is_permanent e = true →
  withRetry op ctx (S n) w
  = (inl (retry_error ctx (S n) e),
     set_now (now w1 + 100)%N (log (Sleep 100) w1)).
Proof.
  intros H Hp. unfold withRetry. rewrite bind_run. simpl.
  unfold try_catch. rewrite bind_run, H. rewrite bind_run. simpl. by rewrite Hp.
Qed.

(** When the last iteration fails, the loop ends without a wait. *)
Lemma withRetry_zero {T} (op : M T) (ctx : string) (w w1 : World) (e : error) :
  op w = (inl e, w1) → withRetry op ctx 0 w = (inl (retry_error ctx 0 e), w1).
Proof.
  intros H. unfold withRetry. rewrite bind_run. simpl.
  unfold try_catch. by rewrite bind_run, H.
Qed.

Lemma retry_loop_transient {T} (op : M T) (e : error) (ev : event) (n : nat) :
  is_permanent e = false →
  (∀ w, op w = (inl e, log ev w)) →
  ∀ i w, ∃ w',
    retry_loop op n i w = (inr (inl e), w')
    ∧ trace w' = trace w ++ concat ((λ k, [ev; Sleep (retry_delay k)]) <$> seq i n) ++ [ev].
Proof.
  intros Hp Hop. induction n as [|n IH]; intros i w.
  - simpl. unfold try_catch. rewrite bind_run, Hop. simpl. eexists; split; [reflexivity|]. done.
  - simpl. unfold try_catch. rewrite bind_run, Hop. rewrite bind_run. simpl. rewrite Hp.
    destruct (IH (S i) (set_now (now (log ev w) + retry_delay i)
       (log (Sleep (retry_delay i)) (log ev w)))) as (w' & Hr & Ht).
    exists w'. split; [exact Hr|]. rewrite Ht. simpl. rewrite <- !app_assoc. done.
Qed.

(** An operation that keeps failing with a transient error is run
    [maxRetries + 1] times, with the waits of the schedule in between,
    and the error raised names the context and the last cause. *)
Lemma withRetry_transient_exhausts {T} (op : M T) (e : error) (ev : event)
    (ctx : string) (n : nat) (w : World) :
  is_permanent e = false →
  (∀ w, op w = (inl e, log ev w)) →
  ∃ w', withRetry op ctx n w = (inl (retry_error ctx n e), w')
        ∧ events_since w w'
          = concat ((λ k, [ev; Sleep (retry_delay k)]) <$> seq 0 n) ++ [ev].
Proof.
  intros Hp Hop. destruct (retry_loop_transient op e ev n Hp Hop 0 w) as (w' & Hr & Ht).
  exists w'. split.
  - unfold withRetry. by rewrite bind_run, Hr.
  - unfold events_since. rewrite Ht. by rewrite drop_app_length.
Qed.

(** C5 (the code at the failing input): [stat] of a missing file fails
    with ENOENT, a permanent error.  [withRetry] makes no second
    attempt, but it raises its error only after the first wait of the
    schedule, 100 ms: the trace holds the one call followed by the
    timer. *)
Example withRetry_permanent_error_waits :
  let r := withRetry (fs_promises.stat ["missing.txt"]) "reading" 5 empty_world in
  r.1 = inl (Error "reading failed after 5 retries: ENOENT: stat" None)
  ∧ trace r.2 = [SysStat ["missing.txt"]; Sleep 100]
  ∧ now r.2 = 100%N.
Proof. vm_compute. done. Qed.

(** ** The transaction log: records and replay order *)

Section TxLog.

Context (win32 : bool) (dev : list string → nat) (entropy : nat → N).

Lemma rollback_step_total (op : Op) (w : World) :
  ∃ w', rollback_step win32 dev entropy op w = (inr (), w').
Proof.
  unfold rollback_step. destruct (op_type op), (op_backup op) as [b|];
    unfold try_catch;
    try (match goal with |- context [match ?m w with _ => _ end] =>
           destruct (m w) as [[e|[]] w1] end);
    eauto.
Qed.

Lemma for_of_rollback_total (ops : list Op) (tx : TransactionLog) (w : World) :
  ∃ w', for_of ops (λ op, liftW (rollback_step win32 dev entropy op)) (tx, w)
        = (inr (), (tx, w')).
Proof.
  revert w. induction ops as [|op ops IH]; intros w; simpl; [by eexists|].
  destruct (rollback_step_total op w) as (w1 & H1).
  rewrite bind_run, liftW_run, H1. simpl. apply IH.
Qed.

(** C9: for a path that does not exist, [backup] does nothing but probe
    it: no copy, no record, the disk (and so the backup root) as it
    was; [write] then records a single [write] entry, which is the one
    [rollback] answers by deleting the path. *)
Theorem backup_missing_path_noop (tx : TransactionLog) (w : World)
    (path : list string) (content : string) :
  Fs.node_at (fs w) (resolve path) = None →
  backup win32 entropy path (tx, w) = (inr (), (tx, log (SysAccess path) w))
  ∧ (∀ w', atomicWrite win32 entropy path content (log (SysAccess path) w) = (inr (), w') →
       write win32 entropy path content (tx, w)
       = (inr (), (mkTx (operations tx ++ [mkOp write_op path None]) (backupDir tx), w')))
  ∧ rollback_step win32 dev entropy (mkOp write_op path None)
    = try_catch (fs_promises.rm path) (λ _, mret ()).
Proof.
  intros Hnone.
  assert (Hb : backup win32 entropy path (tx, w) = (inr (), (tx, log (SysAccess path) w))).
  { unfold backup. rewrite bind_run, liftW_run. unfold succeeds, try_catch.
    rewrite bind_run. unfold fs_promises.access. rewrite bind_run.
    unfold sysread, Fs.stat. rewrite Hnone. reflexivity. }
  split_and!; [exact Hb| |reflexivity].
  intros w' Hw. unfold write. rewrite bind_run, Hb.
  rewrite bind_run, liftW_run, Hw. reflexivity.
Qed.

End TxLog.

Lemma backup_missing_path_noop_witness :
  Fs.node_at (fs empty_world) (resolve ["new.txt"]) = None
  ∧ backup false (λ k, N.of_nat k) ["new.txt"] (mkTx [] ["tmp"; "tx"], empty_world)
    = (inr (), (mkTx [] ["tmp"; "tx"], log (SysAccess ["new.txt"]) empty_world)).
Proof.
  split; [reflexivity|].
  apply (backup_missing_path_noop false (λ _, 0) (λ k, N.of_nat k)
           (mkTx [] ["tmp"; "tx"]) empty_world ["new.txt"] "hello").
  reflexivity.
Defined.

(** ** The backup verifier *)

Lemma node_at_nonroot (m : gmap (list string) node) (q : list string) :
  q ≠ [] → Fs.node_at m q = m !! q.
Proof. by destruct q. Qed.

Lemma node_at_snoc (m : gmap (list string) node) (q : list string) (s : string) :
  Fs.node_at m (q ++ [s]) = m !! (q ++ [s]).
Proof. apply node_at_nonroot. by destruct q. Qed.

Lemma child_key (q k : list string) :
  k ≠ [] ∧ dirname k = q ↔ k = q ++ [basename k] ∧ k ≠ [].
Proof.
  split.
  - intros [Hk <-]. by rewrite dirname_basename.
  - intros [Hk Hne]. split; [done|]. rewrite Hk. by rewrite dirname_snoc.
Qed.

Lemma readdir_elem (m : gmap (list string) node) (q : list string) (L : list (string * node))
    (name : string) (n : node) :
  Fs.readdir m q = inr L → (name, n) ∈ L ↔ m !! (q ++ [name]) = Some n.
Proof.
  unfold Fs.readdir. destruct (Fs.node_at m q) as [[c|]|]; try done.
  intros [= <-]. rewrite list_elem_of_omap. split.
  - intros ([k v] & Hin & Hf). simpl in Hf. case_bool_decide as Hk; [|done].
    injection Hf as <- <-. apply elem_of_map_to_list in Hin.
    apply child_key in Hk as [Hk _]. by rewrite <- Hk.
  - intros Hm. exists (q ++ [name], n). split; [by apply elem_of_map_to_list|].
    simpl. rewrite bool_decide_true.
    + by rewrite basename_snoc.
    + split; [by destruct q|apply dirname_snoc].
Qed.

Lemma readdir_NoDup (m : gmap (list string) node) (q : list string) (L : list (string * node)) :
  Fs.readdir m q = inr L → NoDup L.*1.
Proof.
  unfold Fs.readdir. destruct (Fs.node_at m q) as [[c|]|]; try done.
  intros [= <-].
  pose proof (NoDup_fst_map_to_list m) as Hnd.
  induction (map_to_list m) as [|[k v] l IH]; simpl; [constructor|].
  apply NoDup_cons in Hnd as [Hk Hnd]. specialize (IH Hnd).
  case_bool_decide as Hc; [|done]. simpl. apply NoDup_cons. split; [|done].
  intros Hin. apply Hk. apply list_elem_of_fmap in Hin as ([name n] & Hname & Hin).
  simpl in Hname. apply list_elem_of_omap in Hin as ([k' v'] & Hin' & Hf).
  simpl in Hf. case_bool_decide as Hc'; [|done]. injection Hf as Hb <-.
  apply child_key in Hc as [Hc _]. apply child_key in Hc' as [Hc' _].
  assert (k = k') as -> by (rewrite Hc, Hc'; congruence).
  apply list_elem_of_fmap. by exists (k', v').
Qed.

Lemma msize_le (m : gmap (list string) node) (q : list string) : msize m q ≤ size m.
Proof. apply map_subseteq_size, map_filter_subseteq. Qed.

Lemma msize_child (m : gmap (list string) node) (q : list string) (s : string) (n : node) :
  m !! (q ++ [s]) = Some n → msize m (q ++ [s]) < msize m q.
Proof.
  intros Hm. apply map_subset_size. split.
  - apply map_subseteq_spec. intros k v [Hk Hb]%map_lookup_filter_Some.
    apply map_lookup_filter_Some. split; [done|]. simpl in *.
    destruct Hb as [Hp Hne]. split.
    + etrans; [|exact Hp]. by apply prefix_app_r.
    + intros ->. apply prefix_length in Hp. rewrite length_app in Hp. simpl in Hp. lia.
  - intros Hsub. rewrite map_subseteq_spec in Hsub.
    specialize (Hsub (q ++ [s]) n).
    rewrite !map_lookup_filter_Some in Hsub. simpl in Hsub.
    destruct Hsub as [_ [_ Hne]]; [|done].
    split; [done|]. split; [by apply prefix_app_r|].
    intros Heq. apply (f_equal length) in Heq. rewrite length_app in Heq. simpl in Heq. lia.
Qed.

Lemma file_below_file (m : gmap (list string) node) (q : list string) (s : string)
    (c : string) (rel : list string) :
  m !! (q ++ [s]) = Some (File c) → file_below m q (s :: rel) ↔ rel = [].
Proof.
  intros Hm. split.
  - intros (_ & _ & Hd). destruct rel as [|r rel]; [done|].
    specialize (Hd 1). simpl in Hd. rewrite Hm in Hd. discriminate Hd. lia.
  - intros ->. split_and!; [done|by exists c|]. intros n. simpl. lia.
Qed.

Lemma file_below_dir (m : gmap (list string) node) (q : list string) (s : string)
    (rel : list string) :
  m !! (q ++ [s]) = Some Dir → file_below m q (s :: rel) ↔ file_below m (q ++ [s]) rel.
Proof.
  intros Hm. split.
  - intros (_ & [c Hc] & Hd). split_and!.
    + intros ->. rewrite Hm in Hc. discriminate.
    + exists c. by rewrite <- app_assoc.
    + intros n Hn. rewrite <- app_assoc. apply (Hd (S n)). simpl. lia.
  - intros (Hne & [c Hc] & Hd). split_and!; [done| |].
    + exists c. by rewrite <- app_assoc in Hc.
    + intros n Hn. destruct n as [|n]; [lia|]. simpl.
      destruct n as [|n].
      * by rewrite take_0.
      * change (s :: take (S n) rel) with ([s] ++ take (S n) rel).
        rewrite app_assoc. apply Hd. simpl in Hn. lia.
Qed.

Lemma readdir_run (cur : list string) (w : World) (L : list (string * node)) :
  Fs.readdir (fs w) (resolve cur) = inr L →
  fs_promises.readdir cur w = (inr L, log (SysReaddir cur) w).
Proof. intros H. unfold fs_promises.readdir, sysread. by rewrite H. Qed.

Lemma relativePath_eq (prefix : list string) (name : string) :
  (if bool_decide (prefix = []) then [name] else join prefix name) = prefix ++ [name].
Proof. case_bool_decide as H; [by rewrite H|done]. Qed.

Lemma traverse_spec (fuel : nat) :
  ∀ (cur prefix : list string) (files : list (list string)) (w : World),
    canonical_keys (fs w) →
    Fs.node_at (fs w) (resolve cur) = Some Dir →
    msize (fs w) (resolve cur) < fuel →
    ∃ L w',
      traverse fuel cur prefix files w = (inr (files ++ L), w')
      ∧ fs w' = fs w
      ∧ NoDup L
      ∧ ∀ x, x ∈ L ↔ ∃ rel, x = prefix ++ rel ∧ file_below (fs w) (resolve cur) rel.
Proof.
  induction fuel as [|fuel IH]; intros cur prefix files w Hkeys Hdir Hfuel; [lia|].
  set (m := fs w) in *. set (q := resolve cur) in *.
  destruct (Fs.readdir m q) as [e|entries] eqn:Hrd.
  { unfold Fs.readdir in Hrd. by rewrite Hdir in Hrd. }
  simpl. rewrite bind_run, (readdir_run _ _ _ Hrd).
  assert (Hent : ∀ name n, (name, n) ∈ entries → m !! (q ++ [name]) = Some n).
  { intros name n. by apply readdir_elem. }
  pose proof (readdir_NoDup _ _ _ Hrd) as Hnd.
  assert (Hw1 : fs (log (SysReaddir cur) w) = m) by done.
  cut (∃ L w',
    for_fold entries files
      (λ files0 entry,
         match entry.2 with
         | File _ =>
             mret (files0 ++ [if bool_decide (prefix = []) then [entry.1]
                              else join prefix entry.1])
         | Dir =>
             traverse fuel (join cur entry.1)
               (if bool_decide (prefix = []) then [entry.1] else join prefix entry.1) files0
         end) (log (SysReaddir cur) w) = (inr (files ++ L), w')
    ∧ fs w' = m ∧ NoDup L
    ∧ ∀ x, x ∈ L ↔ ∃ name n rel, (name, n) ∈ entries ∧ x = prefix ++ name :: rel
                                   ∧ file_below m q (name :: rel)).
  { intros (L & w' & Hrun & Hfs & HndL & Hx). exists L, w'. split_and!; try done.
    intros x. rewrite Hx. split.
    - intros (name & n & rel & _ & -> & Hfb). by exists (name :: rel).
    - intros (rel & -> & Hfb). destruct rel as [|name rel]; [by destruct Hfb|].
      assert (∃ n, m !! (q ++ [name]) = Some n) as [n Hn].
      { destruct Hfb as (_ & [c Hc] & Hd). destruct rel as [|r rel]; [by exists (File c)|].
        exists Dir. apply (Hd 1). simpl. lia. }
      exists name, n, rel. split_and!; try done. by apply (readdir_elem _ _ _ _ _ Hrd). }
  clear Hrd. generalize dependent (log (SysReaddir cur) w). revert files.
  induction entries as [|[name n] entries IHe]; intros files w1 Hw1.
  { exists [], w1. simpl. rewrite app_nil_r. split_and!; [done|done|constructor|].
    intros x. split; [by intros ?%elem_of_nil|]. by intros (? & ? & ? & ?%elem_of_nil & _). }
  apply NoDup_cons in Hnd as [Hname Hnd].
  assert (Hn : m !! (q ++ [name]) = Some n) by (apply Hent; left).
  assert (Hplain : plain name).
  { assert (canonical (q ++ [name])) as Hc by (eapply Hkeys; exact Hn).
    apply Forall_app in Hc as [_ Hc]. by rewrite Forall_singleton in Hc. }
  assert (∃ L1 w2,
    (match n with
     | File _ => mret (files ++ [if bool_decide (prefix = []) then [name]
                                else join prefix name])
     | Dir => traverse fuel (join cur name)
                (if bool_decide (prefix = []) then [name] else join prefix name) files
     end) w1 = (inr (files ++ L1), w2)
    ∧ fs w2 = m ∧ NoDup L1
    ∧ ∀ x, x ∈ L1 ↔ ∃ rel, x = prefix ++ name :: rel ∧ file_below m q (name :: rel))
    as (L1 & w2 & Hrun1 & Hfs2 & Hnd1 & Hx1).
  { rewrite relativePath_eq. destruct n as [c|].
    - exists [prefix ++ [name]], w1. split_and!; [done|done|apply NoDup_singleton|].
      intros x. rewrite list_elem_of_singleton. split.
      + intros ->. exists []. split; [done|]. by apply (file_below_file _ _ _ c).
      + intros (rel & -> & Hfb). apply (file_below_file _ _ _ c) in Hfb; [|done]. by subst.
    - destruct (IH (join cur name) (prefix ++ [name]) files w1) as (L1 & w2 & Hr & Hf & Hnd1 & Hx1).
      + by rewrite Hw1.
      + unfold join. rewrite resolve_snoc_plain by done. rewrite Hw1. fold q.
        by rewrite node_at_snoc.
      + unfold join. rewrite resolve_snoc_plain by done. rewrite Hw1. fold q.
        pose proof (msize_child m q name Dir Hn). lia.
      + exists L1, w2. split_and!; [done|congruence|done|].
        intros x. rewrite Hx1. unfold join. rewrite resolve_snoc_plain by done.
        rewrite Hw1. fold q. split.
        * intros (rel & -> & Hfb). exists rel. split; [by rewrite <- app_assoc|].
          by apply file_below_dir.
        * intros (rel & -> & Hfb). exists rel. split; [by rewrite <- app_assoc|].
          by apply file_below_dir. }
  destruct (IHe) with (files := files ++ L1) (w := w2) as (L2 & w3 & Hrun2 & Hfs3 & Hnd2 & Hx2).
  { intros name' n' Hin. apply Hent. by right. }
  { done. }
  { done. }
  exists (L1 ++ L2), w3. split_and!.
  - simpl. rewrite bind_run. simpl. rewrite Hrun1. rewrite Hrun2. by rewrite app_assoc.
  - done.
  - apply NoDup_app. split_and!; [done| |done].
    intros x Hin1 Hin2. apply Hx1 in Hin1 as (rel & -> & _).
    apply Hx2 in Hin2 as (name' & n' & rel' & Hin' & Heq & _).
    apply app_inv_head in Heq. injection Heq as -> _.
    apply Hname. apply list_elem_of_fmap. by exists (name', n').
  - intros x. rewrite elem_of_app, Hx1, Hx2. split.
    + intros [(rel & -> & Hfb)|(name' & n' & rel & Hin & -> & Hfb)].
      * exists name, n, rel. split_and!; [left|done|done].
      * exists name', n', rel. split_and!; [by right|done|done].
    + intros (name' & n' & rel & Hin & -> & Hfb).
      apply elem_of_cons in Hin as [[= -> ->]|Hin].
      * left. by exists rel.
      * right. by exists name', n', rel.
Qed.

Lemma getAllFiles_spec (dir : list string) (w : World) :
  canonical_keys (fs w) →
  Fs.node_at (fs w) (resolve dir) = Some Dir →
  ∃ L w',
    getAllFiles dir w = (inr L, w')
    ∧ fs w' = fs w
    ∧ NoDup L
    ∧ ∀ rel, rel ∈ L ↔ file_below (fs w) (resolve dir) rel.
Proof.
  intros Hkeys Hdir.
  destruct (traverse_spec (S (size (fs w))) dir [] [] w Hkeys Hdir)
    as (L & w' & Hrun & Hfs & Hnd & Hx).
  { pose proof (msize_le (fs w) (resolve dir)). lia. }
  exists L, w'. split_and!; try done.
  intros rel. rewrite Hx. split.
  - by intros (rel' & -> & ?).
  - intros ?. by exists rel.
Qed.

Lemma same_files_test (Lo Lb : list (list string)) :
  NoDup Lo → NoDup Lb →
  bool_decide (length Lo ≠ length Lb)
  || negb (forallb (λ f, bool_decide (f ∈ Lb)) Lo) = false
  ↔ ∀ f, f ∈ Lo ↔ f ∈ Lb.
Proof.
  intros Ho Hb. rewrite orb_false_iff, negb_false_iff, forallb_forall.
  rewrite bool_decide_eq_false. split.
  - intros [Hlen Hall].
    assert (Hsub : ∀ f, f ∈ Lo → f ∈ Lb).
    { intros f Hf. apply list_elem_of_In, Hall in Hf. by apply bool_decide_eq_true in Hf. }
    assert (Hperm : Lo ≡ₚ Lb).
    { apply submseteq_length_Permutation; [by apply NoDup_submseteq|].
      destruct (decide (length Lo = length Lb)) as [->|]; [done|naive_solver]. }
    intros f. by rewrite Hperm.
  - intros Heq. split.
    + intros Hne. apply Hne. apply Permutation_length. by apply NoDup_Permutation.
    + intros f Hf. apply bool_decide_eq_true, Heq. by apply list_elem_of_In.
Qed.

Section VerifierProps.

Context (sha256 : string → string).

Lemma stat_run (p : list string) (w : World) (n : node) :
  Fs.node_at (fs w) (resolve p) = Some n →
  fs_promises.stat p w = (inr n, log (SysStat p) w).
Proof. intros H. unfold fs_promises.stat, sysread, Fs.stat. by rewrite H. Qed.

Lemma hashFile_run (p : list string) (w : World) (c : string) :
  Fs.node_at (fs w) (resolve p) = Some (File c) →
  hashFile sha256 p w = (inr (sha256 c), log (SysRead p) w).
Proof.
  intros H. unfold hashFile. rewrite bind_run.
  unfold fs_promises.read, sysread, Fs.read. by rewrite H.
Qed.

Lemma verifyBackup_file (o b : list string) (w : World) (co cb : string) :
  Fs.node_at (fs w) (resolve o) = Some (File co) →
  Fs.node_at (fs w) (resolve b) = Some (File cb) →
  verifyBackup sha256 o b w
  = (if bool_decide (sha256 co ≠ sha256 cb) then inl sha256_mismatch else inr (),
     log (SysRead b) (log (SysRead o) (log (SysStat o) w))).
Proof.
  intros Ho Hb. unfold verifyBackup.
  rewrite bind_run, (stat_run _ _ _ Ho).
  rewrite bind_run, (hashFile_run o _ co) by done.
  rewrite bind_run, (hashFile_run b _ cb) by done.
  by case_bool_decide.
Qed.

Lemma verifyBackup_dir (o b : list string) (w : World) :
  canonical_keys (fs w) →
  Fs.node_at (fs w) (resolve o) = Some Dir →
  Fs.node_at (fs w) (resolve b) = Some Dir →
  let same := ∀ rel, file_below (fs w) (resolve o) rel ↔ file_below (fs w) (resolve b) rel in
  ∃ w',
    fs w' = fs w
    ∧ ((same ∧ verifyBackup sha256 o b w = (inr (), w'))
       ∨ (¬ same ∧ verifyBackup sha256 o b w = (inl structure_mismatch, w'))).
Proof.
  intros Hkeys Ho Hb same.
  destruct (getAllFiles_spec o (log (SysStat o) w)) as (Lo & w1 & Hr1 & Hf1 & Hnd1 & Hx1);
    [done|done|].
  destruct (getAllFiles_spec b w1) as (Lb & w2 & Hr2 & Hf2 & Hnd2 & Hx2);
    [by rewrite Hf1|by rewrite Hf1|].
  rewrite Hf1 in Hx2. simpl in Hx1, Hx2.
  exists w2. split; [by rewrite Hf2, Hf1|].
  assert (Hrun : verifyBackup sha256 o b w
    = (if bool_decide (length Lo ≠ length Lb)
          || negb (forallb (λ f, bool_decide (f ∈ Lb)) Lo)
       then inl structure_mismatch else inr (), w2)).
  { unfold verifyBackup. rewrite bind_run, (stat_run _ _ _ Ho).
    rewrite bind_run, Hr1. rewrite bind_run, Hr2. by destruct (_ || _). }
  pose proof (same_files_test Lo Lb Hnd1 Hnd2) as Htest.
  rewrite Hrun. destruct (_ || _) eqn:Hc.
  - right. split; [|done]. intros Hsame.
    assert (true = false); [|done]. apply Htest. intros f. by rewrite Hx1, Hx2.
  - left. split; [|done]. intros rel. rewrite <- Hx1, <- Hx2. by apply Htest.
Qed.

Lemma verifyBackup_file_any (o b : list string) (w : World) (co : string) :
  Fs.node_at (fs w) (resolve o) = Some (File co) →
  verifyBackup sha256 o b w
  = (match Fs.read (fs w) (resolve b) with
     | inl errno => inl (Error (errno +:+ ": read") (Some errno))
     | inr cb => if bool_decide (sha256 co ≠ sha256 cb) then inl sha256_mismatch else inr ()
     end,
     log (SysRead b) (log (SysRead o) (log (SysStat o) w))).
Proof.
  intros Ho. unfold verifyBackup.
  rewrite bind_run, (stat_run _ _ _ Ho).
  rewrite bind_run, (hashFile_run o _ co) by done.
  rewrite bind_run. unfold hashFile. rewrite bind_run.
  unfold fs_promises.read, sysread. simpl.
  destruct (Fs.read (fs w) (resolve b)) as [errno|cb]; [done|].
  simpl. by case_bool_decide.
Qed.

Lemma verifyBackup_not_dir (o b : list string) (w : World) :
  canonical_keys (fs w) →
  Fs.node_at (fs w) (resolve o) = Some Dir →
  Fs.node_at (fs w) (resolve b) ≠ Some Dir →
  ∃ errno w',
    verifyBackup sha256 o b w = (inl (Error (errno +:+ ": scandir") (Some errno)), w')
    ∧ fs w' = fs w.
Proof.
  intros Hkeys Ho Hb. unfold verifyBackup.
  rewrite bind_run, (stat_run _ _ _ Ho).
  destruct (getAllFiles_spec o (log (SysStat o) w)) as (L & w1 & Hrun & Hf & _); try done.
  rewrite bind_run, Hrun.
  assert (∃ errno, getAllFiles b w1
                   = (inl (Error (errno +:+ ": scandir") (Some errno)), log (SysReaddir b) w1))
    as [errno Hrun2].
  { unfold getAllFiles. rewrite bind_run. unfold get. simpl. rewrite bind_run.
    unfold fs_promises.readdir, sysread, Fs.readdir. rewrite Hf. simpl.
    destruct (Fs.node_at (fs w) (resolve b)) as [[c|]|]; [by eexists|done|by eexists]. }
  exists errno, (log (SysReaddir b) w1). rewrite bind_run, Hrun2. split; [done|].
  simpl. by rewrite Hf.
Qed.

End VerifierProps.

(** C7: what [verifyBackup] decides, whatever is at the backup path.
    When the original is a regular file, verification succeeds exactly
    when the backup has the fingerprint of the original, and it throws
    the SHA-256 mismatch error exactly when the backup has another
    fingerprint: so only when the contents differ, and whenever they
    differ unless the two collide under SHA-256.  A backup without a
    fingerprint (missing, or a directory) is never accepted: the read
    of it fails and that error is thrown.  In every case the calls are
    one [stat] and one read of each side, with no timer: nothing is
    retried, and the disk is as it was.  When the original is a
    directory, on a disk whose entries have real names, verification
    succeeds exactly when the backup is a directory and both sides list
    the same relative file paths; it throws the structure error exactly
    when the backup is a directory that lists other paths, and the
    error of [readdir] when the backup is not a directory; the contents
    of the files play no part. *)
Theorem verifyBackup_decides (sha256 : string → string) (o b : list string) (w : World) :
  let r := verifyBackup sha256 o b w in
  let same := ∀ rel, file_below (fs w) (resolve o) rel ↔ file_below (fs w) (resolve b) rel in
  (∀ co,
     Fs.node_at (fs w) (resolve o) = Some (File co) →
     (r.1 = inr () ↔ fingerprint sha256 (fs w) (resolve b) = Some (sha256 co))
     ∧ (r.1 = inl sha256_mismatch
        ↔ ∃ h, fingerprint sha256 (fs w) (resolve b) = Some h ∧ h ≠ sha256 co)
     ∧ (fingerprint sha256 (fs w) (resolve b) = None →
        ∃ errno, r.1 = inl (Error (errno +:+ ": read") (Some errno)))
     ∧ (∀ cb, Fs.node_at (fs w) (resolve b) = Some (File cb) →
          (r.1 = inl sha256_mismatch → co ≠ cb)
          ∧ (co ≠ cb → (sha256 co = sha256 cb → co = cb) → r.1 = inl sha256_mismatch))
     ∧ events_since w r.2 = [SysStat o; SysRead o; SysRead b]
     ∧ fs r.2 = fs w)
  ∧ (canonical_keys (fs w) →
     Fs.node_at (fs w) (resolve o) = Some Dir →
     (r.1 = inr () ↔ Fs.node_at (fs w) (resolve b) = Some Dir ∧ same)
     ∧ (r.1 = inl structure_mismatch ↔ Fs.node_at (fs w) (resolve b) = Some Dir ∧ ¬ same)
     ∧ (Fs.node_at (fs w) (resolve b) ≠ Some Dir →
        ∃ errno, r.1 = inl (Error (errno +:+ ": scandir") (Some errno)))
     ∧ fs r.2 = fs w).
Proof.
  intros r same. split.
  - intros co Ho. subst r. rewrite (verifyBackup_file_any sha256 o b w co Ho).
    unfold fingerprint. simpl.
    destruct (Fs.read (fs w) (resolve b)) as [errno|cb] eqn:Hrd.
    + split_and!.
      * split; [done|done].
      * split; [intros H; unfold sha256_mismatch in H; congruence|by intros (h & ? & _)].
      * intros _. by exists errno.
      * intros cb Hb. unfold Fs.read in Hrd. by rewrite Hb in Hrd.
      * unfold events_since. simpl. rewrite <- !app_assoc. by rewrite drop_app_length.
      * done.
    + split_and!.
      * case_bool_decide; split; try done; [intros [= ?]; congruence|congruence].
      * case_bool_decide as Hd; split; try done.
        -- intros _. exists (sha256 cb). split; [done|]. by intros ?.
        -- intros (h & [= <-] & Hne). by destruct Hne.
      * done.
      * intros cb' Hb. unfold Fs.read in Hrd. rewrite Hb in Hrd. injection Hrd as ->.
        split.
        -- case_bool_decide; [congruence|done].
        -- intros Hne Hinj. rewrite bool_decide_true; [done|]. naive_solver.
      * unfold events_since. simpl. rewrite <- !app_assoc. by rewrite drop_app_length.
      * done.
  - intros Hkeys Ho.
    destruct (decide (Fs.node_at (fs w) (resolve b) = Some Dir)) as [Hb|Hb].
    + destruct (verifyBackup_dir sha256 o b w Hkeys Ho Hb) as (w' & Hfs & [[Hs Hr]|[Hd Hr]]);
        subst r; rewrite Hr; simpl.
      * split_and!; [done| |done|done]. split; [done|]. by intros [_ Hn].
      * split_and!; [|done|done|done]. split; [done|]. by intros [_ Hs].
    + destruct (verifyBackup_not_dir sha256 o b w Hkeys Ho Hb) as (errno & w' & Hr & Hfs).
      subst r. rewrite Hr. simpl. split_and!.
      * split; [done|by intros [? _]].
      * split; [intros H; unfold structure_mismatch in H; congruence|by intros [? _]].
      * intros _. by exists errno.
      * done.
Qed.

Lemma verifyBackup_decides_witness :
  ((verifyBackup (λ c, c) ["a.txt"] ["b.txt"] sample_disk).1 = inl sha256_mismatch
   ↔ ∃ h, fingerprint (λ c, c) (fs sample_disk) (resolve ["b.txt"]) = Some h ∧ h ≠ "old")
  ∧ ((verifyBackup (λ c, c) ["a.txt"] ["gone"] sample_disk).1 = inr ()
     ↔ fingerprint (λ c, c) (fs sample_disk) (resolve ["gone"]) = Some "old")
  ∧ ((verifyBackup (λ c, c) ["d1"] ["d2"] sample_disk).1 = inr ()
     ↔ Fs.node_at (fs sample_disk) (resolve ["d2"]) = Some Dir
       ∧ ∀ rel, file_below (fs sample_disk) (resolve ["d1"]) rel
                ↔ file_below (fs sample_disk) (resolve ["d2"]) rel)
  ∧ ((verifyBackup (λ c, c) ["d1"] ["a.txt"] sample_disk).1 = inr ()
     ↔ Fs.node_at (fs sample_disk) (resolve ["a.txt"]) = Some Dir
       ∧ ∀ rel, file_below (fs sample_disk) (resolve ["d1"]) rel
                ↔ file_below (fs sample_disk) (resolve ["a.txt"]) rel).
Proof.
  split_and!.
  - destruct (verifyBackup_decides (λ c, c) ["a.txt"] ["b.txt"] sample_disk) as [Hfile _].
    destruct (Hfile "old") as (_ & H & _); [reflexivity|exact H].
  - destruct (verifyBackup_decides (λ c, c) ["a.txt"] ["gone"] sample_disk) as [Hfile _].
    destruct (Hfile "old") as (H & _); [reflexivity|exact H].
  - destruct (verifyBackup_decides (λ c, c) ["d1"] ["d2"] sample_disk) as [_ Hdir].
    destruct Hdir as (H & _); [|reflexivity|exact H].
    apply (bool_decide_unpack _). vm_compute. exact I.
  - destruct (verifyBackup_decides (λ c, c) ["d1"] ["a.txt"] sample_disk) as [_ Hdir].
    destruct Hdir as (H & _); [|reflexivity|exact H].
    apply (bool_decide_unpack _). vm_compute. exact I.
Defined.

(** A missing backup and a backup of the other kind are refused. *)
Example verifyBackup_refuses_other_kinds :
  (verifyBackup (λ c, c) ["a.txt"] ["gone"] sample_disk).1
  = inl (Error "ENOENT: read" (Some "ENOENT"))
  ∧ (verifyBackup (λ c, c) ["a.txt"] ["d1"] sample_disk).1
    = inl (Error "EISDIR: read" (Some "EISDIR"))
  ∧ (verifyBackup (λ c, c) ["d1"] ["gone"] sample_disk).1
    = inl (Error "ENOENT: scandir" (Some "ENOENT"))
  ∧ (verifyBackup (λ c, c) ["d1"] ["a.txt"] sample_disk).1
    = inl (Error "ENOTDIR: scandir" (Some "ENOTDIR")).
Proof. vm_compute. done. Qed.

(** The contents of the files in a directory are not compared: the two
    sample directories hold different bytes under the same names. *)
Example verifyBackup_directory_ignores_contents :
  (verifyBackup (λ c, c) ["d1"] ["d2"] sample_disk).1 = inr ()
  ∧ (getAllFiles ["d1"] sample_disk).1 = inr [["x"]; ["sub"; "y"]].
Proof. vm_compute. done. Qed.

(** ** Relations that every run of a computation satisfies *)

Global Instance keeps_preorder {X} (obs : World → X) : PreOrder (keeps obs).
Proof.
  split.
  - by intros w.
  - intros w1 w2 w3 H1 H2. unfold keeps in *. congruence.
Qed.

Global Instance emits_preorder (P : event → Prop) : PreOrder (emits P).
Proof.
  split.
  - intros w. exists []. by rewrite app_nil_r.
  - intros w1 w2 w3 (e1 & H1 & F1) (e2 & H2 & F2). exists (e1 ++ e2).
    rewrite H2, H1, app_assoc. split; [done|]. by apply Forall_app.
Qed.

Section Steps.

Context (R : relation World) `{!PreOrder R}.

Lemma steps_ret {A} (a : A) : steps R (mret a).
Proof. by intros w. Qed.

Lemma steps_throw {A} (e : error) : steps R (@throw World A e).
Proof. by intros w. Qed.

Lemma steps_get : steps R get.
Proof. by intros w. Qed.

Lemma steps_modify (f : World → World) : (∀ w, R w (f w)) → steps R (modify f).
Proof. intros H w. apply H. Qed.

Lemma steps_bind {A B} (m : M A) (f : A → M B) :
  steps R m → (∀ a, steps R (f a)) → steps R (m ≫= f).
Proof.
  intros Hm Hf w. rewrite bind_run. specialize (Hm w).
  destruct (m w) as [[e|a] w1]; simpl in *; [done|].
  etrans; [exact Hm|apply Hf].
Qed.

Lemma steps_try_catch {A} (m : M A) (h : error → M A) :
  steps R m → (∀ e, steps R (h e)) → steps R (try_catch m h).
Proof.
  intros Hm Hh w. unfold try_catch. specialize (Hm w).
  destruct (m w) as [[e|a] w1]; simpl in *; [|done].
  etrans; [exact Hm|apply Hh].
Qed.

Lemma steps_retry_loop {T} (op : M T) (n i : nat) :
  steps R op → (∀ d, steps R (sleep d)) → steps R (retry_loop op n i).
Proof.
  intros Hop Hsl. revert i. induction n as [|n IH]; intros i; simpl.
  - apply steps_try_catch.
    + apply steps_bind; [done|]. intros v. apply steps_ret.
    + intros e. apply steps_ret.
  - apply steps_try_catch.
    + apply steps_bind; [done|]. intros v. apply steps_ret.
    + intros e. apply steps_bind; [apply Hsl|]. intros _.
      destruct (is_permanent e); [apply steps_ret|apply IH].
Qed.

Lemma steps_withRetry {T} (op : M T) (ctx : string) (n : nat) :
  steps R op → (∀ d, steps R (sleep d)) → steps R (withRetry op ctx n).
Proof.
  intros Hop Hsl. unfold withRetry. apply steps_bind.
  - by apply steps_retry_loop.
  - intros [e|v]; [apply steps_throw|apply steps_ret].
Qed.

Lemma steps_syscall (e : event) (name : string)
    (f : gmap (list string) node → string + gmap (list string) node) :
  (∀ w, R w (log e w)) →
  (∀ w m', f (fs w) = inr m' → R w (set_fs m' (log e w))) →
  steps R (syscall e name f).
Proof.
  intros Hlog Hok w. unfold syscall. destruct (f (fs w)) as [c|m'] eqn:Hf; simpl; eauto.
Qed.

End Steps.


(** ** Exact runs of the engine on a quiet disk *)

Arguments hex : simpl never.
Arguments resolve : simpl never.
Arguments lockFileOf : simpl never.
Arguments tempPathOf : simpl never.
Arguments dirname : simpl never.
Arguments basename : simpl never.
Arguments render : simpl never.

Ltac wsimpl :=
  cbn [fs locks lockQueue arrays promises nextId now draws trace departures
       set_fs set_locks set_lockQueue set_arrays set_promises set_nextId set_now
       set_draws set_trace set_departures log].

Ltac wsimpl_in H :=
  cbn [fs locks lockQueue arrays promises nextId now draws trace departures
       set_fs set_locks set_lockQueue set_arrays set_promises set_nextId set_now
       set_draws set_trace set_departures log] in H.

Lemma arrives_refl (w : World) : arrives w w (fs w) (locks w) 0 [].
Proof. unfold arrives. rewrite app_nil_r. split_and!; try done; lia. Qed.

Lemma arrives_trans (w w1 w2 : World) m1 L1 k1 e1 m2 L2 k2 e2 :
  arrives w w1 m1 L1 k1 e1 → arrives w1 w2 m2 L2 k2 e2 →
  arrives w w2 m2 L2 (k1 + k2) (e1 ++ e2).
Proof.
  intros (H1 & H2 & H3 & H4 & H5) (G1 & G2 & G3 & G4 & G5).
  unfold arrives. split_and!; try congruence; [lia|].
  by rewrite G5, H5, app_assoc.
Qed.

Lemma syscall_ok e name f (w : World) m' :
  f (fs w) = inr m' → syscall e name f w = (inr (), set_fs m' (log e w)).
Proof. intros H. unfold syscall. by rewrite H. Qed.

Lemma syscall_err e name f (w : World) c :
  f (fs w) = inl c →
  syscall e name f w = (inl (Error (c +:+ ": " +:+ name) (Some c)), log e w).
Proof. intros H. unfold syscall. by rewrite H. Qed.

Lemma wake_next_idle (path : list string) (w : World) :
  lockQueue w !! path = None → wake_next path w = (inr (), w).
Proof. intros H. unfold wake_next. rewrite bind_run. simpl. by rewrite H. Qed.

Lemma bind_get {S B} (f : S → ST S B) (s : S) : (get ≫= f) s = f s s.
Proof. reflexivity. Qed.

Lemma bind_modify {S B} (g : S → S) (f : () → ST S B) (s : S) :
  (modify g ≫= f) s = f () (g s).
Proof. reflexivity. Qed.

Lemma bind_ret {S A B} (a : A) (f : A → ST S B) (s : S) : (mret a ≫= f) s = f a s.
Proof. reflexivity. Qed.

Lemma length_dirname (p : list string) : length (dirname p) = length p - 1.
Proof. unfold dirname. rewrite length_take. lia. Qed.

Lemma tempPathOf_not_prefix (p : list string) (h : string) :
  p ≠ [] → ¬ tempPathOf p h `prefix_of` p.
Proof.
  intros Hp Hpre. apply (tempPathOf_ne p h). apply prefix_length_eq; [done|].
  unfold tempPathOf, join. rewrite length_app, length_dirname. simpl.
  destruct p; [done|]. simpl. lia.
Qed.

(** *** The file-system calls on files *)

Lemma is_dir_insert_file m k c q :
  Fs.is_dir m q = true → Fs.node_at m k ≠ Some Dir → Fs.is_dir (<[k := File c]> m) q = true.
Proof.
  unfold Fs.is_dir. intros Hq%bool_decide_eq_true Hk. apply bool_decide_eq_true.
  destruct q as [|x q]; [done|]. simpl in *.
  rewrite lookup_insert_ne; [done|]. intros ->. simpl in Hk. congruence.
Qed.

Lemma is_dir_delete_file m k c q :
  Fs.is_dir m q = true → Fs.node_at m k = Some (File c) → Fs.is_dir (delete k m) q = true.
Proof.
  unfold Fs.is_dir. intros Hq%bool_decide_eq_true Hk. apply bool_decide_eq_true.
  destruct q as [|x q]; [done|]. simpl in *.
  rewrite lookup_delete_ne; [done|]. intros ->. simpl in Hk. congruence.
Qed.

Lemma is_dir_delete m k q :
  Fs.is_dir m q = true → Fs.node_at m k ≠ Some Dir → Fs.is_dir (delete k m) q = true.
Proof.
  unfold Fs.is_dir. intros Hq%bool_decide_eq_true Hk. apply bool_decide_eq_true.
  destruct q as [|x q]; [done|]. simpl in *.
  rewrite lookup_delete_ne; [done|]. intros ->. simpl in Hk. congruence.
Qed.

Lemma node_at_insert m k n : k ≠ [] → Fs.node_at (<[k := n]> m) k = Some n.
Proof. intros Hk. rewrite node_at_nonroot by done. apply lookup_insert_eq. Qed.

Lemma node_at_insert_ne m k n q : k ≠ q → Fs.node_at (<[k := n]> m) q = Fs.node_at m q.
Proof. intros Hk. destruct q; [done|]. simpl. by apply lookup_insert_ne. Qed.

Lemma node_at_delete m k : k ≠ [] → Fs.node_at (delete k m) k = None.
Proof. intros Hk. rewrite node_at_nonroot by done. apply lookup_delete_eq. Qed.

Lemma node_at_delete_ne m k q : k ≠ q → Fs.node_at (delete k m) q = Fs.node_at m q.
Proof. intros Hk. destruct q; [done|]. simpl. by apply lookup_delete_ne. Qed.

Lemma node_at_None_nonroot m q : Fs.node_at m q = None → q ≠ [].
Proof. by destruct q. Qed.

Lemma node_at_None_lookup m q : Fs.node_at m q = None → m !! q = None.
Proof. by destruct q. Qed.

Lemma node_at_file_nonroot m q c : Fs.node_at m q = Some (File c) → q ≠ [].
Proof. by destruct q. Qed.

Lemma not_dir_nonroot m q : Fs.node_at m q ≠ Some Dir → q ≠ [].
Proof. by destruct q. Qed.

Lemma writeFile_new m q c excl :
  Fs.is_dir m (dirname q) = true → Fs.node_at m q = None →
  Fs.writeFile m q c excl = inr (<[q := File c]> m).
Proof. intros Hd Hn. unfold Fs.writeFile. by rewrite Hd, Hn. Qed.

Lemma rename_file m a b c :
  Fs.node_at m a = Some (File c) →
  Fs.is_dir m (dirname b) = true →
  a ≠ b → ¬ a `prefix_of` b →
  Fs.node_at m b ≠ Some Dir →
  Fs.rename m a b = inr (<[b := File c]> (delete a m)).
Proof.
  intros Ha Hd Hne Hp Hb. unfold Fs.rename. rewrite Ha, Hd. simpl.
  rewrite bool_decide_false by done. rewrite bool_decide_false by done.
  destruct (Fs.node_at m b) as [[cb|]|]; done.
Qed.

Lemma copyFile_file m a b c :
  Fs.node_at m a = Some (File c) →
  Fs.is_dir m (dirname b) = true →
  Fs.node_at m b ≠ Some Dir →
  Fs.copyFile m a b = inr (<[b := File c]> m).
Proof.
  intros Ha Hd Hb. unfold Fs.copyFile. rewrite Ha, Hd. simpl.
  destruct (Fs.node_at m b) as [[cb|]|]; done.
Qed.

Lemma rm_file_or_missing m q :
  Fs.node_at m q ≠ Some Dir → Fs.rm m q = inr (delete q m).
Proof.
  intros Hq. unfold Fs.rm. destruct (Fs.node_at m q) as [[c|]|] eqn:H; [done|done|].
  apply node_at_None_lookup in H. by rewrite delete_id.
Qed.

Lemma mkdir_existing (p : list string) (w : World) :
  Fs.is_dir (fs w) (resolve p) = true →
  fs_promises.mkdir p w = (inr (), set_fs (fs w) (log (SysMkdir p) w)).
Proof. intros H. apply syscall_ok. unfold Fs.mkdirp. by rewrite H. Qed.

Lemma stat_missing_permanent (p : list string) (w : World) :
  Fs.node_at (fs w) (resolve p) = None →
  ∃ e, fs_promises.stat p w = (inl e, log (SysStat p) w) ∧ is_permanent e = true.
Proof.
  intros H. unfold fs_promises.stat, sysread, Fs.stat. rewrite H.
  eexists. split; [reflexivity|]. unfold Fs.missing.
  by destruct (existsb _ _).
Qed.

Lemma unlink_missing_ignored (p : list string) (w : World) :
  Fs.node_at (fs w) (resolve p) = None →
  ignore_errors (fs_promises.unlink p) w = (inr (), log (SysUnlink p) w).
Proof.
  intros H. unfold ignore_errors, fs_promises.unlink.
  erewrite try_catch_err; [reflexivity|]. apply syscall_err. unfold Fs.unlink. by rewrite H.
Qed.

(** Removing the target before the rename, as done on win32: whether by
    [unlink] or by [rm], and whether or not the target exists, the disk
    afterwards has no target. *)
Lemma try_unlink_file_or_missing (p : list string) (w : World) :
  Fs.node_at (fs w) (resolve p) ≠ Some Dir →
  ∃ w', try_catch (fs_promises.unlink p) (λ _, mret ()) w = (inr (), w')
        ∧ arrives w w' (delete (resolve p) (fs w)) (locks w) 0 [SysUnlink p].
Proof.
  intros H. destruct (Fs.node_at (fs w) (resolve p)) as [[c|]|] eqn:Hn; [|done|].
  - eexists. split.
    + erewrite try_catch_ok; [reflexivity|]. apply syscall_ok. unfold Fs.unlink. by rewrite Hn.
    + unfold arrives. wsimpl. split_and!; try done; lia.
  - eexists. split.
    + erewrite try_catch_err; [reflexivity|]. apply syscall_err. unfold Fs.unlink. by rewrite Hn.
    + unfold arrives. wsimpl. apply node_at_None_lookup in Hn. rewrite delete_id by done.
      split_and!; try done; lia.
Qed.

Lemma try_rm_file_or_missing (p : list string) (w : World) :
  Fs.node_at (fs w) (resolve p) ≠ Some Dir →
  ∃ w', try_catch (fs_promises.rm p) (λ _, mret ()) w = (inr (), w')
        ∧ arrives w w' (delete (resolve p) (fs w)) (locks w) 0 [SysRm p].
Proof.
  intros H. eexists. split.
  - erewrite try_catch_ok; [reflexivity|]. apply syscall_ok. by apply rm_file_or_missing.
  - unfold arrives. wsimpl. split_and!; try done; lia.
Qed.

Lemma bind_assoc_run {S A B C} (m : ST S A) (f : A → ST S B) (g : B → ST S C) (s : S) :
  ((m ≫= f) ≫= g) s = (m ≫= (λ a, f a ≫= g)) s.
Proof. rewrite !bind_run. destruct (m s) as [[e|a] s']; [done|]. by rewrite bind_run. Qed.

Lemma utimes_run (p : list string) (w : World) (n : node) :
  Fs.node_at (fs w) (resolve p) = Some n →
  fs_promises.utimes p w = (inr (), log (SysUtimes p) w).
Proof.
  intros H. unfold fs_promises.utimes. rewrite bind_run.
  unfold sysread, Fs.stat. by rewrite H.
Qed.

Lemma arrives_change (w w' : World) m m' L L' k e :
  arrives w w' m L k e → m = m' → L = L' → arrives w w' m' L' k e.
Proof. by intros H <- <-. Qed.

Section Exact.

Context (win32 : bool) (dev : list string → nat) (entropy : nat → N).

Lemma randomHex_run (n : nat) (w : World) :
  randomHex entropy n w = (inr (hex (2 * n) (entropy (draws w))), set_draws (S (draws w)) w).
Proof. reflexivity. Qed.

Lemma acquireLock_ok (p : list string) (w : World) :
  let q := resolve (lockFileOf p) in
  let id := hex 32 (entropy (draws w)) in
  p ∉ locks w →
  Fs.is_dir (fs w) (dirname q) = true →
  Fs.node_at (fs w) q = None →
  ∃ w', acquireLock entropy p w = (inr (release p (lockFileOf p)), w')
        ∧ arrives w w' (<[q := File id]> (fs w)) ({[p]} ∪ locks w) 1
                  [SysWriteFile (lockFileOf p) id true].
Proof.
  intros q id Hl Hd Hn. unfold acquireLock.
  rewrite (bind_ok _ _ _ _ _ (randomHex_run 16 w)).
  rewrite bind_get. cbn [locks set_draws]. rewrite bool_decide_false by done.
  rewrite bind_ret, bind_modify.
  eexists. split.
  - erewrite bind_ok; [reflexivity|].
    unfold create_marker. erewrite try_catch_ok; [reflexivity|].
    apply withRetry_first_success. unfold fs_promises.writeFile.
    apply syscall_ok. cbn [fs set_locks set_draws]. by apply writeFile_new.
  - unfold arrives. cbn. split_and!; first [done|lia].
Qed.

Lemma release_ok (p : list string) (w : World) (id : string) :
  let q := resolve (lockFileOf p) in
  Fs.node_at (fs w) q = Some (File id) →
  lockQueue w !! p = None →
  ∃ w', release p (lockFileOf p) w = (inr (), w')
        ∧ arrives w w' (delete q (fs w)) (locks w ∖ {[p]}) 0 [SysUnlink (lockFileOf p)].
Proof.
  intros q Hq Hn. unfold release, try_finally, ignore_errors.
  erewrite try_catch_ok; cycle 1.
  { unfold fs_promises.unlink. apply syscall_ok. unfold Fs.unlink. fold q. by rewrite Hq. }
  unfold clear_lock. rewrite bind_modify. rewrite wake_next_idle by done.
  eexists. split; [reflexivity|]. unfold arrives. cbn. split_and!; first [done|lia].
Qed.

Lemma locks_restored (p : list string) (L : gset (list string)) :
  p ∉ L → ({[p]} ∪ L) ∖ {[p]} = L.
Proof.
  intros Hp. apply set_eq. intros x.
  rewrite elem_of_difference, elem_of_union, elem_of_singleton.
  split; [intros [[->|?] ?]; done|]. intros Hx. split; [by right|]. by intros ->.
Qed.

(** The skeleton around a piece of work that ends with outcome [r]. *)
Lemma locked_region_run (p : list string) (work cleanup : list string → M unit) (w : World)
    (r : error + ()) (m5 m6 : gmap (list string) node) (evs evc : list event) :
  let h := hex 16 (entropy (draws w)) in
  let id := hex 32 (entropy (S (draws w))) in
  let lf := lockFileOf p in
  let tp := tempPathOf p h in
  canonical p →
  p ∉ locks w → lockQueue w !! p = None →
  Fs.is_dir (fs w) (dirname p) = true →
  Fs.node_at (fs w) lf = None →
  (∀ w3, fs w3 = <[lf := File id]> (fs w) →
     ∃ w5, work tp w3 = (r, w5) ∧ arrives w3 w5 m5 (locks w3) 0 evs) →
  (∀ w5, fs w5 = m5 →
     ∃ w6, ignore_errors (cleanup tp) w5 = (inr (), w6) ∧ arrives w5 w6 m6 (locks w5) 0 evc) →
  Fs.node_at m6 lf = Some (File id) →
  ∃ w', locked_region entropy p work cleanup w = (r, w')
        ∧ arrives w w' (delete lf m6) (locks w) 2
            ([SysMkdir (dirname p); SysWriteFile lf id true] ++ evs ++ evc ++ [SysUnlink lf]).
Proof.
  intros h id lf tp Hcan Hl Hq Hd Hlf Hwork Hclean H6.
  assert (Rd : resolve (dirname p) = dirname p) by by apply resolve_canonical, canonical_dirname.
  assert (Rlf : resolve lf = lf) by by apply resolve_canonical, canonical_lockFileOf.
  unfold locked_region.
  rewrite (bind_ok _ _ _ _ _ (randomHex_run 8 w)).
  change (hex (2 * 8) (entropy (draws w))) with h. fold tp lf.
  erewrite bind_ok; cycle 1.
  { apply withRetry_first_success, mkdir_existing. by rewrite Rd. }
  destruct (acquireLock_ok p
              (set_fs (fs (set_draws (S (draws w)) w))
                 (log (SysMkdir (dirname p)) (set_draws (S (draws w)) w))))
    as (w3 & Hrun3 & Hf3 & Hl3 & Hq3 & Hd3 & Ht3).
  { done. }
  { fold lf. rewrite Rlf. unfold lf. by rewrite dirname_lockFileOf. }
  { fold lf. by rewrite Rlf. }
  fold lf in Hf3, Ht3. rewrite Rlf in Hf3. cbn in Hf3, Hl3, Hq3, Hd3, Ht3. fold id in Hf3, Ht3.
  rewrite (bind_ok _ _ _ _ _ Hrun3).
  destruct (Hwork w3 Hf3) as (w5 & Hrun5 & Hf5 & Hl5 & Hq5 & Hd5 & Ht5).
  destruct (Hclean w5 Hf5) as (w6 & Hrun6 & Hf6 & Hl6 & Hq6 & Hd6 & Ht6).
  destruct (release_ok p w6 id) as (w7 & Hrun7 & Hf7 & Hl7 & Hq7 & Hd7 & Ht7).
  { fold lf. by rewrite Rlf, Hf6. }
  { by rewrite Hq6, Hq5, Hq3. }
  fold lf in Hf7, Ht7. rewrite Rlf in Hf7.
  exists w7. split.
  - unfold try_finally. rewrite Hrun5, Hrun6, Hrun7. done.
  - unfold arrives. split_and!.
    + by rewrite Hf7, Hf6.
    + rewrite Hl7, Hl6, Hl5, Hl3. by apply locks_restored.
    + by rewrite Hq7, Hq6, Hq5, Hq3.
    + rewrite Hd7, Hd6, Hd5, Hd3. lia.
    + rewrite Ht7, Ht6, Ht5, Ht3. by rewrite <- !app_assoc.
Qed.

(** Putting the temporary file in place of the target: a plain rename,
    preceded on win32 by the removal of the target. *)
Lemma install_run (remove : M unit) (ev : event) (a p : list string) (w4 : World) (c : string) :
  resolve a = a → resolve p = p →
  Fs.node_at (fs w4) a = Some (File c) →
  Fs.is_dir (fs w4) (dirname p) = true →
  Fs.node_at (fs w4) p ≠ Some Dir →
  a ≠ p → ¬ a `prefix_of` p →
  (∀ w, Fs.node_at (fs w) p ≠ Some Dir →
     ∃ w', try_catch remove (λ _, mret ()) w = (inr (), w')
           ∧ arrives w w' (delete p (fs w)) (locks w) 0 [ev]) →
  ∃ w5, (if negb win32 then fs_promises.rename a p
         else try_catch remove (λ _, mret ());; fs_promises.rename a p) w4 = (inr (), w5)
        ∧ arrives w4 w5 (<[p := File c]> (delete a (fs w4))) (locks w4) 0
            ((if win32 then [ev] else []) ++ [SysRename a p]).
Proof.
  intros Ra Rp Ha Hd Hp Hne Hpre Hrem. destruct win32; simpl.
  - destruct (Hrem w4 Hp) as (w' & Hrun & Hf & Hl & Hq & Hdr & Ht).
    rewrite (bind_ok _ _ _ _ _ Hrun). eexists. split.
    + apply syscall_ok. rewrite Ra, Rp, Hf. apply rename_file; try done.
      * by rewrite node_at_delete_ne.
      * by apply is_dir_delete.
      * rewrite node_at_delete; [done|]. by apply not_dir_nonroot in Hp.
    + unfold arrives. wsimpl. split_and!; try done; try lia.
      * apply map_eq. intros k.
        destruct (decide (k = p)) as [->|]; [by rewrite !lookup_insert_eq|].
        rewrite !lookup_insert_ne by done.
        destruct (decide (k = a)) as [->|]; [by rewrite !lookup_delete_eq|].
        by rewrite !lookup_delete_ne by done.
      * by rewrite Ht, <- app_assoc.
  - eexists. split.
    + apply syscall_ok. rewrite Ra, Rp. by apply rename_file.
    + unfold arrives. wsimpl. split_and!; try done; lia.
Qed.

Lemma atomicWrite_region (p : list string) (c : string) :
  atomicWrite win32 entropy p c
  = locked_region entropy p
      (λ tempPath,
         withRetry
           (fs_promises.writeFile tempPath c false;;
            if negb win32 then fs_promises.rename tempPath p
            else try_catch (fs_promises.unlink p) (λ _, mret ());;
                 fs_promises.rename tempPath p)
           ("atomic write to " +:+ render p) (length RETRY_DELAYS))
      fs_promises.unlink.
Proof. reflexivity. Qed.

Lemma atomicCopy_region (s p : list string) (preserve : option bool) :
  atomicCopy win32 entropy s p preserve
  = locked_region entropy p
      (λ tempPath,
         withRetry
           (sourceStats ← fs_promises.stat s;
            match sourceStats with
            | Dir => fs_promises.cp s tempPath
            | File _ =>
                fs_promises.copyFile s tempPath;;
                if default false preserve then fs_promises.utimes tempPath else mret ()
            end;;
            if negb win32 then fs_promises.rename tempPath p
            else try_catch (fs_promises.rm p) (λ _, mret ());;
                 fs_promises.rename tempPath p)
           ("atomic copy from " +:+ render s +:+ " to " +:+ render p)
           (length RETRY_DELAYS))
      fs_promises.rm.
Proof. reflexivity. Qed.

(** The disk after the lock marker, the temporary file and the rename,
    and after the marker is gone again. *)
Lemma installed_disk (m : gmap (list string) node) (lf tp p : list string) (id c : string) :
  lf ≠ tp → lf ≠ p → tp ≠ p →
  <[p := File c]> (delete tp (<[tp := File c]> (<[lf := File id]> m)))
  = <[p := File c]> (delete tp (<[lf := File id]> m)).
Proof.
  intros H1 H2 H3. apply map_eq. intros k.
  destruct (decide (k = p)) as [->|]; [by rewrite !lookup_insert_eq|].
  rewrite !lookup_insert_ne by done.
  destruct (decide (k = tp)) as [->|]; [by rewrite !lookup_delete_eq|].
  rewrite !lookup_delete_ne by done. by rewrite lookup_insert_ne by done.
Qed.

Lemma released_disk (m : gmap (list string) node) (lf tp p : list string) (id : string) (n : node) :
  m !! lf = None → m !! tp = None → lf ≠ p →
  delete lf (<[p := n]> (delete tp (<[lf := File id]> m))) = <[p := n]> m.
Proof.
  intros H1 H2 H3. apply map_eq. intros k.
  destruct (decide (k = lf)) as [->|].
  { rewrite lookup_delete_eq, lookup_insert_ne by done. done. }
  rewrite lookup_delete_ne by done.
  destruct (decide (k = p)) as [->|]; [by rewrite !lookup_insert_eq|].
  rewrite !lookup_insert_ne by done.
  destruct (decide (k = tp)) as [->|]; [by rewrite lookup_delete_eq|].
  rewrite lookup_delete_ne by done. by rewrite lookup_insert_ne by done.
Qed.

Lemma atomicWrite_ok (p : list string) (c : string) (w : World) :
  let h := hex 16 (entropy (draws w)) in
  let id := hex 32 (entropy (S (draws w))) in
  let lf := lockFileOf p in
  let tp := tempPathOf p h in
  canonical p →
  p ∉ locks w → lockQueue w !! p = None →
  Fs.is_dir (fs w) (dirname p) = true →
  Fs.node_at (fs w) p ≠ Some Dir →
  Fs.node_at (fs w) lf = None →
  Fs.node_at (fs w) tp = None →
  ∃ w', atomicWrite win32 entropy p c w = (inr (), w')
        ∧ arrives w w' (<[p := File c]> (fs w)) (locks w) 2
            ([SysMkdir (dirname p); SysWriteFile lf id true]
             ++ ([SysWriteFile tp c false] ++ (if win32 then [SysUnlink p] else [])
                 ++ [SysRename tp p])
             ++ [SysUnlink tp] ++ [SysUnlink lf]).
Proof.
  intros h id lf tp Hcan Hl Hq Hd Hp Hlf Htp.
  assert (Rp : resolve p = p) by by apply resolve_canonical.
  assert (Rtp : resolve tp = tp) by by apply resolve_canonical, canonical_tempPathOf.
  assert (Hne : p ≠ []) by by apply not_dir_nonroot in Hp.
  assert (Hlt : lf ≠ tp) by apply lockFileOf_ne_tempPathOf_spelled.
  assert (Hlp : lf ≠ p) by apply lockFileOf_ne.
  assert (Htpp : tp ≠ p) by apply tempPathOf_ne.
  set (m := fs w) in *. set (m3 := <[lf := File id]> m).
  set (m5 := <[p := File c]> (delete tp m3)).
  rewrite atomicWrite_region.
  destruct (locked_region_run p
              (λ tempPath,
                 withRetry
                   (fs_promises.writeFile tempPath c false;;
                    if negb win32 then fs_promises.rename tempPath p
                    else try_catch (fs_promises.unlink p) (λ _, mret ());;
                         fs_promises.rename tempPath p)
                   ("atomic write to " +:+ render p) (length RETRY_DELAYS))
              fs_promises.unlink w (inr ()) m5 m5
              ([SysWriteFile tp c false] ++ (if win32 then [SysUnlink p] else [])
               ++ [SysRename tp p])
              [SysUnlink tp])
    as (w' & Hrun & Harr); try done.
  - intros w3 Hf3. fold h tp.
    assert (Hw4 : fs_promises.writeFile tp c false w3
                  = (inr (), set_fs (<[tp := File c]> m3) (log (SysWriteFile tp c false) w3))).
    { apply syscall_ok. rewrite Rtp, Hf3. apply writeFile_new.
      - unfold tp. rewrite dirname_tempPathOf. apply is_dir_insert_file; [done|].
        fold m lf. by rewrite Hlf.
      - unfold m3. by rewrite node_at_insert_ne. }
    destruct (install_run (fs_promises.unlink p) (SysUnlink p) tp p
                (set_fs (<[tp := File c]> m3) (log (SysWriteFile tp c false) w3)) c)
      as (w5 & Hrun5 & Hf5 & Hl5 & Hq5 & Hd5 & Ht5); try done.
    + wsimpl. apply node_at_insert. by apply node_at_None_nonroot in Htp.
    + wsimpl. unfold m3. apply is_dir_insert_file; [apply is_dir_insert_file|]; try done.
      * by rewrite Hlf.
      * rewrite node_at_insert_ne by done. by rewrite Htp.
    + wsimpl. unfold m3. by rewrite !node_at_insert_ne.
    + by apply tempPathOf_not_prefix.
    + intros w0 H0. destruct (try_unlink_file_or_missing p w0) as (w' & H1 & H2);
        [by rewrite Rp|]. rewrite Rp in H2. eauto.
    + exists w5. split.
      * apply withRetry_first_success. by rewrite (bind_ok _ _ _ _ _ Hw4).
      * revert Hf5 Hl5 Hq5 Hd5 Ht5. wsimpl. intros Hf5 Hl5 Hq5 Hd5 Ht5.
        unfold arrives. split_and!; try done.
        -- rewrite Hf5. unfold m5, m3. by apply installed_disk.
        -- by rewrite Ht5, <- app_assoc.
  - intros w5 Hf5. fold h tp. eexists. split.
    + apply unlink_missing_ignored. rewrite Rtp, Hf5. unfold m5.
      rewrite node_at_insert_ne by done. apply node_at_delete.
      by apply node_at_None_nonroot in Htp.
    + unfold arrives. wsimpl. split_and!; try done; lia.
  - fold lf id. unfold m5, m3. rewrite node_at_insert_ne by done.
    rewrite node_at_delete_ne by done. apply node_at_insert.
    by apply node_at_None_nonroot in Hlf.
  - exists w'. split; [done|]. fold h id lf tp in Harr.
    destruct Harr as (Hf & Hl' & Hq' & Hd' & Ht'). unfold arrives. split_and!; try done.
    rewrite Hf. unfold m5, m3. apply released_disk; try done; by apply node_at_None_lookup.
Qed.


Lemma missing_permanent (m : gmap (list string) node) (q : list string) (name : string) :
  is_permanent (Error (Fs.missing m q +:+ ": " +:+ name) (Some (Fs.missing m q))) = true.
Proof. unfold Fs.missing. by destruct (existsb _ _). Qed.

Lemma atomicCopy_file_ok (s p : list string) (preserve : option bool) (cs : string) (w : World) :
  let h := hex 16 (entropy (draws w)) in
  let id := hex 32 (entropy (S (draws w))) in
  let lf := lockFileOf p in
  let tp := tempPathOf p h in
  canonical s → canonical p →
  p ∉ locks w → lockQueue w !! p = None →
  Fs.is_dir (fs w) (dirname p) = true →
  Fs.node_at (fs w) p ≠ Some Dir →
  Fs.node_at (fs w) lf = None →
  Fs.node_at (fs w) tp = None →
  Fs.node_at (fs w) s = Some (File cs) →
  ∃ w', atomicCopy win32 entropy s p preserve w = (inr (), w')
        ∧ arrives w w' (<[p := File cs]> (fs w)) (locks w) 2
            ([SysMkdir (dirname p); SysWriteFile lf id true]
             ++ ([SysStat s; SysCopyFile s tp]
                 ++ (if default false preserve then [SysUtimes tp] else [])
                 ++ (if win32 then [SysRm p] else []) ++ [SysRename tp p])
             ++ [SysRm tp] ++ [SysUnlink lf]).
Proof.
  intros h id lf tp Hcs Hcan Hl Hq Hd Hp Hlf Htp Hs.
  assert (Rs : resolve s = s) by by apply resolve_canonical.
  assert (Rp : resolve p = p) by by apply resolve_canonical.
  assert (Rtp : resolve tp = tp) by by apply resolve_canonical, canonical_tempPathOf.
  assert (Hne : p ≠ []) by by apply not_dir_nonroot in Hp.
  assert (Hlt : lf ≠ tp) by apply lockFileOf_ne_tempPathOf_spelled.
  assert (Hlp : lf ≠ p) by apply lockFileOf_ne.
  assert (Htpp : tp ≠ p) by apply tempPathOf_ne.
  assert (Hls : lf ≠ s) by (intros <-; congruence).
  assert (Hts : tp ≠ s) by (intros <-; congruence).
  set (m := fs w) in *. set (m3 := <[lf := File id]> m).
  set (m5 := <[p := File cs]> (delete tp m3)).
  rewrite atomicCopy_region.
  destruct (locked_region_run p
              (λ tempPath,
                 withRetry
                   (sourceStats ← fs_promises.stat s;
                    match sourceStats with
                    | Dir => fs_promises.cp s tempPath
                    | File _ =>
                        fs_promises.copyFile s tempPath;;
                        if default false preserve then fs_promises.utimes tempPath else mret ()
                    end;;
                    if negb win32 then fs_promises.rename tempPath p
                    else try_catch (fs_promises.rm p) (λ _, mret ());;
                         fs_promises.rename tempPath p)
                   ("atomic copy from " +:+ render s +:+ " to " +:+ render p)
                   (length RETRY_DELAYS))
              fs_promises.rm w (inr ()) m5 m5
              ([SysStat s; SysCopyFile s tp]
               ++ (if default false preserve then [SysUtimes tp] else [])
               ++ (if win32 then [SysRm p] else []) ++ [SysRename tp p])
              [SysRm tp])
    as (w' & Hrun & Harr); try done.
  - intros w3 Hf3. fold h tp.
    set (w3a := log (SysStat s) w3).
    set (w3b := set_fs (<[tp := File cs]> m3) (log (SysCopyFile s tp) w3a)).
    assert (H3s : Fs.node_at m3 s = Some (File cs)).
    { unfold m3. by rewrite node_at_insert_ne. }
    assert (Hstat : fs_promises.stat s w3 = (inr (File cs), w3a)).
    { apply stat_run. by rewrite Rs, Hf3. }
    assert (Hcopy : fs_promises.copyFile s tp w3a = (inr (), w3b)).
    { apply syscall_ok. rewrite Rs, Rtp. unfold w3a. wsimpl. rewrite Hf3. fold m m3.
      apply copyFile_file; [done| |].
      - unfold tp. rewrite dirname_tempPathOf. unfold m3. apply is_dir_insert_file; [done|].
        by rewrite Hlf.
      - unfold m3. rewrite node_at_insert_ne by done. by rewrite Htp. }
    assert (∃ w3c, (if default false preserve then fs_promises.utimes tp else mret ()) w3b
                   = (inr (), w3c)
                   ∧ arrives w3b w3c (fs w3b) (locks w3b) 0
                       (if default false preserve then [SysUtimes tp] else []))
      as (w3c & Hut & Hfc & Hlc & Hqc & Hdc & Htc).
    { destruct (default false preserve).
      - eexists. split.
        + apply (utimes_run tp w3b (File cs)). rewrite Rtp. unfold w3b. wsimpl.
          apply node_at_insert. by apply node_at_None_nonroot in Htp.
        + unfold arrives. wsimpl. split_and!; try done; lia.
      - exists w3b. split; [done|]. apply arrives_refl. }
    destruct (install_run (fs_promises.rm p) (SysRm p) tp p w3c cs)
      as (w5 & Hrun5 & Hf5 & Hl5 & Hq5 & Hd5 & Ht5); try done.
    + rewrite Hfc. unfold w3b. wsimpl. apply node_at_insert.
      by apply node_at_None_nonroot in Htp.
    + rewrite Hfc. unfold w3b. wsimpl. unfold m3.
      apply is_dir_insert_file; [apply is_dir_insert_file|]; try done.
      * by rewrite Hlf.
      * rewrite node_at_insert_ne by done. by rewrite Htp.
    + rewrite Hfc. unfold w3b. wsimpl. unfold m3. by rewrite !node_at_insert_ne.
    + by apply tempPathOf_not_prefix.
    + intros w0 H0. destruct (try_rm_file_or_missing p w0) as (w1 & H1 & H2);
        [by rewrite Rp|]. rewrite Rp in H2. eauto.
    + exists w5. split.
      * apply withRetry_first_success.
        rewrite (bind_ok _ _ _ _ _ Hstat). rewrite bind_assoc_run.
        rewrite (bind_ok _ _ _ _ _ Hcopy). rewrite (bind_ok _ _ _ _ _ Hut). done.
      * unfold arrives. split_and!.
        -- rewrite Hf5, Hfc. unfold w3b. wsimpl. unfold m5, m3. by apply installed_disk.
        -- rewrite Hl5, Hlc. done.
        -- rewrite Hq5, Hqc. done.
        -- rewrite Hd5, Hdc. unfold w3b, w3a. wsimpl. lia.
        -- rewrite Ht5, Htc. unfold w3b, w3a. wsimpl. by rewrite <- !app_assoc.
  - intros w5 Hf5. fold h tp. eexists. split.
    + unfold ignore_errors. erewrite try_catch_ok; [reflexivity|]. apply syscall_ok.
      rewrite Rtp, Hf5. apply rm_file_or_missing. unfold m5.
      rewrite node_at_insert_ne by done. rewrite node_at_delete; [done|].
      by apply node_at_None_nonroot in Htp.
    + unfold arrives. wsimpl. split_and!; try done; try lia.
      unfold m5. apply map_eq. intros k.
      destruct (decide (k = tp)) as [->|]; [|by rewrite lookup_delete_ne].
      rewrite lookup_delete_eq, lookup_insert_ne by done. by rewrite lookup_delete_eq.
  - fold lf id. unfold m5, m3. rewrite node_at_insert_ne by done.
    rewrite node_at_delete_ne by done. apply node_at_insert.
    by apply node_at_None_nonroot in Hlf.
  - exists w'. split; [done|]. fold h id lf tp in Harr.
    destruct Harr as (Hf & Hl' & Hq' & Hd' & Ht'). unfold arrives. split_and!; try done.
    rewrite Hf. unfold m5, m3. apply released_disk; try done; by apply node_at_None_lookup.
Qed.


Lemma atomicCopy_missing (s p : list string) (preserve : option bool) (w : World) :
  let h := hex 16 (entropy (draws w)) in
  let id := hex 32 (entropy (S (draws w))) in
  let lf := lockFileOf p in
  let tp := tempPathOf p h in
  canonical s → canonical p →
  p ∉ locks w → lockQueue w !! p = None →
  Fs.is_dir (fs w) (dirname p) = true →
  Fs.node_at (fs w) lf = None →
  Fs.node_at (fs w) tp = None →
  Fs.node_at (fs w) s = None → s ≠ lf →
  ∃ e w', atomicCopy win32 entropy s p preserve w = (inl e, w')
          ∧ arrives w w' (fs w) (locks w) 2
              ([SysMkdir (dirname p); SysWriteFile lf id true]
               ++ [SysStat s; Sleep 100] ++ [SysRm tp] ++ [SysUnlink lf]).
Proof.
  intros h id lf tp Hcs Hcan Hl Hq Hd Hlf Htp Hs Hsl.
  assert (Rs : resolve s = s) by by apply resolve_canonical.
  assert (Rtp : resolve tp = tp) by by apply resolve_canonical, canonical_tempPathOf.
  assert (Hlt : lf ≠ tp) by apply lockFileOf_ne_tempPathOf_spelled.
  set (m := fs w) in *. set (m3 := <[lf := File id]> m).
  set (e := Error (Fs.missing m3 s +:+ ": " +:+ "stat") (Some (Fs.missing m3 s))).
  rewrite atomicCopy_region.
  destruct (locked_region_run p
              (λ tempPath,
                 withRetry
                   (sourceStats ← fs_promises.stat s;
                    match sourceStats with
                    | Dir => fs_promises.cp s tempPath
                    | File _ =>
                        fs_promises.copyFile s tempPath;;
                        if default false preserve then fs_promises.utimes tempPath else mret ()
                    end;;
                    if negb win32 then fs_promises.rename tempPath p
                    else try_catch (fs_promises.rm p) (λ _, mret ());;
                         fs_promises.rename tempPath p)
                   ("atomic copy from " +:+ render s +:+ " to " +:+ render p)
                   (length RETRY_DELAYS))
              fs_promises.rm w
              (inl (retry_error ("atomic copy from " +:+ render s +:+ " to " +:+ render p)
                      (length RETRY_DELAYS) e))
              m3 m3 [SysStat s; Sleep 100] [SysRm tp])
    as (w' & Hrun & Harr); try done.
  - intros w3 Hf3. fold h tp. eexists. split.
    + apply (withRetry_permanent _ _ 4 w3 (log (SysStat s) w3) e).
      * apply bind_err.
        unfold fs_promises.stat, sysread, Fs.stat. rewrite Rs, Hf3. fold m lf id m3.
        unfold m3 at 1. rewrite node_at_insert_ne by done. by rewrite Hs.
      * apply missing_permanent.
    + unfold arrives. wsimpl. split_and!; try done; try lia. by rewrite <- app_assoc.
  - intros w5 Hf5. fold h tp. eexists. split.
    + unfold ignore_errors. erewrite try_catch_ok; [reflexivity|]. apply syscall_ok.
      rewrite Rtp, Hf5. unfold Fs.rm, m3. rewrite node_at_insert_ne by done.
      by rewrite Htp.
    + unfold arrives. wsimpl. split_and!; try done; lia.
  - fold lf id. unfold m3. apply node_at_insert. by apply node_at_None_nonroot in Hlf.
  - eexists _, w'. split; [done|]. fold h id lf tp in Harr.
    destruct Harr as (Hf & Hl' & Hq' & Hd' & Ht'). unfold arrives. split_and!; try done.
    rewrite Hf. unfold m3. apply node_at_None_lookup in Hlf. by rewrite delete_insert_eq, delete_id.
Qed.

(** Moving a backup file back onto its path. *)
Lemma atomicMove_file_ok (b p : list string) (cb : string) (w : World) :
  canonical b → canonical p →
  p ∉ locks w → lockQueue w !! p = None →
  Fs.is_dir (fs w) (dirname p) = true →
  Fs.is_dir (fs w) (dirname b) = true →
  Fs.node_at (fs w) b = Some (File cb) →
  Fs.node_at (fs w) p ≠ Some Dir →
  Fs.node_at (fs w) (lockFileOf p) = None →
  (∀ h, Fs.node_at (fs w) (tempPathOf p h) = None) →
  b ≠ p → ¬ b `prefix_of` p →
  ∃ w' k evs, atomicMove win32 dev entropy b p w = (inr (), w')
              ∧ arrives w w' (<[p := File cb]> (delete b (fs w))) (locks w) k evs.
Proof.
  intros Hcb Hcan Hl Hq Hd Hdb Hb Hp Hlf Htp Hbp Hpre.
  assert (Rb : resolve b = b) by by apply resolve_canonical.
  assert (Rp : resolve p = p) by by apply resolve_canonical.
  assert (Rd : resolve (dirname p) = dirname p) by by apply resolve_canonical, canonical_dirname.
  assert (Rdb : resolve (dirname b) = dirname b) by by apply resolve_canonical, canonical_dirname.
  assert (Rlf : resolve (lockFileOf p) = lockFileOf p)
    by by apply resolve_canonical, canonical_lockFileOf.
  assert (Hlp : lockFileOf p ≠ p) by apply lockFileOf_ne.
  assert (Hlb : lockFileOf p ≠ b) by (intros E; rewrite E in Hlf; congruence).
  set (lf := lockFileOf p) in *. set (m := fs w) in *.
  assert (∃ nb, Fs.node_at m (dirname b) = Some nb) as [nb Hnb].
  { apply bool_decide_eq_true in Hdb. eauto. }
  assert (∃ np, Fs.node_at m (dirname p) = Some np) as [np Hnp].
  { apply bool_decide_eq_true in Hd. eauto. }
  unfold atomicMove.
  erewrite bind_ok; cycle 1.
  { apply withRetry_first_success, mkdir_existing. by rewrite Rd. }
  set (w1 := set_fs (fs w) (log (SysMkdir (dirname p)) w)).
  set (w2 := log (SysStat (dirname b)) w1).
  set (w3 := log (SysStat (dirname p)) w2).
  assert (Hs1 : fs_promises.stat (dirname b) w1 = (inr nb, w2)).
  { apply stat_run. by rewrite Rdb. }
  assert (Hs2 : try_catch (n ← fs_promises.stat (dirname p); mret (Some n)) (λ _, mret None) w2
                = (inr (Some np), w3)).
  { erewrite try_catch_ok; [reflexivity|]. erewrite bind_ok; [reflexivity|].
    apply stat_run. by rewrite Rd. }
  destruct (decide (dev (resolve (dirname b)) = dev (resolve (dirname p)))) as [Hdev|Hdev].
  - (* same device: a rename under the lock *)
    destruct (acquireLock_ok p w3) as (w4 & Hrun4 & Hf4 & Hl4 & Hq4 & Hd4 & Ht4).
    { done. }
    { fold lf. rewrite Rlf. unfold lf. by rewrite dirname_lockFileOf. }
    { fold lf. by rewrite Rlf. }
    fold lf in Hf4, Ht4. rewrite Rlf in Hf4. unfold w3, w2, w1 in Hf4, Hl4, Hq4, Hd4, Ht4.
    revert Hf4 Hl4 Hq4 Hd4 Ht4. wsimpl. fold m. intros Hf4 Hl4 Hq4 Hd4 Ht4.
    set (id := hex 32 (entropy (draws w))) in *.
    destruct (install_run (fs_promises.rm p) (SysRm p) b p w4 cb)
      as (w5 & Hrun5 & Hf5 & Hl5 & Hq5 & Hd5 & Ht5); try done.
    + rewrite Hf4. by rewrite node_at_insert_ne.
    + rewrite Hf4. apply is_dir_insert_file; [done|]. by rewrite Hlf.
    + rewrite Hf4. by rewrite node_at_insert_ne.
    + intros w0 H0. destruct (try_rm_file_or_missing p w0) as (w' & H1 & H2);
        [by rewrite Rp|]. rewrite Rp in H2. eauto.
    + destruct (release_ok p w5 id) as (w6 & Hrun6 & Hf6 & Hl6 & Hq6 & Hd6 & Ht6).
      { fold lf. rewrite Rlf, Hf5, Hf4. rewrite node_at_insert_ne by done.
        rewrite node_at_delete_ne by done. apply node_at_insert.
        by apply node_at_None_nonroot in Hlf. }
      { by rewrite Hq5, Hq4. }
      fold lf in Hf6, Ht6. rewrite Rlf in Hf6.
      eexists w6, _, _. split.
      * erewrite try_catch_ok; [reflexivity|].
        rewrite (bind_ok _ _ _ _ _ Hs1). rewrite (bind_ok _ _ _ _ _ Hs2).
        rewrite bool_decide_true by (split; [by eexists|done]).
        rewrite (bind_ok _ _ _ _ _ Hrun4). unfold try_finally.
        rewrite (withRetry_first_success _ _ _ _ _ _ Hrun5). by rewrite Hrun6.
      * unfold arrives. split_and!.
        -- rewrite Hf6, Hf5, Hf4. apply map_eq. intros k.
           apply node_at_None_lookup in Hlf.
           destruct (decide (k = lf)) as [->|].
           { rewrite lookup_delete_eq, lookup_insert_ne, lookup_delete_ne by done. done. }
           rewrite lookup_delete_ne by done.
           destruct (decide (k = p)) as [->|]; [by rewrite !lookup_insert_eq|].
           rewrite !lookup_insert_ne by done.
           destruct (decide (k = b)) as [->|]; [by rewrite !lookup_delete_eq|].
           rewrite !lookup_delete_ne by done. by rewrite lookup_insert_ne.
        -- rewrite Hl6, Hl5, Hl4. by apply locks_restored.
        -- by rewrite Hq6, Hq5, Hq4.
        -- rewrite Hd6, Hd5, Hd4. rewrite <- !Nat.add_assoc. reflexivity.
        -- rewrite Ht6, Ht5, Ht4. rewrite <- !app_assoc. reflexivity.
  - (* across devices: a copy, then the source is removed *)
    destruct (atomicCopy_file_ok b p (Some true) cb w3)
      as (w4 & Hrun4 & Hf4 & Hl4 & Hq4 & Hd4 & Ht4); try done.
    set (w5 := set_fs (delete b (fs w4)) (log (SysRm b) w4)).
    assert (A1 : arrives w w3 m (locks w) 0
                   [SysMkdir (dirname p); SysStat (dirname b); SysStat (dirname p)]).
    { unfold arrives, w3, w2, w1. wsimpl. rewrite <- !app_assoc. split_and!; try done; lia. }
    assert (A2 : arrives w3 w4 (<[p := File cb]> (fs w3)) (locks w3) 2 _)
      by (unfold arrives; split_and!; [exact Hf4|exact Hl4|exact Hq4|exact Hd4|exact Ht4]).
    assert (A3 : arrives w4 w5 (delete b (fs w4)) (locks w4) 0 [SysRm b]).
    { unfold arrives, w5. wsimpl. split_and!; try done; lia. }
    exists w5. eexists _, _. split.
    + erewrite try_catch_ok; [reflexivity|].
      rewrite (bind_ok _ _ _ _ _ Hs1). rewrite (bind_ok _ _ _ _ _ Hs2).
      rewrite bool_decide_false by (intros [_ ?]; done).
      rewrite (bind_ok _ _ _ _ _ Hrun4).
      apply syscall_ok. rewrite Rb, Hf4. apply rm_file_or_missing.
      unfold w3, w2, w1. wsimpl. rewrite node_at_insert_ne by done. fold m. by rewrite Hb.
    + eapply arrives_change; [exact (arrives_trans _ _ _ _ _ _ _ _ _ _ _
                                       (arrives_trans _ _ _ _ _ _ _ _ _ _ _ A1 A2) A3)| |].
      * rewrite Hf4. unfold w3, w2, w1. wsimpl. fold m. apply map_eq. intros k.
        destruct (decide (k = b)) as [->|].
        { by rewrite lookup_delete_eq, lookup_insert_ne, lookup_delete_eq. }
        rewrite lookup_delete_ne by done.
        destruct (decide (k = p)) as [->|]; [by rewrite !lookup_insert_eq|].
        rewrite !lookup_insert_ne by done. by rewrite lookup_delete_ne.
      * rewrite Hl4. done.
Qed.

End Exact.

(** ** What a file-system call leaves alone *)

Lemma prefix_snoc_inv {A} (k l : list A) (x : A) :
  k `prefix_of` l ++ [x] → k = l ++ [x] ∨ k `prefix_of` l.
Proof.
  intros [k' Hk]. destruct k' as [|y k' _] using rev_ind.
  - left. by rewrite app_nil_r in Hk.
  - right. rewrite app_assoc in Hk. apply app_inj_tail in Hk as [-> _]. by eexists.
Qed.

Lemma without_lookup (m : gmap (list string) node) (a k : list string) :
  Fs.without m a !! k = if decide (a `prefix_of` k) then None else m !! k.
Proof.
  unfold Fs.without. destruct (decide (a `prefix_of` k)) as [Hp|Hp].
  - apply map_lookup_filter_None. right. intros n _ Hn. by apply Hn.
  - destruct (m !! k) as [n|] eqn:Hk.
    + by apply map_lookup_filter_Some.
    + apply map_lookup_filter_None. by left.
Qed.

Lemma node_at_without (m : gmap (list string) node) (a k : list string) :
  ¬ a `prefix_of` k → Fs.node_at (Fs.without m a) k = Fs.node_at m k.
Proof.
  intros Hp. destruct k as [|x k]; [done|]. simpl. by rewrite without_lookup, decide_False.
Qed.

Lemma node_at_without_below (m : gmap (list string) node) (a k : list string) :
  k ≠ [] → a `prefix_of` k → Fs.node_at (Fs.without m a) k = None.
Proof.
  intros Hk Hp. destruct k as [|x k]; [done|]. simpl. by rewrite without_lookup, decide_True.
Qed.

Lemma moved_lookup_off (m : gmap (list string) node) (a b k : list string) :
  ¬ b `prefix_of` k → Fs.moved m a b !! k = None.
Proof.
  intros Hp. unfold Fs.moved. apply not_elem_of_list_to_map.
  rewrite <- list_fmap_compose. intros Hin.
  apply list_elem_of_fmap in Hin as ([k0 n] & -> & _). simpl in Hp.
  apply Hp. by apply prefix_app_r.
Qed.

Lemma node_at_moved_union (m X : gmap (list string) node) (a b k : list string) :
  ¬ b `prefix_of` k → Fs.node_at (Fs.moved m a b ∪ X) k = Fs.node_at X k.
Proof.
  intros Hp. destruct k as [|x k]; [done|]. simpl.
  rewrite lookup_union_r; [done|]. by apply moved_lookup_off.
Qed.

(** [mkdir] adds directories at prefixes of its path that were absent,
    and changes no entry that was there. *)
Lemma mkdirp_frame (m m' : gmap (list string) node) (q k : list string) :
  Fs.mkdirp m q = inr m' →
  is_Some (Fs.node_at m k) ∨ ¬ k `prefix_of` q →
  Fs.node_at m' k = Fs.node_at m k.
Proof.
  unfold Fs.mkdirp. destruct (Fs.is_dir m q); [by intros [= <-]|].
  destruct (existsb _ _) eqn:Hanc; [done|].
  destruct (Fs.is_file m q) eqn:Hq; [done|]. intros [= <-] Hk.
  destruct k as [|x k]; [done|]. simpl.
  assert (Hpre : ∀ n, 1 ≤ n ≤ length q → take n q = x :: k → m !! (x :: k) = Some Dir
                                          ∨ m !! (x :: k) = None).
  { intros n Hn Heq.
    assert (Hnf : Fs.is_file m (x :: k) = false).
    { destruct (decide (n = length q)) as [->|Hne].
      - rewrite take_ge in Heq by lia. by rewrite <- Heq.
      - apply not_true_is_false. intros Hf.
        assert (existsb (Fs.is_file m) (ancestors q) = true); [|congruence].
        apply existsb_exists. exists (x :: k). split; [|done].
        apply list_elem_of_In. unfold ancestors. apply list_elem_of_fmap.
        exists n. split; [done|]. apply elem_of_seq. lia. }
    unfold Fs.is_file in Hnf. simpl in Hnf.
    destruct (m !! (x :: k)) as [[c|]|]; [done|by left|by right]. }
  assert (Hgen : ∀ l : list nat, (∀ n, n ∈ l → 1 ≤ n ≤ length q) →
            foldr (λ a acc, <[a := Dir]> acc) m ((λ n, take n q) <$> l) !! (x :: k)
            = m !! (x :: k)).
  { induction l as [|n l IH]; intros Hl; [done|]. simpl.
    destruct (decide (take n q = x :: k)) as [Heq|Hne].
    - rewrite Heq, lookup_insert_eq.
      destruct (Hpre n (Hl n ltac:(left)) Heq) as [H|H]; [done|].
      exfalso. destruct Hk as [[y Hy]|Hk].
      + simpl in Hy. congruence.
      + apply Hk. rewrite <- Heq. apply prefix_take.
    - rewrite lookup_insert_ne by done. apply IH. intros n' Hn'. apply Hl. by right. }
  apply Hgen. intros n Hn%elem_of_seq. lia.
Qed.

Lemma copyFile_inv (m m' : gmap (list string) node) (a b : list string) :
  Fs.copyFile m a b = inr m' →
  ∃ c, Fs.node_at m a = Some (File c) ∧ m' = <[b := File c]> m ∧ b ≠ [].
Proof.
  unfold Fs.copyFile. destruct (Fs.node_at m a) as [[c|]|]; [|done|done].
  destruct (negb _); [done|].
  destruct (Fs.node_at m b) as [[x|]|] eqn:Hb; [|done|]; intros [= <-]; exists c;
    (split_and!; [done|done|]); intros ->; done.
Qed.

(** [rm] changes nothing outside its path. *)
Lemma rm_frame (m m' : gmap (list string) node) (q k : list string) :
  Fs.rm m q = inr m' → ¬ q `prefix_of` k → Fs.node_at m' k = Fs.node_at m k.
Proof.
  unfold Fs.rm. destruct (Fs.node_at m q) as [[c|]|] eqn:Hq.
  - intros [= <-] Hk. apply node_at_delete_ne. by intros ->.
  - case_bool_decide; [done|]. intros [= <-] Hk. by apply node_at_without.
  - by intros [= <-].
Qed.

Lemma rm_gone (m m' : gmap (list string) node) (q : list string) :
  Fs.rm m q = inr m' → Fs.node_at m' q = None.
Proof.
  unfold Fs.rm. destruct (Fs.node_at m q) as [[c|]|] eqn:Hq.
  - intros [= <-]. apply node_at_delete. by eapply node_at_file_nonroot.
  - case_bool_decide as Hr; [done|]. intros [= <-]. by apply node_at_without_below.
  - by intros [= <-].
Qed.

(** [rename] changes nothing outside its two paths. *)
Lemma rename_frame (m m' : gmap (list string) node) (a b k : list string) :
  Fs.rename m a b = inr m' → ¬ a `prefix_of` k → ¬ b `prefix_of` k →
  Fs.node_at m' k = Fs.node_at m k.
Proof.
  unfold Fs.rename. destruct (Fs.node_at m a) as [na|] eqn:Ha; [|done].
  destruct (negb _); [done|]. case_bool_decide; [by intros [= <-]|].
  case_bool_decide; [done|]. intros Hr Hka Hkb.
  assert (Hfile : ∀ c, <[b := File c]> (delete a m) = m' → Fs.node_at m' k = Fs.node_at m k).
  { intros c <-. rewrite node_at_insert_ne by (by intros ->).
    apply node_at_delete_ne. by intros ->. }
  destruct na as [c|]; destruct (Fs.node_at m b) as [[x|]|] eqn:Hb; try done;
    try (injection Hr as Hr; by eapply Hfile).
  - destruct (Fs.has_children m b); [done|]. injection Hr as <-.
    rewrite node_at_moved_union by done. by rewrite !node_at_without.
  - injection Hr as <-. rewrite node_at_moved_union by done. by rewrite node_at_without.
Qed.

(** [cp] changes nothing outside its target, but for the directories
    it makes on the way there. *)
Lemma cp_frame (m m' : gmap (list string) node) (a b k : list string) :
  Fs.cp m a b = inr m' → ¬ b `prefix_of` k →
  is_Some (Fs.node_at m k) ∨ ¬ k `prefix_of` b →
  Fs.node_at m' k = Fs.node_at m k.
Proof.
  unfold Fs.cp. destruct (Fs.node_at m a) as [[c|]|] eqn:Ha; [| |done].
  - intros Hr Hkb Hk.
    assert (Hgo : ∀ m1, Fs.mkdirp m (dirname b) = inr m1 →
              Fs.node_at (<[b := File c]> m1) k = Fs.node_at m k).
    { intros m1 Hmk. rewrite node_at_insert_ne by (by intros ->).
      apply (mkdirp_frame _ _ _ _ Hmk). destruct Hk as [?|Hk]; [by left|right].
      intros Hp. apply Hk. etrans; [exact Hp|apply dirname_prefix]. }
    destruct (Fs.node_at m b) as [[x|]|]; [| done |];
      (destruct (Fs.mkdirp m (dirname b)) as [e|m1] eqn:Hmk; [done|]);
      injection Hr as <-; by apply Hgo.
  - case_bool_decide; [done|]. destruct (Fs.is_file m b); [done|].
    destruct (Fs.mkdirp m b) as [e|m1] eqn:Hmk; [done|]. intros [= <-] Hkb Hk.
    rewrite node_at_moved_union by done. by apply (mkdirp_frame _ _ _ _ Hmk).
Qed.

(** ** Transactions on a calm disk *)

Lemma private_lock (b : string) : private_name (b +:+ ".lock").
Proof. left. rewrite list_ascii_of_string_app. by apply suffix_app_r. Qed.

Lemma private_temp (b h : string) : private_name ("." +:+ b +:+ "." +:+ h +:+ ".tmp").
Proof.
  right. rewrite !list_ascii_of_string_app, !app_assoc. by apply suffix_app_r.
Qed.

Lemma hex_digit_in (v : N) : hex_digit v ∈ hex_digits.
Proof.
  unfold hex_digit. destruct (hex_digits !! N.to_nat v) as [s|] eqn:H; simpl.
  - by eapply list_elem_of_lookup_2.
  - unfold hex_digits. set_solver.
Qed.

Lemma hex_length (n : nat) (v : N) : String.length (hex n v) = n.
Proof.
  revert v. induction n as [|n IH]; intros v; [done|].
  change (hex (S n) v) with (hex n (v / 16) +:+ hex_digit (v `mod` 16)).
  rewrite string_app_length, IH.
  assert (String.length (hex_digit (v `mod` 16)) = 1); [|lia].
  assert (Forall (λ s, String.length s = 1) hex_digits) as Hall
    by (apply (bool_decide_unpack _); by vm_compute).
  rewrite Forall_forall in Hall. apply Hall, hex_digit_in.
Qed.

Lemma hex_not_private (n : nat) (v : N) : ¬ private_name (hex (S n) v).
Proof.
  change (hex (S n) v) with (hex n (v / 16) +:+ hex_digit (v `mod` 16)).
  assert (Forall (λ s, ∃ c, String.list_ascii_of_string s = [c]
                            ∧ last (String.list_ascii_of_string ".lock") ≠ Some c
                            ∧ last (String.list_ascii_of_string ".tmp") ≠ Some c)
                 hex_digits) as Hall.
  { unfold hex_digits. repeat constructor; eexists; (split; [reflexivity|]); by split. }
  rewrite Forall_forall in Hall.
  destruct (Hall _ (hex_digit_in (v `mod` 16))) as (c & Hc & H1 & H2).
  intros [[k Hk]|[k Hk]]; rewrite list_ascii_of_string_app, Hc in Hk;
    apply (f_equal last) in Hk; rewrite last_snoc, last_app in Hk; simpl in *; congruence.
Qed.

Lemma plain_backup_name (entropy : nat → N) (i : nat) : plain (backup_name entropy i).
Proof. apply plain_long. unfold backup_name. rewrite hex_length. lia. Qed.

Lemma basename_lockFileOf (p : list string) : basename (lockFileOf p) = basename p +:+ ".lock".
Proof. unfold lockFileOf. apply basename_snoc. Qed.

Lemma basename_tempPathOf (p : list string) (h : string) :
  basename (tempPathOf p h) = "." +:+ basename p +:+ "." +:+ h +:+ ".tmp".
Proof. unfold tempPathOf, join. apply basename_snoc. Qed.

Lemma private_lockFileOf (p : list string) : private_name (basename (lockFileOf p)).
Proof. rewrite basename_lockFileOf. apply private_lock. Qed.

Lemma private_tempPathOf (p : list string) (h : string) :
  private_name (basename (tempPathOf p h)).
Proof. rewrite basename_tempPathOf. apply private_temp. Qed.

Lemma unmarked_absent (m : gmap (list string) node) (k : list string) :
  unmarked m → private_name (basename k) → k ≠ [] → Fs.node_at m k = None.
Proof.
  intros Hm Hk Hne. rewrite node_at_nonroot by done.
  destruct (m !! k) as [n|] eqn:H; [|done]. by destruct (Hm k n H).
Qed.

Lemma lockFileOf_nonroot (p : list string) : lockFileOf p ≠ [].
Proof. unfold lockFileOf. by destruct (dirname p). Qed.

Lemma tempPathOf_nonroot (p : list string) (h : string) : tempPathOf p h ≠ [].
Proof. unfold tempPathOf, join. by destruct (dirname p). Qed.

Lemma unmarked_lock_absent (m : gmap (list string) node) (p : list string) :
  unmarked m → Fs.node_at m (lockFileOf p) = None.
Proof.
  intros. apply unmarked_absent; [done|apply private_lockFileOf|apply lockFileOf_nonroot].
Qed.

Lemma unmarked_temp_absent (m : gmap (list string) node) (p : list string) (h : string) :
  unmarked m → Fs.node_at m (tempPathOf p h) = None.
Proof.
  intros. apply unmarked_absent; [done|apply private_tempPathOf|apply tempPathOf_nonroot].
Qed.

Lemma unmarked_insert (m : gmap (list string) node) (k : list string) (n : node) :
  unmarked m → ¬ private_name (basename k) → unmarked (<[k := n]> m).
Proof. intros Hm Hk. by apply map_Forall_insert_2. Qed.

Lemma unmarked_delete (m : gmap (list string) node) (k : list string) :
  unmarked m → unmarked (delete k m).
Proof. intros Hm. by apply map_Forall_delete. Qed.

Lemma for_of_app {S A} (l1 l2 : list A) (body : A → ST S unit) (s : S) :
  for_of (l1 ++ l2) body s
  = match for_of l1 body s with
    | (inr _, s') => for_of l2 body s'
    | (inl e, s') => (inl e, s')
    end.
Proof.
  revert s. induction l1 as [|x l1 IH]; intros s; simpl; [done|].
  rewrite !bind_run. destruct (body x s) as [[e|[]] s']; [done|]. apply IH.
Qed.

Lemma for_of_liftW {A} (l : list A) (f : A → M unit) (tx : TransactionLog) (w : World) :
  for_of l (λ x, liftW (f x)) (tx, w) = ((for_of l f w).1, (tx, (for_of l f w).2)).
Proof.
  revert w. induction l as [|x l IH]; intros w; simpl; [done|].
  rewrite !bind_run, liftW_run. destruct (f x w) as [[e|[]] w']; [done|]. apply IH.
Qed.

Lemma undoes_nil (win32 : bool) (dev : list string → nat) (entropy : nat → N) (m : gmap (list string) node) :
  undoes win32 dev entropy [] m m.
Proof. intros w2 Hf Hl Hq. by exists w2. Qed.

Lemma undoes_app (win32 : bool) (dev : list string → nat) (entropy : nat → N) (a1 a2 : list Op) (m0 m1 m2 : gmap (list string) node) :
  undoes win32 dev entropy a1 m1 m0 → undoes win32 dev entropy a2 m2 m1 →
  undoes win32 dev entropy (a1 ++ a2) m2 m0.
Proof.
  intros H1 H2 w2 Hf Hl Hq. rewrite reverse_app, for_of_app.
  destruct (H2 w2 Hf Hl Hq) as (w3 & -> & Hf3 & Hl3 & Hq3).
  apply (H1 w3 Hf3 Hl3 Hq3).
Qed.

Lemma undoes_eq (win32 : bool) (dev : list string → nat) (entropy : nat → N) (a a' : list Op) (m0 m0' m1 m1' : gmap (list string) node) :
  undoes win32 dev entropy a m1 m0 → a = a' → m1 = m1' → m0 = m0' →
  undoes win32 dev entropy a' m1' m0'.
Proof. by intros H <- <- <-. Qed.

Section Transactions.

Context (win32 : bool) (dev : list string → nat) (entropy : nat → N).
Context (bdir : list string) (targets srcs : list (list string)) (d0 : nat).
Context (Hplaced : well_placed bdir (targets ++ srcs)).

Local Abbreviation B := (backup_path entropy bdir).

Lemma placed_path (u : list string) :
  u ∈ (targets ++ srcs) → canonical u ∧ ¬ private_name (basename u) ∧ ¬ bdir `prefix_of` u.
Proof. destruct Hplaced as [_ H]. rewrite Forall_forall in H. apply H. Qed.

Lemma placed_target (t : list string) :
  t ∈ targets → canonical t ∧ ¬ private_name (basename t) ∧ ¬ bdir `prefix_of` t.
Proof. intros. apply placed_path, elem_of_app. by left. Qed.

Lemma placed_source (s : list string) :
  s ∈ srcs → canonical s ∧ ¬ private_name (basename s) ∧ ¬ bdir `prefix_of` s.
Proof. intros. apply placed_path, elem_of_app. by right. Qed.

Lemma canonical_backup (i : nat) : canonical (B i).
Proof. apply canonical_snoc; [apply Hplaced|apply plain_backup_name]. Qed.

Lemma dirname_backup (i : nat) : dirname (B i) = bdir.
Proof. apply dirname_snoc. Qed.

Lemma backup_not_private (i : nat) : ¬ private_name (basename (B i)).
Proof. unfold backup_path, join. rewrite basename_snoc. apply hex_not_private. Qed.

Lemma backup_below (i : nat) : Fs.below bdir (B i).
Proof.
  split; [by apply prefix_app_r|]. intros H. apply (f_equal length) in H.
  unfold backup_path, join in H. rewrite length_app in H. simpl in H. lia.
Qed.

Lemma backup_not_path (i : nat) (u : list string) : u ∈ (targets ++ srcs) → B i ≠ u.
Proof.
  intros Hu <-. apply placed_path in Hu as (_ & _ & H). apply H. by apply prefix_app_r.
Qed.

Lemma backup_not_prefix (i : nat) (u : list string) :
  u ∈ (targets ++ srcs) → ¬ ((B i) `prefix_of` u).
Proof.
  intros Hu Hp. apply placed_path in Hu as (_ & _ & H). apply H.
  etrans; [|exact Hp]. by apply prefix_app_r.
Qed.

Lemma private_not_path (k u : list string) :
  u ∈ (targets ++ srcs) → private_name (basename k) → k ≠ u.
Proof. intros Hu Hk ->. by apply placed_path in Hu as (_ & H & _). Qed.

Lemma private_not_backup (k : list string) (i : nat) : private_name (basename k) → k ≠ B i.
Proof. intros Hk ->. by apply backup_not_private in Hk. Qed.

(** A calm disk stays calm when a target or a backup file is written,
    or a file is removed. *)

Lemma calm_facts (w : World) (t : list string) :
  calm entropy bdir targets srcs d0 w → t ∈ targets →
  canonical t ∧ (t ∉ locks w) ∧ lockQueue w !! t = None
  ∧ Fs.is_dir (fs w) (dirname t) = true
  ∧ Fs.node_at (fs w) t ≠ Some Dir
  ∧ Fs.node_at (fs w) (lockFileOf t) = None
  ∧ ∀ h, Fs.node_at (fs w) (tempPathOf t h) = None.
Proof.
  intros (Hl & Hq & Hm & Ht & Hs & Hb & Hk) Hin.
  rewrite Forall_forall in Ht. destruct (Ht t Hin) as [Hd Hn].
  split_and!; try done.
  - by apply placed_target.
  - rewrite Hl. set_solver.
  - by rewrite Hq.
  - by apply unmarked_lock_absent.
  - intros h. by apply unmarked_temp_absent.
Qed.

Lemma calm_backup_fresh (w : World) (n : nat) :
  calm entropy bdir targets srcs d0 w →
  fresh_names entropy d0 n → d0 ≤ draws w < d0 + n →
  Fs.node_at (fs w) (B (draws w)) = None.
Proof.
  intros (_ & _ & _ & _ & _ & _ & Hk) Hfresh Hd.
  unfold backup_path, join. rewrite node_at_snoc.
  destruct (fs w !! (bdir ++ [backup_name entropy (draws w)])) as [nd|] eqn:H; [|done].
  destruct (Hk _ _ H (backup_below _)) as (_ & i & Hi & Heq).
  apply app_inv_head in Heq. injection Heq as Heq.
  unfold fresh_names in Hfresh.
  assert (E1 : (backup_name entropy <$> seq d0 n) !! (draws w - d0)
               = Some (backup_name entropy (draws w))).
  { rewrite list_lookup_fmap, lookup_seq_lt by lia. simpl. do 2 f_equal. lia. }
  assert (E2 : (backup_name entropy <$> seq d0 n) !! (i - d0)
               = Some (backup_name entropy (draws w))).
  { rewrite list_lookup_fmap, lookup_seq_lt by lia. simpl. rewrite Heq. do 2 f_equal. lia. }
  pose proof (NoDup_lookup _ _ _ _ Hfresh E1 E2). lia.
Qed.


Lemma calm_idle (w : World) :
  calm entropy bdir targets srcs d0 w → locks w = ∅ ∧ lockQueue w = ∅.
Proof. by intros (? & ? & _). Qed.

Lemma calm_change (w w' : World) :
  calm entropy bdir targets srcs d0 w →
  locks w' = ∅ → lockQueue w' = ∅ → draws w ≤ draws w' →
  fs w' = fs w →
  calm entropy bdir targets srcs d0 w'.
Proof.
  intros (Hl & Hq & Hm & Ht & Hs & Hb & Hk) Hl' Hq' Hd Hf.
  unfold calm. rewrite Hf. split_and!; try done.
  eapply map_Forall_impl; [exact Hk|]. intros k n H Hbel.
  destruct (H Hbel) as (Hn & i & Hi & Hki). split; [done|]. exists i. split; [lia|done].
Qed.

Lemma calm_insert (w w' : World) (k : list string) (c : string) :
  calm entropy bdir targets srcs d0 w →
  locks w' = ∅ → lockQueue w' = ∅ → draws w ≤ draws w' →
  fs w' = <[k := File c]> (fs w) →
  Fs.node_at (fs w) k ≠ Some Dir →
  ¬ private_name (basename k) →
  (Fs.below bdir k → ∃ i, d0 ≤ i < draws w' ∧ k = B i) →
  calm entropy bdir targets srcs d0 w'.
Proof.
  intros (Hl & Hq & Hm & Ht & Hs & Hb & Hk) Hl' Hq' Hd Hf Hnk Hpk Hbk.
  unfold calm. rewrite Hf. split_and!; try done.
  - by apply unmarked_insert.
  - eapply Forall_impl; [exact Ht|]. intros t [H1 H2]. split.
    + by apply is_dir_insert_file.
    + destruct (decide (k = t)) as [->|Hne].
      * rewrite node_at_insert; [done|]. by apply not_dir_nonroot in H2.
      * by rewrite node_at_insert_ne.
  - eapply Forall_impl; [exact Hs|]. intros t H2.
    destruct (decide (k = t)) as [->|Hne].
    + rewrite node_at_insert; [done|]. by apply not_dir_nonroot in H2.
    + by rewrite node_at_insert_ne.
  - by apply is_dir_insert_file.
  - apply map_Forall_insert_2.
    + intros Hbel. split; [done|]. by apply Hbk.
    + eapply map_Forall_impl; [exact Hk|]. intros k' n H Hbel.
      destruct (H Hbel) as (Hn & i & Hi & Hki). split; [done|]. exists i. split; [lia|done].
Qed.

(** *** The steps of [rollback] *)

Lemma rollback_rm (ty : OpType) (t : list string) (w : World) :
  ty ≠ backup_op → canonical t →
  Fs.node_at (fs w) t ≠ Some Dir →
  ∃ w', rollback_step win32 dev entropy (mkOp ty t None) w = (inr (), w')
        ∧ fs w' = delete t (fs w) ∧ locks w' = locks w ∧ lockQueue w' = lockQueue w.
Proof.
  intros Hty Hc Hn.
  assert (Hrun : try_catch (fs_promises.rm t) (λ _, mret ()) w
                 = (inr (), set_fs (delete t (fs w)) (log (SysRm t) w))).
  { erewrite try_catch_ok; [reflexivity|]. apply syscall_ok.
    rewrite resolve_canonical by done. by apply rm_file_or_missing. }
  destruct ty; [done| |]; (eexists; split; [exact Hrun|by wsimpl]).
Qed.

Lemma rollback_mv (t b : list string) (old : string) (w : World) :
  canonical b → canonical t →
  locks w = ∅ → lockQueue w = ∅ →
  unmarked (fs w) →
  Fs.is_dir (fs w) (dirname t) = true →
  Fs.is_dir (fs w) (dirname b) = true →
  Fs.node_at (fs w) b = Some (File old) →
  Fs.node_at (fs w) t ≠ Some Dir →
  b ≠ t → ¬ (b `prefix_of` t) →
  ∃ w', rollback_step win32 dev entropy (mkOp backup_op t (Some b)) w = (inr (), w')
        ∧ fs w' = <[t := File old]> (delete b (fs w)) ∧ locks w' = ∅ ∧ lockQueue w' = ∅.
Proof.
  intros Hcb Hct Hl Hq Hm Hdt Hdb Hb Ht Hne Hpre.
  destruct (atomicMove_file_ok win32 dev entropy b t old w)
    as (w' & k & evs & Hrun & Hf & Hl' & Hq' & _); try done.
  - rewrite Hl. set_solver.
  - by rewrite Hq.
  - by apply unmarked_lock_absent.
  - intros h. by apply unmarked_temp_absent.
  - exists w'. split_and!; try done; try congruence.
    unfold rollback_step. simpl. by erewrite try_catch_ok.
Qed.


(** *** The methods of the transaction log *)

Lemma atomicWrite_calm (t : list string) (c : string) (w : World) :
  calm entropy bdir targets srcs d0 w → t ∈ targets →
  ∃ w', atomicWrite win32 entropy t c w = (inr (), w')
        ∧ arrives w w' (<[t := File c]> (fs w)) ∅ 2 (write_events win32 entropy t c (draws w)).
Proof.
  intros Hcalm Hin.
  destruct (calm_facts w t Hcalm Hin) as (Hc & Hl & Hq & Hd & Hn & Hlf & Htp).
  destruct (atomicWrite_ok win32 entropy t c w) as (w' & Hrun & Harr); try done.
  exists w'. split; [done|]. destruct Hcalm as (Hl0 & _). rewrite Hl0 in Harr.
  unfold write_events. by destruct win32.
Qed.

Lemma atomicCopy_calm_file (s t : list string) (cs : string) (w : World) :
  calm entropy bdir targets srcs d0 w → t ∈ targets → canonical s →
  Fs.node_at (fs w) s = Some (File cs) →
  ∃ w', atomicCopy win32 entropy s t None w = (inr (), w')
        ∧ arrives w w' (<[t := File cs]> (fs w)) ∅ 2
            (copy_events win32 entropy s t false (draws w)).
Proof.
  intros Hcalm Hin Hcs Hs.
  destruct (calm_facts w t Hcalm Hin) as (Hc & Hl & Hq & Hd & Hn & Hlf & Htp).
  destruct (atomicCopy_file_ok win32 entropy s t None cs w) as (w' & Hrun & Harr); try done.
  exists w'. split; [done|]. destruct Hcalm as (Hl0 & _). rewrite Hl0 in Harr.
  unfold copy_events. by destruct win32.
Qed.

Lemma atomicCopy_calm_missing (s t : list string) (w : World) :
  calm entropy bdir targets srcs d0 w → t ∈ targets → s ∈ srcs →
  Fs.node_at (fs w) s = None →
  ∃ e w' evs, atomicCopy win32 entropy s t None w = (inl e, w')
              ∧ arrives w w' (fs w) ∅ 2 evs.
Proof.
  intros Hcalm Hin Hsin Hs.
  destruct (calm_facts w t Hcalm Hin) as (Hc & Hl & Hq & Hd & Hn & Hlf & Htp).
  destruct (atomicCopy_missing win32 entropy s t None w) as (e & w' & Hrun & Harr); try done.
  - by apply placed_source.
  - apply not_eq_sym, private_not_path; [|apply private_lockFileOf].
    apply elem_of_app. by right.
  - exists e, w'. eexists. split; [done|]. destruct Hcalm as (Hl0 & _).
    rewrite Hl0 in Harr. exact Harr.
Qed.

Lemma access_run (p : list string) (w : World) :
  succeeds (fs_promises.access p) w
  = (inr (bool_decide (is_Some (Fs.node_at (fs w) (resolve p)))), log (SysAccess p) w).
Proof.
  unfold succeeds, try_catch, fs_promises.access. rewrite !bind_run.
  unfold sysread, Fs.stat. by destruct (Fs.node_at (fs w) (resolve p)) as [n|].
Qed.

(** The backup of a target: nothing for a missing one, a fresh copy in
    the backup root and its record for a file. *)
Lemma backup_run (t : list string) (ops : list Op) (w : World) (n : nat) :
  calm entropy bdir targets srcs d0 w → t ∈ targets →
  fresh_names entropy d0 n → d0 ≤ draws w → draws w + 3 ≤ d0 + n →
  ∃ w1 k evs,
    backup win32 entropy t (mkTx ops bdir, w)
    = (inr (), (mkTx (ops ++ backup_record entropy bdir t (fs w) (draws w)) bdir, w1))
    ∧ arrives w w1 (backed_up entropy bdir t (fs w) (draws w)) ∅ k
        (SysAccess t :: evs)
    ∧ k ≤ 3
    ∧ (∀ old, Fs.node_at (fs w) t = Some (File old) →
         k = 3 ∧ evs = copy_events win32 entropy t (B (draws w)) false (S (draws w))
         ∧ Fs.node_at (fs w) (B (draws w)) = None)
    ∧ (Fs.node_at (fs w) t = None → k = 0 ∧ evs = [])
    ∧ calm entropy bdir targets srcs d0 w1.
Proof.
  intros Hcalm Hin Hfresh Hd0 Hdn.
  destruct (calm_facts w t Hcalm Hin) as (Hc & Hl & Hq & Hd & Hn & Hlf & Htp).
  destruct (calm_idle w Hcalm) as [Hl0 Hq0].
  assert (Rt : resolve t = t) by by apply resolve_canonical.
  unfold backup. rewrite bind_run, liftW_run, access_run. cbn [fst snd]. rewrite Rt.
  unfold backup_record, backed_up.
  destruct (Fs.node_at (fs w) t) as [[old|]|] eqn:Ht; [|done|].
  - (* the target is a file *)
    rewrite bool_decide_true by by eexists. cbn [negb].
    change (this ≫= ?f) with (λ s : TransactionLog * World, f s.1 s). cbn beta. cbn [fst].
    rewrite bind_run, liftW_run. cbn [snd backupDir].
    rewrite (randomHex_run entropy 8 (log (SysAccess t) w)). cbn [fst snd].
    change (hex (2 * 8) (entropy (draws (log (SysAccess t) w))))
      with (backup_name entropy (draws w)).
    change (join bdir (backup_name entropy (draws w))) with (B (draws w)).
    set (w0 := set_draws (S (draws (log (SysAccess t) w))) (log (SysAccess t) w)).
    assert (Hfs0 : fs w0 = fs w) by done.
    assert (Hbfresh : Fs.node_at (fs w) (B (draws w)) = None).
    { eapply calm_backup_fresh; [done|done|lia]. }
    assert (Hcalm0 : calm entropy bdir targets srcs d0 w0).
    { eapply calm_change; [exact Hcalm|done|done|unfold w0; wsimpl; lia|done]. }
    destruct (atomicCopy_file_ok win32 entropy t (B (draws w)) None old w0)
      as (w1 & Hrun & Hf1 & Hl1 & Hq1 & Hd1 & Ht1); try done.
    + apply canonical_backup.
    + unfold w0. wsimpl. rewrite Hl0. set_solver.
    + unfold w0. wsimpl. by rewrite Hq0.
    + rewrite dirname_backup. apply Hcalm.
    + rewrite Hfs0, Hbfresh. done.
    + rewrite Hfs0. apply unmarked_lock_absent, Hcalm.
    + rewrite Hfs0. apply unmarked_temp_absent, Hcalm.
    + rewrite bind_run, liftW_run, Hrun. cbn [fst snd].
      exists w1, 3. eexists. split_and!.
      * reflexivity.
      * unfold arrives. split_and!.
        -- by rewrite Hf1, Hfs0.
        -- rewrite Hl1. unfold w0. wsimpl. done.
        -- rewrite Hq1. done.
        -- rewrite Hd1. unfold w0. wsimpl. lia.
        -- rewrite Ht1. unfold w0. wsimpl. rewrite <- app_assoc. reflexivity.
      * done.
      * intros old' [= <-]. split_and!; [done| |done].
        unfold copy_events, w0. wsimpl. by destruct win32.
      * done.
      * eapply (calm_insert w0 w1 (B (draws w)) old); try done.
        -- rewrite Hl1. unfold w0. wsimpl. done.
        -- by rewrite Hq1.
        -- lia.
        -- by rewrite Hfs0, Hbfresh.
        -- apply backup_not_private.
        -- intros _. exists (draws w). split; [|done]. rewrite Hd1. unfold w0. wsimpl. lia.
  - (* the target is missing *)
    rewrite bool_decide_false by (by intros [? ?]). cbn [negb].
    exists (log (SysAccess t) w), 0, []. split_and!.
    + by rewrite app_nil_r.
    + unfold arrives. wsimpl. split_and!; first [done|lia].
    + lia.
    + done.
    + done.
    + eapply calm_change; [exact Hcalm|done|done|wsimpl; lia|done].
Qed.


Lemma push_run (op : Op) (ops : list Op) (b : list string) (w : World) :
  push op (mkTx ops b, w) = (inr (), (mkTx (ops ++ [op]) b, w)).
Proof. reflexivity. Qed.

Lemma backed_up_other (t u : list string) (m : gmap (list string) node) (d : nat) :
  u ∈ (targets ++ srcs) →
  Fs.node_at (backed_up entropy bdir t m d) u = Fs.node_at m u.
Proof.
  intros Hu. unfold backed_up. destruct (Fs.node_at m t) as [[old|]|]; try done.
  rewrite node_at_insert_ne; [done|]. by apply backup_not_path.
Qed.

Lemma command_run (c : command) (ops : list Op) (w : World) (n : nat) :
  calm entropy bdir targets srcs d0 w →
  target c ∈ targets → (∀ s, s ∈ sources c → s ∈ srcs) →
  fresh_names entropy d0 n → d0 ≤ draws w → draws w + 5 ≤ d0 + n →
  ∃ r w',
    run_command win32 entropy c (mkTx ops bdir, w)
    = (r, (mkTx (ops ++ expected_records entropy bdir c (fs w) (draws w)) bdir, w'))
    ∧ fs w' = expected_disk entropy bdir c (fs w) (draws w)
    ∧ draws w ≤ draws w' ≤ draws w + 5
    ∧ calm entropy bdir targets srcs d0 w'.
Proof.
  intros Hcalm Hin Hsrc Hfresh Hd0 Hdn.
  destruct (backup_run (target c) ops w n) as
    (w1 & k & evs & Hb & (Hf1 & Hl1 & Hq1 & Hd1 & Ht1) & Hk & _ & _ & Hcalm1);
    try done; [lia|].
  destruct (calm_facts w1 (target c) Hcalm1 Hin) as (Hc & _ & _ & _ & Hn1 & _ & _).
  assert (Htp := placed_target _ Hin).
  assert (Hqe : lockQueue w1 = ∅) by (by destruct Hcalm1 as (_ & ? & _)).
  assert (Hnb : ∀ u, Fs.below bdir (target c) → u) by
    (intros u [Hpre _]; by destruct Htp as (_ & _ & Hnp)).
  destruct c as [t x|s t]; simpl in Hin, Hb, Hf1, Hn1, Hc, Htp, Hnb; unfold run_command.
  - (* write *)
    destruct (atomicWrite_calm t x w1 Hcalm1 Hin) as (w2 & Hw & Hf2 & Hl2 & Hq2 & Hd2 & Ht2).
    exists (inr ()), w2. split_and!.
    + unfold write. rewrite bind_run, Hb. rewrite bind_run, liftW_run, Hw. cbn [fst snd].
      rewrite push_run. unfold expected_records. cbn [target]. by rewrite app_assoc.
    + unfold expected_disk. cbn [target]. by rewrite Hf2, Hf1.
    + lia.
    + lia.
    + eapply (calm_insert w1 w2 t x); try done;
        first [congruence|lia|apply Htp|apply Hnb].
  - (* copy *)
    assert (Hs : s ∈ srcs) by (apply Hsrc; simpl; by left).
    assert (Hs1 : Fs.node_at (fs w1) s = Fs.node_at (fs w) s).
    { rewrite Hf1. apply backed_up_other, elem_of_app. by right. }
    destruct (Fs.node_at (fs w) s) as [[cs|]|] eqn:Hns.
    + destruct (atomicCopy_calm_file s t cs w1 Hcalm1 Hin) as
        (w2 & Hw & Hf2 & Hl2 & Hq2 & Hd2 & Ht2); [by apply placed_source|done|].
      exists (inr ()), w2. split_and!.
      * unfold copy. rewrite bind_run, Hb. rewrite bind_run, liftW_run, Hw. cbn [fst snd].
        rewrite push_run. unfold expected_records. cbn [target]. rewrite Hns.
        by rewrite app_assoc.
      * unfold expected_disk. cbn [target]. by rewrite Hns, Hf2, Hf1.
      * lia.
      * lia.
      * eapply (calm_insert w1 w2 t cs); try done;
          first [congruence|lia|apply Htp|apply Hnb].
    + destruct Hcalm as (_ & _ & _ & _ & Hsr & _). rewrite Forall_forall in Hsr.
      by destruct (Hsr s Hs).
    + destruct (atomicCopy_calm_missing s t w1 Hcalm1 Hin Hs) as
        (e & w2 & evs2 & Hw & Hf2 & Hl2 & Hq2 & Hd2 & Ht2); [done|].
      exists (inl e), w2. split_and!.
      * unfold copy. rewrite bind_run, Hb. rewrite bind_run, liftW_run, Hw. cbn [fst snd].
        unfold expected_records. cbn [target]. rewrite Hns. by rewrite app_nil_r.
      * unfold expected_disk. cbn [target]. by rewrite Hns, Hf2, Hf1.
      * lia.
      * lia.
      * eapply (calm_change w1 w2); try done; first [congruence|lia].
Qed.


(** *** Undoing one command *)

Lemma undo_mutation (ty : OpType) (t : list string) (x : string)
    (m1 : gmap (list string) node) :
  ty ≠ backup_op → canonical t → t ≠ [] →
  undoes win32 dev entropy [mkOp ty t None] (<[t := File x]> m1) (delete t m1).
Proof.
  intros Hty Hc Hne w2 Hf Hl Hq.
  destruct (rollback_rm ty t w2 Hty Hc) as (w3 & Hrun & Hf3 & Hl3 & Hq3).
  { rewrite Hf, node_at_insert by done. congruence. }
  exists w3. split_and!.
  - change (reverse [mkOp ty t None]) with [mkOp ty t None]. simpl.
    by rewrite bind_run, Hrun.
  - rewrite Hf3, Hf. apply delete_insert_eq.
  - congruence.
  - congruence.
Qed.

Lemma undo_backup (t : list string) (w : World) (n : nat) (del : bool) :
  calm entropy bdir targets srcs d0 w → t ∈ targets →
  fresh_names entropy d0 n → d0 ≤ draws w < d0 + n →
  undoes win32 dev entropy (backup_record entropy bdir t (fs w) (draws w))
    (if del then delete t (backed_up entropy bdir t (fs w) (draws w))
     else backed_up entropy bdir t (fs w) (draws w))
    (if del then match Fs.node_at (fs w) t with
                 | Some (File _) => fs w
                 | _ => delete t (fs w)
                 end
     else fs w).
Proof.
  intros Hcalm Hin Hfresh Hd.
  destruct (calm_facts w t Hcalm Hin) as (Hc & _ & _ & Hdt & Hnt & _ & _).
  assert (HB := calm_backup_fresh w n Hcalm Hfresh Hd).
  assert (Hbd : Fs.is_dir (fs w) bdir = true) by (by destruct Hcalm as (_&_&_&_&_&?&_)).
  assert (Hum : unmarked (fs w)) by (by destruct Hcalm as (_&_&?&_)).
  assert (Hbt : B (draws w) ≠ t) by (apply backup_not_path, elem_of_app; by left).
  assert (Hbp : ¬ B (draws w) `prefix_of` t) by (apply backup_not_prefix, elem_of_app; by left).
  assert (Hbn : B (draws w) ≠ []) by (by eapply node_at_None_nonroot).
  unfold backup_record, backed_up.
  destruct (Fs.node_at (fs w) t) as [[old|]|] eqn:Ht; [|done|by destruct del; apply undoes_nil].
  assert (Htn : t ≠ []) by (by eapply node_at_file_nonroot).
  intros w2 Hf Hl Hq.
  destruct (rollback_mv t (B (draws w)) old w2) as (w3 & Hrun & Hf3 & Hl3 & Hq3); try done.
  - apply canonical_backup.
  - rewrite Hf. destruct del.
    + apply unmarked_delete, unmarked_insert; [done|apply backup_not_private].
    + apply unmarked_insert; [done|apply backup_not_private].
  - rewrite Hf. destruct del.
    + apply is_dir_delete; [apply is_dir_insert_file; [done|congruence]|].
      rewrite node_at_insert_ne by done. congruence.
    + apply is_dir_insert_file; [done|congruence].
  - rewrite dirname_backup, Hf. destruct del.
    + apply is_dir_delete; [apply is_dir_insert_file; [done|congruence]|].
      rewrite node_at_insert_ne by done. congruence.
    + apply is_dir_insert_file; [done|congruence].
  - rewrite Hf. destruct del.
    + rewrite node_at_delete_ne by done. by apply node_at_insert.
    + by apply node_at_insert.
  - rewrite Hf. destruct del.
    + rewrite node_at_delete by done. congruence.
    + rewrite node_at_insert_ne by done. congruence.
  - exists w3. split_and!; try done.
    + simpl. by rewrite bind_run, Hrun.
    + rewrite Hf3, Hf. apply node_at_None_lookup in HB.
      assert (Hlt : fs w !! t = Some (File old)) by (by rewrite <- node_at_nonroot).
      apply map_eq. intros k.
      destruct (decide (k = t)) as [->|Hkt]; [by rewrite lookup_insert_eq; destruct del|].
      rewrite lookup_insert_ne by done.
      destruct (decide (k = B (draws w))) as [->|Hkb].
      { rewrite lookup_delete_eq. by destruct del. }
      rewrite lookup_delete_ne by done.
      destruct del; [rewrite lookup_delete_ne by done|]; by rewrite lookup_insert_ne.
Qed.

Lemma command_undo (c : command) (w : World) (n : nat) :
  calm entropy bdir targets srcs d0 w → target c ∈ targets →
  fresh_names entropy d0 n → d0 ≤ draws w < d0 + n →
  undoes win32 dev entropy (expected_records entropy bdir c (fs w) (draws w))
    (expected_disk entropy bdir c (fs w) (draws w)) (fs w).
Proof.
  intros Hcalm Hin Hfresh Hd.
  destruct (calm_facts w (target c) Hcalm Hin) as (Hc & _ & _ & _ & Hnt & _ & _).
  assert (Htn := not_dir_nonroot _ _ Hnt).
  assert (Hmut : ∀ ty x, ty ≠ backup_op →
    undoes win32 dev entropy
      (backup_record entropy bdir (target c) (fs w) (draws w) ++ [mkOp ty (target c) None])
      (<[target c := File x]> (backed_up entropy bdir (target c) (fs w) (draws w))) (fs w)).
  { intros ty x Hty. eapply undoes_app; [|by apply undo_mutation].
    eapply undoes_eq; [apply (undo_backup (target c) w n true); done|done|done|].
    destruct (Fs.node_at (fs w) (target c)) as [[old|]|] eqn:Ht; [done|done|].
    apply delete_id. by apply node_at_None_lookup. }
  unfold expected_records, expected_disk.
  destruct c as [t x|s t]; simpl in *; [by apply Hmut|].
  destruct (Fs.node_at (fs w) s) as [[cs|]|]; [by apply Hmut| |];
    rewrite app_nil_r; by apply (undo_backup t w n false).
Qed.

Lemma expected_block (c : command) (m m0 : gmap (list string) node) (d : nat) :
  (Fs.is_file m0 (target c) = true → Fs.is_file m (target c) = true) →
  journal_block bdir m0 c (expected_records entropy bdir c m d).
Proof.
  intros Hmono. unfold expected_records.
  eexists _, _. split_and!; [reflexivity| | |].
  - unfold backup_record. destruct (Fs.node_at m (target c)) as [[old|]|]; eauto.
  - destruct c as [t x|s t]; simpl; [by right|].
    destruct (Fs.node_at m s) as [[cs|]|]; eauto.
  - intros H%Hmono. unfold Fs.is_file in H. unfold backup_record.
    by destruct (Fs.node_at m (target c)) as [[old|]|].
Qed.

Lemma expected_disk_file (c : command) (m : gmap (list string) node) (d : nat) (t : list string) :
  Fs.node_at m (B d) = None ∨ Fs.is_file m (target c) = false →
  Fs.node_at m (target c) ≠ Some Dir →
  Fs.is_file m t = true → Fs.is_file (expected_disk entropy bdir c m d) t = true.
Proof.
  intros HB Hnd Ht.
  assert (H1 : Fs.is_file (backed_up entropy bdir (target c) m d) t = true).
  { unfold backed_up. destruct (Fs.node_at m (target c)) as [[old|]|] eqn:Hc; try done.
    destruct HB as [HB|HB]; [|by unfold Fs.is_file in HB; rewrite Hc in HB].
    unfold Fs.is_file. rewrite node_at_insert_ne; [done|]. intros <-.
    unfold Fs.is_file in Ht. by rewrite HB in Ht. }
  assert (H2 : ∀ x, Fs.is_file (<[target c := File x]> (backed_up entropy bdir (target c) m d)) t
                    = true).
  { intros x. unfold Fs.is_file. destruct (decide (target c = t)) as [Heq|Hne].
    - rewrite Heq, node_at_insert; [done|]. rewrite <- Heq. by eapply not_dir_nonroot.
    - by rewrite node_at_insert_ne. }
  unfold expected_disk. destruct c as [p x|s p]; simpl in *; [apply H2|].
  destruct (Fs.node_at m s) as [[cs|]|]; [apply H2|done|done].
Qed.

(** *** A command on a target that is a file *)

Lemma command_on_file_run (c : command) (ops : list Op) (w : World) (n : nat)
    (old : string) :
  calm entropy bdir targets srcs d0 w →
  target c ∈ targets →
  (∀ s, s ∈ sources c → s ∈ srcs ∧ Fs.is_file (fs w) s = true) →
  fresh_names entropy d0 n → d0 ≤ draws w → draws w + 5 ≤ d0 + n →
  Fs.node_at (fs w) (target c) = Some (File old) →
  ∃ w',
    run_command win32 entropy c (mkTx ops bdir, w)
    = (inr (), (mkTx (ops ++ [mkOp backup_op (target c) (Some (B (draws w)));
                              mutation_record c]) bdir, w'))
    ∧ events_since w w'
      = SysAccess (target c)
        :: copy_events win32 entropy (target c) (B (draws w)) false (S (draws w))
        ++ mutation_events win32 entropy c (draws w + 3)
    ∧ Fs.node_at (fs w) (B (draws w)) = None
    ∧ Fs.node_at (fs w') (B (draws w)) = Some (File old).
Proof.
  intros Hcalm Hin Hsrc Hfresh Hd0 Hdn Hold.
  destruct (backup_run (target c) ops w n) as
    (w1 & k & evs & Hb & (Hf1 & Hl1 & Hq1 & Hd1 & Ht1) & Hk & Hfile & _ & Hcalm1);
    try done; [lia|].
  destruct (Hfile old Hold) as (-> & -> & HB).
  unfold backup_record in Hb. unfold backed_up in Hf1. rewrite Hold in Hb, Hf1.
  assert (Hbt : B (draws w) ≠ target c) by (apply backup_not_path, elem_of_app; by left).
  assert (Hbn : B (draws w) ≠ []) by (by eapply node_at_None_nonroot).
  assert (Hev : ∀ w2 evs2, trace w2 = trace w1 ++ evs2 →
            events_since w w2
            = SysAccess (target c)
              :: copy_events win32 entropy (target c) (B (draws w)) false (S (draws w))
              ++ evs2).
  { intros w2 evs2 Ht2. unfold events_since.
    by rewrite Ht2, Ht1, <- app_assoc, drop_app_length. }
  assert (Hkeep : ∀ w2 x, fs w2 = <[target c := File x]> (fs w1) →
            Fs.node_at (fs w2) (B (draws w)) = Some (File old)).
  { intros w2 x ->. rewrite node_at_insert_ne by done. rewrite Hf1. by apply node_at_insert. }
  destruct c as [t x|s t]; simpl in *; unfold run_command.
  - destruct (atomicWrite_calm t x w1 Hcalm1 Hin) as (w2 & Hw & Hf2 & Hl2 & Hq2 & Hd2 & Ht2).
    exists w2. split_and!; [|rewrite Hd1 in Ht2; by apply Hev|done|by eapply Hkeep].
    unfold write. rewrite bind_run, Hb. rewrite bind_run, liftW_run, Hw. cbn [fst snd].
    rewrite push_run. by rewrite <- app_assoc.
  - destruct (Hsrc s) as [Hs Hsf]; [by left|].
    assert (Hs1 : Fs.node_at (fs w1) s = Fs.node_at (fs w) s).
    { rewrite Hf1. apply node_at_insert_ne, backup_not_path, elem_of_app. by right. }
    unfold Fs.is_file in Hsf. destruct (Fs.node_at (fs w) s) as [[cs|]|] eqn:Hns; try done.
    destruct (atomicCopy_calm_file s t cs w1 Hcalm1 Hin) as
      (w2 & Hw & Hf2 & Hl2 & Hq2 & Hd2 & Ht2); [by apply placed_source|done|].
    exists w2. split_and!; [|rewrite Hd1 in Ht2; by apply Hev|done|by eapply Hkeep].
    unfold copy. rewrite bind_run, Hb. rewrite bind_run, liftW_run, Hw. cbn [fst snd].
    rewrite push_run. by rewrite <- app_assoc.
Qed.

(** *** A whole client *)

Lemma run_all_run (cs : list command) : ∀ (ops : list Op) (w : World) (n : nat),
  calm entropy bdir targets srcs d0 w →
  Forall (λ c, target c ∈ targets ∧ ∀ s, s ∈ sources c → s ∈ srcs) cs →
  fresh_names entropy d0 n → d0 ≤ draws w → draws w + 5 * length cs ≤ d0 + n →
  ∃ blocks w',
    run_all win32 entropy cs (mkTx ops bdir, w)
    = (inr (), (mkTx (ops ++ concat blocks) bdir, w'))
    ∧ calm entropy bdir targets srcs d0 w'
    ∧ undoes win32 dev entropy (concat blocks) (fs w') (fs w)
    ∧ Forall2 (journal_block bdir (fs w)) cs blocks
    ∧ (∀ t, Fs.is_file (fs w) t = true → Fs.is_file (fs w') t = true).
Proof.
  induction cs as [|c cs IH]; intros ops w n Hcalm Hcs Hfresh Hd0 Hdn.
  - exists [], w. simpl. rewrite app_nil_r.
    split_and!; first [done|apply undoes_nil|constructor].
  - apply Forall_cons in Hcs as [[Hin Hsrc] Hcs]. simpl in Hdn.
    destruct (command_run c ops w n) as (r & w1 & Hrun & Hf1 & Hd1 & Hcalm1);
      try done; [lia|].
    destruct (IH (ops ++ expected_records entropy bdir c (fs w) (draws w)) w1 n)
      as (blocks & w' & Hrest & Hcalm' & Hundo & Hblocks & Hfiles); try done; [lia|lia|].
    assert (Hmono : ∀ t, Fs.is_file (fs w) t = true → Fs.is_file (fs w1) t = true).
    { intros t Ht. rewrite Hf1. apply expected_disk_file; [| |done].
      - left. apply (calm_backup_fresh w n); [done|done|lia].
      - by destruct (calm_facts w (target c) Hcalm Hin) as (_ & _ & _ & _ & ? & _). }
    exists (expected_records entropy bdir c (fs w) (draws w) :: blocks), w'. split_and!.
    + unfold run_all. simpl. rewrite bind_run.
      assert (Htry : try_catch (run_command win32 entropy c) (λ _, mret ())
                       (mkTx ops bdir, w)
                     = (inr (), (mkTx (ops ++ expected_records entropy bdir c (fs w) (draws w))
                                      bdir, w1))).
      { unfold try_catch. rewrite Hrun. by destruct r as [e|[]]. }
      rewrite Htry. unfold run_all in Hrest. rewrite Hrest. by rewrite app_assoc.
    + done.
    + simpl. eapply undoes_app; [|exact Hundo]. rewrite Hf1.
      apply (command_undo c w n); [done|done|done|lia].
    + constructor.
      * by apply expected_block.
      * eapply Forall2_impl; [exact Hblocks|]. intros c' blk (bks & muts & ? & ? & ? & Hb).
        exists bks, muts. split_and!; try done. intros Hf. apply Hb. by apply Hmono.
    + intros t Ht. by apply Hfiles, Hmono.
Qed.

End Transactions.

(** *** From the start of a transaction *)

Lemma calm_start_calm (entropy : nat → N) (bdir : list string)
    (targets srcs : list (list string)) (w : World) :
  calm_start bdir targets srcs w → calm entropy bdir targets srcs (draws w) w.
Proof.
  intros (Hl & Hq & Hm & Ht & Hs & Hb & Hk). split_and!; try done.
  intros k nd Hlook Hbelow. by destruct (Hk k nd Hlook).
Qed.

Lemma client_placed (cs : list command) :
  Forall (λ c, target c ∈ (target <$> cs) ∧ ∀ s, s ∈ sources c → s ∈ cs ≫= sources) cs.
Proof.
  apply Forall_forall. intros c Hc. split.
  - apply list_elem_of_fmap. eauto.
  - intros s Hs. apply list_elem_of_bind. eauto.
Qed.

Lemma backups_of_blocks (bdir : list string) (m0 : gmap (list string) node)
    (t : list string) (cs : list command) (blocks : list (list Op)) :
  Forall2 (journal_block bdir m0) cs blocks → Fs.is_file m0 t = true →
  length (backups_of t (concat blocks)) = length (commands_on t cs).
Proof.
  intros H Ht. induction H as [|c blk cs blocks (bks & muts & -> & Hb & Hm & Hne) _ IH];
    [done|].
  unfold backups_of, commands_on in *. simpl. rewrite !filter_app, !length_app, IH.
  assert (Hmuts : filter (λ op, op_type op = backup_op ∧ op_path op = t) muts = []).
  { destruct Hm as [->| ->]; [done|]. by destruct c. }
  rewrite Hmuts. simpl. rewrite Nat.add_0_r.
  destruct (decide (target c = t)) as [Heq|Hneq].
  - rewrite filter_cons_True by done. simpl. f_equal.
    destruct Hb as [->|(name & ->)]; [exfalso; apply Hne; [by rewrite Heq|done]|].
    by rewrite filter_cons_True, filter_nil.
  - rewrite filter_cons_False by done.
    destruct Hb as [->|(name & ->)]; [done|].
    rewrite filter_cons_False; [done|]. simpl. by intros [_ ?].
Qed.

(** On a calm disk a rollback gives back the disk itself.  A client
    runs any commands of a transaction, going on after the ones that
    fail, and then rolls back.  The disk is calm at the start: no lock is held,
    nothing is named like a lock marker or a temporary file, every
    target has its parent directory, targets and copy sources are files
    or absent, and the backup root exists, is empty and holds no target;
    the random backup names are pairwise distinct.  Then [rollback]
    returns and the disk is the one from before the transaction: each
    target that was a file reads back its bytes and each target that
    was absent is absent again. *)
Theorem rollback_restores_calm_disk (win32 : bool) (dev : list string → nat)
    (entropy : nat → N) (bdir : list string) (cs : list command) (w0 : World) :
  well_placed bdir ((target <$> cs) ++ (cs ≫= sources)) →
  calm_start bdir (target <$> cs) (cs ≫= sources) w0 →
  fresh_names entropy (draws w0) (5 * length cs) →
  ∃ tx' w',
    (run_all win32 entropy cs;; rollback win32 dev entropy) (mkTx [] bdir, w0)
    = (inr (), (tx', w'))
    ∧ fs w' = fs w0
    ∧ (∀ c old, c ∈ cs → Fs.read (fs w0) (target c) = inr old →
                Fs.read (fs w') (target c) = inr old)
    ∧ (∀ c, c ∈ cs → Fs.node_at (fs w0) (target c) = None →
            Fs.node_at (fs w') (target c) = None).
Proof.
  intros Hplaced Hstart Hfresh.
  destruct (run_all_run win32 dev entropy bdir _ _ (draws w0) Hplaced cs [] w0
              (5 * length cs))
    as (blocks & w1 & Hrun & Hcalm1 & Hundo & _ & _); try done.
  - by apply calm_start_calm.
  - apply client_placed.
  - destruct Hcalm1 as (Hl1 & Hq1 & _).
    destruct (Hundo w1 eq_refl Hl1 Hq1) as (w3 & Hroll & Hf3 & _).
    exists (mkTx (reverse (concat blocks)) bdir), w3.
    assert (Heq : fs w3 = fs w0) by done.
    split_and!; [|done|by intros c old _; rewrite Heq|by intros c _; rewrite Heq].
    rewrite bind_run, Hrun.
    change (rollback win32 dev entropy (mkTx ([] ++ concat blocks) bdir, w1))
      with (for_of (reverse (concat blocks))
              (λ op, liftW (rollback_step win32 dev entropy op))
              (mkTx (reverse (concat blocks)) bdir, w1)).
    by rewrite for_of_liftW, Hroll.
Qed.

Lemma rollback_restores_calm_disk_witness :
  well_placed ["tmp"; "tx"] ((target <$> sample_client) ++ (sample_client ≫= sources))
  ∧ calm_start ["tmp"; "tx"] (target <$> sample_client) (sample_client ≫= sources)
      project_disk
  ∧ fresh_names counting (draws project_disk) (5 * length sample_client)
  ∧ ∃ tx' w',
      (run_all false counting sample_client;; rollback false one_device counting)
        (mkTx [] ["tmp"; "tx"], project_disk)
      = (inr (), (tx', w'))
      ∧ fs w' = fs project_disk
      ∧ (∀ c old, c ∈ sample_client → Fs.read (fs project_disk) (target c) = inr old →
                  Fs.read (fs w') (target c) = inr old)
      ∧ (∀ c, c ∈ sample_client → Fs.node_at (fs project_disk) (target c) = None →
              Fs.node_at (fs w') (target c) = None).
Proof.
  assert (H1 : well_placed ["tmp"; "tx"]
                 ((target <$> sample_client) ++ (sample_client ≫= sources)))
    by (apply (bool_decide_unpack _); vm_compute; exact I).
  assert (H2 : calm_start ["tmp"; "tx"] (target <$> sample_client)
                 (sample_client ≫= sources) project_disk)
    by (apply (bool_decide_unpack _); vm_compute; exact I).
  assert (H3 : fresh_names counting (draws project_disk) (5 * length sample_client))
    by (apply (bool_decide_unpack _); vm_compute; exact I).
  split_and!; [exact H1|exact H2|exact H3|].
  exact (rollback_restores_calm_disk false one_device counting ["tmp"; "tx"]
           sample_client project_disk H1 H2 H3).
Defined.


(** ** The lock table and the marker files *)

(** *** The timeout of a queued caller *)

(** C4 fails on the code.  A caller takes the lock of "f" and keeps it;
    a second caller of [acquireLock] on "f" is queued, and its timer
    fires 30 s later.  The call fails with the lock timeout error, as
    claimed, but the timer looked for [resolve] in an array that holds
    [wrappedResolve]: nothing was spliced out, and the entry of the
    caller is still in the waiter queue of "f". *)
Example lock_timeout_leaves_waiter_queued :
  let '(r1, w1) := acquireLock counting ["f"] empty_world in
  let '(r2, w2) := acquireLock counting ["f"] w1 in
  (if r1 is inr _ then True else False)
  ∧ locks w1 = {[ ["f"] ]}
  ∧ (if r2 is inl e then e = Error "Lock timeout: f" None else False)
  ∧ events_since w1 w2 = [Sleep LOCK_TIMEOUT]
  ∧ promises w2 = {[ 0 := Rejected ]}
  ∧ lockQueue w2 = {[ ["f"] := 1 ]}
  ∧ arrays w2 = {[ 1 := [WrappedResolve 0] ]}
  ∧ indexOf (Resolve 0) [WrappedResolve 0] = None.
Proof. vm_compute. done. Qed.

(** *** The pieces of [acquireLock] that only touch the tables *)

Ltac steps_pure :=
  first [apply steps_ret | apply steps_get | apply steps_throw]; try apply _.

Ltac steps_seq := apply steps_bind; [apply _| |intros ?].

Ltac keeps_fs :=
  repeat first
    [ steps_pure
    | apply steps_modify; intros ?; reflexivity
    | steps_seq ].

Lemma settle_keeps_fs (pid : nat) (st : promise_state) : steps (keeps fs) (settle pid st).
Proof.
  unfold settle. apply steps_modify. intros w. unfold keeps.
  by destruct (promises w !! pid) as [[| |]|].
Qed.

Lemma call_keeps_fs (f : callback) : steps (keeps fs) (call f).
Proof. destruct f; apply settle_keeps_fs. Qed.

Lemma enqueue_keeps_fs (path : list string) : steps (keeps fs) (enqueue path).
Proof. unfold enqueue, new_promise. keeps_fs. Qed.

Lemma on_timeout_keeps_fs (path : list string) (pid queue : nat) :
  steps (keeps fs) (on_timeout path pid queue).
Proof.
  unfold on_timeout. steps_seq; [steps_pure|]. 
  steps_seq; [|apply settle_keeps_fs].
  destruct (indexOf _ _); keeps_fs.
Qed.

Lemma wake_next_keeps_fs (path : list string) : steps (keeps fs) (wake_next path).
Proof.
  unfold wake_next. steps_seq; [steps_pure|].
  destruct (lockQueue _ !! path) as [queue|]; [|steps_pure].
  destruct (default [] (arrays _ !! queue)) as [|next rest]; [steps_pure|].
  steps_seq; [by apply steps_modify|].
  steps_seq; [apply call_keeps_fs|].
  case_bool_decide; [by apply steps_modify|steps_pure].
Qed.

Lemma clear_lock_keeps_fs (path : list string) : steps (keeps fs) (clear_lock path).
Proof.
  unfold clear_lock. steps_seq; [by apply steps_modify|]. apply wake_next_keeps_fs.
Qed.

Lemma randomHex_keeps_fs (entropy : nat → N) (n : nat) :
  steps (keeps fs) (randomHex entropy n).
Proof. unfold randomHex. keeps_fs. Qed.

(** *** Interleaved callers: owners and their markers *)

Section Exclusion.

Context (entropy : nat → N).

Import Tasks.

Lemma enter_keeps_fs (path : list string) : steps (keeps fs) (enter entropy path).
Proof.
  unfold enter. steps_seq; [apply randomHex_keeps_fs|]. steps_seq; [steps_pure|].
  cbv zeta. case_bool_decide.
  - steps_seq; [apply enqueue_keeps_fs|]. keeps_fs.
  - keeps_fs.
Qed.

Lemma enter_not_owner (path : list string) (w w' : World) (id : string) (st : task_state) :
  enter entropy path w = (inr (id, st), w') → owner st = false.
Proof.
  unfold enter. rewrite !bind_run.
  destruct (randomHex entropy 16 w) as [[e|lockId] w1]; [done|]. rewrite bind_get.
  case_bool_decide.
  - rewrite !bind_run. destruct (enqueue path w1) as [[e|pq] w2]; [done|].
    rewrite bind_get. by intros [= _ <- _].
  - by intros [= _ <- _].
Qed.

Lemma timer_fires_keeps_fs (path : list string) (pid queue : nat) :
  steps (keeps fs) (timer_fires path pid queue).
Proof. unfold timer_fires. steps_seq; [apply on_timeout_keeps_fs|steps_pure]. Qed.

Lemma resume_keeps_fs (path : list string) : steps (keeps fs) (resume path).
Proof. unfold resume. keeps_fs. Qed.

Lemma abandon_keeps_fs (path : list string) (e : error) : steps (keeps fs) (abandon path e).
Proof. unfold abandon. steps_seq; [apply clear_lock_keeps_fs|steps_pure]. Qed.

Lemma after_failure_keeps_fs (path : list string) (i : nat) (e : error) :
  steps (keeps fs) (after_failure path i e).
Proof.
  unfold after_failure. case_bool_decide; [apply abandon_keeps_fs|keeps_fs].
Qed.

Lemma after_backoff_keeps_fs (path : list string) (i : nat) (e : error) :
  steps (keeps fs) (after_backoff path i e).
Proof.
  unfold after_backoff. destruct (is_permanent e); [apply abandon_keeps_fs|steps_pure].
Qed.

Lemma after_unlink_keeps_fs (path : list string) : steps (keeps fs) (after_unlink path).
Proof. unfold after_unlink. steps_seq; [apply clear_lock_keeps_fs|steps_pure]. Qed.

Lemma timer_fires_result (path : list string) (pid queue : nat) (w w' : World) st :
  timer_fires path pid queue w = (inr st, w') → owner st = false.
Proof.
  unfold timer_fires. rewrite bind_run.
  destruct (on_timeout path pid queue w) as [[e|[]] w1]; [done|]. by intros [= <- _].
Qed.

Lemma resume_result (path : list string) (w w' : World) st :
  resume path w = (inr st, w') → owner st = false.
Proof. by intros [= <- _]. Qed.

Lemma abandon_result (path : list string) (e : error) (w w' : World) st :
  abandon path e w = (inr st, w') → owner st = false.
Proof.
  unfold abandon. rewrite bind_run.
  destruct (clear_lock path w) as [[e'|[]] w1]; [done|]. by intros [= <- _].
Qed.

Lemma after_failure_result (path : list string) (i : nat) (e : error) (w w' : World) st :
  after_failure path i e w = (inr st, w') → owner st = false.
Proof.
  unfold after_failure. case_bool_decide; [apply abandon_result|]. by intros [= <- _].
Qed.

Lemma after_backoff_result (path : list string) (i : nat) (e : error) (w w' : World) st :
  after_backoff path i e w = (inr st, w') → owner st = false.
Proof.
  unfold after_backoff. destruct (is_permanent e); [apply abandon_result|].
  by intros [= <- _].
Qed.

Lemma after_unlink_result (path : list string) (w w' : World) st :
  after_unlink path w = (inr st, w') → owner st = false.
Proof.
  unfold after_unlink. rewrite bind_run.
  destruct (clear_lock path w) as [[e'|[]] w1]; [done|]. by intros [= <- _].
Qed.

(** The invariant survives a change of one task when the markers of
    the other owners stay files and the task, if it now owns a marker,
    has it on disk and shares it with no other owner. *)
Lemma exclusive_update (s : system) (tid : nat) (t' : task) (w' : World) :
  exclusive s →
  (∀ tid0 t0, tid0 ≠ tid → tasks s !! tid0 = Some t0 → owner (state t0) = true →
              Fs.is_file (fs w') (marker t0) = true) →
  (owner (state t') = true →
   Fs.is_file (fs w') (marker t') = true
   ∧ ∀ tid0 t0, tid0 ≠ tid → tasks s !! tid0 = Some t0 → owner (state t0) = true →
                marker t0 ≠ marker t') →
  exclusive (mkSystem w' (<[tid := t']> (tasks s))).
Proof.
  intros Hex Hothers Hself tid1 t1 Hl1 Ho1. simpl in *.
  apply lookup_insert_Some in Hl1 as [[<- <-]|[Hne1 Hl1]].
  - destruct (Hself Ho1) as [Hfile Hfresh]. split; [done|].
    intros tid2 t2 Hl2 Ho2 Hm.
    apply lookup_insert_Some in Hl2 as [[<- <-]|[Hne2 Hl2]]; [done|].
    by destruct (Hfresh tid2 t2 (not_eq_sym Hne2) Hl2 Ho2).
  - split; [by eapply Hothers|].
    intros tid2 t2 Hl2 Ho2 Hm.
    apply lookup_insert_Some in Hl2 as [[<- <-]|[Hne2 Hl2]].
    + destruct (Hself Ho2) as [_ Hfresh].
      by destruct (Hfresh tid1 t1 (not_eq_sym Hne1) Hl1 Ho1).
    + destruct (Hex tid1 t1 Hl1 Ho1) as [_ Huniq]. by eapply Huniq.
Qed.

Lemma exclusive_same_fs (s : system) (w' : World) :
  exclusive s → fs w' = fs (world s) → exclusive (mkSystem w' (tasks s)).
Proof.
  intros Hex Hfs tid t Hl Ho. simpl in *. rewrite Hfs.
  destruct (Hex tid t Hl Ho) as [Hfile Huniq]. split; [done|]. exact Huniq.
Qed.

(** A piece of code that leaves the disk alone and does not make its
    task an owner, unless it was one. *)
Lemma advance_quiet (s : system) (tid : nat) (k : list string) (id : string)
    (st0 : task_state) (block : M task_state) :
  exclusive s →
  tasks s !! tid = Some (mkTask k id st0) →
  steps (keeps fs) block →
  (∀ st w', block (world s) = (inr st, w') → owner st = true → owner st0 = true) →
  exclusive (advance tid k id block s).
Proof.
  intros Hex Hl Hfs Hown. unfold advance. specialize (Hfs (world s)). unfold keeps in Hfs.
  destruct (block (world s)) as [[e|st] w'] eqn:Hrun; simpl in Hfs.
  - by apply exclusive_same_fs.
  - apply exclusive_update; [done| |].
    + intros tid0 t0 _ Hl0 Ho0. rewrite Hfs. by destruct (Hex tid0 t0 Hl0 Ho0).
    + intros Ho. specialize (Hown st w' eq_refl Ho).
      destruct (Hex tid _ Hl Hown) as [Hfile Huniq]. rewrite Hfs. split; [done|].
      intros tid0 t0 Hne Hl0 Ho0 Hm. by apply Hne, (Huniq tid0 t0).
Qed.

Lemma start_exclusive (s : system) (tid : nat) (path : list string) :
  exclusive s → tasks s !! tid = None → exclusive (start entropy tid path s).
Proof.
  intros Hex Hl. unfold start.
  assert (Hfs := enter_keeps_fs path (world s)). unfold keeps in Hfs.
  destruct (enter entropy path (world s)) as [[e|[id st]] w'] eqn:Hrun; simpl in Hfs.
  - by apply exclusive_same_fs.
  - apply exclusive_update; [done| |].
    + intros tid0 t0 _ Hl0 Ho0. rewrite Hfs. by destruct (Hex tid0 t0 Hl0 Ho0).
    + simpl. by rewrite (enter_not_owner _ _ _ _ _ Hrun).
Qed.

Lemma marker_io_exclusive (s : system) (tid : nat) (k : list string) (id : string)
    (i : nat) :
  exclusive s → tasks s !! tid = Some (mkTask k id (Creating i)) →
  exclusive (advance tid k id (marker_io k id i) s).
Proof.
  intros Hex Hl. unfold advance, marker_io, try_catch, fs_promises.writeFile.
  rewrite bind_run. unfold syscall.
  destruct (Fs.writeFile (fs (world s)) (resolve (lockFileOf k)) id true) as [c|m'] eqn:Hw;
    simpl.
  - apply exclusive_update; [done| |done].
    intros tid0 t0 _ Hl0 Ho0. by destruct (Hex tid0 t0 Hl0 Ho0).
  - assert (Hnew : Fs.node_at (fs (world s)) (resolve (lockFileOf k)) = None
                   ∧ m' = <[resolve (lockFileOf k) := File id]> (fs (world s))).
    { unfold Fs.writeFile in Hw. destruct (negb _); [done|].
      destruct (Fs.node_at _ _); [done|]. by injection Hw as <-. }
    destruct Hnew as [Hnone ->].
    assert (Hnroot := node_at_None_nonroot _ _ Hnone).
    apply exclusive_update; [done| |].
    + intros tid0 t0 _ Hl0 Ho0. destruct (Hex tid0 t0 Hl0 Ho0) as [Hfile _].
      simpl. unfold Fs.is_file in *. rewrite node_at_insert_ne; [done|].
      intros Heq. rewrite <- Heq, Hnone in Hfile. done.
    + intros _. simpl. unfold marker. simpl. split.
      * unfold Fs.is_file. by rewrite node_at_insert.
      * intros tid0 t0 _ Hl0 Ho0 Heq. destruct (Hex tid0 t0 Hl0 Ho0) as [Hfile _].
        unfold Fs.is_file in Hfile. unfold marker in Heq, Hfile. simpl in Heq.
        by rewrite Heq, Hnone in Hfile.
Qed.

Lemma unlink_io_exclusive (s : system) (tid : nat) (k : list string) (id : string) :
  exclusive s → tasks s !! tid = Some (mkTask k id Unlinking) →
  exclusive (advance tid k id (unlink_io k) s).
Proof.
  intros Hex Hl. unfold advance, unlink_io, ignore_errors, try_catch, fs_promises.unlink.
  rewrite bind_run. unfold syscall.
  destruct (Hex tid _ Hl eq_refl) as [Hmine Huniq].
  destruct (Fs.unlink (fs (world s)) (resolve (lockFileOf k))) as [c|m'] eqn:Hu; simpl.
  - apply exclusive_update; [done| |done].
    intros tid0 t0 _ Hl0 Ho0. by destruct (Hex tid0 t0 Hl0 Ho0).
  - assert (m' = delete (resolve (lockFileOf k)) (fs (world s))) as ->.
    { unfold Fs.unlink in Hu. destruct (Fs.node_at _ _) as [[x|]|]; try done.
      by injection Hu as <-. }
    apply exclusive_update; [done| |done].
    intros tid0 t0 Hne Hl0 Ho0. destruct (Hex tid0 t0 Hl0 Ho0) as [Hfile _].
    simpl. unfold Fs.is_file in *. rewrite node_at_delete_ne; [done|].
    intros Heq. apply Hne, (Huniq tid0 t0); [done|done|]. by unfold marker.
Qed.

Lemma step_exclusive (s s' : system) : step entropy s s' → exclusive s → exclusive s'.
Proof.
  intros Hstep Hex. destruct Hstep.
  - by apply start_exclusive.
  - eapply advance_quiet; [done|done|apply timer_fires_keeps_fs|].
    intros st w' Hrun Ho. by rewrite (timer_fires_result _ _ _ _ _ _ Hrun) in Ho.
  - eapply advance_quiet; [done|done|apply resume_keeps_fs|].
    intros st w' Hrun Ho. by rewrite (resume_result _ _ _ _ Hrun) in Ho.
  - by apply marker_io_exclusive.
  - eapply advance_quiet; [done|done|steps_pure|]. done.
  - eapply advance_quiet; [done|done|apply after_failure_keeps_fs|].
    intros st w' Hrun Ho. by rewrite (after_failure_result _ _ _ _ _ _ Hrun) in Ho.
  - eapply advance_quiet; [done|done|apply after_backoff_keeps_fs|].
    intros st w' Hrun Ho. by rewrite (after_backoff_result _ _ _ _ _ _ Hrun) in Ho.
  - eapply advance_quiet; [done|done|steps_pure|]. done.
  - by apply unlink_io_exclusive.
  - eapply advance_quiet; [done|done|apply after_unlink_keeps_fs|].
    intros st w' Hrun Ho. by rewrite (after_unlink_result _ _ _ _ Hrun) in Ho.
  - by apply exclusive_same_fs.
Qed.

Lemma reachable_exclusive (w0 : World) (s : system) : reachable entropy w0 s → exclusive s.
Proof.
  induction 1 as [|s s' _ IH Hstep].
  - intros tid t Hl. simpl in Hl. by rewrite lookup_empty in Hl.
  - by eapply step_exclusive.
Qed.

End Exclusion.

Lemma same_file_same_marker (k1 k2 : list string) :
  k1 ≠ [] → k2 ≠ [] → plain (basename k1) → plain (basename k2) →
  resolve k1 = resolve k2 → resolve (lockFileOf k1) = resolve (lockFileOf k2).
Proof.
  intros H1 H2 Hp1 Hp2 Heq. rewrite !resolve_lockFileOf.
  rewrite <- (dirname_basename k1), <- (dirname_basename k2) in Heq by done.
  rewrite !resolve_snoc_plain in Heq by done.
  apply app_inj_tail in Heq as [-> ->]. done.
Qed.

(** C3, as the code has it.  Callers of [acquireLock] interleave at
    its awaits, in any order and with any delays, from any disk.  The
    key of the lock table is the path as the caller spelled it, so the
    table alone keeps apart only callers that spell the path alike;
    what keeps all holders apart is the marker file, created with the
    exclusive flag: two callers that hold at the same instant and whose
    markers are the same file are one and the same caller.  Spellings
    of one file whose last segment is a plain name have the same marker
    file. *)
Theorem holders_of_one_marker_coincide (entropy : nat → N) (w0 : World)
    (s : Tasks.system) (tid1 tid2 : nat) (k1 k2 : list string) :
  Tasks.reachable entropy w0 s →
  Tasks.holds s tid1 k1 → Tasks.holds s tid2 k2 →
  resolve (lockFileOf k1) = resolve (lockFileOf k2)
  ∨ (k1 ≠ [] ∧ k2 ≠ [] ∧ plain (basename k1) ∧ plain (basename k2)
     ∧ resolve k1 = resolve k2) →
  tid1 = tid2.
Proof.
  intros Hreach (id1 & Hl1) (id2 & Hl2) Hsame.
  assert (Hm : resolve (lockFileOf k1) = resolve (lockFileOf k2)).
  { destruct Hsame as [?|(? & ? & ? & ? & ?)]; [done|by apply same_file_same_marker]. }
  destruct (reachable_exclusive entropy w0 s Hreach tid2 _ Hl2 eq_refl) as [_ Huniq].
  by apply (Huniq tid1 _ Hl1).
Qed.

Lemma holders_of_one_marker_coincide_witness :
  Tasks.reachable counting empty_world lone_holder
  ∧ Tasks.holds lone_holder 0 ["a"]
  ∧ resolve (lockFileOf ["a"]) = resolve (lockFileOf ["a"])
  ∧ 0 = 0.
Proof.
  assert (H0 : Tasks.reachable counting empty_world lone_caller).
  { eapply Tasks.reachable_step; [apply Tasks.reachable_init|].
    apply (Tasks.step_call counting 0 ["a"]). reflexivity. }
  assert (H1 : Tasks.reachable counting empty_world lone_creator).
  { eapply Tasks.reachable_step; [exact H0|].
    apply (Tasks.step_marker_io counting 0 ["a"] (hex 32 (counting 0)) 0).
    vm_compute. reflexivity. }
  assert (H2 : Tasks.reachable counting empty_world lone_holder).
  { eapply Tasks.reachable_step; [exact H1|].
    apply (Tasks.step_acquired counting 0 ["a"] (hex 32 (counting 0))).
    vm_compute. reflexivity. }
  assert (H3 : Tasks.holds lone_holder 0 ["a"]).
  { exists (hex 32 (counting 0)). vm_compute. reflexivity. }
  split_and!; [exact H2|exact H3|reflexivity|].
  apply (holders_of_one_marker_coincide counting empty_world lone_holder 0 0 ["a"] ["a"]
           H2 H3 H3).
  left. reflexivity.
Defined.

(** The claim C3 fails on the key of the lock.  A caller holds the
    lock of "a"; a second caller spells the same file "./a".  It is not
    queued behind the holder, as a caller that spells it "a" is: it
    finds no entry for its key, enters the table next to the holder
    and goes on to the marker file.  There it fails, the marker being
    taken: after waits of 100, 500 and 1000 ms it gives up with the
    error of the marker, not with a lock timeout after 30 s. *)
Example respelled_path_is_not_queued :
  let w := Tasks.world lone_holder in
  let respelled := Tasks.start counting 1 ["."; "a"] lone_holder in
  let same := Tasks.start counting 1 ["a"] lone_holder in
  let r := (acquireLock counting ["."; "a"] w).1 in
  let w' := (acquireLock counting ["."; "a"] w).2 in
  Tasks.holds lone_holder 0 ["a"]
  ∧ resolve ["."; "a"] = resolve ["a"]
  ∧ Tasks.state <$> Tasks.tasks respelled !! 1 = Some (Tasks.Creating 0)
  ∧ locks (Tasks.world respelled) = {[ ["a"]; ["."; "a"] ]}
  ∧ lockQueue (Tasks.world respelled) = ∅
  ∧ Tasks.state <$> Tasks.tasks same !! 1 = Some (Tasks.Queued 0 1 LOCK_TIMEOUT)
  ∧ lockQueue (Tasks.world same) = {[ ["a"] := 1 ]}
  ∧ (if r is inl e
     then message e = "acquiring lock on ./a failed after 3 retries: EEXIST: open"
     else False)
  ∧ sleeps (events_since w w') = [100; 500; 1000]%N.
Proof.
  cbv zeta. split_and!; [by exists (hex 32 (counting 0))|by vm_compute..].
Qed.

(** ** Every exit of [atomicWrite] *)

(** *** Siblings of the target *)

Lemma resolve_sibling_ne (p : list string) (x : string) :
  plain x → String.length (basename p) < String.length x →
  resolve (dirname p ++ [x]) ≠ resolve p.
Proof.
  intros Hx Hlen. rewrite resolve_snoc_plain by done.
  destruct p as [|b d _] using rev_ind.
  - intros Heq. apply (f_equal length) in Heq. rewrite length_app in Heq. simpl in Heq. lia.
  - rewrite dirname_snoc. rewrite basename_snoc in Hlen.
    unfold resolve at 2. rewrite foldl_snoc. fold (resolve d). unfold resolve_step.
    repeat case_bool_decide.
    + intros Heq. apply (f_equal length) in Heq. rewrite length_app in Heq. simpl in Heq. lia.
    + intros Heq. apply (f_equal length) in Heq.
      rewrite length_app, length_dirname in Heq. simpl in Heq. lia.
    + intros Heq. apply app_inj_tail in Heq as [_ ->]. lia.
Qed.

Lemma resolve_lockFileOf_ne (p : list string) : resolve (lockFileOf p) ≠ resolve p.
Proof.
  apply resolve_sibling_ne; [apply plain_lock|].
  rewrite string_app_length. simpl. lia.
Qed.

Lemma resolve_tempPathOf_ne (p : list string) (h : string) :
  resolve (tempPathOf p h) ≠ resolve p.
Proof.
  apply resolve_sibling_ne; [apply plain_temp|].
  rewrite !string_app_length. simpl. lia.
Qed.

Lemma resolve_tempPathOf_nonroot (p : list string) (h : string) :
  resolve (tempPathOf p h) ≠ [].
Proof. rewrite resolve_tempPathOf. by destruct (resolve (dirname p)). Qed.

(** *** What the file-system calls do to one path *)

Lemma writeFile_inv (m m' : gmap (list string) node) (q : list string) (c : string)
    (excl : bool) :
  Fs.writeFile m q c excl = inr m' →
  m' = <[q := File c]> m ∧ q ≠ [] ∧ (excl = true → Fs.node_at m q = None).
Proof.
  unfold Fs.writeFile. destruct (negb _); [done|].
  destruct (Fs.node_at m q) as [[x|]|] eqn:Hq; destruct excl; try done;
    intros [= <-]; split_and!; try done; intros ->; done.
Qed.

Lemma unlink_inv (m m' : gmap (list string) node) (q : list string) :
  Fs.unlink m q = inr m' →
  m' = delete q m ∧ ∃ x, Fs.node_at m q = Some (File x).
Proof.
  unfold Fs.unlink. destruct (Fs.node_at m q) as [[x|]|]; try done.
  intros [= <-]. eauto.
Qed.

Lemma rename_inv (m m' : gmap (list string) node) (a b : list string) :
  Fs.node_at m a ≠ Some Dir → Fs.rename m a b = inr m' →
  ∃ c, Fs.node_at m a = Some (File c) ∧ Fs.node_at m' b = Some (File c)
       ∧ Fs.node_at m' a ≠ Some Dir.
Proof.
  intros Ha. unfold Fs.rename.
  destruct (Fs.node_at m a) as [[c|]|] eqn:Hna; [|done|done].
  assert (Hane : a ≠ []) by (by eapply node_at_file_nonroot).
  destruct (negb _); [done|]. case_bool_decide as Hab.
  { intros [= <-]. subst b. exists c. by rewrite Hna. }
  case_bool_decide; [done|].
  destruct (Fs.node_at m b) as [[x|]|] eqn:Hnb; [|done|]; intros [= <-]; exists c.
  - assert (b ≠ []) by (by eapply node_at_file_nonroot).
    rewrite node_at_insert by done. rewrite node_at_insert_ne by done.
    by rewrite node_at_delete.
  - assert (b ≠ []) by (by eapply node_at_None_nonroot).
    rewrite node_at_insert by done. rewrite node_at_insert_ne by done.
    by rewrite node_at_delete.
Qed.

Lemma mkdirp_longer (m m' : gmap (list string) node) (q k : list string) :
  Fs.mkdirp m q = inr m' → length q < length k → Fs.node_at m' k = Fs.node_at m k.
Proof.
  unfold Fs.mkdirp. destruct (Fs.is_dir m q); [by intros [= <-]|].
  destruct (existsb _ _); [done|]. destruct (Fs.is_file m q); [done|].
  intros [= <-] Hlen. destruct k as [|x k]; [done|]. simpl.
  induction (seq 1 (length q)) as [|n l IH]; simpl; [done|].
  rewrite lookup_insert_ne; [done|]. intros H. apply (f_equal length) in H.
  rewrite length_take in H. simpl in *. lia.
Qed.

(** *** Relations of the runs *)

Global Instance stays_preorder (P : World → Prop) : PreOrder (stays P).
Proof. split; [by intros w Hw|]. intros w1 w2 w3 H1 H2 H. by apply H2, H1. Qed.

Lemma logs_emits (e : event) (P : event → Prop) (w w1 w2 : World) :
  logs e w w1 → emits P w1 w2 → logs e w w2.
Proof.
  intros (e1 & H1 & Hin) (e2 & H2 & _). exists (e1 ++ e2).
  rewrite H2, H1, app_assoc. split; [done|]. apply elem_of_app. by left.
Qed.

Lemma steps_syscall_emits (P : event → Prop) (e : event) (name : string)
    (f : gmap (list string) node → string + gmap (list string) node) :
  P e → steps (emits P) (syscall e name f).
Proof.
  intros He. apply steps_syscall.
  - intros w. exists [e]. split; [done|]. by constructor.
  - intros w m' _. exists [e]. split; [done|]. by constructor.
Qed.

Lemma steps_sleep_emits (P : event → Prop) (d : N) :
  P (Sleep d) → steps (emits P) (sleep d).
Proof.
  intros He. apply steps_modify. intros w. exists [Sleep d]. split; [done|]. by constructor.
Qed.

Lemma steps_syscall_keeps {X} (obs : World → X) (e : event) (name : string)
    (f : gmap (list string) node → string + gmap (list string) node) :
  (∀ w, obs (log e w) = obs w) → (∀ w m, obs (set_fs m w) = obs w) →
  steps (keeps obs) (syscall e name f).
Proof.
  intros Hlog Hfs. apply steps_syscall.
  - intros w. apply Hlog.
  - intros w m' _. unfold keeps. by rewrite Hfs, Hlog.
Qed.

Lemma steps_syscall_locks (e : event) (name : string)
    (f : gmap (list string) node → string + gmap (list string) node) :
  steps (keeps locks) (syscall e name f).
Proof. by apply steps_syscall_keeps. Qed.

Lemma steps_sleep_locks (d : N) : steps (keeps locks) (sleep d).
Proof. by apply steps_modify. Qed.

Lemma steps_syscall_stays (A : gmap (list string) node → Prop) (e : event) (name : string)
    (f : gmap (list string) node → string + gmap (list string) node) :
  (∀ m m', f m = inr m' → A m → A m') →
  steps (stays (λ w, A (fs w))) (syscall e name f).
Proof.
  intros HA. apply steps_syscall.
  - by intros w Hw.
  - intros w m' Hf. unfold stays. wsimpl. by apply HA.
Qed.

Lemma steps_sleep_stays (A : gmap (list string) node → Prop) (d : N) :
  steps (stays (λ w, A (fs w))) (sleep d).
Proof. apply steps_modify. by intros w Hw. Qed.

(** A successful [withRetry] ends with a successful attempt. *)
Lemma retry_loop_success {T} (Q : World → Prop) (op : M T) (n : nat) :
  (∀ w v w', op w = (inr v, w') → Q w') →
  ∀ i w v w', retry_loop op n i w = (inr (inr v), w') → Q w'.
Proof.
  intros Hop. induction n as [|n IH]; intros i w v w'; simpl;
    unfold try_catch; rewrite bind_run;
    destruct (op w) as [[e|v0] w1] eqn:Hrun.
  - by intros [= ].
  - intros [= <- <-]. by eapply Hop.
  - rewrite bind_run. unfold sleep at 1. simpl.
    destruct (is_permanent e); [by intros [= ]|]. apply IH.
  - intros [= <- <-]. by eapply Hop.
Qed.

Lemma withRetry_success {T} (Q : World → Prop) (op : M T) (ctx : string) (n : nat) :
  (∀ w v w', op w = (inr v, w') → Q w') →
  ∀ w v w', withRetry op ctx n w = (inr v, w') → Q w'.
Proof.
  intros Hop w v w'. unfold withRetry. rewrite bind_run.
  destruct (retry_loop op n 0 w) as [[e|[e|v0]] w1] eqn:Hrun; try done.
  intros [= <- <-]. by eapply retry_loop_success.
Qed.

Lemma retry_loop_failure {T} (Q : relation World) `{!PreOrder Q} (op : M T) (n : nat) :
  (∀ w e w', op w = (inl e, w') → Q w w') →
  (∀ d w, Q w (sleep d w).2) →
  ∀ i w e w', retry_loop op n i w = (inr (inl e), w') → Q w w'.
Proof.
  intros Hop Hsl. induction n as [|n IH]; intros i w e w'; simpl;
    unfold try_catch; rewrite bind_run;
    destruct (op w) as [[e0|v0] w1] eqn:Hrun.
  - intros [= <- <-]. by eapply Hop.
  - by intros [= ].
  - rewrite bind_run. unfold sleep at 1. simpl.
    assert (Q w (set_now (now w1 + retry_delay i) (log (Sleep (retry_delay i)) w1))).
    { etrans; [by eapply Hop|]. apply (Hsl (retry_delay i) w1). }
    destruct (is_permanent e0).
    + by intros [= <- <-].
    + intros Hrest. etrans; [eassumption|]. by eapply IH.
  - by intros [= ].
Qed.

Lemma retry_loop_returns {T} (op : M T) (n : nat) :
  ∀ i w e w', retry_loop op n i w ≠ (inl e, w').
Proof.
  induction n as [|n IH]; intros i w e w'; simpl; unfold try_catch; rewrite bind_run;
    destruct (op w) as [[e1|v1] w2]; try done.
  rewrite bind_run. unfold sleep at 1. simpl. destruct (is_permanent e1); [done|].
  apply IH.
Qed.

Lemma withRetry_error {T} (op : M T) (ctx : string) (n : nat) (w w' : World) (e : error) :
  withRetry op ctx n w = (inl e, w') → ∃ cause, e = retry_error ctx n cause.
Proof.
  unfold withRetry. rewrite bind_run.
  destruct (retry_loop op n 0 w) as [[x|[x|v]] w2] eqn:Hrun; try done.
  - by apply retry_loop_returns in Hrun.
  - intros [= <- _]. by exists x.
Qed.

Lemma withRetry_failure {T} (Q : relation World) `{!PreOrder Q} (op : M T)
    (ctx : string) (n : nat) :
  (∀ w e w', op w = (inl e, w') → Q w w') →
  (∀ d w, Q w (sleep d w).2) →
  ∀ w e w', withRetry op ctx n w = (inl e, w') → Q w w'.
Proof.
  intros Hop Hsl w e w'. unfold withRetry. rewrite bind_run.
  destruct (retry_loop op n 0 w) as [[e0|[e0|v0]] w1] eqn:Hrun; [| |done].
  - by apply retry_loop_returns in Hrun.
  - intros [= _ <-]. by eapply retry_loop_failure.
Qed.

(** The first call of every attempt is logged. *)
Lemma withRetry_logs {T : Type} (e : event) (name : string)
    (f : gmap (list string) node → string + gmap (list string) node)
    (k : M T) (ctx : string) (n : nat) :
  steps (emits (λ _, True)) k →
  steps (logs e) (withRetry (syscall e name f;; k) ctx n).
Proof.
  intros Hk w.
  assert (Hop : steps (emits (λ _, True)) (syscall e name f;; k)).
  { apply steps_bind; [apply _|by apply steps_syscall_emits|done]. }
  assert (Hsl : ∀ d, steps (emits (λ _, True)) (sleep d))
    by (intros d; by apply steps_sleep_emits).
  assert (Hfirst : ∀ h : error → M (error + T), (∀ x, steps (emits (λ _, True)) (h x)) →
            logs e w (try_catch (v ← (syscall e name f;; k); mret (inr v)) h w).2).
  { intros h Hh. unfold try_catch. rewrite !bind_run.
    assert (Hsys : logs e w (syscall e name f w).2).
    { unfold syscall. destruct (f (fs w)); simpl; exists [e]; (split; [done|by left]). }
    destruct (syscall e name f w) as [[x|[]] w1]; simpl in *.
    - eapply logs_emits; [exact Hsys|apply Hh].
    - specialize (Hk w1). destruct (k w1) as [[x|v] w2]; simpl in *.
      + eapply logs_emits; [eapply logs_emits; [exact Hsys|exact Hk]|apply Hh].
      + eapply logs_emits; [exact Hsys|exact Hk]. }
  unfold withRetry. rewrite bind_run.
  assert (Hloop : logs e w (retry_loop (syscall e name f;; k) n 0 w).2).
  { destruct n as [|n]; simpl; apply Hfirst; intros x.
    - apply steps_ret, _.
    - apply steps_bind; [apply _|apply Hsl|]. intros _.
      destruct (is_permanent x); [apply steps_ret, _|].
      apply steps_retry_loop; [apply _|done|done]. }
  by destruct (retry_loop _ n 0 w) as [[x|[x|v]] w1].
Qed.

Section Acquire.

Context (entropy : nat → N) (p : list string).

Local Abbreviation lf := (lockFileOf p).

Lemma wake_next_run (w : World) :
  ∃ w', wake_next p w = (inr (), w')
        ∧ fs w' = fs w ∧ locks w' = locks w ∧ trace w' = trace w.
Proof.
  unfold wake_next. rewrite bind_get.
  destruct (lockQueue w !! p) as [queue|]; [|by eexists].
  destruct (default [] (arrays w !! queue)) as [|next rest]; [by eexists|].
  rewrite bind_modify.
  assert (Hcall : ∀ w0, ∃ w1, call next w0 = (inr (), w1)
            ∧ fs w1 = fs w0 ∧ locks w1 = locks w0 ∧ trace w1 = trace w0).
  { intros w0. destruct next as [pid|pid]; unfold call, settle, modify;
      (eexists; split; [reflexivity|]);
      by destruct (promises w0 !! pid) as [[| |]|]. }
  destruct (Hcall (set_arrays (<[queue := rest]> (arrays w)) w)) as (w1 & Hrun & Hf & Hl & Ht).
  rewrite bind_run, Hrun. case_bool_decide; eexists; (split; [reflexivity|]); by wsimpl.
Qed.

Lemma clear_lock_run (w : World) :
  ∃ w', clear_lock p w = (inr (), w')
        ∧ fs w' = fs w ∧ locks w' = locks w ∖ {[p]} ∧ trace w' = trace w.
Proof.
  unfold clear_lock. rewrite bind_modify.
  destruct (wake_next_run (set_locks (locks w ∖ {[p]}) w)) as (w' & Hrun & Hf & Hl & Ht).
  exists w'. by rewrite Hrun.
Qed.

Lemma enqueue_run (w : World) :
  ∃ pid queue w', enqueue p w = (inr (pid, queue), w')
    ∧ promises w' !! pid = Some Pending
    ∧ fs w' = fs w ∧ locks w' = locks w ∧ trace w' = trace w ∧ now w' = now w
    ∧ departures w' = departures w.
Proof.
  assert (Hnew : new_promise w
                 = (inr (nextId w),
                    set_nextId (S (nextId w))
                      (set_promises (<[nextId w := Pending]> (promises w)) w)))
    by reflexivity.
  unfold enqueue. rewrite (bind_ok _ _ _ _ _ Hnew), bind_get, !bind_modify.
  eexists _, _, _. split; [reflexivity|]. wsimpl. split_and!; try done.
  apply lookup_insert_eq.
Qed.

Lemma on_timeout_run (pid queue : nat) (w : World) :
  ∃ w', on_timeout p pid queue w = (inr (), w')
    ∧ fs w' = fs w ∧ locks w' = locks w ∧ trace w' = trace w.
Proof.
  unfold on_timeout. rewrite bind_get.
  destruct (indexOf _ _) as [index|]; rewrite ?bind_modify, ?bind_ret;
    unfold settle, modify; wsimpl;
    (eexists; split; [reflexivity|]);
    by destruct (promises w !! pid) as [[| |]|].
Qed.

Lemma expire_run (pid queue : nat) (delay left : N) (w : World) :
  ∃ w', expire p pid queue delay left w
        = (inl (Error ("Lock timeout: " +:+ render p) None), w')
    ∧ fs w' = fs w ∧ locks w' = locks w ∧ trace w' = trace w ++ [Sleep delay].
Proof.
  unfold expire. rewrite bind_modify.
  destruct (on_timeout_run pid queue (set_now (now w + left) (log (Sleep delay) w)))
    as (w' & Hrun & Hf & Hl & Ht).
  rewrite bind_run, Hrun. unfold throw. by exists w'.
Qed.

Lemma release_run (w : World) :
  ∃ w', release p lf w = (inr (), w')
    ∧ (∀ q, q ≠ resolve lf → Fs.node_at (fs w') q = Fs.node_at (fs w) q)
    ∧ locks w' = locks w ∖ {[p]}
    ∧ trace w' = trace w ++ [SysUnlink lf].
Proof.
  unfold release, try_finally, ignore_errors, try_catch, fs_promises.unlink, syscall.
  destruct (Fs.unlink (fs w) (resolve lf)) as [x|m'] eqn:Hu; simpl.
  - destruct (clear_lock_run (log (SysUnlink lf) w)) as (w' & -> & Hf & Hl & Ht).
    exists w'. split_and!; [done| |done|done]. intros q _. by rewrite Hf.
  - apply unlink_inv in Hu as (-> & _).
    destruct (clear_lock_run (set_fs (delete (resolve lf) (fs w)) (log (SysUnlink lf) w)))
      as (w' & -> & Hf & Hl & Ht).
    exists w'. split_and!; [done| |done|done]. intros q Hq. rewrite Hf. wsimpl.
    by apply node_at_delete_ne.
Qed.

(** A departure takes the path out of the lock table and may remove
    its marker file; it shows in no event of the run. *)
Lemma departs_run (d : departure) (w : World) :
  ∃ w', meanwhile (departs p d) w = (inr (), w')
    ∧ (∀ q, q ≠ resolve lf → Fs.node_at (fs w') q = Fs.node_at (fs w) q)
    ∧ locks w' = locks w ∖ {[p]}
    ∧ trace w' = trace w.
Proof.
  unfold meanwhile. destruct d as [ms|ms]; simpl.
  - destruct (release_run w) as (w' & -> & Hf & Hl & _). simpl.
    eexists. split; [reflexivity|]. by wsimpl.
  - destruct (clear_lock_run w) as (w' & -> & Hf & Hl & _). simpl.
    eexists. split; [reflexivity|]. wsimpl. split_and!; [|done|done].
    intros q _. by rewrite Hf.
Qed.

(** The wait of a queued caller ends with the lock timeout, [delay]
    milliseconds after the timer was set, or without an error once a
    departure has called its [wrappedResolve]. *)
Lemma await_loop_run (pid queue : nat) (delay : N) (ds : list departure) : ∀ (left : N) (w : World),
  ∃ r w', await_loop ds p pid queue delay left w = (r, w')
    ∧ (∀ q, q ≠ resolve lf → Fs.node_at (fs w') q = Fs.node_at (fs w) q)
    ∧ locks w' ∖ {[p]} = locks w ∖ {[p]}
    ∧ match r with
      | inl e => e = Error ("Lock timeout: " +:+ render p) None
                 ∧ trace w' = trace w ++ [Sleep delay]
                 ∧ (ds = [] → fs w' = fs w ∧ locks w' = locks w)
      | inr _ => trace w' = trace w ∧ (p ∉ locks w') ∧ ds ≠ []
      end.
Proof.
  assert (Hexp : ∀ left w (ds0 : list departure),
            ∃ r w', expire p pid queue delay left w = (r, w')
              ∧ (∀ q, q ≠ resolve lf → Fs.node_at (fs w') q = Fs.node_at (fs w) q)
              ∧ locks w' ∖ {[p]} = locks w ∖ {[p]}
              ∧ match r with
                | inl e => e = Error ("Lock timeout: " +:+ render p) None
                           ∧ trace w' = trace w ++ [Sleep delay]
                           ∧ (ds0 = [] → fs w' = fs w ∧ locks w' = locks w)
                | inr _ => trace w' = trace w ∧ (p ∉ locks w') ∧ ds0 ≠ []
                end).
  { intros left w ds0. destruct (expire_run pid queue delay left w) as (w' & Hrun & Hf & Hl & Ht).
    eexists _, w'. split; [exact Hrun|]. split_and!; try done.
    - intros q _. by rewrite Hf.
    - by rewrite Hl. }
  induction ds as [|d ds IH]; intros left w; [apply Hexp|].
  simpl. destruct (lapse d <? left)%N; [|apply Hexp].
  rewrite bind_modify.
  destruct (departs_run d (set_now (now w + lapse d) w)) as (w1 & Hrun & Hf & Hl & Ht).
  rewrite bind_run, Hrun, bind_get.
  assert (Hgo : ∃ r w', await_loop ds p pid queue delay (left - lapse d) w1 = (r, w')
            ∧ (∀ q, q ≠ resolve lf → Fs.node_at (fs w') q = Fs.node_at (fs w) q)
            ∧ locks w' ∖ {[p]} = locks w ∖ {[p]}
            ∧ match r with
              | inl e => e = Error ("Lock timeout: " +:+ render p) None
                         ∧ trace w' = trace w ++ [Sleep delay]
                         ∧ (d :: ds = [] → fs w' = fs w ∧ locks w' = locks w)
              | inr _ => trace w' = trace w ∧ (p ∉ locks w') ∧ d :: ds ≠ []
              end).
  { destruct (IH (left - lapse d)%N w1) as (r & w' & Hrun' & Hf' & Hl' & Hr).
    exists r, w'. split; [done|]. split_and!.
    - intros q Hq. by rewrite Hf', Hf.
    - rewrite Hl', Hl. wsimpl. set_solver.
    - destruct r as [e|[]].
      + destruct Hr as (-> & Ht' & _). split_and!; [done|by rewrite Ht', Ht|done].
      + destruct Hr as (Ht' & Hp & _). split_and!; [by rewrite Ht', Ht|done|done]. }
  destruct (promises w1 !! pid) as [[| |]|]; try exact Hgo.
  exists (inr ()), w1. split; [done|]. split_and!; [done| | | |done].
  - rewrite Hl. wsimpl. set_solver.
  - done.
  - rewrite Hl. set_solver.
Qed.

(** **** Up to the lock *)

(** From the entry in the lock table to the release closure. *)
Lemma grant_run (id : string) (w : World) :
  ∃ r w',
    (modify (λ w, set_locks ({[p]} ∪ locks w) w);;
     create_marker p lf id;;
     mret (release p lf)) w = (r, w')
    ∧ (∀ q, q ≠ resolve lf → Fs.node_at (fs w') q = Fs.node_at (fs w) q)
    ∧ emits (marks p) w w'
    ∧ locks w' ∖ {[p]} = locks w ∖ {[p]}
    ∧ match r with
      | inl _ => p ∉ locks w' ∧ fs w' = fs w
      | inr u => u = release p lf ∧ p ∈ locks w'
      end.
Proof.
  rewrite bind_modify.
  set (w2 := set_locks ({[p]} ∪ locks w) w).
  set (wr := withRetry (fs_promises.writeFile lf id true)
               ("acquiring lock on " +:+ render p) 3).
  assert (Hfs : steps (stays (λ w0, ∀ q, q ≠ resolve lf →
                                       Fs.node_at (fs w0) q = Fs.node_at (fs w) q)) wr).
  { apply steps_withRetry; [apply _| |intros d; apply steps_modify; by intros w0 Hw0].
    apply steps_syscall; [by intros w0 Hw0|]. intros w0 m' Hm Hw0 q Hq. wsimpl.
    apply writeFile_inv in Hm as (-> & _ & _).
    rewrite node_at_insert_ne by done. by apply Hw0. }
  assert (Hlocks : steps (keeps locks) wr).
  { apply steps_withRetry; [apply _|apply steps_syscall_locks|apply steps_sleep_locks]. }
  assert (Hev : steps (emits (marks p)) wr).
  { apply steps_withRetry; [apply _| |intros d; apply steps_sleep_emits; left; by eexists].
    apply steps_syscall_emits. right. by eexists. }
  assert (Hfail : ∀ w0 e w1, wr w0 = (inl e, w1) → fs w1 = fs w0).
  { intros w0 e w1 Hrun. unfold wr in Hrun.
    apply (withRetry_failure (keeps fs)) in Hrun; [done| |by intros d a].
    intros a e1 b. unfold fs_promises.writeFile, syscall.
    destruct (Fs.writeFile _ _ _ _); [|done]. by intros [= _ <-]. }
  specialize (Hfs w2). specialize (Hlocks w2). specialize (Hev w2).
  specialize (Hfail w2).
  unfold create_marker, try_catch. fold wr. rewrite !bind_run.
  destruct (wr w2) as [[e|[]] w3]; simpl in Hfs, Hlocks, Hev.
  - destruct (clear_lock_run w3) as (w4 & Hrun & Hf & Hl & Ht).
    rewrite bind_run, Hrun. unfold throw.
    exists (inl e), w4. split; [done|]. split_and!.
    + intros q Hq. rewrite Hf. by apply Hfs.
    + destruct Hev as (evs & Hev & HF). exists evs. by rewrite Ht.
    + rewrite Hl, Hlocks. unfold w2. wsimpl. set_solver.
    + rewrite Hl. set_solver.
    + rewrite Hf. by rewrite (Hfail e w3 eq_refl).
  - exists (inr (release p lf)), w3. split; [done|]. split_and!; try done.
    + intros q Hq. by apply Hfs.
    + rewrite Hlocks. unfold w2. wsimpl. set_solver.
    + rewrite Hlocks. unfold w2. wsimpl. set_solver.
Qed.

(** Every exit of [acquireLock]: it touches no file but the marker, is
    silent about the temporary file and the release, and leaves the
    entries of the other paths alone; the path itself is in the table
    when the closure is returned.  When it throws on a path that was
    free, or that nobody let go of during the wait, the disk and the
    table are as they were; the path is still in the table only after a
    lock timeout. *)
Lemma acquireLock_exits (w : World) :
  ∃ r w', acquireLock entropy p w = (r, w')
    ∧ (∀ q, q ≠ resolve lf → Fs.node_at (fs w') q = Fs.node_at (fs w) q)
    ∧ emits (marks p) w w'
    ∧ locks w' ∖ {[p]} = locks w ∖ {[p]}
    ∧ match r with
      | inl e =>
          (p ∉ locks w ∨ default [] (head (departures w)) = [] →
           fs w' = fs w ∧ locks w' = locks w)
          ∧ (p ∈ locks w' → e = Error ("Lock timeout: " +:+ render p) None)
      | inr u => u = release p lf ∧ p ∈ locks w'
      end.
Proof.
  unfold acquireLock.
  rewrite (bind_ok _ _ _ _ _ (randomHex_run entropy 16 w)).
  rewrite bind_get. wsimpl.
  set (id := hex (2 * 16) (entropy (draws w))).
  set (w0 := set_draws (S (draws w)) w).
  destruct (decide (p ∈ locks w)) as [Hin|Hnin].
  - rewrite bool_decide_true by done.
    destruct (enqueue_run w0) as (pid & queue & w1 & Hrun & Hp & Hf & Hl & Ht & Hn & Hd).
    rewrite bind_run, bind_run, Hrun. cbn [fst snd].
    unfold await_queued. rewrite bind_get, bind_modify.
    set (delay := (LOCK_TIMEOUT - (now w1 - now w))%N).
    destruct (await_loop_run pid queue delay (default [] (head (departures w1))) delay
                (set_departures (tail (departures w1)) w1))
      as (r2 & w2 & Hrun2 & Hf2 & Hl2 & Hr2).
    rewrite Hrun2. destruct r2 as [e|[]].
    + destruct Hr2 as (-> & Ht2 & Hclean).
      eexists _, w2. split; [reflexivity|]. split_and!.
      * intros q Hq. rewrite Hf2 by done. wsimpl. by rewrite Hf.
      * exists [Sleep delay]. rewrite Ht2. wsimpl. rewrite Ht.
        split; [done|]. apply Forall_singleton. left. by eexists.
      * rewrite Hl2. wsimpl. by rewrite Hl.
      * intros [?|Hds]; [done|]. rewrite Hd in Hclean. destruct (Hclean Hds) as [-> ->].
        wsimpl. by rewrite Hf, Hl.
      * done.
    + destruct Hr2 as (Ht2 & _ & Hds).
      destruct (grant_run id w2) as (r3 & w3 & Hrun3 & Hf3 & Hev3 & Hl3 & Hr3).
      rewrite Hrun3. exists r3, w3. split; [done|]. split_and!.
      * intros q Hq. rewrite Hf3, Hf2 by done. wsimpl. by rewrite Hf.
      * destruct Hev3 as (evs & Hev & HF). exists evs. rewrite Hev, Ht2. wsimpl.
        by rewrite Ht.
      * rewrite Hl3, Hl2. wsimpl. by rewrite Hl.
      * destruct r3 as [e|u]; [|exact Hr3]. destruct Hr3 as [Hp3 _]. split; [|done].
        intros [?|Hds']; [done|]. by rewrite Hd in Hds.
  - rewrite bool_decide_false by done. rewrite bind_ret.
    destruct (grant_run id w0) as (r3 & w3 & Hrun3 & Hf3 & Hev3 & Hl3 & Hr3).
    rewrite Hrun3. exists r3, w3. split; [done|]. split_and!; try done.
    destruct r3 as [e|u]; [|exact Hr3]. destruct Hr3 as [Hp3 Hfs3]. split; [|done].
    intros _. split; [done|]. apply set_eq. intros q.
    destruct (decide (q = p)) as [->|Hq]; [done|]. revert Hl3. unfold w0. wsimpl. set_solver.
Qed.

End Acquire.

Section Exits.

Context (win32 : bool) (entropy : nat → N) (p : list string) (c h : string).

Local Abbreviation lf := (lockFileOf p).
Local Abbreviation T := (tempPathOf p h).
Local Abbreviation absent := (λ m : gmap (list string) node, Fs.node_at m (resolve T) = None).
Local Abbreviation nodir :=
  (λ m : gmap (list string) node, Fs.node_at m (resolve T) ≠ Some Dir).
Local Abbreviation quiet := (λ e : event, e ≠ SysUnlink lf ∧ e ≠ SysWriteFile T c false).
Local Abbreviation unreleased := (λ e : event, e ≠ SysUnlink lf).

Lemma marks_quiet (evs : list event) : Forall (marks p) evs → Forall quiet evs.
Proof.
  intros HF. eapply Forall_impl; [exact HF|].
  by intros e [[d ->]|[id ->]].
Qed.

(** **** The guarded work *)

Local Abbreviation attempt :=
  (fs_promises.writeFile T c false;;
   if negb win32 then fs_promises.rename T p
   else try_catch (fs_promises.unlink p) (λ _, mret ());; fs_promises.rename T p).

Local Abbreviation work :=
  (withRetry attempt ("atomic write to " +:+ render p) (length RETRY_DELAYS)).

Lemma attempt_steps (R : relation World) `{!PreOrder R} :
  steps R (fs_promises.writeFile T c false) →
  steps R (fs_promises.rename T p) →
  steps R (fs_promises.unlink p) →
  steps R attempt.
Proof.
  intros Hw Hr Hu. apply steps_bind; [apply _|done|]. intros _.
  destruct win32; simpl; [|done].
  apply steps_bind; [apply _| |by intros _].
  apply steps_try_catch; [apply _|done|]. intros _. apply steps_ret, _.
Qed.

Lemma work_nodir : steps (stays (λ w, nodir (fs w))) work.
Proof.
  apply steps_withRetry; [apply _| |intros d; apply (steps_sleep_stays nodir)].
  apply attempt_steps; [apply _|..]; apply (steps_syscall_stays nodir); intros m m' Hm Ha.
  - apply writeFile_inv in Hm as (-> & Hne & _). by rewrite node_at_insert.
  - by apply rename_inv in Hm as (x & _ & _ & Hnd).
  - apply unlink_inv in Hm as (-> & _).
    rewrite node_at_delete_ne; [done|]. apply not_eq_sym, resolve_tempPathOf_ne.
Qed.

Lemma work_locks : steps (keeps locks) work.
Proof.
  apply steps_withRetry; [apply _| |apply steps_sleep_locks].
  apply attempt_steps; [apply _|..]; apply steps_syscall_locks.
Qed.

Lemma work_unreleased : steps (emits unreleased) work.
Proof.
  apply steps_withRetry; [apply _| |intros d; by apply steps_sleep_emits].
  apply attempt_steps; [apply _|..]; apply steps_syscall_emits; try done.
  intros [= H]. symmetry in H. by apply lockFileOf_ne in H.
Qed.

Lemma work_logs : steps (logs (SysWriteFile T c false)) work.
Proof.
  apply withRetry_logs. destruct win32; simpl.
  - apply steps_bind; [apply _| |intros _; by apply steps_syscall_emits].
    apply steps_try_catch; [apply _|by apply steps_syscall_emits|].
    intros _. apply steps_ret, _.
  - by apply steps_syscall_emits.
Qed.

Lemma attempt_success (w w' : World) (v : ()) :
  attempt w = (inr v, w') → Fs.node_at (fs w') (resolve p) = Some (File c).
Proof.
  rewrite bind_run. unfold fs_promises.writeFile at 1, syscall at 1.
  destruct (Fs.writeFile (fs w) (resolve T) c false) as [x|m1] eqn:Hw; [done|].
  apply writeFile_inv in Hw as (-> & Hne & _).
  set (w1 := set_fs _ _).
  assert (Hrename : ∀ w2, Fs.node_at (fs w2) (resolve T) = Some (File c) →
            fs_promises.rename T p w2 = (inr v, w') →
            Fs.node_at (fs w') (resolve p) = Some (File c)).
  { intros w2 Ht. unfold fs_promises.rename, syscall.
    destruct (Fs.rename (fs w2) (resolve T) (resolve p)) as [x|m2] eqn:Hr; [done|].
    intros [= _ <-]. wsimpl.
    apply rename_inv in Hr as (c' & Hc' & Hp & _); [|congruence]. congruence. }
  assert (Ht1 : Fs.node_at (fs w1) (resolve T) = Some (File c)).
  { unfold w1. wsimpl. by apply node_at_insert. }
  destruct win32; simpl; [|by apply Hrename].
  rewrite bind_run. unfold try_catch, fs_promises.unlink at 1, syscall at 1.
  destruct (Fs.unlink (fs w1) (resolve p)) as [x|m2] eqn:Hu; simpl.
  - by apply Hrename.
  - apply Hrename. wsimpl. apply unlink_inv in Hu as (-> & _).
    rewrite node_at_delete_ne; [done|]. apply not_eq_sym, resolve_tempPathOf_ne.
Qed.

Lemma work_success (w w' : World) (v : ()) :
  work w = (inr v, w') → Fs.node_at (fs w') (resolve p) = Some (File c).
Proof.
  apply (withRetry_success (λ w, Fs.node_at (fs w) (resolve p) = Some (File c))).
  intros w1 v1 w1'. apply attempt_success.
Qed.

(** **** Leaving the guarded region *)

Lemma remove_temp_run (w : World) :
  ∃ w', ignore_errors (fs_promises.unlink T) w = (inr (), w')
    ∧ (nodir (fs w) → absent (fs w'))
    ∧ (∀ q, q ≠ resolve T → Fs.node_at (fs w') q = Fs.node_at (fs w) q)
    ∧ locks w' = locks w
    ∧ trace w' = trace w ++ [SysUnlink T].
Proof.
  unfold ignore_errors, try_catch, fs_promises.unlink, syscall.
  destruct (Fs.unlink (fs w) (resolve T)) as [x|m'] eqn:Hu.
  - eexists. split; [reflexivity|]. wsimpl. split_and!; try done.
    intros Hnd. unfold Fs.unlink in Hu.
    by destruct (Fs.node_at (fs w) (resolve T)) as [[y|]|].
  - apply unlink_inv in Hu as (-> & y & Hy).
    eexists. split; [reflexivity|]. wsimpl. split_and!; try done.
    + intros _. apply node_at_delete, resolve_tempPathOf_nonroot.
    + intros q Hq. by apply node_at_delete_ne.
Qed.

(** **** The whole call, once the temporary name is drawn *)

Local Abbreviation make_dir :=
  (withRetry (fs_promises.mkdir (dirname p)) ("creating directory " +:+ render (dirname p))
     (length RETRY_DELAYS)).

Lemma make_dir_temp : steps (keeps (λ w, Fs.node_at (fs w) (resolve T))) make_dir.
Proof.
  apply steps_withRetry; [apply _| |intros d; by apply steps_modify].
  apply steps_syscall; [done|]. intros w m' Hm. unfold keeps. wsimpl.
  apply (mkdirp_longer _ _ _ _ Hm). rewrite resolve_tempPathOf, length_app. simpl. lia.
Qed.

Lemma make_dir_locks : steps (keeps locks) make_dir.
Proof.
  apply steps_withRetry; [apply _|apply steps_syscall_locks|apply steps_sleep_locks].
Qed.

Lemma make_dir_quiet : steps (emits quiet) make_dir.
Proof.
  apply steps_withRetry; [apply _| |intros d; by apply steps_sleep_emits].
  by apply steps_syscall_emits.
Qed.

Lemma releases_app (a b : list event) : releases p (a ++ b) = releases p a + releases p b.
Proof. unfold releases. by rewrite filter_app, length_app. Qed.

Lemma releases_unreleased (evs : list event) : Forall unreleased evs → releases p evs = 0.
Proof.
  unfold releases. induction 1 as [|e evs He _ IH]; [done|].
  by rewrite filter_cons_False.
Qed.

Lemma guarded_quiet (evs : list event) : Forall quiet evs → guarded T c evs = false.
Proof.
  intros HF. unfold guarded. apply bool_decide_eq_false. intros Hin.
  rewrite Forall_forall in HF. by destruct (HF _ Hin).
Qed.

Lemma quiet_unreleased (evs : list event) : Forall quiet evs → Forall unreleased evs.
Proof. intros HF. eapply Forall_impl; [exact HF|]. by intros e [? _]. Qed.

(** Every exit of the call, by whether the guarded write was started:
    if it was, the lock had been acquired and is released once, and the
    temporary file is gone; if it was not, the call failed before it
    held the lock and has not touched the temporary path. *)
Lemma region_exits (w : World) :
  ∃ r w' evs,
    (make_dir;;
     unlock ← acquireLock entropy p;
     try_finally work (try_finally (ignore_errors (fs_promises.unlink T)) unlock)) w
    = (r, w')
    ∧ trace w' = trace w ++ evs
    ∧ (if guarded T c evs
       then (nodir (fs w) → absent (fs w')) ∧ p ∉ locks w' ∧ releases p evs = 1
       else Fs.node_at (fs w') (resolve T) = Fs.node_at (fs w) (resolve T)
            ∧ releases p evs = 0 ∧ r ≠ inr () ∧ (p ∉ locks w → p ∉ locks w'))
    ∧ locks w' ∖ {[p]} = locks w ∖ {[p]}
    ∧ (r = inr () → Fs.node_at (fs w') (resolve p) = Some (File c)).
Proof.
  assert (A1 := make_dir_temp w). assert (L1 := make_dir_locks w).
  assert (E1 := make_dir_quiet w). rewrite bind_run. unfold keeps in A1, L1.
  destruct (make_dir w) as [[e|[]] w1]; simpl in A1, L1, E1;
    destruct E1 as (evs1 & E1 & Q1).
  { exists (inl e), w1, evs1. split; [done|]. split; [done|].
    rewrite (guarded_quiet _ Q1). split_and!; try done.
    - by apply releases_unreleased, quiet_unreleased.
    - by rewrite L1.
    - by rewrite L1. }
  destruct (acquireLock_exits entropy p w1)
    as (r2 & w2 & Hrun & A2 & (evs2 & E2 & Q2%marks_quiet) & L2 & H2).
  rewrite bind_run, Hrun.
  assert (Q12 : Forall quiet (evs1 ++ evs2)) by (by apply Forall_app).
  assert (T2 : Fs.node_at (fs w2) (resolve T) = Fs.node_at (fs w) (resolve T)).
  { rewrite A2, A1; [done|]. apply not_eq_sym, lockFileOf_ne_tempPathOf. }
  destruct r2 as [e|u].
  { exists (inl e), w2, (evs1 ++ evs2). split; [done|].
    split; [by rewrite E2, E1, app_assoc|].
    rewrite (guarded_quiet _ Q12). split_and!; try done.
    - by apply releases_unreleased, quiet_unreleased.
    - rewrite <- L1. intros Hp. destruct H2 as [H2 _].
      destruct (H2 (or_introl Hp)) as [_ ->]. done.
    - by rewrite L2, L1. }
  destruct H2 as (-> & Hheld).
  assert (N4 := work_nodir w2). assert (L4 := work_locks w2).
  assert (U4 := work_unreleased w2). assert (G4 := work_logs w2).
  assert (S4 := work_success w2).
  unfold try_finally.
  destruct (work w2) as [r4 w4]; simpl in N4, L4, U4, G4.
  destruct U4 as (evs4 & E4 & Q4). destruct G4 as (evs4' & E4' & Hin).
  assert (evs4' = evs4) as -> by (rewrite E4 in E4'; by apply app_inv_head in E4').
  destruct (remove_temp_run w4) as (w5 & -> & A5 & F5 & L5 & E5).
  destruct (release_run p w5) as (w6 & -> & F6 & L6 & E6).
  exists r4, w6, (evs1 ++ evs2 ++ evs4 ++ [SysUnlink T] ++ [SysUnlink lf]).
  assert (Hcount : releases p (evs1 ++ evs2 ++ evs4 ++ [SysUnlink T] ++ [SysUnlink lf]) = 1).
  { rewrite !releases_app.
    rewrite (releases_unreleased evs1) by (by apply quiet_unreleased).
    rewrite (releases_unreleased evs2) by (by apply quiet_unreleased).
    rewrite (releases_unreleased evs4) by done.
    unfold releases. rewrite filter_cons_False, filter_nil.
    - by rewrite filter_cons_True.
    - intros [= H]. symmetry in H. by apply lockFileOf_ne_tempPathOf_spelled in H. }
  assert (Hg : guarded T c (evs1 ++ evs2 ++ evs4 ++ [SysUnlink T] ++ [SysUnlink lf]) = true).
  { unfold guarded. rewrite bool_decide_true; [done|].
    rewrite !elem_of_app. by right; right; left. }
  split; [done|]. split; [by rewrite E6, E5, E4, E2, E1, <- !app_assoc|].
  rewrite Hg. split_and!.
  - intros Hnd. rewrite F6 by apply not_eq_sym, lockFileOf_ne_tempPathOf.
    apply A5, N4. by rewrite T2.
  - rewrite L6. set_solver.
  - done.
  - rewrite L6, L5, L4. unfold keeps in L4. rewrite <- L1, <- L2. set_solver.
  - intros ->. rewrite F6 by apply not_eq_sym, resolve_lockFileOf_ne.
    rewrite F5 by apply not_eq_sym, resolve_tempPathOf_ne. by eapply S4.
Qed.

End Exits.

(** C6: every exit of [atomicWrite], for any disk, lock table, waiter
    queues, path and content, whether the lock is free, handed over by
    its holder during the wait, or not handed over in time.  When
    [atomicWrite] succeeds the path reads back the content.  At every
    exit the temporary file is absent if it was absent at the call;
    once the guarded write was started, that is once the lock was
    acquired, it is absent whatever was there, a directory excepted.
    The release closure is called exactly once when the lock was
    acquired, so at every successful exit, and not at all when the call
    fails before that, in [mkdir] or in [acquireLock]; after it the
    path is not in the lock table.  The entries of the other paths are
    as they were, and the whole table is when the path was free at the
    call. *)
Theorem atomicWrite_exits (win32 : bool) (entropy : nat → N) (p : list string)
    (c : string) (w : World) :
  let tempPath := tempPathOf p (hex 16 (entropy (draws w))) in
  let r := (atomicWrite win32 entropy p c w).1 in
  let w' := (atomicWrite win32 entropy p c w).2 in
  let evs := events_since w w' in
  (r = inr () → Fs.read (fs w') (resolve p) = inr c)
  ∧ (Fs.node_at (fs w) (resolve tempPath) = None →
     Fs.node_at (fs w') (resolve tempPath) = None)
  ∧ (guarded tempPath c evs = true →
     Fs.node_at (fs w) (resolve tempPath) ≠ Some Dir →
     Fs.node_at (fs w') (resolve tempPath) = None)
  ∧ releases p evs = (if guarded tempPath c evs then 1 else 0)
  ∧ (r = inr () → releases p evs = 1)
  ∧ (guarded tempPath c evs = true → p ∉ locks w')
  ∧ locks w' ∖ {[p]} = locks w ∖ {[p]}
  ∧ (p ∉ locks w → locks w' = locks w).
Proof.
  intros tempPath r w' evs.
  destruct (region_exits win32 entropy p c (hex 16 (entropy (draws w)))
              (set_draws (S (draws w)) w))
    as (r0 & w0 & evs0 & Hrun & Htrace & Hcase & Hlocks & Hread).
  assert (Hcall : atomicWrite win32 entropy p c w = (r0, w0)).
  { unfold atomicWrite. rewrite (bind_ok _ _ _ _ _ (randomHex_run entropy 8 w)).
    exact Hrun. }
  assert (Hevs : evs = evs0).
  { unfold evs, w', events_since. rewrite Hcall. simpl. rewrite Htrace. wsimpl.
    apply drop_app_length. }
  unfold r, w'. rewrite Hevs, Hcall. simpl. fold tempPath in Hcase.
  revert Hcase Hlocks. wsimpl. intros Hcase Hlocks.
  destruct (guarded tempPath c evs0).
  - destruct Hcase as (Habs & Hp & Hcount).
    split; [intros Hr; unfold Fs.read; by rewrite (Hread Hr)|].
    split; [intros Ha; apply Habs; by rewrite Ha|].
    split; [intros _; exact Habs|].
    split; [done|]. split; [done|]. split; [done|]. split; [done|].
    intros Hnin. apply set_eq. intros q. destruct (decide (q = p)) as [->|Hq]; [done|].
    set_solver.
  - destruct Hcase as (Hkeep & Hcount & Hr & Hp).
    split; [done|].
    split; [intros Ha; by rewrite Hkeep|].
    split; [done|]. split; [done|]. split; [done|]. split; [done|]. split; [done|].
    intros Hnin. specialize (Hp Hnin). apply set_eq. intros q.
    destruct (decide (q = p)) as [->|Hq]; [done|]. set_solver.
Qed.

(** A caller finds the lock of "a" held; ten milliseconds later the
    holder releases it. *)
Lemma atomicWrite_exits_witness :
  let w := set_departures [[Unlocks 10]] (Tasks.world lone_holder) in
  let tempPath := tempPathOf ["a"] (hex 16 (counting (draws w))) in
  let r := (atomicWrite false counting ["a"] "new" w).1 in
  let w' := (atomicWrite false counting ["a"] "new" w).2 in
  ["a"] ∈ locks w
  ∧ r = inr ()
  ∧ Fs.node_at (fs w) (resolve tempPath) = None
  ∧ Fs.read (fs w') (resolve ["a"]) = inr "new"
  ∧ Fs.node_at (fs w') (resolve tempPath) = None
  ∧ releases ["a"] (events_since w w') = 1
  ∧ ["a"] ∉ locks w'.
Proof.
  intros w tempPath r w'.
  destruct (atomicWrite_exits false counting ["a"] "new" w)
    as (H1 & H2 & H3 & H4 & H5 & H6 & H7 & H8).
  assert (Hr : r = inr ()) by (vm_compute; reflexivity).
  assert (Ha : Fs.node_at (fs w) (resolve tempPath) = None) by (vm_compute; reflexivity).
  assert (Hg : guarded tempPath "new" (events_since w w') = true) by (vm_compute; reflexivity).
  split_and!; [|exact Hr|exact Ha|exact (H1 Hr)|exact (H2 Ha)|exact (H5 Hr)|exact (H6 Hg)].
  apply (bool_decide_unpack _). vm_compute. exact I.
Defined.

(** Three more exits.  The lock is free and the write succeeds.  The
    parent of the target is a file: [mkdir] fails at each of its six
    attempts and [atomicWrite] throws without having asked for the
    lock.  The lock is handed over by a caller that gave up on a marker
    left behind by an earlier process: the caller fails on that marker
    too, and throws without having held the lock.  Nothing is released
    on the last two, and the table holds no entry for the path. *)
Example atomicWrite_other_exits :
  let free := atomicWrite false counting ["a"] "new" project_disk in
  let early := atomicWrite false counting ["a"; "x"] "new" project_disk in
  let stale := set_departures [[GivesUp 5]]
                 (set_locks {[ ["a"] ]} stale_marker_disk) in
  let late := atomicWrite false counting ["a"] "new" stale in
  (free.1 = inr () ∧ releases ["a"] (events_since project_disk free.2) = 1
   ∧ locks free.2 = ∅)
  ∧ ((if early.1 is inl e
      then message e = "creating directory a failed after 5 retries: EEXIST: mkdir"
      else False)
     ∧ events_since project_disk early.2
       = [SysMkdir ["a"]; Sleep 100; SysMkdir ["a"]; Sleep 500; SysMkdir ["a"]; Sleep 1000;
          SysMkdir ["a"]; Sleep 2000; SysMkdir ["a"]; Sleep 5000; SysMkdir ["a"]]
     ∧ releases ["a"; "x"] (events_since project_disk early.2) = 0)
  ∧ ((if late.1 is inl e
      then message e = "acquiring lock on a failed after 3 retries: EEXIST: open"
      else False)
     ∧ releases ["a"] (events_since stale late.2) = 0
     ∧ locks late.2 = ∅
     ∧ fs late.2 = fs stale).
Proof. cbv zeta. split_and!; by vm_compute. Qed.

(** ** What the engine leaves alone, on any disk *)

Lemma steps_try_finally (R : relation World) `{!PreOrder R} {A} (m : M A) (c : M unit) :
  steps R m → steps R c → steps R (try_finally m c).
Proof.
  intros Hm Hc w. unfold try_finally. specialize (Hm w).
  destruct (m w) as [r w1]. specialize (Hc w1). simpl in *.
  destruct (c w1) as [[e|[]] w2]; simpl in *; by etrans.
Qed.

Lemma steps_sysread (R : relation World) {A} (e : event) (name : string)
    (f : gmap (list string) node → string + A) :
  (∀ w, R w (log e w)) → steps R (sysread e name f).
Proof. intros H w. unfold sysread. by destruct (f (fs w)). Qed.

(** A computation that is bound to the result of [acquireLock] runs
    with the release closure. *)
Lemma steps_locked (R : relation World) `{!PreOrder R} {A} (entropy : nat → N)
    (p : list string) (body : M unit → M A) :
  (∀ w r w', acquireLock entropy p w = (r, w') → R w w') →
  steps R (body (release p (lockFileOf p))) →
  steps R (unlock ← acquireLock entropy p; body unlock).
Proof.
  intros Hacq Hbody w. rewrite bind_run.
  destruct (acquireLock_exits entropy p w) as (r & w' & Hrun & _ & _ & _ & Hr).
  rewrite Hrun. specialize (Hacq w r w' Hrun).
  destruct r as [e|u]; [done|]. destruct Hr as [-> _]. simpl.
  etrans; [exact Hacq|apply Hbody].
Qed.

Lemma locked_region_steps (R : relation World) `{!PreOrder R} (entropy : nat → N)
    (p : list string) (work cleanup : list string → M unit) :
  (∀ w d, R w (set_draws d w)) →
  steps R (fs_promises.mkdir (dirname p)) → (∀ d, steps R (sleep d)) →
  (∀ w r w', acquireLock entropy p w = (r, w') → R w w') →
  steps R (release p (lockFileOf p)) →
  (∀ h, steps R (work (tempPathOf p h))) → (∀ h, steps R (cleanup (tempPathOf p h))) →
  steps R (locked_region entropy p work cleanup).
Proof.
  intros Hdraw Hmk Hsl Hacq Hrel Hwork Hclean. unfold locked_region.
  apply steps_bind; [apply _| |intros suffix].
  { intros w. apply Hdraw. }
  apply steps_bind; [apply _|by apply steps_withRetry|intros _].
  apply steps_locked; [apply _|done|].
  apply steps_try_finally; [apply _|apply Hwork|].
  apply steps_try_finally; [apply _| |done].
  apply steps_try_catch; [apply _|apply Hclean|]. intros e. apply steps_ret, _.
Qed.

Section Frames.

Context (win32 : bool) (dev : list string → nat) (entropy : nat → N).

(** The node at the resolved path [k] is left as it is. *)
Local Abbreviation kept := (λ k : list string, keeps (λ w, Fs.node_at (fs w) k)).

Lemma syscall_kept (k : list string) (e : event) (name : string)
    (f : gmap (list string) node → string + gmap (list string) node) :
  (∀ m m', f m = inr m' → Fs.node_at m' k = Fs.node_at m k) →
  steps (kept k) (syscall e name f).
Proof. intros Hf. apply steps_syscall; [done|]. intros w m' Hm. by apply Hf. Qed.

Lemma sysread_kept {A} (k : list string) (e : event) (name : string)
    (f : gmap (list string) node → string + A) :
  steps (kept k) (sysread e name f).
Proof. by apply steps_sysread. Qed.

Lemma sleep_kept (k : list string) (d : N) : steps (kept k) (sleep d).
Proof. by apply steps_modify. Qed.

Lemma acquireLock_kept (k p : list string) (w w' : World) (r : error + M ()) :
  k ≠ resolve (lockFileOf p) →
  acquireLock entropy p w = (r, w') → kept k w w'.
Proof.
  intros Hk Hrun.
  destruct (acquireLock_exits entropy p w) as (r0 & w0 & Hrun0 & Hf & _).
  rewrite Hrun in Hrun0. injection Hrun0 as <- <-. by apply Hf.
Qed.

Lemma release_kept (k p : list string) :
  k ≠ resolve (lockFileOf p) → steps (kept k) (release p (lockFileOf p)).
Proof.
  intros Hk w. destruct (release_run p w) as (w' & -> & Hf & _). by apply Hf.
Qed.

Lemma aloof_marker (k p : list string) : aloof k p → k ≠ resolve (lockFileOf p).
Proof. intros (_ & _ & H & _) ->. by apply H. Qed.

Lemma aloof_temp (k p : list string) (h : string) : aloof k p → k ≠ resolve (tempPathOf p h).
Proof. intros (_ & _ & _ & H) ->. by apply (H h). Qed.

Lemma aloof_target (k p : list string) : aloof k p → k ≠ resolve p.
Proof. intros (_ & H & _) ->. by apply H. Qed.

Lemma mkdir_kept (k p : list string) :
  ¬ k `prefix_of` resolve p → steps (kept k) (fs_promises.mkdir p).
Proof.
  intros Hk. apply syscall_kept. intros m m' Hm. apply (mkdirp_frame _ _ _ _ Hm). by right.
Qed.

Lemma rename_kept (k a b : list string) :
  ¬ resolve a `prefix_of` k → ¬ resolve b `prefix_of` k →
  steps (kept k) (fs_promises.rename a b).
Proof. intros Ha Hb. apply syscall_kept. intros m m' Hm. by apply (rename_frame _ _ _ _ _ Hm). Qed.

Lemma rm_kept (k p : list string) :
  ¬ resolve p `prefix_of` k → steps (kept k) (fs_promises.rm p).
Proof. intros Hp. apply syscall_kept. intros m m' Hm. by apply (rm_frame _ _ _ _ Hm). Qed.

Lemma unlink_kept (k p : list string) :
  k ≠ resolve p → steps (kept k) (fs_promises.unlink p).
Proof.
  intros Hp. apply syscall_kept. intros m m' Hm. apply unlink_inv in Hm as (-> & _).
  by apply node_at_delete_ne.
Qed.

Lemma writeFile_kept (k p : list string) (c : string) (excl : bool) :
  k ≠ resolve p → steps (kept k) (fs_promises.writeFile p c excl).
Proof.
  intros Hp. apply syscall_kept. intros m m' Hm. apply writeFile_inv in Hm as (-> & _).
  by apply node_at_insert_ne.
Qed.

Lemma copyFile_kept (k a b : list string) :
  k ≠ resolve b → steps (kept k) (fs_promises.copyFile a b).
Proof.
  intros Hp. apply syscall_kept. intros m m' Hm. apply copyFile_inv in Hm as (c & _ & -> & _).
  by apply node_at_insert_ne.
Qed.

Lemma cp_kept (k a b : list string) :
  ¬ resolve b `prefix_of` k → ¬ k `prefix_of` resolve b →
  steps (kept k) (fs_promises.cp a b).
Proof.
  intros Hb Hk. apply syscall_kept. intros m m' Hm. apply (cp_frame _ _ _ _ _ Hm); [done|].
  by right.
Qed.

Lemma aloof_not_above_temp (k p : list string) (h : string) :
  aloof k p → ¬ k `prefix_of` resolve (tempPathOf p h).
Proof.
  intros (Hd & _ & _ & Ht) Hp. rewrite resolve_tempPathOf in Hp.
  apply prefix_snoc_inv in Hp as [Hp|Hp].
  - apply (Ht h). rewrite resolve_tempPathOf. by rewrite Hp.
  - done.
Qed.

(** The removal of the target before the rename, on Windows, and the
    rename. *)
Lemma install_kept (k a p : list string) (remove : M unit) :
  steps (kept k) remove →
  ¬ resolve a `prefix_of` k → ¬ resolve p `prefix_of` k →
  steps (kept k)
    (if negb win32 then fs_promises.rename a p
     else try_catch remove (λ _, mret ());; fs_promises.rename a p).
Proof.
  intros Hrm Ha Hp. destruct win32; simpl; [|by apply rename_kept].
  apply steps_bind; [apply _| |intros _; by apply rename_kept].
  apply steps_try_catch; [apply _|done|]. intros e. apply steps_ret, _.
Qed.

Lemma locked_region_kept (k p : list string) (work cleanup : list string → M unit) :
  aloof k p →
  (∀ h, steps (kept k) (work (tempPathOf p h))) →
  (∀ h, steps (kept k) (cleanup (tempPathOf p h))) →
  steps (kept k) (locked_region entropy p work cleanup).
Proof.
  intros Hal Hwork Hclean.
  apply locked_region_steps;
    [apply _|done| |intros d; apply sleep_kept| | |exact Hwork|exact Hclean].
  - apply mkdir_kept. by destruct Hal.
  - intros w r w'. apply acquireLock_kept. by apply aloof_marker.
  - apply release_kept. by apply aloof_marker.
Qed.

Lemma atomicWrite_kept (k p : list string) (c : string) :
  aloof k p → steps (kept k) (atomicWrite win32 entropy p c).
Proof.
  intros Hal. rewrite atomicWrite_region.
  assert (Hp := aloof_target _ _ Hal). destruct Hal as (Hd & Hpp & Hl & Ht) eqn:Heq.
  apply locked_region_kept; [done| |].
  - intros h. apply steps_withRetry; [apply _| |apply sleep_kept].
    apply steps_bind; [apply _| |intros _].
    + apply writeFile_kept. by apply aloof_temp.
    + apply install_kept; [by apply unlink_kept|apply Ht|done].
  - intros h. apply unlink_kept. by apply aloof_temp.
Qed.

Lemma atomicCopy_kept (k s p : list string) (preserve : option bool) :
  aloof k p → steps (kept k) (atomicCopy win32 entropy s p preserve).
Proof.
  intros Hal. rewrite atomicCopy_region.
  assert (Hp := aloof_target _ _ Hal). destruct Hal as (Hd & Hpp & Hl & Ht) eqn:Heq.
  apply locked_region_kept; [done| |].
  - intros h. apply steps_withRetry; [apply _| |apply sleep_kept].
    apply steps_bind; [apply _|apply sysread_kept|intros sourceStats].
    apply steps_bind; [apply _| |intros _].
    + destruct sourceStats as [x|].
      * apply steps_bind; [apply _| |intros _].
        -- apply copyFile_kept. by apply aloof_temp.
        -- destruct (default false preserve); [|apply steps_ret, _].
           apply steps_bind; [apply _|apply sysread_kept|intros _]. apply steps_ret, _.
      * apply cp_kept; [apply Ht|by apply aloof_not_above_temp].
    + apply install_kept; [by apply rm_kept|apply Ht|done].
  - intros h. apply rm_kept. apply Ht.
Qed.

Lemma atomicMove_kept (k b p : list string) :
  aloof k p → ¬ resolve b `prefix_of` k →
  steps (kept k) (atomicMove win32 dev entropy b p).
Proof.
  intros Hal Hb. assert (Hp := aloof_target _ _ Hal).
  assert (Hm := aloof_marker _ _ Hal). destruct Hal as (Hd & Hpp & Hl & Ht) eqn:Heq.
  unfold atomicMove.
  apply steps_bind; [apply _| |intros _].
  { apply steps_withRetry; [apply _|by apply mkdir_kept|apply sleep_kept]. }
  apply steps_try_catch; [apply _| |intros e; apply steps_throw, _].
  apply steps_bind; [apply _|apply sysread_kept|intros sourceStat].
  apply steps_bind; [apply _| |intros targetStat].
  { apply steps_try_catch; [apply _| |intros e; apply steps_ret, _].
    apply steps_bind; [apply _|apply sysread_kept|intros n]. apply steps_ret, _. }
  case_bool_decide.
  - apply steps_locked; [apply _| |].
    + intros w r w'. by apply acquireLock_kept.
    + apply steps_try_finally; [apply _| |by apply release_kept].
      apply steps_withRetry; [apply _| |apply sleep_kept].
      apply install_kept; [by apply rm_kept|done|done].
  - apply steps_bind; [apply _|by apply atomicCopy_kept|intros _]. by apply rm_kept.
Qed.

Lemma rollback_step_kept (k : list string) (op : Op) :
  (∀ b, op_backup op = Some b → aloof k (op_path op) ∧ ¬ resolve b `prefix_of` k) →
  ¬ resolve (op_path op) `prefix_of` k →
  steps (kept k) (rollback_step win32 dev entropy op).
Proof.
  intros Hbk Hp. unfold rollback_step.
  destruct (op_type op), (op_backup op) as [b|];
    try (apply steps_try_catch; [apply _|by apply rm_kept|intros e; apply steps_ret, _]).
  - destruct (Hbk b eq_refl) as [Hal Hb].
    apply steps_try_catch; [apply _|by apply atomicMove_kept|].
    intros e. by apply steps_modify.
  - apply steps_ret, _.
Qed.

End Frames.

(** ** What the engine achieves, on any disk *)

Lemma resolve_sibling_not_prefix (p : list string) (x : string) :
  plain x → String.length (basename p) < String.length x →
  ¬ resolve (dirname p ++ [x]) `prefix_of` resolve p.
Proof.
  intros Hx Hlen. rewrite resolve_snoc_plain by done.
  destruct p as [|b d _] using rev_ind.
  - intros Hp%prefix_length. rewrite length_app in Hp. simpl in Hp. lia.
  - rewrite dirname_snoc. rewrite basename_snoc in Hlen.
    unfold resolve at 2. rewrite foldl_snoc. fold (resolve d). unfold resolve_step.
    repeat case_bool_decide.
    + intros Hp%prefix_length. rewrite length_app in Hp. simpl in Hp. lia.
    + intros Hp%prefix_length. rewrite length_app, length_dirname in Hp. simpl in Hp. lia.
    + intros Hp. apply prefix_snoc_inv in Hp as [Hp|Hp%prefix_length].
      * apply app_inj_tail in Hp as [_ ->]. lia.
      * rewrite length_app in Hp. simpl in Hp. lia.
Qed.

Lemma resolve_tempPathOf_not_prefix (p : list string) (h : string) :
  ¬ resolve (tempPathOf p h) `prefix_of` resolve p.
Proof.
  apply resolve_sibling_not_prefix; [apply plain_temp|].
  rewrite !string_app_length. simpl. lia.
Qed.

Lemma rm_effect (m m' : gmap (list string) node) (q k : list string) :
  Fs.rm m q = inr m' → Fs.node_at m' k = Fs.node_at m k ∨ Fs.node_at m' k = None.
Proof.
  unfold Fs.rm. destruct (Fs.node_at m q) as [[c|]|] eqn:Hq.
  - intros [= <-]. assert (q ≠ []) by (by eapply node_at_file_nonroot).
    destruct (decide (q = k)) as [<-|Hk]; [right; by apply node_at_delete|].
    left. by apply node_at_delete_ne.
  - case_bool_decide as Hr; [done|]. intros [= <-].
    destruct (decide (q `prefix_of` k)) as [Hp|Hp]; [|left; by apply node_at_without].
    right. apply node_at_without_below; [|done]. intros ->. by apply prefix_nil_inv in Hp.
  - intros [= <-]. by left.
Qed.

(** A successful [withRetry] ends with a successful attempt; [J] holds
    as long as the attempts fail. *)
Lemma retry_loop_outcome {T} (J : World → Prop) (Q : error + T → World → Prop)
    (op : M T) (n : nat) :
  (∀ w r w', J w → op w = (r, w') →
     match r with inl _ => J w' | inr v => Q (inr v) w' end) →
  (∀ d w, J w → J (sleep d w).2) →
  (∀ e w, J w → Q (inl e) w) →
  ∀ i w r w', J w → retry_loop op n i w = (inr r, w') →
    match r with inl e => J w' | inr v => Q (inr v) w' end.
Proof.
  intros Hop Hsl HQ. induction n as [|n IH]; intros i w r w' HJ; simpl;
    unfold try_catch; rewrite bind_run;
    destruct (op w) as [[e|v] w1] eqn:Hrun;
    pose proof (Hop w _ w1 HJ Hrun) as H1; simpl in H1.
  - by intros [= <- <-].
  - by intros [= <- <-].
  - rewrite bind_run. unfold sleep at 1. simpl.
    pose proof (Hsl (retry_delay i) w1 H1) as H2. simpl in H2.
    destruct (is_permanent e); [by intros [= <- <-]|]. by apply IH.
  - by intros [= <- <-].
Qed.

Lemma withRetry_outcome {T} (J : World → Prop) (Q : error + T → World → Prop)
    (op : M T) (ctx : string) (n : nat) :
  (∀ w r w', J w → op w = (r, w') →
     match r with inl _ => J w' | inr v => Q (inr v) w' end) →
  (∀ d w, J w → J (sleep d w).2) →
  (∀ e w, J w → Q (inl e) w) →
  ∀ w r w', J w → withRetry op ctx n w = (r, w') → Q r w'.
Proof.
  intros Hop Hsl HQ w r w' HJ. unfold withRetry. rewrite bind_run.
  destruct (retry_loop op n 0 w) as [[e|r0] w1] eqn:Hrun.
  { by apply retry_loop_returns in Hrun. }
  pose proof (retry_loop_outcome J Q op n Hop Hsl HQ 0 w r0 w1 HJ Hrun) as H.
  destruct r0 as [e|v]; simpl in H.
  - intros [= <- <-]. by apply HQ.
  - by intros [= <- <-].
Qed.

Section Outcomes.

Context (win32 : bool) (dev : list string → nat) (entropy : nat → N).

(** The outcome of a locked region.  [J] holds up to the guarded work
    if it survives the draw, [mkdir], the waits and [acquireLock]; [Q]
    holds of a failure before the work, and of the outcome of the work,
    and survives the removal of the temporary file and the release. *)
Lemma locked_region_outcome (J : World → Prop) (Q : error + () → World → Prop)
    (p : list string) (work cleanup : list string → M unit) :
  (∀ w d, J w → J (set_draws d w)) →
  steps (stays J) (fs_promises.mkdir (dirname p)) →
  (∀ d w, J w → J (sleep d w).2) →
  (∀ w r w', J w → acquireLock entropy p w = (r, w') → J w') →
  (∀ e w, J w → Q (inl e) w) →
  (∀ h w r w', J w → work (tempPathOf p h) w = (r, w') → Q r w') →
  (∀ h r, steps (stays (Q r)) (ignore_errors (cleanup (tempPathOf p h)))) →
  (∀ r, steps (stays (Q r)) (release p (lockFileOf p))) →
  ∀ w r w', J w → locked_region entropy p work cleanup w = (r, w') → Q r w'.
Proof.
  intros Hdraw Hmk Hsl Hacq HQ Hwork Hclean Hrel w r w' HJ.
  unfold locked_region. rewrite (bind_ok _ _ _ _ _ (randomHex_run entropy 8 w)).
  set (h := hex (2 * 8) (entropy (draws w))).
  assert (HJ0 : J (set_draws (S (draws w)) w)) by (by apply Hdraw).
  rewrite bind_run.
  set (mk := withRetry (fs_promises.mkdir (dirname p))
               ("creating directory " +:+ render (dirname p)) (length RETRY_DELAYS)).
  assert (Hmk' : steps (stays J) mk).
  { apply steps_withRetry; [apply _|done|]. intros d w0 Hw0. by apply Hsl. }
  specialize (Hmk' (set_draws (S (draws w)) w)). unfold stays in Hmk'.
  destruct (mk (set_draws (S (draws w)) w)) as [[e|[]] w1]; simpl in Hmk'.
  { intros [= <- <-]. apply HQ. by apply Hmk'. }
  specialize (Hmk' HJ0). rewrite bind_run.
  destruct (acquireLock_exits entropy p w1) as (r2 & w2 & Hrun & _ & _ & _ & Hr).
  rewrite Hrun. pose proof (Hacq _ _ _ Hmk' Hrun) as HJ2.
  destruct r2 as [e|u]; [intros [= <- <-]; by apply HQ|]. destruct Hr as [-> _].
  unfold try_finally at 1.
  destruct (work (tempPathOf p h) w2) as [r3 w3] eqn:Hw.
  pose proof (Hwork h w2 r3 w3 HJ2 Hw) as HQ3.
  unfold try_finally.
  pose proof (Hclean h r3 w3) as H4. unfold stays in H4.
  assert (Hign : ∃ w4, ignore_errors (cleanup (tempPathOf p h)) w3 = (inr (), w4)).
  { unfold ignore_errors, try_catch. destruct (cleanup _ w3) as [[e|[]] w4]; by eexists. }
  destruct Hign as [w4 Hign]. rewrite Hign in H4 |- *. simpl in H4.
  pose proof (Hrel r3 w4) as H5. unfold stays in H5.
  destruct (release_run p w4) as (w5 & Hrun5 & _). rewrite Hrun5 in H5 |- *. simpl in H5.
  intros [= <- <-]. by apply H5, H4.
Qed.

(** The rename that ends an attempt, after the removal of the target
    on Windows: when it fails the disk is as it was, but for what the
    removal took away; when it succeeds the target holds the bytes of
    the file that was renamed. *)
Lemma install_outcome (a p : list string) (remove : M unit) (c : string) (w w' : World)
    (r : error + ()) (A : gmap (list string) node → Prop) :
  (∀ m m', A m → (∀ q, Fs.node_at m' q = Fs.node_at m q ∨ Fs.node_at m' q = None) → A m') →
  (∀ w0 r0 w1, remove w0 = (r0, w1) →
     ∀ q, Fs.node_at (fs w1) q = Fs.node_at (fs w0) q ∨ Fs.node_at (fs w1) q = None) →
  A (fs w) → Fs.node_at (fs w) (resolve a) = Some (File c) →
  (if negb win32 then fs_promises.rename a p
   else try_catch remove (λ _, mret ());; fs_promises.rename a p) w = (r, w') →
  match r with
  | inl _ => A (fs w')
  | inr _ => Fs.node_at (fs w') (resolve p) = Some (File c)
  end.
Proof.
  intros HA Hrm HAw Ha.
  assert (Hren : ∀ w1, A (fs w1) →
            Fs.node_at (fs w1) (resolve a) = Some (File c)
            ∨ Fs.node_at (fs w1) (resolve a) = None →
            fs_promises.rename a p w1 = (r, w') →
            match r with
            | inl _ => A (fs w')
            | inr _ => Fs.node_at (fs w') (resolve p) = Some (File c)
            end).
  { intros w1 HA1 Ha1. unfold fs_promises.rename, syscall.
    destruct (Fs.rename (fs w1) (resolve a) (resolve p)) as [x|m2] eqn:Hr.
    - by intros [= <- <-].
    - intros [= <- <-]. wsimpl. destruct Ha1 as [Ha1|Ha1].
      + apply rename_inv in Hr as (c' & Hc' & Hp & _); [|congruence]. congruence.
      + unfold Fs.rename in Hr. by rewrite Ha1 in Hr. }
  destruct win32; simpl; [|apply Hren; [done|by left]].
  rewrite bind_run. unfold try_catch.
  destruct (remove w) as [[e|[]] w1] eqn:Hrun; simpl;
    pose proof (Hrm _ _ _ Hrun) as Heff;
    (apply Hren; [by apply (HA (fs w) (fs w1))|]);
    (destruct (Heff (resolve a)) as [->| ->]; [by left|by right]).
Qed.

Lemma syscall_effect (e : event) (name : string)
    (f : gmap (list string) node → string + gmap (list string) node)
    (E : gmap (list string) node → gmap (list string) node → Prop) :
  (∀ m, E m m) → (∀ m m', f m = inr m' → E m m') →
  ∀ w r w', syscall e name f w = (r, w') → E (fs w) (fs w').
Proof.
  intros Hrefl Hf w r w'. unfold syscall. destruct (f (fs w)) as [x|m'] eqn:Hm.
  - intros [= _ <-]. apply Hrefl.
  - intros [= _ <-]. wsimpl. by apply Hf.
Qed.

Lemma rm_run_effect (p : list string) (w0 : World) (r0 : error + ()) (w1 : World) :
  fs_promises.rm p w0 = (r0, w1) →
  ∀ q, Fs.node_at (fs w1) q = Fs.node_at (fs w0) q ∨ Fs.node_at (fs w1) q = None.
Proof.
  intros Hrun q. revert Hrun.
  apply (syscall_effect _ _ _
           (λ m m', Fs.node_at m' q = Fs.node_at m q ∨ Fs.node_at m' q = None)).
  - by left.
  - intros m m' Hm. by eapply rm_effect.
Qed.

Lemma unlink_run_effect (p : list string) (w0 : World) (r0 : error + ()) (w1 : World) :
  fs_promises.unlink p w0 = (r0, w1) →
  ∀ q, Fs.node_at (fs w1) q = Fs.node_at (fs w0) q ∨ Fs.node_at (fs w1) q = None.
Proof.
  intros Hrun q. revert Hrun.
  apply (syscall_effect _ _ _
           (λ m m', Fs.node_at m' q = Fs.node_at m q ∨ Fs.node_at m' q = None)).
  - by left.
  - intros m m' Hm. apply unlink_inv in Hm as (-> & x & Hx).
    destruct (decide (resolve p = q)) as [<-|Hq].
    + right. apply node_at_delete. by eapply node_at_file_nonroot.
    + left. by apply node_at_delete_ne.
Qed.

(** A regular file holds its bytes, or was removed. *)
Local Abbreviation safe := (λ (k : list string) (old : string) (m : gmap (list string) node),
  Fs.node_at m k = Some (File old) ∨ Fs.node_at m k = None).

Lemma safe_effect (k : list string) (old : string) (m m' : gmap (list string) node) :
  safe k old m →
  (∀ q, Fs.node_at m' q = Fs.node_at m q ∨ Fs.node_at m' q = None) → safe k old m'.
Proof. intros [H|H] Heff; destruct (Heff k) as [->| ->]; by eauto. Qed.

(** An attempt of [atomicCopy] on a source that holds [old], or is
    gone. *)
Lemma copy_attempt_outcome (s p t : list string) (preserve : option bool) (old : string)
    (w w' : World) (r : error + ()) :
  safe (resolve s) old (fs w) →
  (sourceStats ← fs_promises.stat s;
   match sourceStats with
   | Dir => fs_promises.cp s t
   | File _ =>
       fs_promises.copyFile s t;;
       if default false preserve then fs_promises.utimes t else mret ()
   end;;
   if negb win32 then fs_promises.rename t p
   else try_catch (fs_promises.rm p) (λ _, mret ());; fs_promises.rename t p) w = (r, w') →
  match r with
  | inl _ => safe (resolve s) old (fs w')
  | inr _ => Fs.node_at (fs w') (resolve p) = Some (File old)
  end.
Proof.
  intros Hs. rewrite bind_run. unfold fs_promises.stat at 1, sysread at 1, Fs.stat.
  destruct (Fs.node_at (fs w) (resolve s)) as [[c|]|] eqn:Hn.
  - assert (c = old) as -> by (destruct Hs; congruence).
    rewrite bind_run, bind_run. unfold fs_promises.copyFile at 1, syscall at 1.
    destruct (Fs.copyFile (fs (log (SysStat s) w)) (resolve s) (resolve t)) as [x|m1] eqn:Hc.
    { intros [= <- <-]. wsimpl. by left. }
    apply copyFile_inv in Hc as (c & Hc & -> & Hne). wsimpl_in Hc.
    assert (c = old) as -> by congruence.
    set (w1 := set_fs _ _).
    assert (H1 : safe (resolve s) old (fs w1)).
    { unfold w1. wsimpl. destruct (decide (resolve t = resolve s)) as [Heq|Hneq].
      - left. rewrite <- Heq. by apply node_at_insert.
      - rewrite node_at_insert_ne by done. by left. }
    assert (Ht1 : Fs.node_at (fs w1) (resolve t) = Some (File old)).
    { unfold w1. wsimpl. by apply node_at_insert. }
    assert (Hut : ∃ r2 w2, (if default false preserve then fs_promises.utimes t else mret ()) w1
                           = (r2, w2) ∧ fs w2 = fs w1).
    { destruct (default false preserve); [|by eexists _, _].
      unfold fs_promises.utimes. rewrite bind_run. unfold sysread.
      destruct (Fs.stat (fs w1) (resolve t)); by eexists _, _. }
    destruct Hut as (r2 & w2 & -> & Hf2).
    destruct r2 as [e|[]]; [intros [= <- <-]; by rewrite Hf2|].
    apply (install_outcome t p (fs_promises.rm p) old w2 w' r (safe (resolve s) old)).
    + intros m m'. by apply safe_effect.
    + apply rm_run_effect.
    + by rewrite Hf2.
    + by rewrite Hf2.
  - destruct Hs; congruence.
  - intros [= <- <-]. wsimpl. by right.
Qed.

(** [atomicCopy] of a regular file that returns has put the bytes of
    the file at the target; the file must not be the lock marker of the
    target, which the call itself writes. *)
Lemma atomicCopy_success (s p : list string) (preserve : option bool) (old : string)
    (w w' : World) :
  Fs.node_at (fs w) (resolve s) = Some (File old) →
  resolve s ≠ resolve (lockFileOf p) →
  atomicCopy win32 entropy s p preserve w = (inr (), w') →
  Fs.node_at (fs w') (resolve p) = Some (File old).
Proof.
  intros Hs Hne Hrun. rewrite atomicCopy_region in Hrun.
  set (J := λ w : World, Fs.node_at (fs w) (resolve s) = Some (File old)).
  set (Q := λ (r : error + ()) (w : World),
              r = inr () → Fs.node_at (fs w) (resolve p) = Some (File old)).
  cut (Q (inr ()) w'); [intros H; by apply H|].
  eapply (locked_region_outcome J Q); [| | | | | | | | |exact Hrun]; [..|exact Hs].
  - done.
  - apply (steps_syscall_stays (λ m, Fs.node_at m (resolve s) = Some (File old))).
    intros m m' Hm Hm0. rewrite (mkdirp_frame _ _ _ _ Hm); [done|]. left. by rewrite Hm0.
  - done.
  - intros w0 r w1 Hw0 Hacq. unfold J.
    by rewrite (acquireLock_kept entropy _ _ _ _ _ Hne Hacq).
  - done.
  - intros h w0 r w1 Hw0 Hwork.
    eapply (withRetry_outcome
              (λ w, Fs.node_at (fs w) (resolve s) = Some (File old)
                    ∨ Fs.node_at (fs w) (resolve s) = None) Q);
      [| | | |exact Hwork]; [..|by left].
    + intros w2 r2 w3 Hw2 Hatt.
      pose proof (copy_attempt_outcome _ _ _ _ _ _ _ _ Hw2 Hatt) as H.
      destruct r2 as [e|[]]; [done|]. by intros _.
    + done.
    + done.
  - intros h r. apply steps_try_catch; [apply _| |intros e; apply steps_ret, _].
    apply (steps_syscall_stays
             (λ m, r = inr () → Fs.node_at m (resolve p) = Some (File old))).
    intros m m' Hm Hm0 Hr. rewrite (rm_frame _ _ _ _ Hm); [by apply Hm0|].
    apply resolve_tempPathOf_not_prefix.
  - intros r w0 Hw0 Hr. destruct (release_run p w0) as (w1 & -> & Hf & _). simpl.
    rewrite Hf; [by apply Hw0|]. apply not_eq_sym, resolve_lockFileOf_ne.
Qed.

End Outcomes.

(** ** The journal of a transaction, on any disk *)

(** *** The calls of a run *)

Lemma events_since_emits (P : event → Prop) (w w' : World) :
  emits P w w' → trace w' = trace w ++ events_since w w' ∧ Forall P (events_since w w').
Proof.
  intros (evs & Ht & HF). unfold events_since. rewrite Ht, drop_app_length. done.
Qed.

Lemma events_since_app (w w1 w2 : World) :
  emits (λ _, True) w w1 → emits (λ _, True) w1 w2 →
  events_since w w2 = events_since w w1 ++ events_since w1 w2.
Proof.
  intros [H1 _]%events_since_emits [H2 _]%events_since_emits.
  unfold events_since at 1. rewrite H2, H1, <- app_assoc. by rewrite drop_app_length.
Qed.

Lemma emits_impl (P Q : event → Prop) (w w' : World) :
  (∀ e, P e → Q e) → emits P w w' → emits Q w w'.
Proof. intros H (evs & Ht & HF). exists evs. split; [done|]. by eapply Forall_impl. Qed.

Lemma unread_events (evs : list event) :
  Forall (λ e, is_read e = false) evs → existsb is_read evs = false.
Proof. induction 1 as [|e evs He _ IH]; [done|]. simpl. by rewrite He, IH. Qed.

Section Calls.

Context (win32 : bool) (entropy : nat → N).

Local Abbreviation unread := (λ e : event, is_read e = false).

Lemma acquireLock_unread (p : list string) (w : World) :
  ∃ r w', acquireLock entropy p w = (r, w') ∧ emits unread w w'
          ∧ match r with
            | inl _ => True
            | inr u => u = release p (lockFileOf p)
            end.
Proof.
  destruct (acquireLock_exits entropy p w) as (r & w' & Hrun & _ & Hev & _ & Hr).
  exists r, w'. split; [done|]. split.
  - eapply emits_impl; [|exact Hev]. by intros e [[d ->]|[id ->]].
  - destruct r as [e|u]; [done|]. by destruct Hr.
Qed.

Lemma release_unread (p : list string) : steps (emits unread) (release p (lockFileOf p)).
Proof.
  intros w. destruct (release_run p w) as (w' & -> & _ & _ & Ht). simpl.
  exists [SysUnlink (lockFileOf p)]. split; [done|]. by apply Forall_singleton.
Qed.

(** The region [atomicWrite] and [atomicCopy] share reads nothing, if
    the guarded work and the removal of the temporary file do not. *)
Lemma locked_region_unread (p : list string) (work cleanup : list string → M unit) :
  (∀ t, steps (emits unread) (work t)) →
  (∀ t, steps (emits unread) (cleanup t)) →
  steps (emits unread) (locked_region entropy p work cleanup).
Proof.
  intros Hwork Hclean. unfold locked_region.
  apply steps_bind; [apply _| |intros suffix].
  { intros w. exists []. by rewrite app_nil_r. }
  apply steps_bind; [apply _| |intros _].
  { apply steps_withRetry; [apply _| |intros d; by apply steps_sleep_emits].
    by apply steps_syscall_emits. }
  intros w. rewrite bind_run.
  destruct (acquireLock_unread p w) as (r & w' & -> & Hev & Hr).
  destruct r as [e|u]; [done|]. subst u.
  etrans; [exact Hev|].
  apply steps_try_finally; [apply _|apply Hwork|].
  apply steps_try_finally; [apply _| |apply release_unread].
  apply steps_try_catch; [apply _|apply Hclean|]. intros e. apply steps_ret, _.
Qed.

Lemma atomicWrite_unread (p : list string) (c : string) :
  steps (emits unread) (atomicWrite win32 entropy p c).
Proof.
  rewrite atomicWrite_region. apply locked_region_unread.
  - intros t. apply steps_withRetry; [apply _| |intros d; by apply steps_sleep_emits].
    apply steps_bind; [apply _|by apply steps_syscall_emits|intros _].
    destruct win32; simpl; [|by apply steps_syscall_emits].
    apply steps_bind; [apply _| |intros _; by apply steps_syscall_emits].
    apply steps_try_catch; [apply _|by apply steps_syscall_emits|].
    intros e. apply steps_ret, _.
  - intros t. by apply steps_syscall_emits.
Qed.

Lemma atomicCopy_unread (s p : list string) (preserve : option bool) :
  steps (emits unread) (atomicCopy win32 entropy s p preserve).
Proof.
  assert (Hread : ∀ A (e : event) name (f : gmap (list string) node → string + A),
            unread e → steps (emits unread) (sysread e name f)).
  { intros A e name f He. apply steps_sysread. intros w. exists [e].
    split; [done|]. by apply Forall_singleton. }
  rewrite atomicCopy_region. apply locked_region_unread.
  - intros t. apply steps_withRetry; [apply _| |intros d; by apply steps_sleep_emits].
    apply steps_bind; [apply _|by apply Hread|intros sourceStats].
    apply steps_bind; [apply _| |intros _].
    + destruct sourceStats as [x|]; [|by apply steps_syscall_emits].
      apply steps_bind; [apply _|by apply steps_syscall_emits|intros _].
      destruct (default false preserve); [|apply steps_ret, _].
      apply steps_bind; [apply _|by apply Hread|intros _]. apply steps_ret, _.
    + destruct win32; simpl; [|by apply steps_syscall_emits].
      apply steps_bind; [apply _| |intros _; by apply steps_syscall_emits].
      apply steps_try_catch; [apply _|by apply steps_syscall_emits|].
      intros e. apply steps_ret, _.
  - intros t. by apply steps_syscall_emits.
Qed.

Lemma mutation_unread (c : command) : steps (emits unread) (mutation win32 entropy c).
Proof. destruct c; [apply atomicWrite_unread|apply atomicCopy_unread]. Qed.

(** *** One call of [write] or [copy], in any state *)

Lemma run_command_unfold (c : command) :
  run_command win32 entropy c
  = (backup win32 entropy (target c);;
     liftW (mutation win32 entropy c);;
     push (mutation_record c)).
Proof. by destruct c. Qed.

Lemma backup_absent (t : list string) (tx : TransactionLog) (w : World) :
  present w t = false →
  backup win32 entropy t (tx, w) = (inr (), (tx, log (SysAccess t) w)).
Proof.
  intros Hp. unfold backup. rewrite bind_run, liftW_run, access_run. simpl.
  unfold present in Hp. by rewrite Hp.
Qed.

Lemma backup_present (t : list string) (tx : TransactionLog) (w : World) :
  present w t = true →
  let b := backup_path entropy (backupDir tx) (draws w) in
  let saved := atomicCopy win32 entropy t b None
                 (set_draws (S (draws w)) (log (SysAccess t) w)) in
  backup win32 entropy t (tx, w)
  = match saved.1 with
    | inl e => (inl e, (tx, saved.2))
    | inr _ =>
        (inr (),
         (mkTx (operations tx ++ [mkOp backup_op t (Some b)]) (backupDir tx), saved.2))
    end.
Proof.
  intros Hp b saved. unfold backup. rewrite bind_run, liftW_run, access_run. simpl.
  unfold present in Hp. rewrite Hp. simpl.
  rewrite bind_run. simpl. rewrite bind_run, liftW_run. simpl.
  rewrite bind_run, liftW_run. unfold saved, b, backup_path, backup_name.
  destruct (atomicCopy _ _ _ _ _ _) as [[e|[]] w1]; simpl; [done|]. by destruct tx.
Qed.

Lemma mutate_run (c : command) (tx : TransactionLog) (w : World) :
  (liftW (mutation win32 entropy c);; push (mutation_record c)) (tx, w)
  = let mutated := mutation win32 entropy c w in
    (mutated.1,
     (mkTx (operations tx ++ (if mutated.1 is inr _ then [mutation_record c] else []))
           (backupDir tx), mutated.2)).
Proof.
  rewrite bind_run, liftW_run.
  destruct (mutation win32 entropy c w) as [[e|[]] w1]; simpl; destruct tx; simpl.
  - by rewrite app_nil_r.
  - done.
Qed.

Lemma run_command_block (c : command) (s : TransactionLog * World) :
  backupDir (run_command win32 entropy c s).2.1 = backupDir s.1
  ∧ ∃ blk,
      operations (run_command win32 entropy c s).2.1 = operations s.1 ++ blk
      ∧ call_block entropy (backupDir s.1) c (present s.2 (target c)) (draws s.2)
          (bool_decide ((run_command win32 entropy c s).1 = inr ())) blk.
Proof.
  destruct s as [tx w]. rewrite run_command_unfold, bind_run. simpl.
  destruct (present w (target c)) eqn:Hp.
  - rewrite (backup_present _ _ _ Hp).
    destruct (atomicCopy _ _ _ _ _ _) as [[e|[]] w1]; simpl.
    + split; [done|]. exists []. rewrite app_nil_r. split; [done|]. by left.
    + rewrite mutate_run. simpl.
      destruct (mutation win32 entropy c w1) as [[e|[]] w2]; simpl.
      * split; [done|]. eexists. split; [by rewrite app_nil_r|]. by right.
      * split; [done|]. eexists. split; [by rewrite <- app_assoc|]. done.
  - rewrite (backup_absent _ _ _ Hp). rewrite mutate_run. simpl.
    destruct (mutation win32 entropy c _) as [[e|[]] w2]; simpl.
    + split; [done|]. exists []. by rewrite app_nil_r.
    + split; [done|]. by eexists.
Qed.

Lemma run_all_cons (c : command) (cs : list command) (s : TransactionLog * World) :
  run_all win32 entropy (c :: cs) s
  = run_all win32 entropy cs (run_command win32 entropy c s).2.
Proof.
  unfold run_all. simpl. rewrite bind_run. unfold try_catch.
  by destruct (run_command win32 entropy c s) as [[e|[]] s1].
Qed.

Lemma run_all_journal_of (cs : list command) : ∀ s : TransactionLog * World,
  (run_all win32 entropy cs s).1 = inr ()
  ∧ backupDir (run_all win32 entropy cs s).2.1 = backupDir s.1
  ∧ ∃ blocks,
      journal_of win32 entropy s cs blocks
      ∧ operations (run_all win32 entropy cs s).2.1 = operations s.1 ++ concat blocks.
Proof.
  induction cs as [|c cs IH]; intros s.
  - split; [done|]. split; [done|]. exists []. split; [constructor|]. simpl.
    by rewrite app_nil_r.
  - rewrite run_all_cons.
    destruct (run_command_block c s) as (Hb & blk & Hops & Hblk).
    destruct (IH (run_command win32 entropy c s).2) as (Hr & Hb' & blocks & Hj & Hops').
    split; [done|]. split; [by rewrite Hb'|].
    exists (blk :: blocks). split; [by constructor|].
    simpl. by rewrite Hops', Hops, <- app_assoc.
Qed.

Lemma call_block_backups (bdir : list string) (c : command) (found : bool) (d : nat)
    (returned : bool) (blk : list Op) (t : list string) :
  call_block entropy bdir c found d returned blk →
  length (backups_of t blk) ≤ (if bool_decide (target c = t) then 1 else 0)
  ∧ (found = false → backups_of t blk = [])
  ∧ (found = true → returned = true → target c = t → length (backups_of t blk) = 1).
Proof.
  assert (Hmut : backups_of t [mutation_record c] = []) by (by destruct c).
  assert (Hbk : ∀ b, backups_of t [mkOp backup_op (target c) (Some b)]
                     = if bool_decide (target c = t)
                       then [mkOp backup_op (target c) (Some b)] else []).
  { intros b. unfold backups_of. case_bool_decide.
    - by rewrite filter_cons_True.
    - rewrite filter_cons_False; [done|]. by intros [_ ?]. }
  assert (Hboth : ∀ b, backups_of t [mkOp backup_op (target c) (Some b); mutation_record c]
                       = if bool_decide (target c = t)
                         then [mkOp backup_op (target c) (Some b)] else []).
  { intros b.
    change [mkOp backup_op (target c) (Some b); mutation_record c]
      with ([mkOp backup_op (target c) (Some b)] ++ [mutation_record c]).
    unfold backups_of in *. rewrite filter_app, Hmut, app_nil_r. apply Hbk. }
  unfold call_block.
  destruct found, returned; simpl; intros Hblk;
    [|destruct Hblk as [Hblk|Hblk]| |]; subst blk;
    rewrite ?Hboth, ?Hbk, ?Hmut; case_bool_decide;
    (split_and!; [simpl; lia|intros; done|intros; simpl; done]).
Qed.

Lemma journal_of_backups (t : list string) (cs : list command) (blocks : list (list Op))
    (s : TransactionLog * World) :
  journal_of win32 entropy s cs blocks →
  length (backups_of t (concat blocks)) ≤ length (commands_on t cs).
Proof.
  induction 1 as [|s c cs blk blocks Hblk _ _ IH]; [done|].
  unfold backups_of, commands_on in *. simpl. rewrite filter_app, length_app.
  destruct (call_block_backups _ _ _ _ _ _ t Hblk) as (Hle & _ & _).
  unfold backups_of in Hle. case_bool_decide.
  - rewrite filter_cons_True by done. simpl. lia.
  - rewrite filter_cons_False by done. lia.
Qed.

Lemma journal_of_length (cs : list command) (blocks : list (list Op))
    (s : TransactionLog * World) :
  journal_of win32 entropy s cs blocks → length blocks = length cs.
Proof. induction 1; simpl; congruence. Qed.

(** One call on a target that is there, in full. *)
Lemma run_command_found (c : command) (tx : TransactionLog) (w : World) :
  present w (target c) = true →
  let b := backup_path entropy (backupDir tx) (draws w) in
  let probed := set_draws (S (draws w)) (log (SysAccess (target c)) w) in
  let saved := atomicCopy win32 entropy (target c) b None probed in
  let mutated := mutation win32 entropy c saved.2 in
  run_command win32 entropy c (tx, w)
  = match saved.1 with
    | inl e => (inl e, (tx, saved.2))
    | inr _ =>
        (mutated.1,
         (mkTx (operations tx
                ++ mkOp backup_op (target c) (Some b)
                   :: (if mutated.1 is inr _ then [mutation_record c] else []))
               (backupDir tx), mutated.2))
    end.
Proof.
  intros Hp b probed saved mutated. rewrite run_command_unfold, bind_run.
  rewrite (backup_present _ _ _ Hp). fold b probed saved.
  destruct (saved.1) as [e|[]] eqn:Hs; [done|].
  rewrite mutate_run. fold mutated. simpl. by rewrite <- app_assoc.
Qed.

Lemma events_since_probe (t : list string) (w w' : World) (d : nat) :
  emits (λ _, True) (set_draws d (log (SysAccess t) w)) w' →
  events_since w w' = SysAccess t :: events_since (set_draws d (log (SysAccess t) w)) w'.
Proof.
  intros [H _]%events_since_emits. unfold events_since at 1. rewrite H. wsimpl.
  rewrite <- app_assoc. by rewrite drop_app_length.
Qed.

End Calls.



(** C8, as the code has it, on any disk and in any state of a
    transaction, for calls that fail as for calls that return.  The
    loop of the client does not throw, and the journal grows by one
    block for each call, in the order of the calls.  The block of a
    call made while its target exists is the backup record of the
    target, under a random name in the backup root, and right behind it
    the record of the mutation; of a call that fails there is the
    backup record alone, or nothing when the backup copy itself failed.
    A call made while its target does not exist adds no backup record.
    So a path has at most one backup record for each call on it, and
    one for every call on it that found it and returned: a path written
    twice has two, each right before the record of its write. *)
Theorem journal_backs_up_each_call (win32 : bool) (entropy : nat → N)
    (cs : list command) (s : TransactionLog * World) :
  let s' := (run_all win32 entropy cs s).2 in
  (run_all win32 entropy cs s).1 = inr ()
  ∧ ∃ blocks,
      operations s'.1 = operations s.1 ++ concat blocks
      ∧ journal_of win32 entropy s cs blocks
      ∧ ∀ t, length (backups_of t (concat blocks)) ≤ length (commands_on t cs).
Proof.
  intros s'. destruct (run_all_journal_of win32 entropy cs s) as (Hr & _ & blocks & Hj & Hops).
  split; [done|]. exists blocks. split_and!; [done|done|].
  intros t. by eapply journal_of_backups.
Qed.

Lemma journal_backs_up_each_call_witness :
  let s := (mkTx [] ["tmp"; "tx"], project_disk) in
  ∃ blocks,
    operations (run_all false counting rewriting_client s).2.1 = concat blocks
    ∧ length blocks = length rewriting_client
    ∧ ∀ t, length (backups_of t (concat blocks)) ≤ length (commands_on t rewriting_client).
Proof.
  intros s.
  destruct (journal_backs_up_each_call false counting rewriting_client s)
    as (_ & blocks & Hops & Hj & Hb).
  exists blocks. split_and!; [exact Hops|by eapply journal_of_length|exact Hb].
Defined.

(** The claim C8 fails for a path written twice: "a" was a file before
    the transaction, and each of the two writes puts its own backup
    record in front of its write record. *)
Example second_write_second_backup :
  let '(r, (tx, _)) :=
    run_all false counting rewriting_client (mkTx [] ["tmp"; "tx"], project_disk) in
  r = inr ()
  ∧ Fs.is_file (fs project_disk) ["a"] = true
  ∧ operations tx
    = [mkOp backup_op ["a"] (Some (backup_path counting ["tmp"; "tx"] 0));
       mkOp write_op ["a"] None;
       mkOp backup_op ["a"] (Some (backup_path counting ["tmp"; "tx"] 5));
       mkOp write_op ["a"] None]
  ∧ length (backups_of ["a"] (operations tx)) = 2.
Proof. vm_compute. done. Qed.

(** C2, as the code has it, on any disk and in any state of a
    transaction.  [write] and [copy] on a target that exists probe it,
    draw a random name and first run [atomicCopy] from the target to
    that name in the backup root.  When that copy fails, the call fails
    with its error, records nothing, and the mutation is not started.
    When it returns, the backup record is appended, only then the
    mutation runs, and its record is appended when it returns; the
    backup of a regular file holds the bytes the file had (unless the
    file is the lock marker of its own backup, which the copy itself
    writes).  The calls of the run are the probe, those of the backup
    copy and then those of the mutation, and none of them reads a file
    or lists a directory: no fingerprint is taken, no listing
    compared. *)
Theorem mutation_backs_up_unverified (win32 : bool) (entropy : nat → N) (c : command)
    (tx : TransactionLog) (w : World) :
  present w (target c) = true →
  let b := backup_path entropy (backupDir tx) (draws w) in
  let probed := set_draws (S (draws w)) (log (SysAccess (target c)) w) in
  let saved := atomicCopy win32 entropy (target c) b None probed in
  let mutated := mutation win32 entropy c saved.2 in
  let call := run_command win32 entropy c (tx, w) in
  match saved.1 with
  | inl e =>
      call = (inl e, (tx, saved.2))
      ∧ events_since w call.2.2 = SysAccess (target c) :: events_since probed saved.2
  | inr _ =>
      call = (mutated.1,
              (mkTx (operations tx
                     ++ mkOp backup_op (target c) (Some b)
                        :: (if mutated.1 is inr _ then [mutation_record c] else []))
                    (backupDir tx), mutated.2))
      ∧ events_since w call.2.2
        = SysAccess (target c) :: events_since probed saved.2
          ++ events_since saved.2 mutated.2
      ∧ (∀ old, Fs.node_at (fs w) (resolve (target c)) = Some (File old) →
                resolve (target c) ≠ resolve (lockFileOf b) →
                Fs.node_at (fs saved.2) (resolve b) = Some (File old))
  end
  ∧ existsb is_read (events_since w call.2.2) = false.
Proof.
  intros Hp b probed saved mutated call.
  assert (Hcall := run_command_found win32 entropy c tx w Hp).
  cbv zeta in Hcall. fold b probed saved mutated call in Hcall.
  assert (E1 := atomicCopy_unread win32 entropy (target c) b None probed).
  fold saved in E1.
  assert (E2 := mutation_unread win32 entropy c saved.2). fold mutated in E2.
  assert (T1 : emits (λ _, True) probed saved.2) by (by eapply emits_impl; [|exact E1]).
  assert (T2 : emits (λ _, True) saved.2 mutated.2) by (by eapply emits_impl; [|exact E2]).
  assert (U1 := proj2 (events_since_emits _ _ _ E1)).
  assert (U2 := proj2 (events_since_emits _ _ _ E2)).
  assert (H1 : events_since w saved.2 = SysAccess (target c) :: events_since probed saved.2)
    by (by apply events_since_probe).
  assert (H2 : events_since w mutated.2
               = SysAccess (target c) :: events_since probed saved.2
                 ++ events_since saved.2 mutated.2).
  { rewrite (events_since_probe (target c) w mutated.2 (S (draws w))); [|by etrans].
    f_equal. by apply events_since_app. }
  destruct (saved.1) as [e|[]] eqn:Hs; rewrite Hcall; simpl.
  - split; [done|]. rewrite H1. simpl. by apply unread_events.
  - split; [split_and!; [done|done|]|].
    + intros old Hold Hne.
      apply (atomicCopy_success win32 entropy (target c) b None old probed); [done|done|].
      unfold saved in Hs |- *. destruct (atomicCopy _ _ _ _ _ _) as [r1 w1]. simpl in *.
      by rewrite Hs.
    + rewrite H2. simpl. apply unread_events. by apply Forall_app.
Qed.

(** A write over a file next to a lock file of another tool. *)
Lemma mutation_backs_up_unverified_witness :
  let w := disk [(["a"], File "old"); (["yarn.lock"], File "v1"); (["tmp"], Dir);
                 (["tmp"; "tx"], Dir)] in
  let c := Write ["a"] "new" in
  let b := backup_path counting ["tmp"; "tx"] 0 in
  let call := run_command false counting c (mkTx [] ["tmp"; "tx"], w) in
  present w (target c) = true
  ∧ call.1 = inr ()
  ∧ operations call.2.1 = [mkOp backup_op ["a"] (Some b); mkOp write_op ["a"] None]
  ∧ Fs.node_at (fs call.2.2) (resolve b) = Some (File "old")
  ∧ existsb is_read (events_since w call.2.2) = false.
Proof.
  intros w c b call.
  assert (Hp : present w (target c) = true) by (vm_compute; reflexivity).
  pose proof (mutation_backs_up_unverified false counting c (mkTx [] ["tmp"; "tx"]) w Hp)
    as [_ Hread].
  split_and!; [exact Hp|vm_compute; reflexivity|vm_compute; reflexivity
              |vm_compute; reflexivity|exact Hread].
Defined.

(** The claim C2 fails on the verification: a [write] over a file
    succeeds and records the backup and the write without one call that
    reads a file or lists a directory, while [verifyBackup] on the same
    pair has to read. *)
Example write_over_file_reads_nothing :
  let b := backup_path counting ["tmp"; "tx"] 0 in
  let '(r, (tx, w)) :=
    write false counting ["a"] "new" (mkTx [] ["tmp"; "tx"], project_disk) in
  r = inr ()
  ∧ operations tx = [mkOp backup_op ["a"] (Some b); mkOp write_op ["a"] None]
  ∧ Fs.read (fs w) ["a"] = inr "new"
  ∧ existsb is_read (trace w) = false
  ∧ existsb is_read (trace (verifyBackup (λ s, s) ["a"] b w).2) = true.
Proof. vm_compute. done. Qed.

(** ** The order in which [rollback] replays the journal *)

Lemma begins_emits (e : event) (P : event → Prop) (w w1 w2 : World) :
  begins e w w1 → emits P w1 w2 → begins e w w2.
Proof.
  intros (e1 & H1) (e2 & H2 & _). exists (e1 ++ e2).
  by rewrite H2, H1, <- app_assoc.
Qed.

Lemma begins_events (e : event) (w w' : World) :
  begins e w w' → head (events_since w w') = Some e ∧ emits (λ _, True) w w'.
Proof.
  intros (evs & Ht). unfold events_since. rewrite Ht, drop_app_length. split; [done|].
  exists (e :: evs). split; [done|]. by apply Forall_true.
Qed.

Lemma steps_begins_bind {A B} (e : event) (m : M A) (f : A → M B) :
  steps (begins e) m → (∀ a, steps (emits (λ _, True)) (f a)) → steps (begins e) (m ≫= f).
Proof.
  intros Hm Hf w. rewrite bind_run. specialize (Hm w).
  destruct (m w) as [[err|a] w1]; simpl in *; [done|].
  eapply begins_emits; [exact Hm|apply Hf].
Qed.

Lemma steps_begins_try_catch {A} (e : event) (m : M A) (h : error → M A) :
  steps (begins e) m → (∀ err, steps (emits (λ _, True)) (h err)) →
  steps (begins e) (try_catch m h).
Proof.
  intros Hm Hh w. unfold try_catch. specialize (Hm w).
  destruct (m w) as [[err|a] w1]; simpl in *; [|done].
  eapply begins_emits; [exact Hm|apply Hh].
Qed.

Lemma syscall_begins (e : event) (name : string)
    (f : gmap (list string) node → string + gmap (list string) node) :
  steps (begins e) (syscall e name f).
Proof. intros w. unfold syscall. destruct (f (fs w)); by exists []. Qed.

(** A retried call starts with that call. *)
Lemma withRetry_begins (e : event) (name : string)
    (f : gmap (list string) node → string + gmap (list string) node)
    (ctx : string) (n : nat) :
  steps (begins e) (withRetry (syscall e name f) ctx n).
Proof.
  assert (Hany : steps (emits (λ _, True)) (syscall e name f))
    by by apply steps_syscall_emits.
  assert (Hsl : ∀ d, steps (emits (λ _ : event, True)) (sleep d))
    by (intros d; by apply steps_sleep_emits).
  unfold withRetry. apply steps_begins_bind.
  - destruct n as [|n]; simpl; apply steps_begins_try_catch.
    + apply steps_begins_bind; [apply syscall_begins|]. intros v. apply steps_ret, _.
    + intros err. apply steps_ret, _.
    + apply steps_begins_bind; [apply syscall_begins|]. intros v. apply steps_ret, _.
    + intros err. apply steps_bind; [apply _|apply Hsl|intros _].
      destruct (is_permanent err); [apply steps_ret, _|].
      apply steps_retry_loop; [apply _|done|done].
  - intros [err|v]; [apply steps_throw, _|apply steps_ret, _].
Qed.

Section Replay.

Context (win32 : bool) (dev : list string → nat) (entropy : nat → N).

Local Abbreviation any := (λ _ : event, True).

Lemma atomicMove_tail_emits (b p : list string) (w : World) (u : M unit) :
  steps (emits any) u →
  steps (emits any)
    (try_finally
       (withRetry
          (if negb win32 then fs_promises.rename b p
           else try_catch (fs_promises.rm p) (λ _, mret ());; fs_promises.rename b p)
          ("atomic move from " +:+ render b +:+ " to " +:+ render p)
          (length RETRY_DELAYS))
       u).
Proof.
  intros Hu. apply steps_try_finally; [apply _| |done].
  apply steps_withRetry; [apply _| |intros d; by apply steps_sleep_emits].
  destruct win32; simpl; [|by apply steps_syscall_emits].
  apply steps_bind; [apply _| |intros _; by apply steps_syscall_emits].
  apply steps_try_catch; [apply _|by apply steps_syscall_emits|].
  intros e. apply steps_ret, _.
Qed.

(** [atomicMove] starts by making the directory of its target. *)
Lemma atomicMove_begins (b p : list string) :
  steps (begins (SysMkdir (dirname p))) (atomicMove win32 dev entropy b p).
Proof.
  unfold atomicMove. apply steps_begins_bind; [apply withRetry_begins|intros _].
  apply steps_try_catch; [apply _| |intros e; apply steps_throw, _].
  apply steps_bind; [apply _| |intros sourceStat].
  { apply steps_sysread. intros w. exists [SysStat (dirname b)]. split; [done|].
    by apply Forall_true. }
  apply steps_bind; [apply _| |intros targetStat].
  { apply steps_try_catch; [apply _| |intros e; apply steps_ret, _].
    apply steps_bind; [apply _| |intros n; apply steps_ret, _].
    apply steps_sysread. intros w. exists [SysStat (dirname p)]. split; [done|].
    by apply Forall_true. }
  case_bool_decide.
  - intros w. rewrite bind_run.
    destruct (acquireLock_unread entropy p w) as (r & w' & -> & Hev & Hr).
    destruct r as [e|u]; simpl.
    { eapply emits_impl; [|exact Hev]. done. }
    subst u. etrans; [eapply emits_impl; [|exact Hev]; done|].
    apply atomicMove_tail_emits; [exact w|].
    intros w0. eapply emits_impl; [|apply release_unread]. done.
  - apply steps_bind; [apply _| |intros _; by apply steps_syscall_emits].
    intros w. eapply emits_impl; [|apply atomicCopy_unread]. done.
Qed.

(** The events of one step of [rollback]. *)
Lemma rollback_step_replays (op : Op) (w : World) :
  let w' := (rollback_step win32 dev entropy op w).2 in
  replays op (events_since w w') ∧ emits any w w'.
Proof.
  unfold rollback_step, replays, first_call.
  destruct (op_type op) eqn:Hty, (op_backup op) as [b|] eqn:Hbk; simpl.
  all: try match goal with
  | |- context [fs_promises.rm ?p] =>
      assert (Hrm : events_since w (try_catch (fs_promises.rm p) (λ _, mret ()) w).2
                    = [SysRm p]
                    ∧ emits any w (try_catch (fs_promises.rm p) (λ _, mret ()) w).2);
      [|destruct Hrm as [-> Hrm]; by split_and!]
  end.
  all: try (unfold try_catch, fs_promises.rm, syscall, events_since;
            destruct (Fs.rm _ _); simpl; rewrite drop_app_length;
            (split; [done|]); exists [SysRm (op_path op)]; (split; [done|]);
            by apply Forall_true).
  - assert (Hb : begins (SysMkdir (dirname (op_path op))) w
                   (try_catch (atomicMove win32 dev entropy b (op_path op))
                      (λ error, console_error ("Failed to rollback " +:+ render (op_path op)
                                               +:+ ": Error: " +:+ message error)) w).2).
    { apply steps_begins_try_catch; [apply atomicMove_begins|].
      intros err. apply steps_modify. intros w0. exists [ConsoleError
        ("Failed to rollback " +:+ render (op_path op) +:+ ": Error: " +:+ message err)].
      split; [done|]. by apply Forall_true. }
    apply begins_events in Hb as [Hh Hev]. by split_and!.
  - unfold events_since. rewrite drop_all. split_and!; [done|done|].
    exists []. by rewrite app_nil_r.
Qed.

(** The events of a pass over the records: one run of events for each
    record in turn. *)
Lemma for_of_replays (ops : list Op) (tx : TransactionLog) : ∀ w : World,
  ∃ w' segs,
    for_of ops (λ op, liftW (rollback_step win32 dev entropy op)) (tx, w) = (inr (), (tx, w'))
    ∧ events_since w w' = concat segs
    ∧ Forall2 replays ops segs
    ∧ emits any w w'.
Proof.
  induction ops as [|op ops IH]; intros w; simpl.
  - exists w, []. split_and!; [done| |constructor|exists []; by rewrite app_nil_r].
    unfold events_since. by rewrite drop_all.
  - destruct (rollback_step_total win32 dev entropy op w) as (w1 & H1).
    destruct (rollback_step_replays op w) as [Hseg Hev1]. rewrite H1 in Hseg, Hev1.
    simpl in Hseg, Hev1.
    destruct (IH w1) as (w' & segs & Hrun & Hevs & Hall & Hev2).
    exists w', (events_since w w1 :: segs).
    rewrite bind_run, liftW_run, H1. simpl. split_and!; [done| |by constructor|by etrans].
    simpl. rewrite <- Hevs. by apply events_since_app.
Qed.

Lemma rollback_run (tx : TransactionLog) (w : World) :
  rollback win32 dev entropy (tx, w)
  = for_of (reverse (operations tx)) (λ op, liftW (rollback_step win32 dev entropy op))
      (mkTx (reverse (operations tx)) (backupDir tx), w).
Proof. reflexivity. Qed.

Lemma replays_head (ops : list Op) (segs : list (list event)) (op : Op) (e : event) :
  Forall2 replays ops segs → head ops = Some op → first_call op = Some e →
  head (concat segs) = Some e.
Proof.
  intros Hall Hop He. destruct Hall as [|op' seg ops' segs' [Hh _] _]; [done|].
  simpl in Hop. injection Hop as ->. rewrite He in Hh. simpl.
  destruct seg as [|e' seg]; [done|]. simpl in *. done.
Qed.

End Replay.

(** C10: [rollback] reverses [operations] in place, whatever the
    journal and the world.  Both calls return.  The first leaves the
    array reversed and its events are one run per record, newest record
    first; the second finds the array reversed, turns it back and its
    events are one run per record, oldest record first: the order in
    which the operations were executed.  The run of a write or copy
    record is the removal of its path and nothing else; the run of a
    backup record starts with the [mkdir] of the move that restores it.
    So the first pass starts with the first call of the newest record
    and the second with the first call of the oldest, and when these two
    calls differ (which takes two records) the passes differ. *)
Theorem rollback_twice_replays_forward (win32 : bool) (dev : list string → nat)
    (entropy : nat → N) (tx : TransactionLog) (w : World) :
  let once := rollback win32 dev entropy (tx, w) in
  let twice := rollback win32 dev entropy once.2 in
  let first_pass := events_since w once.2.2 in
  let second_pass := events_since once.2.2 twice.2.2 in
  once.1 = inr () ∧ twice.1 = inr ()
  ∧ operations once.2.1 = reverse (operations tx)
  ∧ operations twice.2.1 = operations tx
  ∧ (∃ segs, first_pass = concat segs ∧ Forall2 replays (reverse (operations tx)) segs)
  ∧ (∃ segs, second_pass = concat segs ∧ Forall2 replays (operations tx) segs)
  ∧ ∀ oldest newest e1 en,
      head (operations tx) = Some oldest → last (operations tx) = Some newest →
      first_call oldest = Some e1 → first_call newest = Some en →
      head first_pass = Some en ∧ head second_pass = Some e1
      ∧ (e1 ≠ en → first_pass ≠ second_pass ∧ 2 ≤ length (operations tx)).
Proof.
  intros once twice first_pass second_pass.
  set (reversed := mkTx (reverse (operations tx)) (backupDir tx)).
  destruct (for_of_replays win32 dev entropy (reverse (operations tx)) reversed w)
    as (w1 & segs1 & Hrun1 & Hevs1 & Hall1 & _).
  assert (Honce : once = (inr (), (reversed, w1))).
  { unfold once. by rewrite rollback_run. }
  set (original := mkTx (operations tx) (backupDir tx)).
  destruct (for_of_replays win32 dev entropy (operations tx) original w1)
    as (w2 & segs2 & Hrun2 & Hevs2 & Hall2 & _).
  assert (Htwice : twice = (inr (), (original, w2))).
  { unfold twice. rewrite Honce. cbn [snd]. rewrite rollback_run. simpl.
    rewrite reverse_involutive. exact Hrun2. }
  unfold first_pass, second_pass. rewrite Htwice, Honce. simpl.
  split_and!; [done|done|done|done|by exists segs1|by exists segs2|].
  intros oldest newest e1 en Hold Hnew H1 Hn.
  assert (Hh1 : head (events_since w w1) = Some en).
  { rewrite Hevs1. eapply replays_head; [exact Hall1| |exact Hn].
    by rewrite head_reverse. }
  assert (Hh2 : head (events_since w1 w2) = Some e1).
  { rewrite Hevs2. eapply replays_head; [exact Hall2|exact Hold|exact H1]. }
  split_and!; [done|done|]. intros Hne. split.
  - intros Heq. rewrite Heq, Hh2 in Hh1. congruence.
  - destruct (operations tx) as [|a [|a' l]]; simpl in *; [done| |lia].
    congruence.
Qed.

Lemma rollback_twice_replays_forward_witness :
  let s := (run_all false counting [Write ["a"] "new"] (mkTx [] ["tmp"; "tx"], project_disk)).2 in
  let once := rollback false (λ _, 0) counting s in
  let twice := rollback false (λ _, 0) counting once.2 in
  (length (operations s.1) = 2
   ∧ head (events_since s.2 once.2.2) = Some (SysRm ["a"])
   ∧ head (events_since once.2.2 twice.2.2) = Some (SysMkdir (dirname ["a"]))
   ∧ events_since s.2 once.2.2 ≠ events_since once.2.2 twice.2.2)
  ∧ Fs.node_at (fs s.2) (resolve ["a"]) = Some (File "new")
  ∧ Fs.node_at (fs once.2.2) (resolve ["a"]) = Some (File "old")
  ∧ Fs.node_at (fs twice.2.2) (resolve ["a"]) = None
  ∧ filter (λ e, bool_decide (e = SysRm ["a"])) (events_since once.2.2 twice.2.2) = [SysRm ["a"]].
Proof.
  intros s once twice. split; [|by vm_compute].
  destruct (rollback_twice_replays_forward false (λ _, 0) counting s.1 s.2)
    as (_ & _ & _ & _ & _ & _ & H).
  destruct (H (mkOp backup_op ["a"] (Some ["tmp"; "tx"; hex 16 (counting 0)]))
              (mkOp write_op ["a"] None) (SysMkdir (dirname ["a"])) (SysRm ["a"]))
    as (H1 & H2 & H3); [by vm_compute..|].
  destruct H3 as [H3 _]; [done|].
  replace (s.1, s.2) with s in H1, H2, H3 by by destruct s.
  split_and!; [by vm_compute|exact H1|exact H2|exact H3].
Defined.

(** ** What [rollback] restores, on any disk *)

(** *** Paths that keep out of each other's way *)

Lemma prefix_of_dirname_resolve (k p : list string) :
  k `prefix_of` resolve (dirname p) → k `prefix_of` resolve p ∨ resolve p `prefix_of` k.
Proof.
  destruct p as [|s d _] using rev_ind; [by left|].
  rewrite dirname_snoc. unfold resolve at 2 3. rewrite foldl_snoc. fold (resolve d).
  unfold resolve_step. intros Hk. repeat case_bool_decide.
  - by left.
  - destruct (resolve d) as [|x q _] using rev_ind; [by left|].
    rewrite dirname_snoc. apply prefix_snoc_inv in Hk as [->|Hk]; [right|by left].
    by apply prefix_app_r.
  - left. by apply prefix_app_r.
Qed.

Lemma private_segment (q k : list string) (x : string) :
  public k → private_name x → ¬ (q ++ [x]) `prefix_of` k.
Proof.
  intros Hk Hx [l ->]. apply Forall_app in Hk as [Hk _].
  apply Forall_app in Hk as [_ Hk]. by inversion Hk.
Qed.

(** A path without private segments that is unrelated to the target is
    out of the way of the engine. *)
Lemma aloof_unrelated (k p : list string) :
  public k → unrelated k (resolve p) → aloof k p.
Proof.
  intros Hk [H1 H2]. split_and!.
  - intros Hp. by apply prefix_of_dirname_resolve in Hp as [?|?].
  - done.
  - rewrite resolve_lockFileOf. apply private_segment; [done|apply private_lock].
  - intros h. rewrite resolve_tempPathOf. apply private_segment; [done|apply private_temp].
Qed.

Lemma unrelated_sym (a b : list string) : unrelated a b → unrelated b a.
Proof. by intros [? ?]. Qed.

Lemma unrelated_child (k q : list string) (x : string) :
  unrelated k q → unrelated k (q ++ [x]).
Proof.
  intros [H1 H2]. split.
  - intros Hp. apply prefix_snoc_inv in Hp as [->|Hp]; [|done].
    apply H2. by apply prefix_app_r.
  - intros Hp. apply H2. etrans; [|exact Hp]. by apply prefix_app_r.
Qed.

Lemma unrelated_siblings (q : list string) (x y : string) :
  x ≠ y → unrelated (q ++ [x]) (q ++ [y]).
Proof.
  intros Hne. split; intros Hp; apply prefix_snoc_inv in Hp as [Hp|Hp].
  - apply app_inj_tail in Hp as [_ ?]. done.
  - apply prefix_length in Hp. rewrite length_app in Hp. simpl in Hp. lia.
  - apply app_inj_tail in Hp as [_ ?]. done.
  - apply prefix_length in Hp. rewrite length_app in Hp. simpl in Hp. lia.
Qed.

Lemma resolve_backup_path (entropy : nat → N) (bdir : list string) (d : nat) :
  resolve (backup_path entropy bdir d) = resolve bdir ++ [backup_name entropy d].
Proof. apply resolve_snoc_plain, plain_backup_name. Qed.

Lemma public_backup_path (entropy : nat → N) (bdir : list string) (d : nat) :
  public (resolve bdir) → public (resolve (backup_path entropy bdir d)).
Proof.
  intros Hb. rewrite resolve_backup_path. apply Forall_app. split; [done|].
  apply Forall_singleton. apply hex_not_private.
Qed.

Lemma resolve_plain_basename (t : list string) :
  plain (basename t) → resolve t = resolve (dirname t) ++ [basename t].
Proof.
  intros Hp. destruct t as [|s d _] using rev_ind; [by destruct Hp as (_ & _ & ?)|].
  rewrite dirname_snoc, basename_snoc in *. by apply resolve_snoc_plain.
Qed.

Lemma plain_basename_not_above (t : list string) :
  plain (basename t) → ¬ resolve t `prefix_of` resolve (dirname t).
Proof.
  intros Hp. rewrite (resolve_plain_basename t Hp).
  intros H%prefix_length. rewrite length_app in H. simpl in H. lia.
Qed.

Lemma plain_basename_not_above_temp (t : list string) (h : string) :
  plain (basename t) → ¬ resolve t `prefix_of` resolve (tempPathOf t h).
Proof.
  intros Hp H. rewrite resolve_tempPathOf in H.
  apply prefix_snoc_inv in H as [H|H].
  - by apply (resolve_tempPathOf_ne t h); rewrite resolve_tempPathOf.
  - by apply plain_basename_not_above in H.
Qed.

(** *** One call, seen from one path *)

Lemma syscall_failure (e : event) (name : string)
    (f : gmap (list string) node → string + gmap (list string) node)
    (w w' : World) (err : error) :
  syscall e name f w = (inl err, w') → fs w' = fs w.
Proof. unfold syscall. destruct (f (fs w)); [by intros [= _ <-]|done]. Qed.

Section Restore.

Context (win32 : bool) (dev : list string → nat) (entropy : nat → N).

Local Abbreviation kept := (λ k : list string, keeps (λ w, Fs.node_at (fs w) k)).
Local Abbreviation absent := (λ (k : list string) (w : World), Fs.node_at (fs w) k = None).

(** A call leaves alone what is out of the way of its target and of
    its backup. *)
Lemma run_command_kept (k : list string) (c : command) (tx : TransactionLog) (w : World) :
  aloof k (target c) →
  aloof k (backup_path entropy (backupDir tx) (draws w)) →
  Fs.node_at (fs (run_command win32 entropy c (tx, w)).2.2) k = Fs.node_at (fs w) k.
Proof.
  intros Ht Hb.
  assert (Hmut : steps (kept k) (mutation win32 entropy c)).
  { destruct c; [by apply atomicWrite_kept|by apply atomicCopy_kept]. }
  destruct (present w (target c)) eqn:Hp.
  - rewrite (run_command_found win32 entropy c tx w Hp).
    set (probed := set_draws (S (draws w)) (log (SysAccess (target c)) w)).
    pose proof (atomicCopy_kept win32 entropy k (target c) _ None Hb probed) as H1.
    destruct (atomicCopy _ _ _ _ _ probed) as [[e|[]] w1]; simpl in *; [done|].
    rewrite (Hmut w1). exact H1.
  - rewrite run_command_unfold, bind_run, (backup_absent win32 entropy _ _ _ Hp).
    rewrite mutate_run. simpl. by rewrite (Hmut _).
Qed.

(** A failed attempt that ends with the rename onto the target leaves
    an absent target absent. *)
Lemma attempt_absent (T a p : list string) (pre remove : M unit) (w w' : World)
    (r : error + ()) :
  steps (stays (absent T)) pre → steps (stays (absent T)) remove →
  absent T w →
  (pre;;
   if negb win32 then fs_promises.rename a p
   else try_catch remove (λ _, mret ());; fs_promises.rename a p) w = (r, w') →
  match r with inl _ => absent T w' | inr _ => True end.
Proof.
  intros Hpre Hrm Hw. rewrite bind_run. specialize (Hpre w).
  destruct (pre w) as [[e|[]] w1]; simpl in Hpre; [intros [= <- <-]; by apply Hpre|].
  specialize (Hpre Hw).
  assert (Hren : ∀ w2, absent T w2 → fs_promises.rename a p w2 = (r, w') →
            match r with inl _ => absent T w' | inr _ => True end).
  { intros w2 Hw2 Hrun. destruct r as [e|[]]; [|done].
    unfold fs_promises.rename in Hrun. apply syscall_failure in Hrun. by rewrite Hrun. }
  destruct win32; simpl; [|by apply Hren].
  rewrite bind_run. unfold try_catch. specialize (Hrm w1).
  destruct (remove w1) as [[e|[]] w2]; simpl in *; apply Hren; by apply Hrm.
Qed.

Lemma syscall_absent (T : list string) (e : event) (name : string)
    (f : gmap (list string) node → string + gmap (list string) node) :
  (∀ m m', f m = inr m' → Fs.node_at m T = None → Fs.node_at m' T = None) →
  steps (stays (absent T)) (syscall e name f).
Proof. intros Hf. by apply (steps_syscall_stays (λ m, Fs.node_at m T = None)). Qed.

Lemma sysread_absent {A} (T : list string) (e : event) (name : string)
    (f : gmap (list string) node → string + A) :
  steps (stays (absent T)) (sysread e name f).
Proof. apply steps_sysread. by intros w Hw. Qed.

(** A mutation that fails leaves an absent target absent. *)
Lemma mutation_absent (c : command) (w w' : World) (e : error) :
  plain (basename (target c)) →
  absent (resolve (target c)) w →
  mutation win32 entropy c w = (inl e, w') →
  absent (resolve (target c)) w'.
Proof.
  intros Hplain Hw Hrun. set (t := target c) in *. set (T := resolve t) in *.
  set (Q := λ (r : error + ()) (w : World),
              match r with inl _ => absent T w | inr _ => True end).
  assert (Hlock : T ≠ resolve (lockFileOf t)) by apply not_eq_sym, resolve_lockFileOf_ne.
  assert (Htemp : ∀ h, ¬ resolve (tempPathOf t h) `prefix_of` T)
    by (intros h; apply resolve_tempPathOf_not_prefix).
  assert (Htne : ∀ h, T ≠ resolve (tempPathOf t h))
    by (intros h; apply not_eq_sym, resolve_tempPathOf_ne).
  assert (Hrmt : steps (stays (absent T)) (fs_promises.rm t)).
  { apply syscall_absent. intros m m' Hm Hn.
    destruct (rm_effect _ _ _ T Hm) as [-> |]; done. }
  assert (Hult : steps (stays (absent T)) (fs_promises.unlink t)).
  { apply syscall_absent. intros m m' Hm Hn. apply unlink_inv in Hm as (_ & x & Hx).
    unfold T in Hn. congruence. }
  assert (Hregion : ∀ work cleanup,
            (∀ h w0 r w1, absent T w0 → work (tempPathOf t h) w0 = (r, w1) → Q r w1) →
            (∀ h, steps (stays (absent T)) (cleanup (tempPathOf t h))) →
            locked_region entropy t work cleanup w = (inl e, w') → absent T w').
  { intros work cleanup Hwork Hclean Hreg.
    cut (Q (inl e) w'); [done|].
    eapply (locked_region_outcome entropy (absent T) Q);
      [| | | | | | | |exact Hw|exact Hreg].
    - done.
    - apply syscall_absent. intros m m' Hm Hn.
      rewrite (mkdirp_frame _ _ _ _ Hm); [done|]. right.
      by apply plain_basename_not_above.
    - done.
    - intros w0 r w1 Hw0 Hacq.
      by rewrite (acquireLock_kept entropy _ _ _ _ _ Hlock Hacq).
    - done.
    - exact Hwork.
    - intros h r. destruct r as [x|[]]; simpl.
      + apply steps_try_catch; [apply _|apply Hclean|intros x0; apply steps_ret, _].
      + by intros w0.
    - intros r w0 Hw0. destruct (release_run t w0) as (w1 & -> & Hf & _). simpl.
      destruct r as [x|[]]; simpl in *; [|done]. by rewrite Hf. }
  destruct c as [p content|s p]; simpl in Hrun.
  - rewrite atomicWrite_region in Hrun. revert Hrun. apply Hregion.
    + intros h w0 r w1 Hw0 Hwork.
      eapply (withRetry_outcome (absent T) Q); [| | |exact Hw0|exact Hwork]; [|done|done].
      intros w2 r2 w3 Hw2 Hatt.
      apply (attempt_absent T _ _ _ _ _ _ r2) in Hatt; [by destruct r2 as [?|[]]| | |done].
      * apply syscall_absent. intros m m' Hm Hn. apply writeFile_inv in Hm as (-> & _).
        rewrite node_at_insert_ne; [done|]. apply not_eq_sym, Htne.
      * exact Hult.
    + intros h. apply syscall_absent. intros m m' Hm Hn. apply unlink_inv in Hm as (-> & _).
      rewrite node_at_delete_ne; [done|]. apply not_eq_sym, Htne.
  - rewrite atomicCopy_region in Hrun. revert Hrun. apply Hregion.
    + intros h w0 r w1 Hw0 Hwork.
      eapply (withRetry_outcome (absent T) Q); [| | |exact Hw0|exact Hwork]; [|done|done].
      intros w2 r2 w3 Hw2. rewrite bind_run.
      pose proof (sysread_absent T (SysStat s) "stat" (λ m, Fs.stat m (resolve s)) w2) as H.
      fold (fs_promises.stat s) in H.
      destruct (fs_promises.stat s w2) as [[x|n] w4] eqn:Hst; simpl in H.
      { intros [= <- <-]. by apply H. }
      assert (Hw4 : absent T w4) by (by apply H).
      intros Hatt.
      apply (attempt_absent T _ _ _ _ _ _ r2) in Hatt; [by destruct r2 as [?|[]]| | |done].
      * destruct n as [x|].
        -- apply steps_bind; [apply _| |intros _].
           ++ apply syscall_absent. intros m m' Hm Hn.
              apply copyFile_inv in Hm as (x0 & _ & -> & _).
              rewrite node_at_insert_ne; [done|]. apply not_eq_sym, Htne.
           ++ destruct (default false None); [|apply steps_ret, _].
              apply steps_bind; [apply _|apply sysread_absent|intros _]. apply steps_ret, _.
        -- apply syscall_absent. intros m m' Hm Hn.
           rewrite (cp_frame _ _ _ _ _ Hm); [done|apply Htemp|]. right.
           by apply plain_basename_not_above_temp.
      * exact Hrmt.
    + intros h. apply syscall_absent. intros m m' Hm Hn.
      rewrite (rm_frame _ _ _ _ Hm); [done|apply Htemp].
Qed.

(** *** The steps of [rollback], seen from one path *)

(** The rename that ends an attempt to move a file that holds [c], or
    is gone. *)
Lemma install_safe (a p : list string) (remove : M unit) (c : string) (w w' : World)
    (r : error + ()) :
  (∀ w0 r0 w1, remove w0 = (r0, w1) →
     ∀ q, Fs.node_at (fs w1) q = Fs.node_at (fs w0) q ∨ Fs.node_at (fs w1) q = None) →
  Fs.node_at (fs w) (resolve a) = Some (File c) ∨ Fs.node_at (fs w) (resolve a) = None →
  (if negb win32 then fs_promises.rename a p
   else try_catch remove (λ _, mret ());; fs_promises.rename a p) w = (r, w') →
  match r with
  | inl _ => Fs.node_at (fs w') (resolve a) = Some (File c)
             ∨ Fs.node_at (fs w') (resolve a) = None
  | inr _ => Fs.node_at (fs w') (resolve p) = Some (File c)
  end.
Proof.
  intros Hrm [Ha|Ha] Hrun.
  - apply (install_outcome win32 a p remove c w w' r
             (λ m, Fs.node_at m (resolve a) = Some (File c) ∨ Fs.node_at m (resolve a) = None));
      try done; [|by left].
    intros m m' [H|H] Heff; destruct (Heff (resolve a)) as [->| ->]; by eauto.
  - assert (Hren : ∀ w1, Fs.node_at (fs w1) (resolve a) = None →
              fs_promises.rename a p w1 = (r, w') →
              match r with
              | inl _ => Fs.node_at (fs w') (resolve a) = Some (File c)
                         ∨ Fs.node_at (fs w') (resolve a) = None
              | inr _ => Fs.node_at (fs w') (resolve p) = Some (File c)
              end).
    { intros w1 Ha1. unfold fs_promises.rename, syscall, Fs.rename. rewrite Ha1.
      intros [= <- <-]. by right. }
    revert Hrun. destruct win32; simpl; [|by apply Hren].
    rewrite bind_run. unfold try_catch.
    destruct (remove w) as [[e|[]] w1] eqn:Hrun; simpl;
      pose proof (Hrm _ _ _ Hrun (resolve a)) as Heff;
      apply Hren; destruct Heff as [->|?]; done.
Qed.

(** [atomicMove] of a regular file that returns has put the bytes of
    the file at the target. *)
Lemma atomicMove_success (b p : list string) (old : string) (w w' : World) :
  Fs.node_at (fs w) (resolve b) = Some (File old) →
  resolve b ≠ resolve (lockFileOf p) →
  ¬ resolve b `prefix_of` resolve p →
  atomicMove win32 dev entropy b p w = (inr (), w') →
  Fs.node_at (fs w') (resolve p) = Some (File old).
Proof.
  intros Hb Hlock Hbp. unfold atomicMove. rewrite bind_run.
  set (J := λ w : World, Fs.node_at (fs w) (resolve b) = Some (File old)).
  set (mk := withRetry _ _ _).
  assert (Hmk : steps (stays J) mk).
  { apply steps_withRetry; [apply _| |by intros d w0 Hw0].
    apply (steps_syscall_stays (λ m, Fs.node_at m (resolve b) = Some (File old))).
    intros m m' Hm Hm0. rewrite (mkdirp_frame _ _ _ _ Hm); [done|]. left. by rewrite Hm0. }
  specialize (Hmk w). destruct (mk w) as [[e|[]] w1]; [done|]. simpl in Hmk.
  specialize (Hmk Hb). unfold try_catch at 1.
  match goal with |- context [(?m ≫= ?f) w1] => destruct ((m ≫= f) w1) as [[e|[]] w5] eqn:Hbody end;
    [done|]. intros [= <-]. revert Hbody. rewrite bind_run.
  unfold fs_promises.stat at 1, sysread at 1.
  destruct (Fs.stat (fs w1) (resolve (dirname b))) as [x|sourceStat]; [done|].
  rewrite bind_run. set (w2 := log (SysStat (dirname b)) w1).
  assert (Hw2 : J w2) by done.
  assert (Hts : ∃ targetStat w3,
            try_catch (n ← fs_promises.stat (dirname p); mret (Some n)) (λ _, mret None) w2
            = (inr targetStat, w3) ∧ J w3).
  { unfold try_catch. rewrite bind_run. unfold fs_promises.stat, sysread.
    destruct (Fs.stat (fs w2) (resolve (dirname p))); by eexists _, _. }
  destruct Hts as (targetStat & w3 & -> & Hw3). case_bool_decide.
  - rewrite bind_run.
    destruct (acquireLock_exits entropy p w3) as (r4 & w4 & Hacq & _ & _ & _ & Hr4).
    rewrite Hacq. destruct r4 as [e|u]; [done|]. destruct Hr4 as [-> _].
    assert (Hw4 : J w4).
    { unfold J. by rewrite (acquireLock_kept entropy _ _ _ _ _ Hlock Hacq). }
    unfold try_finally.
    match goal with |- context [withRetry ?op ?ctx ?n w4] =>
      destruct (withRetry op ctx n w4) as [r6 w6] eqn:Hwork end.
    destruct (release_run p w6) as (w7 & -> & Hf7 & _). intros [= -> <-].
    rewrite Hf7 by apply not_eq_sym, resolve_lockFileOf_ne.
    set (Q := λ (r : error + ()) (w : World),
                match r with
                | inl _ => True
                | inr _ => Fs.node_at (fs w) (resolve p) = Some (File old)
                end).
    cut (Q (inr ()) w6); [done|].
    eapply (withRetry_outcome
              (λ w, Fs.node_at (fs w) (resolve b) = Some (File old)
                    ∨ Fs.node_at (fs w) (resolve b) = None) Q);
      [| | | |exact Hwork]; [..|by left].
    + intros w8 r8 w9 Hw8 Hatt.
      apply (install_safe b p (fs_promises.rm p) old) in Hatt; [|apply rm_run_effect|done].
      by destruct r8.
    + done.
    + done.
  - rewrite bind_run.
    destruct (atomicCopy win32 entropy b p (Some true) w3) as [[e|[]] w4] eqn:Hcopy; [done|].
    apply (atomicCopy_success win32 entropy b p (Some true) old) in Hcopy; [|done|done].
    unfold fs_promises.rm, syscall.
    destruct (Fs.rm (fs w4) (resolve b)) as [x|m'] eqn:Hrm; [done|].
    intros [= <-]. wsimpl. by rewrite (rm_frame _ _ _ _ Hrm).
Qed.

Lemma emits_logs (e : event) (P : event → Prop) (w w1 w2 : World) :
  emits P w w1 → logs e w1 w2 → logs e w w2.
Proof.
  intros (e1 & H1 & _) (e2 & H2 & Hin). exists (e1 ++ e2).
  rewrite H2, H1, app_assoc. split; [done|]. apply elem_of_app. by right.
Qed.

Lemma logs_events (e : event) (w w' : World) : logs e w w' → e ∈ events_since w w'.
Proof.
  intros (evs & Ht & Hin). unfold events_since. by rewrite Ht, drop_app_length.
Qed.

(** The step for a write or copy record removes the path. *)
Lemma rollback_step_removes (op : Op) (w : World) :
  op_type op ≠ backup_op → resolve (op_path op) ≠ [] →
  Fs.node_at (fs (rollback_step win32 dev entropy op w).2) (resolve (op_path op)) = None.
Proof.
  intros Hty Hroot. unfold rollback_step.
  assert (H : Fs.node_at (fs (try_catch (fs_promises.rm (op_path op)) (λ _, mret ()) w).2)
                (resolve (op_path op)) = None).
  { unfold try_catch, fs_promises.rm, syscall.
    destruct (Fs.rm (fs w) (resolve (op_path op))) as [x|m'] eqn:Hrm; simpl.
    - unfold Fs.rm in Hrm. destruct (Fs.node_at (fs w) (resolve (op_path op))) as [[c|]|];
        [done| |done]. by case_bool_decide.
    - wsimpl. by eapply rm_gone. }
  destruct (op_type op), (op_backup op); done.
Qed.

(** The step for a backup record whose backup holds [old]: the path
    holds [old] afterwards, or the failure of the move is logged. *)
Lemma rollback_step_restores (t b : list string) (old : string) (w : World) :
  Fs.node_at (fs w) (resolve b) = Some (File old) →
  resolve b ≠ resolve (lockFileOf t) →
  ¬ resolve b `prefix_of` resolve t →
  let w' := (rollback_step win32 dev entropy (mkOp backup_op t (Some b)) w).2 in
  Fs.node_at (fs w') (resolve t) = Some (File old)
  ∨ ∃ msg, logs (ConsoleError ("Failed to rollback " +:+ render t +:+ ": Error: " +:+ msg))
             w w'.
Proof.
  intros Hb Hlock Hbt. unfold rollback_step. simpl. unfold try_catch.
  pose proof (atomicMove_begins win32 dev entropy b t w) as Hbeg.
  destruct (atomicMove win32 dev entropy b t w) as [[e|[]] w1] eqn:Hmove; simpl in *.
  - right. exists (message e). destruct Hbeg as (evs & Ht).
    exists ((SysMkdir (dirname t) :: evs)
            ++ [ConsoleError ("Failed to rollback " +:+ render t +:+ ": Error: "
                              +:+ message e)]).
    split; [simpl; by rewrite Ht, <- app_assoc|]. apply elem_of_app. right.
    by apply list_elem_of_singleton.
  - left. by eapply atomicMove_success.
Qed.

End Restore.

(** *** The journal, seen from one path *)

Section Invariants.

Context (win32 : bool) (dev : list string → nat) (entropy : nat → N).

Local Abbreviation body := (λ op : Op, liftW (rollback_step win32 dev entropy op)).

(** The step of [rollback] for the record leaves the resolved path [k]
    alone. *)
Local Abbreviation spares := (λ (k : list string) (op : Op),
  (∀ b, op_backup op = Some b → aloof k (op_path op) ∧ ¬ resolve b `prefix_of` k)
  ∧ ¬ resolve (op_path op) `prefix_of` k).

(** The first record on the path is the record of a write or a copy. *)
Local Abbreviation created := (λ (T : list string) (ops : list Op),
  ∃ pre m rest, ops = pre ++ m :: rest ∧ Forall (spares T) pre
                ∧ op_type m ≠ backup_op ∧ resolve (op_path m) = T).

(** The first record on the path is a backup record, and its backup
    holds [old] and is out of the way of what follows. *)
Local Abbreviation saved := (λ (T bdir : list string) (old : string)
    (names : list string) (ops : list Op) (w : World),
  ∃ pre t1 x1 rest,
    ops = pre ++ mkOp backup_op t1 (Some (join bdir x1)) :: rest
    ∧ Forall (spares T) pre ∧ resolve t1 = T
    ∧ plain x1 ∧ ¬ private_name x1 ∧ x1 ∉ names
    ∧ Fs.node_at (fs w) (resolve bdir ++ [x1]) = Some (File old)
    ∧ Forall (spares (resolve bdir ++ [x1])) rest).

Lemma replay_cons (op : Op) (ops : list Op) (tx : TransactionLog) (w : World) :
  for_of (op :: ops) body (tx, w)
  = for_of ops body (tx, (rollback_step win32 dev entropy op w).2).
Proof.
  destruct (rollback_step_total win32 dev entropy op w) as (w1 & H1).
  simpl. by rewrite bind_run, liftW_run, H1.
Qed.

Lemma replay_app (ops1 ops2 : list Op) (tx : TransactionLog) : ∀ w : World,
  for_of (ops1 ++ ops2) body (tx, w)
  = for_of ops2 body (tx, (for_of ops1 body (tx, w)).2.2).
Proof.
  induction ops1 as [|op ops1 IH]; intros w; [done|].
  rewrite <- app_comm_cons, !replay_cons. apply IH.
Qed.

Lemma replay_kept (k : list string) (ops : list Op) (tx : TransactionLog) : ∀ w : World,
  Forall (spares k) ops →
  Fs.node_at (fs (for_of ops body (tx, w)).2.2) k = Fs.node_at (fs w) k.
Proof.
  induction ops as [|op ops IH]; intros w Hall; [done|].
  apply Forall_cons in Hall as [[Hbk Hp] Hall]. rewrite replay_cons, IH by done.
  by apply rollback_step_kept.
Qed.

Lemma replay_emits (ops : list Op) (tx : TransactionLog) (w : World) :
  emits (λ _, True) w (for_of ops body (tx, w)).2.2.
Proof.
  destruct (for_of_replays win32 dev entropy ops tx w) as (w' & segs & Hrun & _ & _ & Hev).
  by rewrite Hrun.
Qed.

(** [rollback] leaves a path absent that was absent before the
    transaction. *)
Lemma replay_absent (T : list string) (ops : list Op) (tx : TransactionLog) (w : World) :
  T ≠ [] →
  (Fs.node_at (fs w) T = None ∧ Forall (spares T) ops) ∨ created T ops →
  Fs.node_at (fs (for_of (reverse ops) body (tx, w)).2.2) T = None.
Proof.
  intros Hroot [[Hw Hall]|(pre & m & rest & -> & Hpre & Hty & Hm)].
  - rewrite replay_kept; [done|]. by apply Forall_reverse.
  - rewrite reverse_app, reverse_cons, <- app_assoc. simpl.
    rewrite replay_app, replay_cons, replay_kept by (by apply Forall_reverse).
    rewrite <- Hm. apply rollback_step_removes; [done|]. by rewrite Hm.
Qed.

(** [rollback] puts back the bytes of a path that was a regular file
    before the transaction, unless the move of its backup fails, which
    it logs. *)
Lemma replay_restores (T bdir : list string) (old : string) (names : list string)
    (ops : list Op) (tx : TransactionLog) (w : World) :
  ¬ resolve bdir `prefix_of` T →
  (Fs.node_at (fs w) T = Some (File old) ∧ Forall (spares T) ops)
  ∨ saved T bdir old names ops w →
  let w' := (for_of (reverse ops) body (tx, w)).2.2 in
  Fs.node_at (fs w') T = Some (File old)
  ∨ ∃ t msg, resolve t = T
      ∧ logs (ConsoleError ("Failed to rollback " +:+ render t +:+ ": Error: " +:+ msg)) w w'.
Proof.
  intros HB [[Hw Hall]|(pre & t1 & x1 & rest & -> & Hpre & Ht1 & Hx1 & Hpub & _ & Hb1 & Hrest)].
  - left. simpl. rewrite replay_kept; [done|]. by apply Forall_reverse.
  - simpl. rewrite reverse_app, reverse_cons, <- app_assoc. simpl.
    rewrite replay_app, replay_cons.
    set (w1 := (for_of (reverse rest) body (tx, w)).2.2).
    assert (Hw1 : Fs.node_at (fs w1) (resolve (join bdir x1)) = Some (File old)).
    { unfold join. rewrite resolve_snoc_plain by done. unfold w1.
      rewrite replay_kept; [done|]. by apply Forall_reverse. }
    set (w2 := (rollback_step win32 dev entropy _ w1).2).
    destruct (rollback_step_restores win32 dev entropy t1 (join bdir x1) old w1 Hw1)
      as [H2|(msg & H2)].
    + unfold join. rewrite resolve_snoc_plain, resolve_lockFileOf by done.
      intros Heq. apply app_inj_tail in Heq as [_ ->]. apply Hpub, private_lock.
    + unfold join. rewrite resolve_snoc_plain, Ht1 by done.
      intros Hp. apply HB. etrans; [|exact Hp]. by apply prefix_app_r.
    + left. rewrite replay_kept by (by apply Forall_reverse). by rewrite <- Ht1.
    + right. exists t1, msg. split; [done|].
      eapply logs_emits; [|apply replay_emits].
      eapply emits_logs; [apply (replay_emits (reverse rest) tx w)|]. exact H2.
Qed.

(** The records of a call spare what is out of the way of its target
    and of its backup. *)
Lemma call_block_spares (k bdir : list string) (c : command) (found : bool) (d : nat)
    (returned : bool) (blk : list Op) :
  call_block entropy bdir c found d returned blk →
  aloof k (target c) →
  ¬ resolve (backup_path entropy bdir d) `prefix_of` k →
  Forall (spares k) blk.
Proof.
  intros Hblk Hal Hb.
  assert (Ht : ¬ resolve (target c) `prefix_of` k) by (by destruct Hal as (_ & ? & _)).
  assert (H1 : spares k (mkOp backup_op (target c) (Some (backup_path entropy bdir d)))).
  { split; [|done]. simpl. by intros b [= <-]. }
  assert (H2 : spares k (mutation_record c)).
  { destruct c; split; simpl; done. }
  unfold call_block in Hblk.
  destruct found, returned; [|destruct Hblk as [Hblk|Hblk]| |]; subst blk;
    repeat (apply Forall_cons_2; [done|]); apply Forall_nil_2.
Qed.

Lemma aloof_backup (k bdir : list string) (d : nat) :
  public k → unrelated k (resolve bdir) →
  aloof k (backup_path entropy bdir d)
  ∧ ¬ resolve (backup_path entropy bdir d) `prefix_of` k.
Proof.
  intros Hk Hu.
  assert (Hu' : unrelated k (resolve (backup_path entropy bdir d))).
  { rewrite resolve_backup_path. by apply unrelated_child. }
  split; [by apply aloof_unrelated|by destruct Hu'].
Qed.

(** One call, seen from a path that was absent before the
    transaction. *)
Lemma run_command_absent_inv (T : list string) (c : command) (s : TransactionLog * World) :
  public T → unrelated T (resolve (backupDir s.1)) →
  (resolve (target c) = T ∧ plain (basename (target c)))
  ∨ unrelated T (resolve (target c)) →
  let s' := (run_command win32 entropy c s).2 in
  (Fs.node_at (fs s.2) T = None ∧ Forall (spares T) (operations s.1))
  ∨ created T (operations s.1) →
  (Fs.node_at (fs s'.2) T = None ∧ Forall (spares T) (operations s'.1))
  ∨ created T (operations s'.1).
Proof.
  intros Hpub HB Hc s' Hst.
  destruct (run_command_block win32 entropy c s) as (_ & blk & Hops & Hblk).
  fold s' in Hops. rewrite Hops.
  destruct Hst as [[Hw Hall]|(pre & m & rest & Heq & Hpre & Hty & Hm)].
  2:{ right. exists pre, m, (rest ++ blk). rewrite Heq, <- app_assoc. done. }
  destruct s as [tx w]. simpl in *.
  destruct Hc as [[HT Hplain]|Hun].
  - assert (Hp : present w (target c) = false).
    { unfold present. rewrite HT, Hw. by apply bool_decide_eq_false; intros [? ?]. }
    rewrite Hp in Hblk. unfold s' in *. clear s'. revert Hops Hblk.
    rewrite run_command_unfold, bind_run, (backup_absent win32 entropy _ _ _ Hp).
    rewrite mutate_run. simpl.
    destruct (mutation win32 entropy c (log (SysAccess (target c)) w)) as [[e|[]] w1] eqn:Hmut;
      simpl; intros Hops Hblk.
    + left. subst blk. rewrite app_nil_r. split; [|done].
      rewrite <- HT. eapply mutation_absent; [done| |exact Hmut]. simpl. by rewrite HT.
    + right. exists (operations tx), (mutation_record c), []. subst blk.
      split_and!; [done|done|by destruct c|by destruct c].
  - left. assert (Hal : aloof T (target c)) by (by apply aloof_unrelated).
    destruct (aloof_backup T (backupDir tx) (draws w) Hpub HB) as [Halb Hnb].
    split.
    + unfold s'. by rewrite run_command_kept.
    + apply Forall_app. split; [done|]. by eapply call_block_spares.
Qed.

(** One call, seen from a path that was a regular file before the
    transaction. *)
Lemma run_command_file_inv (T : list string) (old : string) (names : list string)
    (c : command) (s : TransactionLog * World) :
  let bdir := backupDir s.1 in
  let s' := (run_command win32 entropy c s).2 in
  public T → public (resolve bdir) → unrelated T (resolve bdir) →
  resolve (target c) = T ∨ unrelated T (resolve (target c)) →
  unrelated (resolve (target c)) (resolve bdir) →
  backup_name entropy (draws s.2) ∉ names →
  (Fs.node_at (fs s.2) T = Some (File old) ∧ Forall (spares T) (operations s.1))
  ∨ saved T bdir old (backup_name entropy (draws s.2) :: names) (operations s.1) s.2 →
  (Fs.node_at (fs s'.2) T = Some (File old) ∧ Forall (spares T) (operations s'.1))
  ∨ saved T bdir old names (operations s'.1) s'.2.
Proof.
  intros bdir s' Hpub HpubB HB Hc HcB Hfresh Hst.
  destruct (run_command_block win32 entropy c s) as (_ & blk & Hops & Hblk).
  fold s' in Hops. rewrite Hops. destruct s as [tx w]. simpl in *.
  set (b := backup_path entropy bdir (draws w)).
  assert (Rb : resolve b = resolve bdir ++ [backup_name entropy (draws w)])
    by apply resolve_backup_path.
  assert (Hkey : ∀ x1, plain x1 → ¬ private_name x1 → x1 ≠ backup_name entropy (draws w) →
            aloof (resolve bdir ++ [x1]) (target c)
            ∧ aloof (resolve bdir ++ [x1]) b
            ∧ ¬ resolve b `prefix_of` resolve bdir ++ [x1]).
  { intros x1 Hx1 Hpx Hne.
    assert (Hp1 : public (resolve bdir ++ [x1])).
    { apply Forall_app. split; [done|]. by apply Forall_singleton. }
    assert (Hsib : unrelated (resolve bdir ++ [x1]) (resolve b)).
    { rewrite Rb. by apply unrelated_siblings. }
    split_and!.
    - apply aloof_unrelated; [done|]. by apply unrelated_sym, unrelated_child.
    - by apply aloof_unrelated.
    - by destruct Hsib. }
  destruct Hst as [[Hw Hall]|(pre & t1 & x1 & rest & Heq & Hpre & Ht1 & Hx1 & Hpx & Hnin
                              & Hb1 & Hrest)].
  2:{ right. apply not_elem_of_cons in Hnin as [Hne Hnin].
    destruct (Hkey x1 Hx1 Hpx Hne) as (Hal & Halb & Hnb).
    exists pre, t1, x1, (rest ++ blk). rewrite Heq, <- app_assoc.
    split_and!; try done.
    - unfold s'. by rewrite run_command_kept.
    - apply Forall_app. split; [done|]. by eapply call_block_spares. }
  destruct (aloof_backup T bdir (draws w) Hpub HB) as [Halb Hnb]. fold b in Halb, Hnb.
  destruct Hc as [HT|Hun].
  - assert (Hp : present w (target c) = true).
    { unfold present. rewrite HT, Hw. by apply bool_decide_eq_true. }
    rewrite Hp in Hblk. unfold s' in *. clear s'. revert Hops Hblk.
    rewrite (run_command_found win32 entropy c tx w Hp). fold bdir b.
    set (probed := set_draws (S (draws w)) (log (SysAccess (target c)) w)).
    pose proof (atomicCopy_kept win32 entropy T (target c) b None Halb probed) as Hkeep.
    destruct (atomicCopy win32 entropy (target c) b None probed) as [[e|[]] w1] eqn:Hcopy;
      simpl in *.
    + intros Hops _. left.
      assert (blk = []) as -> by (apply (app_inv_head (operations tx)); by rewrite app_nil_r).
      rewrite app_nil_r. split; [|done]. by rewrite Hkeep.
    + intros Hops _. right. apply app_inv_head in Hops.
      assert (Hx : plain (backup_name entropy (draws w))) by apply plain_backup_name.
      assert (Hpx : ¬ private_name (backup_name entropy (draws w))) by apply hex_not_private.
      assert (Hal : aloof (resolve b) (target c)).
      { apply aloof_unrelated; [by apply public_backup_path|].
        rewrite Rb. by apply unrelated_sym, unrelated_child. }
      assert (Hsaved : Fs.node_at (fs w1) (resolve b) = Some (File old)).
      { eapply (atomicCopy_success win32 entropy (target c) b None old); [| |exact Hcopy].
        - unfold probed. wsimpl. by rewrite HT.
        - rewrite HT, resolve_lockFileOf. unfold b, backup_path, join. rewrite dirname_snoc.
          intros ->. destruct HB as [_ HB]. apply HB. by apply prefix_app_r. }
      assert (Hmut : steps (keeps (λ w, Fs.node_at (fs w) (resolve b)))
                       (mutation win32 entropy c)).
      { destruct c; [by apply atomicWrite_kept|by apply atomicCopy_kept]. }
      exists (operations tx), (target c), (backup_name entropy (draws w)),
        (if (mutation win32 entropy c w1).1 is inr _ then [mutation_record c] else []).
      split_and!; try done.
      * by rewrite <- Hops.
      * rewrite <- Rb, (Hmut w1). exact Hsaved.
      * destruct (mutation win32 entropy c w1).1; [done|].
        apply Forall_singleton. rewrite <- Rb. split.
        -- by destruct c.
        -- destruct c; simpl; by destruct Hal as (_ & ? & _).
  - left. assert (Hal : aloof T (target c)) by (by apply aloof_unrelated).
    split.
    + unfold s'. by rewrite run_command_kept.
    + apply Forall_app. split; [done|]. by eapply call_block_spares.
Qed.

(** All the calls of a client, seen from a path that was absent before
    the transaction. *)
Lemma run_all_absent_inv (T : list string) (cs : list command) :
  ∀ s : TransactionLog * World,
    public T → unrelated T (resolve (backupDir s.1)) →
    Forall (λ c, (resolve (target c) = T ∧ plain (basename (target c)))
                 ∨ unrelated T (resolve (target c))) cs →
    let s' := (run_all win32 entropy cs s).2 in
    (Fs.node_at (fs s.2) T = None ∧ Forall (spares T) (operations s.1))
    ∨ created T (operations s.1) →
    (Fs.node_at (fs s'.2) T = None ∧ Forall (spares T) (operations s'.1))
    ∨ created T (operations s'.1).
Proof.
  induction cs as [|c cs IH]; intros s Hpub HB Hall; [done|].
  apply Forall_cons in Hall as [Hc Hall]. simpl. rewrite run_all_cons. intros Hst.
  destruct (run_command_block win32 entropy c s) as (Hbd & _).
  apply IH; [done|by rewrite Hbd|done|]. by apply run_command_absent_inv.
Qed.

(** All the calls of a client, seen from a path that was a regular
    file before the transaction. *)
Lemma run_all_file_inv (T : list string) (old : string) (cs : list command) :
  ∀ s : TransactionLog * World,
    let bdir := backupDir s.1 in
    let s' := (run_all win32 entropy cs s).2 in
    public T → public (resolve bdir) → unrelated T (resolve bdir) →
    Forall (λ c, (resolve (target c) = T ∨ unrelated T (resolve (target c)))
                 ∧ unrelated (resolve (target c)) (resolve bdir)) cs →
    NoDup (backup_name entropy <$> probes win32 entropy cs s) →
    (Fs.node_at (fs s.2) T = Some (File old) ∧ Forall (spares T) (operations s.1))
    ∨ saved T bdir old (backup_name entropy <$> probes win32 entropy cs s) (operations s.1) s.2 →
    (Fs.node_at (fs s'.2) T = Some (File old) ∧ Forall (spares T) (operations s'.1))
    ∨ saved T bdir old [] (operations s'.1) s'.2.
Proof.
  induction cs as [|c cs IH]; intros s bdir s' Hpub HpubB HB Hall Hnd; [done|].
  apply Forall_cons in Hall as [[Hc HcB] Hall]. unfold s'. rewrite run_all_cons.
  simpl in Hnd. apply NoDup_cons in Hnd as [Hnin Hnd]. intros Hst.
  destruct (run_command_block win32 entropy c s) as (Hbd & _).
  pose proof (run_command_file_inv T old _ c s Hpub HpubB HB Hc HcB Hnin Hst) as Hst1.
  fold bdir in Hbd. specialize (IH (run_command win32 entropy c s).2).
  simpl in IH. rewrite Hbd in IH. by apply IH.
Qed.

End Invariants.

Lemma read_file (m : gmap (list string) node) (q : list string) (c : string) :
  Fs.read m q = inr c ↔ Fs.node_at m q = Some (File c).
Proof.
  unfold Fs.read. destruct (Fs.node_at m q) as [[x|]|]; split; intros H; congruence.
Qed.



(** The run of the sample client in full: the calls change the file,
    make the directory that was missing and copy the source directory;
    [rollback] logs no failure, the file holds its old bytes and the
    paths that were not there are gone.  The directory that [mkdir] made
    for the second call stays. *)
Example rollback_of_mixed_client :
  let s0 := (mkTx [] ["tmp"; "tx"], crowded_disk) in
  let s1 := (run_all false counting mixed_client s0).2 in
  let rolled := rollback false one_device counting s1 in
  (Fs.read (fs s1.2) ["a"] = inr "newer"
   ∧ Fs.read (fs s1.2) ["d"; "x"] = inr "fresh"
   ∧ Fs.read (fs s1.2) ["e"; "main"] = inr "code"
   ∧ Fs.node_at (fs s1.2) ["b"] = None)
  ∧ (Fs.read (fs rolled.2.2) ["a"] = inr "old"
     ∧ Fs.node_at (fs rolled.2.2) ["d"; "x"] = None
     ∧ Fs.node_at (fs rolled.2.2) ["e"] = None
     ∧ Fs.node_at (fs rolled.2.2) ["b"] = None
     ∧ Fs.node_at (fs rolled.2.2) ["d"] = Some Dir
     ∧ Fs.read (fs rolled.2.2) ["yarn.lock"] = inr "pinned")
  ∧ existsb (λ e, if e is ConsoleError _ then true else false)
      (events_since s1.2 rolled.2.2) = false.
Proof. vm_compute. done. Qed.

(** Outside these conditions a path that was not there can stay behind:
    a target that is the directory of another target is made on the way
    to that one, and a target that ends in "." is made as the directory
    it names. *)
Example rollback_leaves_directories :
  let run := λ cs, (run_all false counting cs;; rollback false one_device counting)
                     (mkTx [] ["tmp"; "tx"], project_disk) in
  Fs.node_at (fs project_disk) ["d"] = None
  ∧ Fs.node_at (fs (run [Write ["d"; "x"] "1"; Write ["d"] "2"]).2.2) ["d"] = Some Dir
  ∧ Fs.node_at (fs project_disk) (resolve ["n"; "."]) = None
  ∧ Fs.node_at (fs (run [Write ["n"; "."] "1"]).2.2) (resolve ["n"; "."]) = Some Dir.
Proof. vm_compute. done. Qed.

(** * Further properties of [src/atomic.ts] *)

(** ** The retry executor *)

(** X1: the delay before retry [i] lies between 100 and 5000 ms, never
    decreases with [i], and is 5000 ms from the fifth retry on. *)
Theorem retry_delay_bounds (i j : nat) :
  (100 ≤ retry_delay i ≤ 5000)%N
  ∧ (i ≤ j → (retry_delay i ≤ retry_delay j)%N)
  ∧ (4 ≤ i → retry_delay i = 5000%N).
Proof.
  assert (Hcases : ∀ k, (k = 0 ∧ retry_delay k = 100%N) ∨ (k = 1 ∧ retry_delay k = 500%N)
                        ∨ (k = 2 ∧ retry_delay k = 1000%N) ∨ (k = 3 ∧ retry_delay k = 2000%N)
                        ∨ (4 ≤ k ∧ retry_delay k = 5000%N)).
  { intros [|[|[|[|k]]]]; [by left|by right; left|by right; right; left
                           |by right; right; right; left|].
    right; right; right; right. split; [lia|]. apply retry_delay_clamped. lia. }
  split; [|split].
  - destruct (Hcases i) as [[_ ->]|[[_ ->]|[[_ ->]|[[_ ->]|[_ ->]]]]]; lia.
  - intros Hij.
    destruct (Hcases i) as [[? ->]|[[? ->]|[[? ->]|[[? ->]|[? ->]]]]];
      destruct (Hcases j) as [[? ->]|[[? ->]|[[? ->]|[[? ->]|[? ->]]]]]; lia.
  - apply retry_delay_clamped.
Qed.

Lemma sleeps_app (a b : list event) : sleeps (a ++ b) = sleeps a ++ sleeps b.
Proof. unfold sleeps. apply omap_app. Qed.

Lemma sleeps_quiet (evs : list event) :
  Forall (λ e, ∀ d, e ≠ Sleep d) evs → sleeps evs = [].
Proof.
  induction 1 as [|e evs He _ IH]; [done|]. unfold sleeps in *. simpl.
  destruct e; try done. by destruct (He ms).
Qed.

Lemma retry_loop_waits {T} (op : M T) (n : nat) :
  steps (emits (λ e, ∀ d, e ≠ Sleep d)) op →
  ∀ i w, ∃ k evs,
    k ≤ n
    ∧ trace (retry_loop op n i w).2 = trace w ++ evs
    ∧ sleeps evs = retry_delay <$> seq i k.
Proof.
  intros Hop. induction n as [|n IH]; intros i w; simpl; unfold try_catch;
    rewrite bind_run; specialize (Hop w) as (e1 & He1 & Hq1);
    destruct (op w) as [[e|v] w1]; simpl in He1.
  - exists 0, e1. split_and!; [lia|done|by apply sleeps_quiet].
  - exists 0, e1. split_and!; [lia|done|by apply sleeps_quiet].
  - rewrite bind_run. unfold sleep at 1. simpl.
    destruct (is_permanent e).
    + exists 1, (e1 ++ [Sleep (retry_delay i)]). split_and!; [lia| |].
      * simpl. by rewrite He1, <- app_assoc.
      * rewrite sleeps_app, (sleeps_quiet e1) by done. done.
    + destruct (IH (S i) (set_now (now w1 + retry_delay i)
                            (log (Sleep (retry_delay i)) w1))) as (k & evs & Hk & Ht & Hs).
      exists (S k), (e1 ++ [Sleep (retry_delay i)] ++ evs). split_and!; [lia| |].
      * rewrite Ht. simpl. by rewrite He1, <- !app_assoc.
      * rewrite !sleeps_app, (sleeps_quiet e1), Hs by done. done.
  - exists 0, e1. split_and!; [lia|done|by apply sleeps_quiet].
Qed.

(** X2: whatever the operation does, as long as it sets no timer of
    its own, the waits of [withRetry] are the first [k] delays of the
    schedule for some [k ≤ maxRetries]: never more than [maxRetries]
    waits, never out of order, and none when the first attempt
    succeeds. *)
Theorem withRetry_waits_on_schedule {T} (op : M T) (ctx : string) (n : nat) (w : World) :
  steps (emits (λ e, ∀ d, e ≠ Sleep d)) op →
  let r := withRetry op ctx n w in
  (∃ k, k ≤ n ∧ sleeps (events_since w r.2) = retry_delay <$> seq 0 k)
  ∧ (∀ v w', op w = (inr v, w') → r = (inr v, w') ∧ sleeps (events_since w r.2) = []).
Proof.
  intros Hop r. split.
  - destruct (retry_loop_waits op n Hop 0 w) as (k & evs & Hk & Ht & Hs).
    exists k. split; [done|].
    assert (Hw : trace r.2 = trace (retry_loop op n 0 w).2).
    { unfold r, withRetry. rewrite bind_run.
      by destruct (retry_loop op n 0 w) as [[e|[e|v]] w1]. }
    unfold events_since. by rewrite Hw, Ht, drop_app_length.
  - intros v w' Hrun. unfold r. rewrite (withRetry_first_success _ _ _ _ _ _ Hrun).
    split; [done|]. simpl. specialize (Hop w) as (e1 & He1 & Hq1). rewrite Hrun in He1.
    simpl in He1. unfold events_since. rewrite He1, drop_app_length. by apply sleeps_quiet.
Qed.

Lemma withRetry_waits_on_schedule_witness :
  let r := withRetry (fs_promises.stat ["x"]) "reading" 5 empty_world in
  (∃ k, k ≤ 5 ∧ sleeps (events_since empty_world r.2) = retry_delay <$> seq 0 k)
  ∧ (∀ v w', fs_promises.stat ["x"] empty_world = (inr v, w') →
       r = (inr v, w') ∧ sleeps (events_since empty_world r.2) = []).
Proof.
  apply (withRetry_waits_on_schedule (fs_promises.stat ["x"]) "reading" 5 empty_world).
  intros w. unfold fs_promises.stat, sysread.
  destruct (Fs.stat (fs w) (resolve ["x"])); simpl;
    exists [SysStat ["x"]]; (split; [reflexivity|]); repeat constructor; discriminate.
Defined.

Lemma retry_loop_stuck {T} (op : M T) (e : error) (ev : event) (n : nat) (m : gmap (list string) node) :
  is_permanent e = false →
  (∀ w, fs w = m → op w = (inl e, log ev w)) →
  ∀ i w, fs w = m → ∃ w',
    retry_loop op n i w = (inr (inl e), w')
    ∧ fs w' = m
    ∧ trace w' = trace w ++ concat ((λ k, [ev; Sleep (retry_delay k)]) <$> seq i n) ++ [ev].
Proof.
  intros Hp Hop. induction n as [|n IH]; intros i w Hw.
  - simpl. unfold try_catch. rewrite bind_run, Hop by done. simpl.
    eexists; split; [reflexivity|]. done.
  - simpl. unfold try_catch. rewrite bind_run, Hop by done. rewrite bind_run. simpl.
    rewrite Hp.
    destruct (IH (S i) (set_now (now (log ev w) + retry_delay i)
       (log (Sleep (retry_delay i)) (log ev w)))) as (w' & Hr & Hf & Ht); [done|].
    exists w'. split; [exact Hr|]. split; [done|]. rewrite Ht. simpl.
    by rewrite <- !app_assoc.
Qed.

(** X3: an operation that fails with the same transient error as long
    as the disk is what it is, and leaves the disk alone, is run
    [maxRetries + 1] times with the waits of the schedule in between;
    [withRetry] then throws an error without code whose message names
    the context, the number of retries and the last cause. *)
Theorem withRetry_gives_up_after_schedule {T} (op : M T) (e : error) (ev : event)
    (ctx : string) (n : nat) (w : World) :
  is_permanent e = false →
  (∀ w', fs w' = fs w → op w' = (inl e, log ev w')) →
  let r := withRetry op ctx n w in
  r.1 = inl (retry_error ctx n e)
  ∧ fs r.2 = fs w
  ∧ events_since w r.2 = concat ((λ k, [ev; Sleep (retry_delay k)]) <$> seq 0 n) ++ [ev]
  ∧ message (retry_error ctx n e)
    = ctx +:+ " failed after " +:+ pretty n +:+ " retries: "
      +:+ (if bool_decide (message e = "") then "Unknown error" else message e)
  ∧ code (retry_error ctx n e) = None.
Proof.
  intros Hp Hop r.
  destruct (retry_loop_stuck op e ev n (fs w) Hp Hop 0 w eq_refl) as (w' & Hr & Hf & Ht).
  assert (Hrun : r = (inl (retry_error ctx n e), w')).
  { unfold r, withRetry. by rewrite bind_run, Hr. }
  rewrite Hrun. simpl. split_and!; try done.
  unfold events_since. by rewrite Ht, drop_app_length.
Qed.

Lemma withRetry_gives_up_after_schedule_witness :
  let op := fs_promises.writeFile ["a"] "id" true in
  let e := Error "EEXIST: open" (Some "EEXIST") in
  let ev := SysWriteFile ["a"] "id" true in
  let r := withRetry op "locking" 3 project_disk in
  r.1 = inl (retry_error "locking" 3 e)
  ∧ fs r.2 = fs project_disk
  ∧ events_since project_disk r.2
    = concat ((λ k, [ev; Sleep (retry_delay k)]) <$> seq 0 3) ++ [ev]
  ∧ message (retry_error "locking" 3 e)
    = "locking" +:+ " failed after " +:+ pretty 3 +:+ " retries: "
      +:+ (if bool_decide (message e = "") then "Unknown error" else message e)
  ∧ code (retry_error "locking" 3 e) = None.
Proof.
  apply (withRetry_gives_up_after_schedule (fs_promises.writeFile ["a"] "id" true)
           (Error "EEXIST: open" (Some "EEXIST")) (SysWriteFile ["a"] "id" true)
           "locking" 3 project_disk).
  - reflexivity.
  - intros w' Hw. unfold fs_promises.writeFile, syscall. rewrite Hw. reflexivity.
Defined.

(** ** The path lock *)

(** X4: on a path nobody holds or waits for, whose marker file is
    absent and whose directory exists, acquiring the lock and calling
    the release closure is a round trip: the disk, the lock table and
    the queues are as before, and the only calls are the exclusive
    creation of the marker, holding the random lock id, and its
    removal. *)
Theorem acquire_release_round_trip (entropy : nat → N) (p : list string) (w : World) :
  let q := resolve (lockFileOf p) in
  p ∉ locks w → lockQueue w !! p = None →
  Fs.is_dir (fs w) (dirname q) = true →
  Fs.node_at (fs w) q = None →
  ∃ w', (unlock ← acquireLock entropy p; unlock) w = (inr (), w')
        ∧ fs w' = fs w ∧ locks w' = locks w ∧ lockQueue w' = lockQueue w
        ∧ events_since w w'
          = [SysWriteFile (lockFileOf p) (hex 32 (entropy (draws w))) true;
             SysUnlink (lockFileOf p)].
Proof.
  intros q Hl Hq Hd Hn.
  destruct (acquireLock_ok entropy p w Hl Hd Hn) as (w1 & Hacq & Hf1 & Hl1 & Hq1 & Hd1 & Ht1).
  destruct (release_ok p w1 (hex 32 (entropy (draws w)))) as
    (w2 & Hrel & Hf2 & Hl2 & Hq2 & Hd2 & Ht2).
  { rewrite Hf1. apply node_at_insert. by eapply node_at_None_nonroot. }
  { by rewrite Hq1. }
  exists w2. split_and!.
  - by rewrite bind_run, Hacq.
  - rewrite Hf2, Hf1. apply delete_insert_id. by apply node_at_None_lookup.
  - rewrite Hl2, Hl1. by apply locks_restored.
  - by rewrite Hq2, Hq1.
  - unfold events_since. rewrite Ht2, Ht1, <- app_assoc. apply drop_app_length.
Qed.

Lemma acquire_release_round_trip_witness :
  ∃ w', (unlock ← acquireLock counting ["a"]; unlock) project_disk = (inr (), w')
        ∧ fs w' = fs project_disk ∧ locks w' = locks project_disk
        ∧ lockQueue w' = lockQueue project_disk
        ∧ events_since project_disk w'
          = [SysWriteFile (lockFileOf ["a"]) (hex 32 (counting (draws project_disk))) true;
             SysUnlink (lockFileOf ["a"])].
Proof.
  apply (acquire_release_round_trip counting ["a"] project_disk).
  - apply not_elem_of_empty.
  - reflexivity.
  - reflexivity.
  - reflexivity.
Defined.

(** X5: a call of [acquireLock] that throws leaves the entries of the
    other paths in the lock table as they were.  When the path was free
    at the call (the marker file could not be created), or was held and
    nobody let go of it before the timer of the wait fired, the disk
    and the whole lock table are exactly as they were.  A caller that
    was handed the path and then fails on the marker deletes the entry
    of the path, whoever has set it: after a failed call the path is in
    the table only if the call ended with the lock timeout. *)
Theorem acquireLock_failure_is_clean (entropy : nat → N) (p : list string)
    (w w' : World) (e : error) :
  acquireLock entropy p w = (inl e, w') →
  locks w' ∖ {[p]} = locks w ∖ {[p]}
  ∧ (p ∉ locks w ∨ default [] (head (departures w)) = [] →
     fs w' = fs w ∧ locks w' = locks w)
  ∧ (p ∈ locks w' → e = Error ("Lock timeout: " +:+ render p) None).
Proof.
  intros Hrun.
  destruct (acquireLock_exits entropy p w) as (r0 & w0 & Hrun0 & _ & _ & Hl & Hr).
  rewrite Hrun in Hrun0. injection Hrun0 as <- <-. by destruct Hr.
Qed.

(** Two failed calls on "a", whose marker was left behind by an
    earlier process: on the free path, and after a caller that had set
    the entry gave the path up. *)
Lemma acquireLock_failure_is_clean_witness :
  let held := set_departures [[GivesUp 5]] (set_locks {[ ["a"] ]} stale_marker_disk) in
  let r := acquireLock counting ["a"] stale_marker_disk in
  let r' := acquireLock counting ["a"] held in
  (if r.1 is inl _ then True else False)
  ∧ fs r.2 = fs stale_marker_disk ∧ locks r.2 = locks stale_marker_disk
  ∧ (if r'.1 is inl _ then True else False)
  ∧ locks held = {[ ["a"] ]} ∧ locks r'.2 = ∅
  ∧ locks r'.2 ∖ {[ ["a"] ]} = locks held ∖ {[ ["a"] ]}.
Proof.
  intros held r r'.
  assert (Hr : ∃ e, r = (inl e, r.2)) by (eexists; vm_compute; reflexivity).
  assert (Hr' : ∃ e, r' = (inl e, r'.2)) by (eexists; vm_compute; reflexivity).
  destruct Hr as [e Hr]. destruct Hr' as [e' Hr'].
  destruct (acquireLock_failure_is_clean counting ["a"] stale_marker_disk r.2 e Hr)
    as (_ & H2 & _).
  destruct (acquireLock_failure_is_clean counting ["a"] held r'.2 e' Hr') as (H1' & _ & _).
  destruct H2 as [H2 H3]; [left; apply not_elem_of_empty|].
  split_and!; [by rewrite Hr|exact H2|exact H3|by rewrite Hr'| | |exact H1'].
  - apply (bool_decide_unpack _). vm_compute. exact I.
  - apply (bool_decide_unpack _). vm_compute. exact I.
Defined.

(** X6: the release closure never throws, whatever the disk and the
    tables hold: it issues one [unlink] of the marker, whose failure it
    ignores, takes the path out of the lock table, and changes no path
    of the disk but the marker. *)
Theorem release_never_throws (p : list string) (w : World) :
  ∃ w', release p (lockFileOf p) w = (inr (), w')
    ∧ locks w' = locks w ∖ {[p]}
    ∧ (∀ q, q ≠ resolve (lockFileOf p) → Fs.node_at (fs w') q = Fs.node_at (fs w) q)
    ∧ Fs.is_file (fs w') (resolve (lockFileOf p)) = false
    ∧ events_since w w' = [SysUnlink (lockFileOf p)].
Proof.
  destruct (release_run p w) as (w' & Hrun & Hf & Hl & Ht).
  exists w'. split_and!; try done.
  - revert Hrun. unfold release, try_finally, ignore_errors, try_catch,
      fs_promises.unlink, syscall.
    destruct (Fs.unlink (fs w) (resolve (lockFileOf p))) as [x|m'] eqn:Hu; simpl.
    + destruct (clear_lock_run p (log (SysUnlink (lockFileOf p)) w)) as (w1 & -> & Hf1 & _).
      intros [= <-]. rewrite Hf1. wsimpl. unfold Fs.unlink, Fs.is_file in *.
      by destruct (Fs.node_at (fs w) (resolve (lockFileOf p))) as [[y|]|].
    + apply unlink_inv in Hu as (-> & _).
      destruct (clear_lock_run p (set_fs (delete (resolve (lockFileOf p)) (fs w))
                                    (log (SysUnlink (lockFileOf p)) w)))
        as (w1 & -> & Hf1 & _).
      intros [= <-]. rewrite Hf1. wsimpl. unfold Fs.is_file.
      rewrite node_at_delete; [done|].
      rewrite resolve_lockFileOf. by destruct (resolve (dirname p)).
  - unfold events_since. by rewrite Ht, drop_app_length.
Qed.

Lemma wake_next_head (p : list string) (w : World) (q : nat) (f : callback)
    (rest : list callback) :
  lockQueue w !! p = Some q → arrays w !! q = Some (f :: rest) →
  ∃ w', wake_next p w = (inr (), w')
    ∧ arrays w' = <[q := rest]> (arrays w)
    ∧ lockQueue w' = (if bool_decide (rest = []) then delete p (lockQueue w) else lockQueue w)
    ∧ promises w' = (if promises w !! promise_of f is Some Pending
                     then <[promise_of f := Resolved]> (promises w) else promises w).
Proof.
  intros Hq Ha. unfold wake_next. rewrite bind_get, Hq, Ha. simpl.
  rewrite bind_modify.
  assert (Hcall : ∀ w0, promises w0 = promises w →
            ∃ w1, call f w0 = (inr (), w1)
              ∧ arrays w1 = arrays w0 ∧ lockQueue w1 = lockQueue w0
              ∧ promises w1 = (if promises w !! promise_of f is Some Pending
                               then <[promise_of f := Resolved]> (promises w)
                               else promises w)).
  { intros w0 Hp. destruct f as [pid|pid]; unfold call, settle, modify; simpl;
      (eexists; split; [reflexivity|]); rewrite Hp;
      by destruct (promises w !! pid) as [[| |]|]. }
  destruct (Hcall (set_arrays (<[q := rest]> (arrays w)) w) eq_refl)
    as (w1 & Hrun & Harr & Hlq & Hpr).
  rewrite bind_run, Hrun.
  case_bool_decide; (eexists; split; [reflexivity|]); wsimpl;
    by rewrite Harr, Hlq, Hpr.
Qed.

(** X7: when callers are queued for a path, the release closure hands
    the lock to the one at the head of the queue: its resolver is taken
    off the array and called, so its promise, if still pending, is
    resolved; the others stay queued in their order, and the queue of
    the path is dropped from the table when it becomes empty.  No other
    promise is touched. *)
Theorem release_wakes_first_waiter (p : list string) (w : World) (q : nat)
    (f : callback) (rest : list callback) :
  lockQueue w !! p = Some q → arrays w !! q = Some (f :: rest) →
  let w' := (release p (lockFileOf p) w).2 in
  arrays w' = <[q := rest]> (arrays w)
  ∧ lockQueue w' = (if bool_decide (rest = []) then delete p (lockQueue w) else lockQueue w)
  ∧ promises w' = (if promises w !! promise_of f is Some Pending
                   then <[promise_of f := Resolved]> (promises w) else promises w).
Proof.
  intros Hq Ha w'. unfold w', release, try_finally, ignore_errors, try_catch, clear_lock.
  set (w1 := (fs_promises.unlink (lockFileOf p) w).2).
  assert (H1 : lockQueue w1 = lockQueue w ∧ arrays w1 = arrays w ∧ promises w1 = promises w).
  { unfold w1, fs_promises.unlink, syscall. by destruct (Fs.unlink _ _). }
  destruct H1 as (Hq1 & Ha1 & Hp1).
  destruct (wake_next_head p (set_locks (locks w1 ∖ {[p]}) w1) q f rest)
    as (w2 & Hrun & Harr & Hlq & Hpr).
  { wsimpl. by rewrite Hq1. }
  { wsimpl. by rewrite Ha1. }
  revert Harr Hlq Hpr. wsimpl. rewrite Hq1, Ha1, Hp1. intros Harr Hlq Hpr.
  assert (Hfin : (match fs_promises.unlink (lockFileOf p) w with
                  | (inl e, s') => (mret () : M ()) s'
                  | (inr a, s') => (inr a, s')
                  end) = (inr (), w1)).
  { unfold w1. by destruct (fs_promises.unlink (lockFileOf p) w) as [[e|[]] s']. }
  rewrite Hfin. rewrite bind_modify, Hrun. simpl. done.
Qed.

Lemma release_wakes_first_waiter_witness :
  let w := waiting_world in
  let w' := (release ["a"] (lockFileOf ["a"]) w).2 in
  lockQueue w !! ["a"] = Some 1 ∧ arrays w !! 1 = Some [WrappedResolve 0]
  ∧ arrays w' = <[1 := []]> (arrays w)
  ∧ lockQueue w' = (if bool_decide (@nil callback = []) then delete ["a"] (lockQueue w)
                    else lockQueue w)
  ∧ promises w' = (if promises w !! promise_of (WrappedResolve 0) is Some Pending
                   then <[promise_of (WrappedResolve 0) := Resolved]> (promises w)
                   else promises w).
Proof.
  assert (H1 : lockQueue waiting_world !! ["a"] = Some 1) by (vm_compute; reflexivity).
  assert (H2 : arrays waiting_world !! 1 = Some [WrappedResolve 0])
    by (vm_compute; reflexivity).
  split; [exact H1|]. split; [exact H2|].
  exact (release_wakes_first_waiter ["a"] waiting_world 1 (WrappedResolve 0) [] H1 H2).
Defined.

(** ** Copying and moving *)

(** X8: on a disk without leftover markers or temporary files, where
    nobody holds or waits for the target, [atomicCopy] of a regular
    file onto a path that is a file or absent, in an existing
    directory, succeeds at the first attempt without a wait: afterwards
    the target holds the bytes of the source and every other path,
    the source included, is as before; no marker and no temporary file
    is left, and the lock table is as it was. *)
Theorem atomicCopy_copies_file (win32 : bool) (entropy : nat → N) (s p : list string)
    (preserve : option bool) (cs : string) (w : World) :
  canonical s → canonical p →
  p ∉ locks w → lockQueue w !! p = None →
  unmarked (fs w) →
  Fs.is_dir (fs w) (dirname p) = true →
  Fs.node_at (fs w) p ≠ Some Dir →
  Fs.read (fs w) s = inr cs →
  ∃ w', atomicCopy win32 entropy s p preserve w = (inr (), w')
    ∧ fs w' = <[p := File cs]> (fs w)
    ∧ Fs.read (fs w') p = inr cs ∧ Fs.read (fs w') s = inr cs
    ∧ locks w' = locks w
    ∧ sleeps (events_since w w') = [].
Proof.
  intros Hcs Hcp Hl Hq Hum Hd Hp Hs.
  assert (Hfile : Fs.node_at (fs w) s = Some (File cs)).
  { unfold Fs.read in Hs. destruct (Fs.node_at (fs w) s) as [[x|]|]; congruence. }
  destruct (atomicCopy_file_ok win32 entropy s p preserve cs w)
    as (w' & Hrun & Hf & Hl' & _ & _ & Ht); try done.
  { by apply unmarked_lock_absent. }
  { by apply unmarked_temp_absent. }
  assert (Hpn : p ≠ []) by (by eapply not_dir_nonroot).
  exists w'. split_and!; try done.
  - unfold Fs.read. by rewrite Hf, node_at_insert.
  - unfold Fs.read. rewrite Hf. destruct (decide (p = s)) as [->|Hne].
    + by rewrite node_at_insert.
    + by rewrite node_at_insert_ne, Hfile.
  - unfold events_since. rewrite Ht, drop_app_length.
    by destruct preserve as [[|]|], win32.
Qed.

Lemma atomicCopy_copies_file_witness :
  ∃ w', atomicCopy false counting ["a"] ["tmp"; "copy"] (Some true) project_disk = (inr (), w')
    ∧ fs w' = <[["tmp"; "copy"] := File "old"]> (fs project_disk)
    ∧ Fs.read (fs w') ["tmp"; "copy"] = inr "old" ∧ Fs.read (fs w') ["a"] = inr "old"
    ∧ locks w' = locks project_disk
    ∧ sleeps (events_since project_disk w') = [].
Proof.
  apply (atomicCopy_copies_file false counting ["a"] ["tmp"; "copy"] (Some true) "old"
           project_disk).
  - apply (bool_decide_unpack _). vm_compute. exact I.
  - apply (bool_decide_unpack _). vm_compute. exact I.
  - apply not_elem_of_empty.
  - reflexivity.
  - apply (bool_decide_unpack _). vm_compute. exact I.
  - vm_compute. reflexivity.
  - vm_compute. discriminate.
  - vm_compute. reflexivity.
Defined.

(** X9: under the same conditions, [atomicCopy] of a source that does
    not exist throws the retry error of the copy, whose cause is the
    failed [stat] (ENOENT, or ENOTDIR below a regular file); the disk,
    the target included, and the lock table are as before.  The source
    is probed once, and the one wait of 100 ms comes before the
    permanent error ends the loop. *)
Theorem atomicCopy_missing_source (win32 : bool) (entropy : nat → N) (s p : list string)
    (preserve : option bool) (w : World) :
  canonical s → canonical p →
  p ∉ locks w → lockQueue w !! p = None →
  unmarked (fs w) →
  Fs.is_dir (fs w) (dirname p) = true →
  Fs.node_at (fs w) s = None → ¬ private_name (basename s) →
  ∃ errno w',
    (errno = "ENOENT" ∨ errno = "ENOTDIR")
    ∧ atomicCopy win32 entropy s p preserve w
      = (inl (retry_error ("atomic copy from " +:+ render s +:+ " to " +:+ render p) 5
                (Error (errno +:+ ": stat") (Some errno))), w')
    ∧ fs w' = fs w ∧ locks w' = locks w
    ∧ events_since w w'
      = [SysMkdir (dirname p);
         SysWriteFile (lockFileOf p) (hex 32 (entropy (S (draws w)))) true;
         SysStat s; Sleep 100;
         SysRm (tempPathOf p (hex 16 (entropy (draws w)))); SysUnlink (lockFileOf p)].
Proof.
  intros Hcs Hcan Hl Hq Hum Hd Hs Hpriv.
  set (h := hex 16 (entropy (draws w))). set (id := hex 32 (entropy (S (draws w)))).
  set (lf := lockFileOf p). set (tp := tempPathOf p h).
  assert (Hlf : Fs.node_at (fs w) lf = None) by (by apply unmarked_lock_absent).
  assert (Htp : Fs.node_at (fs w) tp = None) by (by apply unmarked_temp_absent).
  assert (Hsl : s ≠ lf).
  { intros ->. apply Hpriv. unfold lf. apply private_lockFileOf. }
  assert (Rs : resolve s = s) by by apply resolve_canonical.
  assert (Rtp : resolve tp = tp) by by apply resolve_canonical, canonical_tempPathOf.
  assert (Hlt : lf ≠ tp) by apply lockFileOf_ne_tempPathOf_spelled.
  set (m := fs w) in *. set (m3 := <[lf := File id]> m).
  set (e := Error (Fs.missing m3 s +:+ ": " +:+ "stat") (Some (Fs.missing m3 s))).
  rewrite atomicCopy_region.
  destruct (locked_region_run entropy p
              (λ tempPath,
                 withRetry
                   (sourceStats ← fs_promises.stat s;
                    match sourceStats with
                    | Dir => fs_promises.cp s tempPath
                    | File _ =>
                        fs_promises.copyFile s tempPath;;
                        if default false preserve then fs_promises.utimes tempPath else mret ()
                    end;;
                    if negb win32 then fs_promises.rename tempPath p
                    else try_catch (fs_promises.rm p) (λ _, mret ());;
                         fs_promises.rename tempPath p)
                   ("atomic copy from " +:+ render s +:+ " to " +:+ render p)
                   (length RETRY_DELAYS))
              fs_promises.rm w
              (inl (retry_error ("atomic copy from " +:+ render s +:+ " to " +:+ render p)
                      (length RETRY_DELAYS) e))
              m3 m3 [SysStat s; Sleep 100] [SysRm tp])
    as (w' & Hrun & Harr); try done.
  - intros w3 Hf3. fold h tp. eexists. split.
    + apply (withRetry_permanent _ _ 4 w3 (log (SysStat s) w3) e).
      * apply bind_err.
        unfold fs_promises.stat, sysread, Fs.stat. rewrite Rs, Hf3. fold m lf id m3.
        unfold m3 at 1. rewrite node_at_insert_ne by done. by rewrite Hs.
      * apply missing_permanent.
    + unfold arrives. wsimpl. split_and!; try done; try lia. by rewrite <- app_assoc.
  - intros w5 Hf5. fold h tp. eexists. split.
    + unfold ignore_errors. erewrite try_catch_ok; [reflexivity|]. apply syscall_ok.
      rewrite Rtp, Hf5. unfold Fs.rm, m3. rewrite node_at_insert_ne by done.
      by rewrite Htp.
    + unfold arrives. wsimpl. split_and!; try done; lia.
  - fold lf id. unfold m3. apply node_at_insert. by apply node_at_None_nonroot in Hlf.
  - exists (Fs.missing m3 s), w'. fold h id lf tp in Harr.
    destruct Harr as (Hf & Hl' & Hq' & Hd' & Ht'). split_and!; try done.
    + unfold Fs.missing. destruct (existsb _ _); [by right|by left].
    + rewrite Hf. unfold m3. apply node_at_None_lookup in Hlf.
      by rewrite delete_insert_eq, delete_id.
    + unfold events_since. rewrite Ht'. apply drop_app_length.
Qed.

Lemma atomicCopy_missing_source_witness :
  ∃ errno w',
    (errno = "ENOENT" ∨ errno = "ENOTDIR")
    ∧ atomicCopy false counting ["missing"] ["b"] None project_disk
      = (inl (retry_error ("atomic copy from " +:+ render ["missing"] +:+ " to "
                           +:+ render ["b"]) 5
                (Error (errno +:+ ": stat") (Some errno))), w')
    ∧ fs w' = fs project_disk ∧ locks w' = locks project_disk
    ∧ events_since project_disk w'
      = [SysMkdir (dirname ["b"]);
         SysWriteFile (lockFileOf ["b"]) (hex 32 (counting (S (draws project_disk)))) true;
         SysStat ["missing"]; Sleep 100;
         SysRm (tempPathOf ["b"] (hex 16 (counting (draws project_disk))));
         SysUnlink (lockFileOf ["b"])].
Proof.
  apply (atomicCopy_missing_source false counting ["missing"] ["b"] None project_disk).
  - apply (bool_decide_unpack _). vm_compute. exact I.
  - apply (bool_decide_unpack _). vm_compute. exact I.
  - apply not_elem_of_empty.
  - reflexivity.
  - apply (bool_decide_unpack _). vm_compute. exact I.
  - vm_compute. reflexivity.
  - vm_compute. reflexivity.
  - apply (bool_decide_unpack _). vm_compute. exact I.
Defined.

(** X10: under the same conditions, [atomicMove] of a regular file
    onto a path that is a file or absent ends with the target holding
    the bytes of the source and the source gone, every other path as
    before, whether or not the two directories are on the same device:
    the rename and the copy-then-delete fallback leave the same
    disk. *)
Theorem atomicMove_moves_file (win32 : bool) (dev : list string → nat)
    (entropy : nat → N) (b p : list string) (cb : string) (w : World) :
  canonical b → canonical p →
  p ∉ locks w → lockQueue w !! p = None →
  unmarked (fs w) →
  Fs.is_dir (fs w) (dirname p) = true →
  Fs.is_dir (fs w) (dirname b) = true →
  Fs.read (fs w) b = inr cb →
  Fs.node_at (fs w) p ≠ Some Dir →
  b ≠ p → ¬ b `prefix_of` p →
  ∃ w', atomicMove win32 dev entropy b p w = (inr (), w')
    ∧ fs w' = <[p := File cb]> (delete b (fs w))
    ∧ Fs.read (fs w') p = inr cb ∧ Fs.node_at (fs w') b = None
    ∧ locks w' = locks w.
Proof.
  intros Hcb Hcp Hl Hq Hum Hd Hdb Hb Hp Hne Hpre.
  assert (Hfile : Fs.node_at (fs w) b = Some (File cb)).
  { unfold Fs.read in Hb. destruct (Fs.node_at (fs w) b) as [[x|]|]; congruence. }
  destruct (atomicMove_file_ok win32 dev entropy b p cb w)
    as (w' & k & evs & Hrun & Hf & Hl' & _); try done.
  { by apply unmarked_lock_absent. }
  { intros h. by apply unmarked_temp_absent. }
  assert (Hpn : p ≠ []) by (by eapply not_dir_nonroot).
  assert (Hbn : b ≠ []) by (by eapply node_at_file_nonroot).
  exists w'. split_and!; try done.
  - unfold Fs.read. by rewrite Hf, node_at_insert.
  - rewrite Hf, node_at_insert_ne by done. by apply node_at_delete.
Qed.

Lemma atomicMove_moves_file_witness :
  ∃ w', atomicMove true (λ q, length q) counting ["a"] ["tmp"; "moved"] project_disk
        = (inr (), w')
    ∧ fs w' = <[["tmp"; "moved"] := File "old"]> (delete ["a"] (fs project_disk))
    ∧ Fs.read (fs w') ["tmp"; "moved"] = inr "old" ∧ Fs.node_at (fs w') ["a"] = None
    ∧ locks w' = locks project_disk.
Proof.
  apply (atomicMove_moves_file true (λ q, length q) counting ["a"] ["tmp"; "moved"] "old"
           project_disk).
  - apply (bool_decide_unpack _). vm_compute. exact I.
  - apply (bool_decide_unpack _). vm_compute. exact I.
  - apply not_elem_of_empty.
  - reflexivity.
  - apply (bool_decide_unpack _). vm_compute. exact I.
  - vm_compute. reflexivity.
  - vm_compute. reflexivity.
  - vm_compute. reflexivity.
  - vm_compute. discriminate.
  - discriminate.
  - apply (bool_decide_unpack _). vm_compute. exact I.
Defined.

(** X11: every error [atomicMove] throws is either the retry error of
    creating the target directory, which is raised outside the [try]
    block, or a new error without code whose message is "Atomic move
    failed: " followed by the message of the cause. *)
Theorem atomicMove_wraps_errors (win32 : bool) (dev : list string → nat)
    (entropy : nat → N) (b p : list string) (w w' : World) (e : error) :
  atomicMove win32 dev entropy b p w = (inl e, w') →
  (∃ cause, e = retry_error ("creating directory " +:+ render (dirname p)) 5 cause)
  ∨ (∃ cause, e = Error ("Atomic move failed: " +:+ message cause) None).
Proof.
  unfold atomicMove. rewrite bind_run.
  set (mk := withRetry _ _ _).
  destruct (mk w) as [[e0|[]] w1] eqn:Hmk.
  - intros [= <- _]. left. by apply withRetry_error in Hmk.
  - unfold try_catch. set (body := _ ≫= _). destruct (body w1) as [[e1|[]] w2]; [|done].
    intros [= <- _]. right. by exists e1.
Qed.

Lemma atomicMove_wraps_errors_witness :
  let r := atomicMove false one_device counting ["missing"] ["b"] project_disk in
  (if r.1 is inl _ then True else False)
  ∧ ((∃ cause, r.1 = inl (retry_error ("creating directory " +:+ render (dirname ["b"])) 5
                            cause))
     ∨ (∃ cause, r.1 = inl (Error ("Atomic move failed: " +:+ message cause) None))).
Proof.
  set (r := atomicMove false one_device counting ["missing"] ["b"] project_disk).
  assert (Hr : ∃ e, r = (inl e, r.2)) by (eexists; vm_compute; reflexivity).
  destruct Hr as [e Hr]. split; [by rewrite Hr|].
  destruct (atomicMove_wraps_errors false one_device counting ["missing"] ["b"]
              project_disk r.2 e Hr) as [[c ->]|[c ->]];
    [left|right]; exists c; by rewrite Hr.
Defined.

(** ** The transaction log *)

Lemma commit_outcome (tx : TransactionLog) (w : World) :
  let r := commit (tx, w) in
  let bdir := resolve (backupDir tx) in
  r.1 = inr () ∧ r.2.1 = tx
  ∧ (∀ k, ¬ bdir `prefix_of` k → fs r.2.2 !! k = fs w !! k)
  ∧ (bdir ≠ [] → Fs.is_dir (fs w) bdir = true →
     ∀ k, bdir `prefix_of` k → fs r.2.2 !! k = None)
  ∧ events_since w r.2.2 = [SysRm (backupDir tx)].
Proof.
  intros r bdir. unfold r, commit. rewrite bind_run. simpl.
  unfold try_catch. rewrite liftW_run. unfold fs_promises.rm, syscall. fold bdir.
  unfold Fs.rm. unfold Fs.is_dir.
  assert (Hev : ∀ m, events_since w (set_fs m (log (SysRm (backupDir tx)) w))
                     = [SysRm (backupDir tx)]).
  { intros m. unfold events_since. wsimpl. apply drop_app_length. }
  assert (Hev' : events_since w (log (SysRm (backupDir tx)) w) = [SysRm (backupDir tx)]).
  { unfold events_since. wsimpl. apply drop_app_length. }
  destruct (Fs.node_at (fs w) bdir) as [[c|]|] eqn:Hn; simpl;
    [|case_bool_decide as Hroot; simpl|];
    (split; [done|]); (split; [done|]); (split; [|split; [|done]]).
  - intros k Hk. wsimpl. rewrite lookup_delete_ne; [done|]. by intros <-.
  - intros _ H. first [done|apply bool_decide_eq_true in H; congruence].
  - done.
  - done.
  - intros k Hk. wsimpl. rewrite without_lookup. by rewrite decide_False.
  - intros _ _ k Hk. wsimpl. rewrite without_lookup. by rewrite decide_True.
  - done.
  - intros _ H. first [done|apply bool_decide_eq_true in H; congruence].
Qed.

(** X12: [commit] never throws and leaves the journal as it is.  It
    issues one recursive [rm] of the backup root: no path outside the
    backup root changes, and when the backup root is a directory other
    than the root of the disk, nothing is left at or below it. *)
Theorem commit_removes_backup_root (tx : TransactionLog) (w : World) :
  let r := commit (tx, w) in
  let bdir := resolve (backupDir tx) in
  r.1 = inr () ∧ r.2.1 = tx
  ∧ (∀ k, ¬ bdir `prefix_of` k → fs r.2.2 !! k = fs w !! k)
  ∧ (bdir ≠ [] → Fs.is_dir (fs w) bdir = true →
     ∀ k, bdir `prefix_of` k → fs r.2.2 !! k = None)
  ∧ events_since w r.2.2 = [SysRm (backupDir tx)].
Proof. apply commit_outcome. Qed.

(** X13: [copy] backs the target up before it looks at the source.
    The conditions: the backup root, the targets and the sources are
    resolved paths, and no target or source is named like a lock marker
    or a temporary file (".lock", ".tmp") or lies in the backup root;
    no lock is held and nobody waits for one; no entry of the disk is
    named like a marker or a temporary file; every target has its
    directory, and no target or source is a directory; the backup root
    is a directory that holds nothing but the backup files of this
    transaction; and the random names drawn from the start of the
    transaction up to the five draws of this call are pairwise
    different.  Then a [copy] whose source does not exist, onto a target
    that is a regular file, throws; the target keeps its bytes, but the
    journal has gained the backup record and the backup root the backup
    file, with no copy record after it. *)
Theorem copy_missing_source_keeps_backup (win32 : bool) (entropy : nat → N)
    (bdir : list string) (targets srcs : list (list string)) (d0 n : nat)
    (s t : list string) (ops : list Op) (w : World) (old : string) :
  well_placed bdir (targets ++ srcs) →
  calm entropy bdir targets srcs d0 w →
  t ∈ targets → s ∈ srcs →
  fresh_names entropy d0 n → d0 ≤ draws w → draws w + 5 ≤ d0 + n →
  Fs.read (fs w) t = inr old →
  Fs.node_at (fs w) s = None →
  let b := backup_path entropy bdir (draws w) in
  ∃ e w',
    copy win32 entropy s t (mkTx ops bdir, w)
    = (inl e, (mkTx (ops ++ [mkOp backup_op t (Some b)]) bdir, w'))
    ∧ fs w' = <[b := File old]> (fs w)
    ∧ Fs.node_at (fs w) b = None
    ∧ Fs.read (fs w') t = inr old.
Proof.
  intros Hplaced Hcalm Ht Hs Hfresh Hd0 Hdn Hold Hmiss b.
  assert (Hfile : Fs.node_at (fs w) t = Some (File old)).
  { unfold Fs.read in Hold. destruct (Fs.node_at (fs w) t) as [[x|]|]; congruence. }
  destruct (backup_run win32 entropy bdir targets srcs d0 Hplaced t ops w n)
    as (w1 & k & evs & Hb & (Hf1 & _) & _ & Hbk & _ & Hcalm1); try done; [lia|].
  destruct (Hbk old Hfile) as (_ & _ & Hfreshb).
  unfold backup_record in Hb. unfold backed_up in Hf1. rewrite Hfile in Hb, Hf1.
  assert (Hbs : b ≠ s).
  { apply (backup_not_path entropy bdir targets srcs Hplaced), elem_of_app. by right. }
  assert (Hbt : b ≠ t).
  { apply (backup_not_path entropy bdir targets srcs Hplaced), elem_of_app. by left. }
  destruct (atomicCopy_calm_missing win32 entropy bdir targets srcs d0 Hplaced s t w1)
    as (e & w2 & evs2 & Hrun & Hf2 & _); try done.
  { rewrite Hf1. by rewrite node_at_insert_ne. }
  exists e, w2. split_and!.
  - unfold copy. rewrite bind_run, Hb. by rewrite bind_run, liftW_run, Hrun.
  - by rewrite Hf2, Hf1.
  - done.
  - unfold Fs.read. rewrite Hf2, Hf1, node_at_insert_ne by done. by rewrite Hfile.
Qed.

Lemma copy_missing_source_keeps_backup_witness :
  let b := backup_path counting ["tmp"; "tx"] 0 in
  ∃ e w',
    copy false counting ["missing"] ["a"] (mkTx [] ["tmp"; "tx"], project_disk)
    = (inl e, (mkTx ([] ++ [mkOp backup_op ["a"] (Some b)]) ["tmp"; "tx"], w'))
    ∧ fs w' = <[b := File "old"]> (fs project_disk)
    ∧ Fs.node_at (fs project_disk) b = None
    ∧ Fs.read (fs w') ["a"] = inr "old".
Proof.
  apply (copy_missing_source_keeps_backup false counting ["tmp"; "tx"] [["a"]] [["missing"]]
           0 5 ["missing"] ["a"] [] project_disk "old").
  - apply (bool_decide_unpack _). vm_compute. exact I.
  - apply (bool_decide_unpack _). vm_compute. exact I.
  - apply list_elem_of_singleton. reflexivity.
  - apply list_elem_of_singleton. reflexivity.
  - apply (bool_decide_unpack _). vm_compute. exact I.
  - simpl. lia.
  - simpl. lia.
  - vm_compute. reflexivity.
  - vm_compute. reflexivity.
Defined.

(** *** Replaying a journal whose backups are gone *)

Section AfterCommit.

Context (win32 : bool) (dev : list string → nat) (entropy : nat → N).
Context (bdir : list string) (targets : list (list string)).

Local Abbreviation bereft := (bereft bdir targets).

Lemma replay_backup_fails (t : list string) (name : string) (w : World) :
  bereft w → t ∈ targets →
  ∃ w', rollback_step win32 dev entropy (mkOp backup_op t (Some (join bdir name))) w
        = (inr (), w')
    ∧ fs w' = fs w ∧ locks w' = locks w ∧ lockQueue w' = lockQueue w.
Proof.
  intros (Hl & Hq & Hcb & Hb & Ht) Hin.
  rewrite Forall_forall in Ht. destruct (Ht t Hin) as (Hc & Hd & Hn).
  unfold rollback_step. simpl. unfold atomicMove.
  assert (Hmk : withRetry (fs_promises.mkdir (dirname t))
                  ("creating directory " +:+ render (dirname t)) (length RETRY_DELAYS) w
                = (inr (), set_fs (fs w) (log (SysMkdir (dirname t)) w))).
  { apply withRetry_first_success, mkdir_existing.
    by rewrite resolve_canonical by (by apply canonical_dirname). }
  unfold try_catch at 1. rewrite bind_run, Hmk.
  unfold join. rewrite dirname_snoc.
  unfold try_catch at 1. rewrite bind_run.
  unfold fs_promises.stat at 1, sysread at 1, Fs.stat. wsimpl.
  rewrite (resolve_canonical bdir) by done. rewrite Hb. simpl.
  eexists. split; [reflexivity|]. by wsimpl.
Qed.

Lemma replay_mutation (ty : OpType) (t : list string) (w : World) :
  bereft w → t ∈ targets → ty ≠ backup_op →
  ∃ w', rollback_step win32 dev entropy (mkOp ty t None) w = (inr (), w')
    ∧ fs w' = delete t (fs w) ∧ bereft w'.
Proof.
  intros (Hl & Hq & Hcb & Hb & Ht) Hin Hty.
  assert (Ht' := Ht). rewrite Forall_forall in Ht'. destruct (Ht' t Hin) as (Hc & Hd & Hn).
  destruct (rollback_rm win32 dev entropy ty t w Hty Hc Hn) as (w' & Hrun & Hf & Hl' & Hq').
  exists w'. split; [done|]. split; [done|].
  unfold bereft. rewrite Hf, Hl', Hq'. split_and!; try done.
  - destruct (decide (t = bdir)) as [->|Hne].
    + apply node_at_delete. by eapply node_at_None_nonroot.
    + by rewrite node_at_delete_ne.
  - eapply Forall_impl; [exact Ht|]. intros u (Hcu & Hdu & Hnu). split_and!; [done| |].
    + by apply is_dir_delete.
    + destruct (decide (t = u)) as [->|Hne].
      * rewrite node_at_delete; [done|]. by eapply not_dir_nonroot.
      * by rewrite node_at_delete_ne.
Qed.

Lemma replay_bereft (ops : list Op) : ∀ w,
  bereft w → Forall (replayable bdir targets) ops →
  ∃ w', for_of (reverse ops) (rollback_step win32 dev entropy) w = (inr (), w')
    ∧ bereft w'
    ∧ ∀ k, fs w' !! k = if bool_decide (k ∈ mutated ops) then None else fs w !! k.
Proof.
  induction ops as [|op ops IH] using rev_ind; intros w Hw Hops.
  - exists w. split_and!; try done.
  - apply Forall_app in Hops as [Hops Hop]. rewrite Forall_singleton in Hop.
    rewrite reverse_snoc. simpl. rewrite bind_run.
    assert (Hmut : ∀ k, k ∈ mutated (ops ++ [op])
                        ↔ k ∈ mutated ops ∨ (op_type op ≠ backup_op ∧ k = op_path op)).
    { intros k. unfold mutated. rewrite filter_app, fmap_app, elem_of_app.
      rewrite filter_cons, filter_nil. destruct (decide (op_type op ≠ backup_op)); simpl.
      - rewrite list_elem_of_singleton. naive_solver.
      - rewrite elem_of_nil. naive_solver. }
    destruct op as [ty t b]. destruct Hop as [Hin [[Hty (name & Hb)]|[Hty Hb]]];
      simpl in *; subst.
    + destruct (replay_backup_fails t name w Hw Hin) as (w1 & -> & Hf & Hl & Hq).
      assert (Hw1 : bereft w1).
      { destruct Hw as (? & ? & ? & ? & ?). unfold bereft. rewrite Hf, Hl, Hq. done. }
      destruct (IH w1 Hw1 Hops) as (w' & Hrun & Hw' & Hk).
      exists w'. split_and!; try done. intros k. rewrite Hk, Hf.
      assert (Heq : bool_decide (k ∈ mutated (ops ++ [mkOp backup_op t
                                                         (Some (join bdir name))]))
                    = bool_decide (k ∈ mutated ops)).
      { apply bool_decide_ext. rewrite Hmut. naive_solver. }
      by rewrite Heq.
    + destruct (replay_mutation ty t w Hw Hin Hty) as (w1 & -> & Hf & Hw1).
      destruct (IH w1 Hw1 Hops) as (w' & Hrun & Hw' & Hk).
      exists w'. split_and!; try done. intros k. rewrite Hk, Hf.
      destruct (decide (k = t)) as [->|Hne].
      * rewrite lookup_delete_eq. rewrite (bool_decide_true (t ∈ mutated (ops ++ _))).
        { by case_bool_decide. }
        apply Hmut. by right.
      * rewrite lookup_delete_ne by done.
        assert (Heq : bool_decide (k ∈ mutated (ops ++ [mkOp ty t None]))
                      = bool_decide (k ∈ mutated ops)).
        { apply bool_decide_ext. rewrite Hmut. naive_solver. }
        by rewrite Heq.
Qed.

End AfterCommit.

Lemma expected_records_replayable (entropy : nat → N) (bdir : list string)
    (targets : list (list string)) (c : command) (m : gmap (list string) node) (d : nat) :
  target c ∈ targets →
  Forall (replayable bdir targets) (expected_records entropy bdir c m d)
  ∧ (∀ t x, c = Write t x → mkOp write_op t None ∈ expected_records entropy bdir c m d).
Proof.
  intros Hin.
  assert (Hmut : ∀ ty, ty ≠ backup_op → replayable bdir targets (mkOp ty (target c) None)).
  { intros ty Hty. split; [done|]. right. by split. }
  unfold expected_records, backup_record. split.
  - apply Forall_app. split.
    + destruct (Fs.node_at m (target c)) as [[old|]|]; [|done|done].
      apply Forall_singleton. split; [done|]. left. split; [done|]. eauto.
    + destruct c as [t x|s t]; simpl in *.
      * apply Forall_singleton. by apply (Hmut write_op).
      * destruct (Fs.node_at m s) as [[cs|]|]; [|done|done].
        apply Forall_singleton. by apply (Hmut copy_op).
  - intros t x ->. apply elem_of_app. right. simpl. by left.
Qed.

Lemma expected_disk_other (entropy : nat → N) (bdir : list string) (c : command)
    (m : gmap (list string) node) (d : nat) (k : list string) :
  k ≠ target c → ¬ bdir `prefix_of` k →
  expected_disk entropy bdir c m d !! k = m !! k.
Proof.
  intros Hk Hb.
  assert (H1 : backed_up entropy bdir (target c) m d !! k = m !! k).
  { unfold backed_up. destruct (Fs.node_at m (target c)) as [[old|]|]; try done.
    rewrite lookup_insert_ne; [done|]. intros <-. apply Hb. by apply prefix_app_r. }
  unfold expected_disk. destruct c as [t x|s t]; simpl in *.
  - by rewrite lookup_insert_ne.
  - destruct (Fs.node_at m s) as [[cs|]|]; [by rewrite lookup_insert_ne|done|done].
Qed.

Lemma run_all_journal (win32 : bool) (entropy : nat → N) (bdir : list string)
    (targets srcs : list (list string)) (d0 : nat)
    (Hplaced : well_placed bdir (targets ++ srcs)) (cs : list command) :
  ∀ (ops : list Op) (w : World) (n : nat),
    calm entropy bdir targets srcs d0 w →
    Forall (λ c, target c ∈ targets ∧ ∀ s, s ∈ sources c → s ∈ srcs) cs →
    fresh_names entropy d0 n → d0 ≤ draws w → draws w + 5 * length cs ≤ d0 + n →
    ∃ added w',
      run_all win32 entropy cs (mkTx ops bdir, w) = (inr (), (mkTx (ops ++ added) bdir, w'))
      ∧ calm entropy bdir targets srcs d0 w'
      ∧ Forall (replayable bdir targets) added
      ∧ (∀ t x, Write t x ∈ cs → mkOp write_op t None ∈ added)
      ∧ (∀ k, k ∉ (target <$> cs) → ¬ bdir `prefix_of` k → fs w' !! k = fs w !! k).
Proof.
  induction cs as [|c cs IH]; intros ops w n Hcalm Hcs Hfresh Hd0 Hdn.
  - exists [], w. simpl. rewrite app_nil_r. split_and!; try done.
    intros t x H. by apply elem_of_nil in H.
  - apply Forall_cons in Hcs as [[Hin Hsrc] Hcs]. simpl in Hdn.
    destruct (command_run win32 entropy bdir targets srcs d0 Hplaced c ops w n)
      as (r & w1 & Hrun & Hf1 & Hd1 & Hcalm1); try done; [lia|].
    destruct (IH (ops ++ expected_records entropy bdir c (fs w) (draws w)) w1 n)
      as (added & w' & Hrest & Hcalm' & Hshape & Hwr & Hkeys); try done; [lia|lia|].
    destruct (expected_records_replayable entropy bdir targets c (fs w) (draws w) Hin)
      as [Hshape1 Hwr1].
    exists (expected_records entropy bdir c (fs w) (draws w) ++ added), w'. split_and!.
    + unfold run_all. simpl. rewrite bind_run.
      assert (Htry : try_catch (run_command win32 entropy c) (λ _, mret ())
                       (mkTx ops bdir, w)
                     = (inr (), (mkTx (ops ++ expected_records entropy bdir c (fs w) (draws w))
                                      bdir, w1))).
      { unfold try_catch. rewrite Hrun. by destruct r as [e|[]]. }
      rewrite Htry. unfold run_all in Hrest. rewrite Hrest. by rewrite app_assoc.
    + done.
    + by apply Forall_app.
    + intros t x Hw. apply elem_of_app. apply elem_of_cons in Hw as [<-|Hw].
      * left. by apply (Hwr1 t x).
      * right. by eapply Hwr.
    + intros k Hk Hb. rewrite fmap_cons, not_elem_of_cons in Hk. destruct Hk as [Hk1 Hk2].
      rewrite Hkeys, Hf1 by done. by apply expected_disk_other.
Qed.

(** X14: [commit] deletes the backups but keeps the journal, so a
    [rollback] that comes after it can only delete.  The conditions:
    the backup root is not the root of the disk; the backup root, the
    targets and the sources are resolved paths, and no target or source
    is named like a lock marker or a temporary file (".lock", ".tmp")
    or lies in the backup root; at the start no lock is held and nobody
    waits for one, no entry of the disk is named like a marker or a
    temporary file, every target has its directory, no target or source
    is a directory, and the backup root is an empty directory; and the
    random names of five draws for each command are pairwise different.
    Then after the commands, [commit] and [rollback], which all return,
    every path that was the target of a write is gone, whether or not it
    existed before; the paths that are no target and lie outside the
    backup root are as before, and the backup root is still gone. *)
Theorem rollback_after_commit_deletes (win32 : bool) (dev : list string → nat)
    (entropy : nat → N) (bdir : list string) (cs : list command) (w0 : World) :
  bdir ≠ [] →
  well_placed bdir ((target <$> cs) ++ (cs ≫= sources)) →
  calm_start bdir (target <$> cs) (cs ≫= sources) w0 →
  fresh_names entropy (draws w0) (5 * length cs) →
  ∃ tx' w',
    (run_all win32 entropy cs;; commit;; rollback win32 dev entropy) (mkTx [] bdir, w0)
    = (inr (), (tx', w'))
    ∧ (∀ t x, Write t x ∈ cs → Fs.node_at (fs w') t = None)
    ∧ (∀ k, k ∉ (target <$> cs) → ¬ bdir `prefix_of` k → fs w' !! k = fs w0 !! k)
    ∧ (∀ k, bdir `prefix_of` k → fs w' !! k = None).
Proof.
  intros Hroot Hplaced Hstart Hfresh.
  set (targets := target <$> cs) in *. set (srcs := cs ≫= sources) in *.
  destruct (run_all_journal win32 entropy bdir targets srcs (draws w0) Hplaced cs [] w0
              (5 * length cs))
    as (added & w1 & Hrun & Hcalm1 & Hshape & Hwr & Hkeys); try done.
  { by apply calm_start_calm. }
  { apply client_placed. }
  assert (Hcb : canonical bdir) by apply Hplaced.
  assert (Rb : resolve bdir = bdir) by by apply resolve_canonical.
  destruct (commit_outcome (mkTx added bdir) w1) as (Hc1 & Hc2 & Hc3 & Hc4 & _).
  simpl in Hc3, Hc4. rewrite Rb in Hc3, Hc4.
  destruct (commit (mkTx added bdir, w1)) as [rc [txc w2]] eqn:Hcommit.
  simpl in Hc1, Hc2, Hc3, Hc4. subst rc txc.
  assert (Hdir : Fs.is_dir (fs w1) bdir = true) by (by destruct Hcalm1 as (_&_&_&_&_&?&_)).
  specialize (Hc4 Hroot Hdir).
  assert (Hl2 : locks w2 = ∅ ∧ lockQueue w2 = ∅).
  { revert Hcommit. unfold commit. rewrite bind_run. simpl. unfold try_catch.
    rewrite liftW_run. unfold fs_promises.rm, syscall.
    destruct Hcalm1 as (Hl & Hq & _).
    destruct (Fs.rm (fs w1) (resolve bdir)); simpl; intros [= <-]; by wsimpl. }
  assert (Hnode : ∀ k, ¬ bdir `prefix_of` k → Fs.node_at (fs w2) k = Fs.node_at (fs w1) k).
  { intros k Hk. destruct k; [done|]. simpl. by apply Hc3. }
  assert (Hber : bereft bdir targets w2).
  { destruct Hl2 as [Hl Hq]. unfold bereft. split_and!; try done.
    - destruct bdir; [done|]. simpl. by apply Hc4.
    - apply Forall_forall. intros t Ht.
      destruct (calm_facts entropy bdir targets srcs (draws w0) Hplaced w1 t Hcalm1 Ht)
        as (Hct & _ & _ & Hd & Hn & _).
      destruct (placed_target bdir targets srcs Hplaced t Ht) as (_ & _ & Hnp).
      split_and!; [done| |].
      + apply bool_decide_eq_true. rewrite Hnode.
        * by apply bool_decide_eq_true in Hd.
        * intros Hp. apply Hnp. etrans; [exact Hp|]. unfold dirname. apply prefix_take.
      + by rewrite Hnode. }
  destruct (replay_bereft win32 dev entropy bdir targets added w2 Hber Hshape)
    as (w3 & Hroll & Hber3 & Hk3).
  exists (mkTx (reverse added) bdir), w3. split_and!.
  - rewrite bind_run, Hrun. rewrite bind_run. change ([] ++ added) with added.
    rewrite Hcommit.
    change (rollback win32 dev entropy (mkTx added bdir, w2))
      with (for_of (reverse added) (λ op, liftW (rollback_step win32 dev entropy op))
              (mkTx (reverse added) bdir, w2)).
    by rewrite for_of_liftW, Hroll.
  - intros t x Hw. specialize (Hk3 t).
    rewrite bool_decide_true in Hk3.
    + destruct t; [|done]. exfalso.
      assert (Hin : [] ∈ targets) by (apply list_elem_of_fmap; by exists (Write [] x)).
      destruct (calm_facts entropy bdir targets srcs (draws w0) Hplaced w1 [] Hcalm1 Hin)
        as (_ & _ & _ & _ & Hn & _). by apply Hn.
    + unfold mutated. apply list_elem_of_fmap. exists (mkOp write_op t None).
      split; [done|]. apply list_elem_of_filter. split; [done|]. by eapply Hwr.
  - intros k Hk Hb. rewrite Hk3, bool_decide_false.
    + rewrite Hc3 by done. by apply Hkeys.
    + unfold mutated. intros (op & -> & Hop)%list_elem_of_fmap.
      apply list_elem_of_filter in Hop as [_ Hop].
      rewrite Forall_forall in Hshape. by destruct (Hshape op Hop) as [? _].
  - intros k Hb. rewrite Hk3. case_bool_decide; [done|]. by apply Hc4.
Qed.

Lemma rollback_after_commit_deletes_witness :
  ["tmp"; "tx"] ≠ []
  ∧ ∃ tx' w',
    (run_all false counting sample_client;; commit;; rollback false one_device counting)
      (mkTx [] ["tmp"; "tx"], project_disk)
    = (inr (), (tx', w'))
    ∧ (∀ t x, Write t x ∈ sample_client → Fs.node_at (fs w') t = None)
    ∧ (∀ k, k ∉ (target <$> sample_client) → ¬ ["tmp"; "tx"] `prefix_of` k →
            fs w' !! k = fs project_disk !! k)
    ∧ (∀ k, ["tmp"; "tx"] `prefix_of` k → fs w' !! k = None).
Proof.
  split; [discriminate|].
  apply (rollback_after_commit_deletes false one_device counting ["tmp"; "tx"]
           sample_client project_disk).
  - discriminate.
  - apply (bool_decide_unpack _). vm_compute. exact I.
  - apply (bool_decide_unpack _). vm_compute. exact I.
  - apply (bool_decide_unpack _). vm_compute. exact I.
Defined.

(** * Further properties of [src/files.ts] *)

(** ** Listing and verifying *)

(** X15: on a disk whose entries have plain names, [getAllFiles] of a
    directory returns, without changing the disk, each regular file that
    is reached from the directory through directories only, exactly
    once, as its path relative to the directory; directories themselves
    are not listed. *)
Theorem getAllFiles_lists_files (dir : list string) (w : World) :
  canonical_keys (fs w) →
  Fs.node_at (fs w) (resolve dir) = Some Dir →
  ∃ L w',
    getAllFiles dir w = (inr L, w')
    ∧ fs w' = fs w
    ∧ NoDup L
    ∧ (∀ rel, rel ∈ L ↔ file_below (fs w) (resolve dir) rel)
    ∧ (∀ rel, rel ∈ L → Fs.is_file (fs w) (resolve dir ++ rel) = true).
Proof.
  intros Hkeys Hdir.
  destruct (getAllFiles_spec dir w Hkeys Hdir) as (L & w' & Hrun & Hf & Hnd & HL).
  exists L, w'. split_and!; try done.
  intros rel (Hne & (c & Hc) & _)%HL. unfold Fs.is_file.
  destruct (resolve dir ++ rel) as [|x q] eqn:Hq; [by destruct (resolve dir), rel|].
  simpl. by rewrite Hc.
Qed.

Lemma getAllFiles_lists_files_witness :
  ∃ L w',
    getAllFiles ["d1"] sample_disk = (inr L, w')
    ∧ fs w' = fs sample_disk
    ∧ NoDup L
    ∧ (∀ rel, rel ∈ L ↔ file_below (fs sample_disk) (resolve ["d1"]) rel)
    ∧ (∀ rel, rel ∈ L → Fs.is_file (fs sample_disk) (resolve ["d1"] ++ rel) = true).
Proof.
  apply (getAllFiles_lists_files ["d1"] sample_disk).
  - apply (bool_decide_unpack _). vm_compute. exact I.
  - vm_compute. reflexivity.
Defined.

(** X16: [getAllFiles] of a path that is not a directory throws the
    error of the first [readdir], ENOENT for a missing path (ENOTDIR
    below a regular file) and ENOTDIR for a regular file, after that
    one call and without touching the disk. *)
Theorem getAllFiles_not_a_directory (dir : list string) (w : World) :
  Fs.node_at (fs w) (resolve dir) ≠ Some Dir →
  ∃ errno,
    getAllFiles dir w = (inl (Error (errno +:+ ": scandir") (Some errno)),
                         log (SysReaddir dir) w)
    ∧ (errno = "ENOENT" ∨ errno = "ENOTDIR")
    ∧ (Fs.is_file (fs w) (resolve dir) = true → errno = "ENOTDIR").
Proof.
  intros Hdir. unfold getAllFiles. rewrite bind_get. simpl. rewrite bind_run.
  unfold fs_promises.readdir, sysread, Fs.readdir, Fs.is_file.
  destruct (Fs.node_at (fs w) (resolve dir)) as [[c|]|]; [| done |].
  - exists "ENOTDIR". split_and!; try done. by right.
  - exists (Fs.missing (fs w) (resolve dir)). split_and!; try done.
    unfold Fs.missing. destruct (existsb _ _); [by right|by left].
Qed.

Lemma getAllFiles_not_a_directory_witness :
  ∃ errno,
    getAllFiles ["a.txt"] sample_disk
    = (inl (Error (errno +:+ ": scandir") (Some errno)),
       log (SysReaddir ["a.txt"]) sample_disk)
    ∧ (errno = "ENOENT" ∨ errno = "ENOTDIR")
    ∧ (Fs.is_file (fs sample_disk) (resolve ["a.txt"]) = true → errno = "ENOTDIR").
Proof.
  apply (getAllFiles_not_a_directory ["a.txt"] sample_disk).
  vm_compute. discriminate.
Defined.

(** X17: a path verifies against itself: for a regular file or a
    directory on a disk whose entries have plain names,
    [verifyBackup(p, p)] succeeds, whatever the digest function. *)
Theorem verifyBackup_reflexive (sha256 : string → string) (p : list string) (w : World) :
  canonical_keys (fs w) →
  is_Some (Fs.node_at (fs w) (resolve p)) →
  (verifyBackup sha256 p p w).1 = inr ().
Proof.
  intros Hkeys [[c|] Hn].
  - rewrite (verifyBackup_file sha256 p p w c c Hn Hn). simpl.
    by rewrite bool_decide_false by (by intros H).
  - destruct (verifyBackup_dir sha256 p p w Hkeys Hn Hn) as (w' & _ & [[_ ->]|[Hne _]]);
      [done|]. by destruct Hne.
Qed.

Lemma verifyBackup_reflexive_witness :
  (verifyBackup (λ c, c) ["d1"] ["d1"] sample_disk).1 = inr ()
  ∧ (verifyBackup (λ c, c) ["a.txt"] ["a.txt"] sample_disk).1 = inr ().
Proof.
  split.
  - apply (verifyBackup_reflexive (λ c, c) ["d1"] sample_disk).
    + apply (bool_decide_unpack _). vm_compute. exact I.
    + eexists. vm_compute. reflexivity.
  - apply (verifyBackup_reflexive (λ c, c) ["a.txt"] sample_disk).
    + apply (bool_decide_unpack _). vm_compute. exact I.
    + eexists. vm_compute. reflexivity.
Defined.

(** X18: what [atomicCopy] makes of a regular file passes
    [verifyBackup].  The conditions: [s] and [p] are resolved paths;
    [p] is not locked and nobody waits for it; no entry of the disk is
    named like a lock marker or a temporary file (".lock", ".tmp"); the
    directory of [p] exists and [p] is not a directory; [s] is a regular
    file.  Then copying [s] to [p] and verifying [p] against [s]
    succeeds, whatever the digest function, and ends with both holding
    the bytes [s] had. *)
Theorem atomicCopy_then_verifyBackup (sha256 : string → string) (win32 : bool)
    (entropy : nat → N) (s p : list string) (preserve : option bool) (cs : string)
    (w : World) :
  canonical s → canonical p →
  p ∉ locks w → lockQueue w !! p = None →
  unmarked (fs w) →
  Fs.is_dir (fs w) (dirname p) = true →
  Fs.node_at (fs w) p ≠ Some Dir →
  Fs.read (fs w) s = inr cs →
  ∃ w', (atomicCopy win32 entropy s p preserve;; verifyBackup sha256 s p) w = (inr (), w')
    ∧ Fs.read (fs w') s = inr cs ∧ Fs.read (fs w') p = inr cs.
Proof.
  intros Hcs Hcp Hl Hq Hum Hd Hp Hs.
  assert (Hsrc : Fs.node_at (fs w) s = Some (File cs)).
  { unfold Fs.read in Hs. destruct (Fs.node_at (fs w) s) as [[x|]|]; congruence. }
  destruct (atomicCopy_file_ok win32 entropy s p preserve cs w)
    as (w1 & Hrun & Hf & _); try done.
  { by apply unmarked_lock_absent. }
  { by apply unmarked_temp_absent. }
  assert (Hpn : p ≠ []) by (by eapply not_dir_nonroot).
  assert (Hrp : Fs.read (fs w1) p = inr cs).
  { unfold Fs.read. by rewrite Hf, node_at_insert. }
  assert (Hrs : Fs.read (fs w1) s = inr cs).
  { unfold Fs.read. rewrite Hf. destruct (decide (p = s)) as [->|Hne].
    - by rewrite node_at_insert.
    - by rewrite node_at_insert_ne, Hsrc. }
  assert (Hfile : ∀ q, Fs.read (fs w1) q = inr cs → Fs.node_at (fs w1) q = Some (File cs)).
  { intros q. unfold Fs.read. destruct (Fs.node_at (fs w1) q) as [[x|]|]; congruence. }
  assert (Hv := verifyBackup_file sha256 s p w1 cs cs).
  rewrite !resolve_canonical in Hv by done.
  specialize (Hv (Hfile s Hrs) (Hfile p Hrp)).
  rewrite bool_decide_false in Hv by (by intros H).
  eexists. split; [by rewrite bind_run, Hrun, Hv|]. by wsimpl.
Qed.

Lemma atomicCopy_then_verifyBackup_witness :
  ∃ w', (atomicCopy false counting ["a"] ["tmp"; "copy"] None;;
         verifyBackup (λ c, c) ["a"] ["tmp"; "copy"]) project_disk = (inr (), w')
    ∧ Fs.read (fs w') ["a"] = inr "old" ∧ Fs.read (fs w') ["tmp"; "copy"] = inr "old".
Proof.
  apply (atomicCopy_then_verifyBackup (λ c, c) false counting ["a"] ["tmp"; "copy"] None
           "old" project_disk).
  - apply (bool_decide_unpack _). vm_compute. exact I.
  - apply (bool_decide_unpack _). vm_compute. exact I.
  - apply not_elem_of_empty.
  - reflexivity.
  - apply (bool_decide_unpack _). vm_compute. exact I.
  - vm_compute. reflexivity.
  - vm_compute. discriminate.
  - vm_compute. reflexivity.
Defined.

(** X19: when a side is missing or of the wrong kind, [verifyBackup]
    throws the error of the file-system call that met it, not one of
    its two integrity errors: a missing original fails in [stat]; a
    backup that is a regular file where the original is a directory
    fails in [readdir] with ENOTDIR; a backup that is a directory or
    missing where the original is a regular file fails in the read of
    the backup. *)
Theorem verifyBackup_wrong_kind (sha256 : string → string) (o b : list string) (w : World) :
  let r := (verifyBackup sha256 o b w).1 in
  (Fs.node_at (fs w) (resolve o) = None →
   ∃ errno, r = inl (Error (errno +:+ ": stat") (Some errno)))
  ∧ (canonical_keys (fs w) →
     Fs.node_at (fs w) (resolve o) = Some Dir →
     Fs.is_file (fs w) (resolve b) = true →
     r = inl (Error "ENOTDIR: scandir" (Some "ENOTDIR")))
  ∧ (Fs.is_file (fs w) (resolve o) = true →
     Fs.is_file (fs w) (resolve b) = false →
     ∃ errno, r = inl (Error (errno +:+ ": read") (Some errno))
              ∧ (Fs.node_at (fs w) (resolve b) = Some Dir → errno = "EISDIR")).
Proof.
  intros r. unfold r. split_and!.
  - intros Ho. unfold verifyBackup. rewrite bind_run.
    unfold fs_promises.stat, sysread, Fs.stat. rewrite Ho. eauto.
  - intros Hkeys Ho Hb. unfold verifyBackup.
    rewrite bind_run, (stat_run _ _ _ Ho).
    destruct (getAllFiles_spec o (log (SysStat o) w)) as (L & w1 & Hrun & Hf & _); try done.
    rewrite bind_run, Hrun.
    assert (Hrun2 : getAllFiles b w1
                    = (inl (Error "ENOTDIR: scandir" (Some "ENOTDIR")),
                       log (SysReaddir b) w1)).
    { unfold getAllFiles. rewrite bind_get. simpl. rewrite bind_run.
      unfold fs_promises.readdir, sysread, Fs.readdir. rewrite Hf. simpl.
      unfold Fs.is_file in Hb. by destruct (Fs.node_at (fs w) (resolve b)) as [[c|]|]. }
    by rewrite bind_run, Hrun2.
  - intros Ho Hb. unfold Fs.is_file in Ho, Hb.
    destruct (Fs.node_at (fs w) (resolve o)) as [[co|]|] eqn:Hno; try done.
    unfold verifyBackup. rewrite bind_run, (stat_run _ _ _ Hno).
    rewrite bind_run, (hashFile_run sha256 o _ co) by done.
    rewrite bind_run. unfold hashFile. rewrite bind_run.
    unfold fs_promises.read, sysread, Fs.read. wsimpl.
    destruct (Fs.node_at (fs w) (resolve b)) as [[cb|]|]; try done; eauto.
    eexists. split; [done|]. done.
Qed.

(** ** The path check *)

Lemma string_app_assoc (a b c : string) : (a +:+ b) +:+ c = a +:+ (b +:+ c).
Proof.
  induction a as [|x a IH]; [done|].
  change (String x ((a +:+ b) +:+ c) = String x (a +:+ b +:+ c)). by rewrite IH.
Qed.

Lemma string_app_nil_r (a : string) : a +:+ "" = a.
Proof.
  induction a as [|x a IH]; [reflexivity|].
  change (String x (a +:+ "") = String x a). by rewrite IH.
Qed.

Lemma string_prefix_app (s t : string) : String.prefix s (s +:+ t) = true.
Proof.
  induction s as [|a s IH]; [by destruct t|].
  change (String.prefix (String a s) (String a (s +:+ t)) = true). simpl.
  by destruct (Ascii.ascii_dec a a).
Qed.

Lemma string_prefix_length (s t : string) :
  String.prefix s t = true → String.length s ≤ String.length t.
Proof.
  revert t. induction s as [|a s IH]; intros t; [simpl; lia|].
  destruct t as [|b t]; [done|]. simpl. destruct (Ascii.ascii_dec a b); [|done].
  intros H%IH. simpl. lia.
Qed.

Lemma concat_snoc (sep : string) (l : list string) (x : string) :
  l ≠ [] → String.concat sep (l ++ [x]) = String.concat sep l +:+ sep +:+ x.
Proof.
  induction l as [|a l IH]; [done|]. intros _.
  destruct l as [|b l]; [done|].
  change (String.concat sep ((a :: b :: l) ++ [x]))
    with (a +:+ sep +:+ String.concat sep ((b :: l) ++ [x])).
  rewrite IH by done.
  change (String.concat sep (a :: b :: l)) with (a +:+ sep +:+ String.concat sep (b :: l)).
  by rewrite !string_app_assoc.
Qed.

(** The resolved string of a path continues the resolved string of each
    of its prefixes. *)
Lemma path_resolve_app (p rest : list string) :
  canonical rest →
  ∃ more, path_resolve (p ++ rest) = path_resolve p +:+ more
          ∧ (rest ≠ [] → more ≠ "").
Proof.
  intros Hrest. induction rest as [|x rest IH] using rev_ind.
  - exists "". rewrite app_nil_r. split; [|done]. by rewrite string_app_nil_r.
  - apply Forall_app in Hrest as [Hrest Hx]. rewrite Forall_singleton in Hx.
    destruct (IH Hrest) as (more & Heq & _).
    unfold path_resolve in *. rewrite app_assoc, resolve_snoc_plain by done.
    set (R := resolve (p ++ rest)) in *.
    destruct (decide (R = [])) as [HR|HR].
    + exists (more +:+ x). split.
      * rewrite <- (string_app_assoc _ more x), <- Heq, HR. reflexivity.
      * intros _ H. apply (f_equal String.length) in H.
        rewrite string_app_length in H. destruct Hx as (_ & _ & Hx).
        destruct x; [done|]. simpl in H. lia.
    + exists (more +:+ "/" +:+ x). split.
      * rewrite concat_snoc by done.
        rewrite <- (string_app_assoc _ more), <- Heq.
        by rewrite !string_app_assoc.
      * intros _ H. apply (f_equal String.length) in H.
        rewrite !string_app_length in H. simpl in H. lia.
Qed.

Lemma validatePathSecurity_below (p rest : list string) (w : World) :
  canonical rest → validatePathSecurity (p ++ rest) p w = (inr (), w).
Proof.
  intros Hrest. unfold validatePathSecurity.
  destruct (path_resolve_app p rest Hrest) as (more & -> & _).
  by rewrite string_prefix_app.
Qed.

(** X20: the path check lets every path through that is spelled as the
    project path followed by plain names: it returns without an error
    and without a call to the file system. *)
Theorem validatePathSecurity_accepts_inside (projectPath rest : list string) (w : World) :
  canonical rest →
  validatePathSecurity (projectPath ++ rest) projectPath w = (inr (), w).
Proof.
  intros Hrest. unfold validatePathSecurity.
  destruct (path_resolve_app projectPath rest Hrest) as (more & Heq & _).
  rewrite Heq. by rewrite string_prefix_app.
Qed.

Lemma validatePathSecurity_accepts_inside_witness :
  validatePathSecurity (["home"; "."; "app"] ++ ["docs"; "AGENTS.md"]) ["home"; "."; "app"]
    empty_world
  = (inr (), empty_world).
Proof.
  apply (validatePathSecurity_accepts_inside ["home"; "."; "app"] ["docs"; "AGENTS.md"]).
  apply (bool_decide_unpack _). vm_compute. exact I.
Defined.

(** X21: the path check throws its error, without a call to the file
    system, for every target that resolves to a proper ancestor of the
    project directory, as a target that climbs out with ".." does. *)
Theorem validatePathSecurity_rejects_ancestors (targetPath projectPath : list string)
    (w : World) :
  Fs.below (resolve targetPath) (resolve projectPath) →
  validatePathSecurity targetPath projectPath w
  = (inl (path_traversal targetPath projectPath), w).
Proof.
  intros [[rest Hrest] Hne]. unfold validatePathSecurity.
  assert (Hc : canonical rest).
  { pose proof (canonical_resolve projectPath) as H. rewrite Hrest in H.
    by apply Forall_app in H as [_ H]. }
  destruct (path_resolve_app (resolve targetPath) rest Hc) as (more & Heq & Hmore).
  unfold path_resolve in Heq. rewrite (resolve_canonical (resolve targetPath ++ rest)) in Heq
    by (rewrite <- Hrest; apply canonical_resolve).
  rewrite (resolve_canonical (resolve targetPath)) in Heq by apply canonical_resolve.
  unfold path_resolve. rewrite Hrest, Heq.
  destruct (String.prefix _ _) eqn:Hp; [|done].
  apply string_prefix_length in Hp. rewrite string_app_length in Hp.
  assert (more ≠ "") as Hm.
  { apply Hmore. intros ->. rewrite app_nil_r in Hrest. by rewrite Hrest in Hne. }
  destruct more; [done|]. simpl in Hp. lia.
Qed.

Lemma validatePathSecurity_rejects_ancestors_witness :
  validatePathSecurity ["home"; "app"; ".."; "AGENTS.md"; ".."] ["home"; "app"] empty_world
  = (inl (path_traversal ["home"; "app"; ".."; "AGENTS.md"; ".."] ["home"; "app"]),
     empty_world).
Proof.
  apply (validatePathSecurity_rejects_ancestors
           ["home"; "app"; ".."; "AGENTS.md"; ".."] ["home"; "app"]).
  apply (bool_decide_unpack _). vm_compute. exact I.
Defined.

(** X22: the path check compares the characters of the two resolved
    paths, not their segments: a path in a sibling directory whose
    name begins with the name of the project directory is outside the
    project, and is let through. *)
Theorem validatePathSecurity_compares_characters (parent rest : list string)
    (name suffix : string) (w : World) :
  canonical (parent ++ [name]) →
  canonical (parent ++ [name +:+ suffix] ++ rest) →
  suffix ≠ "" →
  ¬ resolve (parent ++ [name]) `prefix_of` resolve (parent ++ [name +:+ suffix] ++ rest)
  ∧ validatePathSecurity (parent ++ [name +:+ suffix] ++ rest) (parent ++ [name]) w
    = (inr (), w).
Proof.
  intros Hp Ht Hs. split.
  - rewrite !resolve_canonical by done. intros [k Hk].
    rewrite <- app_assoc in Hk. apply app_inv_head in Hk. injection Hk as Hk _.
    apply (f_equal String.length) in Hk. rewrite string_app_length in Hk.
    destruct suffix; [done|]. simpl in Hk. lia.
  - unfold validatePathSecurity.
    apply Forall_app in Ht as [Hparent Ht]. apply Forall_app in Ht as [Hx Hrest].
    rewrite Forall_singleton in Hx.
    assert (Hname : plain name).
    { apply Forall_app in Hp as [_ H]. by rewrite Forall_singleton in H. }
    rewrite app_assoc.
    destruct (path_resolve_app (parent ++ [name +:+ suffix]) rest Hrest) as (more & -> & _).
    assert (Hsib : path_resolve (parent ++ [name +:+ suffix])
                   = path_resolve (parent ++ [name]) +:+ suffix).
    { unfold path_resolve. rewrite !resolve_snoc_plain by done.
      destruct (resolve parent) as [|a l] eqn:Hr.
      - simpl. done.
      - rewrite !concat_snoc by done. by rewrite !string_app_assoc. }
    rewrite Hsib, string_app_assoc. by rewrite string_prefix_app.
Qed.

Lemma validatePathSecurity_compares_characters_witness :
  ¬ resolve (["home"] ++ ["app"]) `prefix_of` resolve (["home"] ++ ["app" +:+ "-old"] ++ ["x"])
  ∧ validatePathSecurity (["home"] ++ ["app" +:+ "-old"] ++ ["x"]) (["home"] ++ ["app"])
      empty_world
    = (inr (), empty_world).
Proof.
  apply (validatePathSecurity_compares_characters ["home"] ["x"] "app" "-old").
  - apply (bool_decide_unpack _). vm_compute. exact I.
  - apply (bool_decide_unpack _). vm_compute. exact I.
  - discriminate.
Defined.

(** ** Directories of the copy *)

Lemma exists_run (p : list string) (w : World) :
  exists_ p w = (inr (bool_decide (is_Some (Fs.node_at (fs w) (resolve p)))),
                 log (SysStat p) w).
Proof.
  unfold exists_, succeeds, try_catch. rewrite bind_run.
  unfold fs_promises.stat, sysread, Fs.stat.
  destruct (Fs.node_at (fs w) (resolve p)) as [n|]; reflexivity.
Qed.

Lemma tree_parent (m : gmap (list string) node) (k : list string) :
  tree m → is_Some (Fs.node_at m k) → Fs.is_dir m (dirname k) = true.
Proof.
  intros Ht [n Hn]. destruct k as [|x k]; [done|]. by apply (Ht _ n).
Qed.

Lemma tree_take (m : gmap (list string) node) (q : list string) (n : nat) :
  tree m → Fs.is_dir m q = true → Fs.is_dir m (take n q) = true.
Proof.
  intros Ht. induction q as [|x q IH] using rev_ind; intros Hq; [by destruct n|].
  destruct (decide (length (q ++ [x]) ≤ n)) as [Hn|Hn]; [by rewrite take_ge|].
  rewrite length_app in Hn. simpl in Hn. rewrite take_app_le by lia.
  apply IH. rewrite <- (dirname_snoc q x). apply tree_parent; [done|].
  apply bool_decide_eq_true in Hq. by rewrite Hq.
Qed.

(** On a tree, nothing lies below a path that is not a directory. *)
Lemma tree_below (m : gmap (list string) node) (a k : list string) :
  tree m → Fs.node_at m a ≠ Some Dir → a `prefix_of` k → a ≠ k → m !! k = None.
Proof.
  intros Ht Ha [r ->] Hne. destruct (m !! (a ++ r)) as [n|] eqn:Hk; [|done].
  exfalso. apply Ha. destruct r as [|x r] using rev_ind; [by rewrite app_nil_r in Hne|].
  assert (Hd : Fs.is_dir m (a ++ r) = true).
  { rewrite <- (dirname_snoc (a ++ r) x), <- app_assoc. apply tree_parent; [done|].
    exists n. rewrite <- Hk. apply node_at_nonroot. by destruct a. }
  apply (tree_take m _ (length a) Ht) in Hd. rewrite take_app_length in Hd.
  by apply bool_decide_eq_true in Hd.
Qed.

Lemma tree_insert (m : gmap (list string) node) (q : list string) (n : node) :
  tree m → Fs.is_dir m (dirname q) = true → Fs.node_at m q ≠ Some Dir ∨ n = Dir → q ≠ [] →
  tree (<[q := n]> m).
Proof.
  intros Ht Hq Hn Hne.
  assert (Hkeep : ∀ d, Fs.is_dir m d = true → Fs.is_dir (<[q := n]> m) d = true).
  { intros d Hd. unfold Fs.is_dir in *. apply bool_decide_eq_true in Hd.
    apply bool_decide_eq_true. destruct (decide (q = d)) as [->|Hqd].
    - rewrite node_at_insert by done. destruct Hn as [Hn| ->]; done.
    - by rewrite node_at_insert_ne. }
  apply map_Forall_insert_2; [by apply Hkeep|].
  intros k x Hk. apply Hkeep. by apply (Ht k x).
Qed.

Lemma foldr_insert_id (m : gmap (list string) node) (l : list (list string)) :
  Forall (λ a, m !! a = Some Dir) l → foldr (λ a acc, <[a := Dir]> acc) m l = m.
Proof.
  induction 1 as [|a l Ha _ IH]; simpl; [done|]. rewrite IH. by apply insert_id.
Qed.

(** [mkdir] of a child of a directory of a tree makes that child and
    nothing else. *)
Lemma mkdirp_join (m : gmap (list string) node) (p : list string) (x : string) :
  tree m → Fs.is_dir m p = true → Fs.is_file m (p ++ [x]) = false →
  Fs.mkdirp m (p ++ [x]) = inr (<[p ++ [x] := Dir]> m).
Proof.
  intros Ht Hp Hx. unfold Fs.mkdirp.
  destruct (Fs.is_dir m (p ++ [x])) eqn:Hd.
  { apply bool_decide_eq_true in Hd. rewrite node_at_snoc in Hd. by rewrite insert_id. }
  assert (Hanc : ∀ n, n ≤ length p → Fs.is_dir m (take n (p ++ [x])) = true).
  { intros n Hn. rewrite take_app_le by done. by apply tree_take. }
  assert (Hfiles : existsb (Fs.is_file m) (ancestors (p ++ [x])) = false).
  { apply not_true_is_false. intros (a & Ha & Hf)%existsb_exists.
    unfold ancestors in Ha. apply list_elem_of_In, list_elem_of_fmap in Ha as (n & -> & Hn).
    apply elem_of_seq in Hn. rewrite length_app in Hn. simpl in Hn.
    specialize (Hanc n ltac:(lia)). apply bool_decide_eq_true in Hanc.
    unfold Fs.is_file in Hf. by rewrite Hanc in Hf. }
  rewrite Hfiles, Hx. f_equal.
  rewrite length_app. simpl. rewrite Nat.add_1_r, seq_S, fmap_app, foldr_app. simpl.
  rewrite (take_ge (p ++ [x])) by (rewrite length_app; simpl; lia).
  apply foldr_insert_id, Forall_forall. intros a (n & -> & Hn)%list_elem_of_fmap.
  apply elem_of_seq in Hn. rewrite lookup_insert_ne.
  - specialize (Hanc n ltac:(lia)). apply bool_decide_eq_true in Hanc.
    rewrite <- Hanc. symmetry. apply node_at_nonroot.
    rewrite take_app_le by lia. destruct p, n; simpl; try done; simpl in Hn; lia.
  - intros H. apply (f_equal length) in H. rewrite length_take, length_app in H.
    simpl in H. lia.
Qed.

Lemma plain_user_backup (s : string) : plain (".create-codex-backup-" +:+ s).
Proof. apply plain_long. rewrite string_app_length. simpl. lia. Qed.

Lemma plain_tx (s : string) : plain (".create-codex-tx-" +:+ s).
Proof. apply plain_long. rewrite string_app_length. simpl. lia. Qed.

Lemma createBackupDir_run (toISOString : N → string) (p : list string) (w : World) :
  let d := user_backup_dir toISOString p (now w) in
  tree (fs w) →
  Fs.is_dir (fs w) (resolve p) = true →
  Fs.is_file (fs w) (resolve d) = false →
  createBackupDir toISOString p w
  = (inr d, set_fs (<[resolve d := Dir]> (fs w)) (log (SysMkdir d) w)).
Proof.
  intros d Ht Hp Hd. unfold createBackupDir. rewrite bind_get.
  fold (dashed (toISOString (now w))). fold (user_backup_dir toISOString p (now w)). fold d.
  assert (Hr : resolve d = resolve p ++ [".create-codex-backup-" +:+ dashed (toISOString (now w))]).
  { apply resolve_snoc_plain, plain_user_backup. }
  rewrite bind_run, (withRetry_first_success _ _ _ w
    (set_fs (<[resolve d := Dir]> (fs w)) (log (SysMkdir d) w)) ()); [done|].
  apply syscall_ok. rewrite Hr in *. by apply mkdirp_join.
Qed.

Lemma dashed_chars (s : string) (c : Ascii.ascii) :
  c ∈ String.list_ascii_of_string (dashed s) → c ≠ ":"%char ∧ c ≠ "."%char.
Proof.
  unfold dashed. induction s as [|a s IH]; simpl; [by intros ?%elem_of_nil|].
  case_bool_decide as Ha.
  - change ("-" +:+ ?r) with (String "-" r). simpl.
    intros [->|Hc]%elem_of_cons; [done|by apply IH].
  - simpl. intros [->|Hc]%elem_of_cons; [|by apply IH].
    split; intros ->; apply Ha; [by left|by right].
Qed.

(** X23: in a project directory of a disk that is a tree,
    [createBackupDir] makes one directory, directly in the project
    directory and named after the clock, at the first attempt; the
    disk is otherwise unchanged, and the part of the name that comes
    from the clock holds no colon and no dot.  A directory of that name
    that exists already is returned as it is. *)
Theorem createBackupDir_creates (toISOString : N → string) (projectPath : list string)
    (w : World) :
  let d := user_backup_dir toISOString projectPath (now w) in
  tree (fs w) →
  Fs.is_dir (fs w) (resolve projectPath) = true →
  Fs.is_file (fs w) (resolve d) = false →
  ∃ w', createBackupDir toISOString projectPath w = (inr d, w')
    ∧ dirname d = projectPath
    ∧ Fs.is_dir (fs w') (resolve d) = true
    ∧ (∀ k, k ≠ resolve d → fs w' !! k = fs w !! k)
    ∧ (Fs.is_dir (fs w) (resolve d) = true → fs w' = fs w)
    ∧ sleeps (events_since w w') = []
    ∧ ∀ c, c ∈ String.list_ascii_of_string (dashed (toISOString (now w))) →
           c ≠ ":"%char ∧ c ≠ "."%char.
Proof.
  intros d Ht Hp Hd. eexists. split; [by apply createBackupDir_run|].
  assert (Hne : resolve d ≠ []).
  { unfold d, user_backup_dir, join. rewrite resolve_snoc_plain by apply plain_user_backup.
    by destruct (resolve projectPath). }
  split_and!.
  - apply dirname_snoc.
  - unfold Fs.is_dir. apply bool_decide_eq_true. simpl. by apply node_at_insert.
  - intros k Hk. simpl. by rewrite lookup_insert_ne.
  - intros H%bool_decide_eq_true. simpl. apply insert_id.
    by rewrite <- H, node_at_nonroot.
  - unfold events_since. simpl. by rewrite drop_app_length.
  - apply dashed_chars.
Qed.

Lemma createBackupDir_creates_witness :
  ∃ w', createBackupDir (λ _, "2026-01-02T03:04:05.678Z") ["d1"] sample_disk
        = (inr ["d1"; ".create-codex-backup-2026-01-02T03-04-05-678Z"], w')
    ∧ Fs.is_dir (fs w') ["d1"; ".create-codex-backup-2026-01-02T03-04-05-678Z"] = true.
Proof.
  destruct (createBackupDir_creates (λ _, "2026-01-02T03:04:05.678Z") ["d1"] sample_disk)
    as (w' & Hrun & _ & Hdir & _).
  - apply (bool_decide_unpack _). vm_compute. exact I.
  - vm_compute. reflexivity.
  - vm_compute. reflexivity.
  - exists w'. split; [exact Hrun|exact Hdir].
Defined.

(** ** The copy of the additional files *)

Lemma not_private_hex (s : string) (n : nat) (v : N) : ¬ private_name (s +:+ hex (S n) v).
Proof.
  change (hex (S n) v) with (hex n (v / 16) +:+ hex_digit (v `mod` 16)).
  rewrite <- string_app_assoc.
  assert (Forall (λ s, ∃ c, String.list_ascii_of_string s = [c]
                            ∧ last (String.list_ascii_of_string ".lock") ≠ Some c
                            ∧ last (String.list_ascii_of_string ".tmp") ≠ Some c)
                 hex_digits) as Hall.
  { unfold hex_digits. repeat constructor; eexists; (split; [reflexivity|]); by split. }
  rewrite Forall_forall in Hall.
  destruct (Hall _ (hex_digit_in (v `mod` 16))) as (c & Hc & H1 & H2).
  intros [[k Hk]|[k Hk]]; rewrite list_ascii_of_string_app, Hc in Hk;
    apply (f_equal last) in Hk; rewrite last_snoc, last_app in Hk; simpl in *; congruence.
Qed.

Lemma tx_dir_public (tmpdir : list string) (entropy : nat → N) (t : N) (d : nat) :
  ¬ private_name (basename (tx_dir tmpdir entropy t d)).
Proof.
  unfold tx_dir, join. rewrite basename_snoc, <- !string_app_assoc.
  apply (not_private_hex _ 7).
Qed.

Lemma agents_public : ¬ private_name "AGENTS.md".
Proof. apply (bool_decide_unpack _). vm_compute. exact I. Qed.

Lemma new_tx_run (tmpdir : list string) (entropy : nat → N) (w : World) :
  TransactionLog_new tmpdir entropy w
  = (inr (mkTx [] (tx_dir tmpdir entropy (now w) (draws w))), set_draws (S (draws w)) w).
Proof. reflexivity. Qed.

Lemma init_run (ops : list Op) (dir : list string) (x : string) (w : World) :
  tree (fs w) → canonical dir → plain x →
  Fs.is_dir (fs w) dir = true → Fs.is_file (fs w) (dir ++ [x]) = false →
  init (mkTx ops (join dir x), w)
  = (inr (), (mkTx ops (join dir x),
              set_fs (<[dir ++ [x] := Dir]> (fs w)) (log (SysMkdir (join dir x)) w))).
Proof.
  intros Ht Hdir Hx Hd Hf. unfold init, this. rewrite bind_run. cbn [fst snd backupDir].
  rewrite liftW_run. unfold fs_promises.mkdir.
  rewrite (syscall_ok _ _ _ _ (<[dir ++ [x] := Dir]> (fs w))); [done|].
  unfold join. rewrite resolve_canonical by (by apply canonical_snoc).
  by apply mkdirp_join.
Qed.

Lemma backup_absent_run (win32 : bool) (entropy : nat → N) (p : list string)
    (tx : TransactionLog) (w : World) :
  Fs.node_at (fs w) (resolve p) = None →
  backup win32 entropy p (tx, w) = (inr (), (tx, log (SysAccess p) w)).
Proof.
  intros Hnone. unfold backup. rewrite bind_run, liftW_run, access_run.
  rewrite Hnone. reflexivity.
Qed.

Lemma commit_run (ops : list Op) (b : list string) (w : World) :
  canonical b → Fs.node_at (fs w) b = Some Dir → b ≠ [] →
  commit (mkTx ops b, w)
  = (inr (), (mkTx ops b, set_fs (Fs.without (fs w) b) (log (SysRm b) w))).
Proof.
  intros Hc Hb Hne. unfold commit, this. rewrite bind_run. cbn [fst snd backupDir].
  unfold try_catch. rewrite liftW_run. unfold fs_promises.rm.
  rewrite (syscall_ok _ _ _ _ (Fs.without (fs w) b)); [done|].
  rewrite resolve_canonical by done. unfold Fs.rm. rewrite Hb.
  by rewrite bool_decide_false.
Qed.

Lemma read_run (p : list string) (w : World) (c : string) :
  Fs.read (fs w) (resolve p) = inr c →
  fs_promises.read p w = (inr c, log (SysRead p) w).
Proof. intros H. unfold fs_promises.read, sysread. by rewrite H. Qed.

Lemma dotted_suffix (pre d rest tl : list Ascii.ascii) :
  pre = "."%char :: tl → "."%char ∉ tl → "."%char ∉ d →
  length ("."%char :: rest) < length pre →
  ¬ ("."%char :: rest) `suffix_of` (pre ++ d).
Proof.
  intros Hpre Htl Hd Hlen [k Hk].
  apply app_eq_inv in Hk as [(j & Hj1 & Hj2)|(j & Hj1 & Hj2)].
  - destruct j as [|c j].
    + rewrite app_nil_l in Hj2. apply Hd. rewrite <- Hj2. by left.
    + injection Hj2 as <- Hj2. destruct k as [|c' k].
      * rewrite app_nil_l in Hj1. rewrite Hj1 in Hlen. simpl in Hlen.
        apply (f_equal length) in Hj2. rewrite length_app in Hj2. lia.
      * rewrite Hpre in Hj1. injection Hj1 as _ Hj1. apply Htl. rewrite Hj1.
        apply elem_of_app. right. by left.
  - apply Hd. rewrite Hj2. apply elem_of_app. right. by left.
Qed.

Lemma user_backup_public (s : string) :
  ¬ private_name (".create-codex-backup-" +:+ dashed s).
Proof.
  assert (Hdot : "."%char ∉ String.list_ascii_of_string (dashed s)).
  { intros H. by destruct (dashed_chars _ _ H) as [_ ?]. }
  unfold private_name. rewrite list_ascii_of_string_app.
  intros [H|H]; revert H;
    apply (dotted_suffix _ _ _ (String.list_ascii_of_string "create-codex-backup-"));
    first [reflexivity | exact Hdot | simpl; lia
          | apply (bool_decide_unpack _); vm_compute; exact I].
Qed.

Lemma backup_present_run (win32 : bool) (entropy : nat → N) (t bdir : list string)
    (ops : list Op) (old : string) (w : World) :
  let b := join bdir (hex 16 (entropy (draws w))) in
  canonical t → canonical bdir → idle w → unmarked (fs w) →
  Fs.is_dir (fs w) bdir = true →
  Fs.node_at (fs w) b ≠ Some Dir →
  Fs.node_at (fs w) t = Some (File old) →
  ∃ w', backup win32 entropy t (mkTx ops bdir, w)
        = (inr (), (mkTx (ops ++ [mkOp backup_op t (Some b)]) bdir, w'))
    ∧ fs w' = <[b := File old]> (fs w) ∧ idle w' ∧ draws w' = draws w + 3.
Proof.
  intros b Ht Hb [Hl Hq] Hum Hd Hnb Hold.
  assert (Hcb : canonical b).
  { apply canonical_snoc; [done|]. apply plain_long. rewrite hex_length. lia. }
  destruct (atomicCopy_file_ok win32 entropy t b None old
              (set_draws (S (draws w)) (log (SysAccess t) w)))
    as (w' & Hrun & Hf & Hl' & Hq' & Hd' & _); try done.
  - wsimpl. rewrite Hl. apply not_elem_of_empty.
  - wsimpl. by rewrite Hq.
  - unfold b, join. by rewrite dirname_snoc.
  - by apply unmarked_lock_absent.
  - by apply unmarked_temp_absent.
  - exists w'. split_and!.
    + unfold backup. rewrite bind_run, liftW_run, access_run.
      rewrite (resolve_canonical t), Hold by done. cbn [fst snd negb].
      rewrite bool_decide_true by eauto. cbn [negb].
      unfold this. rewrite bind_run. cbn [fst snd backupDir].
      rewrite bind_run, liftW_run. unfold randomHex. rewrite bind_get, bind_modify.
      unfold mret, ST_ret. cbn [fst snd]. wsimpl.
      change (2 * 8) with 16. fold b.
      rewrite bind_run, liftW_run, Hrun. cbn [fst snd]. by rewrite push_run.
    + exact Hf.
    + split; [by rewrite Hl'|by rewrite Hq'].
    + rewrite Hd'. wsimpl. lia.
Qed.

Lemma is_dir_insert_ne (m : gmap (list string) node) (k q : list string) (n : node) :
  k ≠ q → Fs.is_dir (<[k := n]> m) q = Fs.is_dir m q.
Proof. intros H. unfold Fs.is_dir. by rewrite node_at_insert_ne. Qed.

Lemma prefix_snoc_cases (a q : list string) (x : string) :
  a `prefix_of` (q ++ [x]) → a `prefix_of` q ∨ a = q ++ [x].
Proof.
  intros [r Hr]. destruct r as [|y r _] using rev_ind.
  - right. by rewrite app_nil_r in Hr.
  - left. rewrite app_assoc in Hr. apply app_inj_tail in Hr as [-> _]. by exists r.
Qed.

Lemma tx_name_not_backup (a b : string) :
  ".create-codex-tx-" +:+ a ≠ ".create-codex-backup-" +:+ b.
Proof.
  intros H. apply (f_equal (String.substring 0 16)) in H. vm_compute in H. discriminate.
Qed.

Lemma tx_name_not_agents (a : string) : ".create-codex-tx-" +:+ a ≠ "AGENTS.md".
Proof.
  intros H. apply (f_equal (String.substring 0 1)) in H. vm_compute in H. discriminate.
Qed.

Lemma with_tx_run {A} (tx tx' : TransactionLog) (m : TxM A) (w w' : World) (r : error + A) :
  m (tx, w) = (r, (tx', w')) → with_tx tx m w = (r, w').
Proof. intros H. unfold with_tx. by rewrite H. Qed.

Section Additional.

Context (win32 : bool) (dev : list string → nat) (tmpdir : list string) (entropy : nat → N)
        (sha256 : string → string) (moduleFile : list string) (toISOString : N → string)
        (renderTemplate : string → TemplateVariables → error + string)
        (logger_info logger_error : string → M unit).

Local Abbreviation additional :=
  (copyAdditionalFiles win32 dev tmpdir entropy sha256 moduleFile toISOString
     renderTemplate logger_info logger_error).

(** X24: a project that has no AGENTS.md.  The conditions: the info
    logger leaves no trace in the world; every entry of the disk lies
    in a directory; no entry is named like a lock marker or a temporary
    file (".lock", ".tmp"); no lock is held and nobody waits for one;
    the temporary directory and the project path are resolved paths and
    directories; the name of the directory of the transaction is not
    taken; the project has no AGENTS.md; the skeleton file can be read
    and is processed without an error.  Then [copyAdditionalFiles]
    returns 1 and the disk differs from the one it started on in one
    place: AGENTS.md of the project holds the text of the skeleton
    file, rendered when it contains a tag.  No backup directory is made,
    the directory of the transaction is gone again, and no lock is
    left. *)
Theorem copyAdditionalFiles_writes_new_file (projectPath : list string)
    (variables : TemplateVariables)
    (sharedBackupDir : option (list string)) (content processed : string) (w : World) :
  let target := join projectPath "AGENTS.md" in
  let source := join (getSourceDir moduleFile) "AGENTS.md" in
  mute logger_info →
  tree (fs w) → unmarked (fs w) → idle w →
  canonical tmpdir → Fs.is_dir (fs w) tmpdir = true →
  canonical projectPath → Fs.is_dir (fs w) projectPath = true →
  Fs.node_at (fs w) (tx_dir tmpdir entropy (now w) (draws w)) = None →
  Fs.node_at (fs w) target = None →
  Fs.read (fs w) (resolve source) = inr content →
  process renderTemplate content (validateTemplateVariables variables) = inr processed →
  ∃ w', additional projectPath variables sharedBackupDir w = (inr 1, w')
    ∧ fs w' = <[target := File processed]> (fs w)
    ∧ idle w'.
Proof.
  intros target source Hinfo Htree Hum [Hl Hq] Htmp Htmpd HP HPd Hb HT HS Hproc.
  set (bdir := tx_dir tmpdir entropy (now w) (draws w)) in *.
  assert (Hcb : canonical bdir) by (apply canonical_snoc; [done|apply plain_tx]).
  assert (Hct : canonical target) by (apply canonical_snoc; [done|apply plain_long; simpl; lia]).
  assert (Hbt : bdir ≠ target).
  { intros H. unfold bdir, target, tx_dir, join in H. by apply app_inj_tail in H as [_ H]. }
  assert (Hbne : bdir ≠ []) by (by eapply node_at_None_nonroot).
  assert (Hnb : ¬ bdir `prefix_of` target).
  { intros [r Hr]. destruct r as [|x r] using rev_ind.
    - rewrite app_nil_r in Hr. by apply Hbt.
    - clear IHr. unfold target, join in Hr. rewrite app_assoc in Hr.
      apply app_inj_tail in Hr as [Hr _].
      assert (Hd : Fs.is_dir (fs w) (take (length bdir) projectPath) = true)
        by (by apply tree_take).
      rewrite Hr, take_app_length in Hd. apply bool_decide_eq_true in Hd. congruence. }
  unfold copyAdditionalFiles. rewrite bind_run, new_tx_run. fold bdir.
  set (name := ".create-codex-tx-" +:+ pretty (now w) +:+ "-" +:+ hex 8 (entropy (draws w))).
  set (m2 := <[bdir := Dir]> (fs w)).
  assert (Ht2 : Fs.node_at m2 target = None).
  { unfold m2. by rewrite node_at_insert_ne. }
  assert (HSn : Fs.node_at (fs w) (resolve source) = Some (File content)).
  { unfold Fs.read in HS. destruct (Fs.node_at (fs w) (resolve source)) as [[c|]|]; congruence. }
  assert (HS2 : Fs.read m2 (resolve source) = inr content).
  { unfold Fs.read, m2. rewrite node_at_insert_ne; [by rewrite HSn|].
    intros H. by rewrite <- H, Hb in HSn. }
  assert (Hum2 : unmarked m2) by (apply unmarked_insert; [done|apply tx_dir_public]).
  assert (HPd2 : Fs.is_dir m2 projectPath = true).
  { unfold Fs.is_dir in *. apply bool_decide_eq_true in HPd. apply bool_decide_eq_true.
    unfold m2. rewrite node_at_insert_ne; [done|]. intros H. by rewrite <- H, Hb in HPd. }
  pose (w5 := log (SysAccess target) (log (SysRead source) (log (SysStat target)
                (set_fs m2 (log (SysMkdir bdir) (set_draws (S (draws w)) w)))))).
  destruct (atomicWrite_ok win32 entropy target processed w5)
    as (w6 & Hw & Hf6 & Hl6 & Hq6 & Hd6 & Ht6); try done.
  { unfold w5. wsimpl. rewrite Hl. apply not_elem_of_empty. }
  { unfold w5. wsimpl. by rewrite Hq. }
  { unfold target at 1, join. by rewrite dirname_snoc. }
  { unfold w5. wsimpl. by rewrite Ht2. }
  { by apply unmarked_lock_absent. }
  { by apply unmarked_temp_absent. }
  unfold w5 in Hf6, Hl6, Hq6. wsimpl_in Hf6. wsimpl_in Hl6. wsimpl_in Hq6.
  assert (Hinit := init_run [] tmpdir name (set_draws (S (draws w)) w)
                     Htree Htmp (plain_tx _) Htmpd).
  change (join tmpdir name) with bdir in Hinit. change (tmpdir ++ [name]) with bdir in Hinit.
  specialize (Hinit ltac:(unfold Fs.is_file; wsimpl; by rewrite Hb)).
  eexists. split; [|split].
  - eapply with_tx_run.
    rewrite bind_run.
    rewrite Hinit. wsimpl. fold m2.
    unfold try_catch at 1.
    rewrite bind_run, liftW_run, Hinfo. cbn [fst snd for_fold].
    rewrite !bind_run, liftW_run.
    rewrite (validatePathSecurity_below projectPath ["AGENTS.md"]) by (by repeat constructor).
    cbn [fst snd].
    rewrite bind_run, liftW_run, exists_run. cbn [fst snd].
    fold target. rewrite (resolve_canonical target) by done. wsimpl. rewrite Ht2.
    rewrite bool_decide_false by (by intros [? ?]).
    rewrite bind_run. unfold mret at 1, ST_ret at 1.
    rewrite bind_run, liftW_run. fold source.
    rewrite (read_run source _ content) by (wsimpl; exact HS2). cbn [fst snd].
    rewrite bind_run, Hproc. unfold outcome at 1, mret at 1, ST_ret at 1.
    rewrite bind_run. unfold write at 1.
    rewrite bind_run, backup_absent_run
      by (wsimpl; by rewrite (resolve_canonical target)).
    rewrite bind_run, liftW_run. fold w5. rewrite Hw. cbn [fst snd].
    rewrite push_run. unfold mret at 1 2, ST_ret at 1 2.
    rewrite bind_run, commit_run; try done.
    + rewrite bind_run, liftW_run, Hinfo. reflexivity.
    + rewrite Hf6. rewrite node_at_insert_ne by done. by apply node_at_insert.
  - cbn [fst snd]. wsimpl. rewrite Hf6. apply map_eq. intros k. rewrite without_lookup.
    destruct (decide (bdir `prefix_of` k)) as [Hk|Hk].
    + symmetry. rewrite lookup_insert_ne by (by intros <-).
      destruct (decide (bdir = k)) as [<-|Hne]; [by apply node_at_None_lookup|].
      apply (tree_below _ bdir); try done. by rewrite Hb.
    + destruct (decide (target = k)) as [<-|Hne].
      * by rewrite !lookup_insert_eq.
      * rewrite !lookup_insert_ne; try done. unfold m2. rewrite lookup_insert_ne; [done|].
        intros <-. by apply Hk.
  - split; cbn [fst snd]; wsimpl; congruence.
Qed.

Lemma additional_existing (projectPath : list string)
    (variables : TemplateVariables) (sharedBackupDir : option (list string))
    (old content : string) (w : World) :
  let target := join projectPath "AGENTS.md" in
  let source := join (getSourceDir moduleFile) "AGENTS.md" in
  let dir := match sharedBackupDir with
             | Some (s :: r) => s :: r
             | _ => user_backup_dir toISOString projectPath (now w)
             end in
  let backupPath := join dir "AGENTS.md" in
  let bdir := tx_dir tmpdir entropy (now w) (draws w) in
  let rendered := process renderTemplate content (validateTemplateVariables variables) in
  mute logger_info → mute logger_error →
  tree (fs w) → unmarked (fs w) → idle w →
  canonical tmpdir → Fs.is_dir (fs w) tmpdir = true →
  canonical projectPath →
  Fs.node_at (fs w) bdir = None →
  Fs.node_at (fs w) target = Some (File old) →
  match sharedBackupDir with
  | Some (s :: r) => canonical (s :: r) ∧ Fs.is_dir (fs w) (s :: r) = true
  | _ => Fs.is_file (fs w) dir = false
  end →
  Fs.node_at (fs w) backupPath = None →
  Fs.read (fs w) (resolve source) = inr content →
  ∃ w', additional projectPath variables sharedBackupDir w
        = (match rendered with inl e => inl e | inr _ => inr 1 end, w')
    ∧ fs w' = match rendered with
              | inl _ => <[dir := Dir]> (<[bdir := Dir]> (fs w))
              | inr processed =>
                  <[target := File processed]>
                    (<[backupPath := File old]> (<[dir := Dir]> (fs w)))
              end
    ∧ idle w'
    ∧ bdir ≠ dir ∧ bdir ≠ target ∧ bdir ≠ backupPath ∧ dir ≠ target ∧ backupPath ≠ dir.
Proof.
  intros target source dir backupPath bdir rendered Hinfo Herror Htree Hum [Hl Hq] Htmp Htmpd
    HP Hb HT Hdir HB HS.
  set (name := ".create-codex-tx-" +:+ pretty (now w) +:+ "-" +:+ hex 8 (entropy (draws w))).
  assert (Hplain : plain "AGENTS.md") by (apply plain_long; simpl; lia).
  assert (Hcb : canonical bdir) by (apply canonical_snoc; [done|apply plain_tx]).
  assert (Hct : canonical target) by (by apply canonical_snoc).
  assert (HPd : Fs.is_dir (fs w) projectPath = true).
  { rewrite <- (dirname_snoc projectPath "AGENTS.md"). apply tree_parent; [done|].
    fold (join projectPath "AGENTS.md"). fold target. by rewrite HT. }
  assert (Hcd : canonical dir).
  { unfold dir. destruct sharedBackupDir as [[|s r]|]; try (by destruct Hdir);
      apply canonical_snoc; first [done|apply plain_user_backup]. }
  assert (Hcp : canonical backupPath) by (by apply canonical_snoc).
  assert (Hbne : bdir ≠ []) by (by eapply node_at_None_nonroot).
  assert (Hdne : dir ≠ []).
  { unfold dir. destruct sharedBackupDir as [[|s r]|]; try done;
      unfold user_backup_dir, join; by destruct projectPath. }
  assert (Hout : ∀ k, bdir `prefix_of` k → fs w !! k = None).
  { intros k Hk. destruct (decide (bdir = k)) as [<-|Hne]; [by apply node_at_None_lookup|].
    apply (tree_below _ bdir); try done. by rewrite Hb. }
  assert (Hin : ∀ k, is_Some (Fs.node_at (fs w) k) → ¬ bdir `prefix_of` k).
  { intros k [n Hn] Hk. destruct (decide (k = [])) as [->|Hne].
    - apply Hbne. by apply prefix_nil_inv.
    - rewrite node_at_nonroot in Hn by done. by rewrite (Hout k Hk) in Hn. }
  assert (Hnt : ¬ bdir `prefix_of` target) by (apply Hin; by rewrite HT).
  assert (Hnd : ¬ bdir `prefix_of` dir).
  { unfold dir in *. destruct sharedBackupDir as [[|s r]|];
      try (intros [H|H]%prefix_snoc_cases;
           [by apply (Hin projectPath); [apply bool_decide_eq_true in HPd; rewrite HPd|]
           |apply app_inj_tail in H as [_ H]; by apply tx_name_not_backup in H]).
    destruct Hdir as [_ Hd]. apply Hin. apply bool_decide_eq_true in Hd. by rewrite Hd. }
  assert (Hnp : ¬ bdir `prefix_of` backupPath).
  { intros [H|H]%prefix_snoc_cases; [done|].
    apply app_inj_tail in H as [_ H]. by apply tx_name_not_agents in H. }
  set (m2 := <[bdir := Dir]> (fs w)).
  set (m3 := <[dir := Dir]> m2).
  set (m4 := <[backupPath := File old]> m3).
  assert (Hbd : bdir ≠ dir) by (by intros H; apply Hnd; rewrite H).
  assert (Hbt : bdir ≠ target) by (by intros H; apply Hnt; rewrite H).
  assert (Hbp : bdir ≠ backupPath) by (by intros H; apply Hnp; rewrite H).
  assert (Hdf : Fs.is_file (fs w) dir = false).
  { unfold dir in *. destruct sharedBackupDir as [[|s r]|]; try done.
    destruct Hdir as [_ Hd]. apply bool_decide_eq_true in Hd. unfold Fs.is_file.
    by rewrite Hd. }
  assert (Hdt : dir ≠ target).
  { intros H. rewrite H in Hdf. unfold Fs.is_file in Hdf. by rewrite HT in Hdf. }
  assert (Hpt : backupPath ≠ target) by (intros H; rewrite H in HB; congruence).
  assert (Hpd : backupPath ≠ dir).
  { intros H. apply (f_equal length) in H. unfold backupPath, join in H.
    rewrite length_app in H. simpl in H. lia. }
  assert (HSn : Fs.node_at (fs w) (resolve source) = Some (File content)).
  { unfold Fs.read in HS. destruct (Fs.node_at (fs w) (resolve source)) as [[c|]|]; congruence. }
  assert (Htree2 : tree m2).
  { apply tree_insert; try done; [|by right].
    unfold bdir, tx_dir, join. by rewrite dirname_snoc. }
  assert (Hum2 : unmarked m2) by (apply unmarked_insert; [done|apply tx_dir_public]).
  assert (Hm3 : unmarked m3 ∧ (Fs.is_dir (fs w) dir = true → m3 = m2)).
  { split.
    - unfold m3, dir in *. destruct sharedBackupDir as [[|s r]|];
        try (apply unmarked_insert; [done|];
             unfold user_backup_dir, join; rewrite basename_snoc; apply user_backup_public).
      destruct Hdir as [_ Hd]. apply bool_decide_eq_true in Hd.
      rewrite insert_id; [done|]. unfold m2. rewrite lookup_insert_ne by done.
      by rewrite <- Hd, node_at_nonroot.
    - intros Hd%bool_decide_eq_true. unfold m3. apply insert_id.
      unfold m2. rewrite lookup_insert_ne by done. by rewrite <- Hd, node_at_nonroot. }
  destruct Hm3 as [Hum3 Hm32].
  pose (w3 := log (SysStat target)
                (set_fs m2 (log (SysMkdir bdir) (set_draws (S (draws w)) w)))).
  assert (Hor : ∃ w4, or_else sharedBackupDir (createBackupDir toISOString projectPath) w3
                      = (inr dir, w4)
                ∧ fs w4 = m3 ∧ locks w4 = ∅ ∧ lockQueue w4 = ∅).
  { assert (Hmk : ∀ d, d = user_backup_dir toISOString projectPath (now w) →
                   Fs.is_file (fs w) d = false → bdir ≠ d →
                   createBackupDir toISOString projectPath w3
                   = (inr d, set_fs (<[d := Dir]> m2) (log (SysMkdir d) w3))).
    { intros d -> Hd Hne.
      rewrite <- (resolve_canonical (user_backup_dir toISOString projectPath (now w))) at 2
        by (apply canonical_snoc; [done|apply plain_user_backup]).
      apply (createBackupDir_run toISOString projectPath w3); unfold w3; wsimpl; try done.
      - rewrite resolve_canonical by done. unfold m2. rewrite is_dir_insert_ne; [done|].
        intros H. apply (Hin projectPath); [|by rewrite H].
        apply bool_decide_eq_true in HPd. by rewrite HPd.
      - rewrite resolve_canonical by (apply canonical_snoc; [done|apply plain_user_backup]).
        unfold Fs.is_file, m2 in *. by rewrite node_at_insert_ne. }
    unfold dir in *. destruct sharedBackupDir as [[|s r]|]; simpl.
    - eexists. split; [by apply Hmk|]. by unfold w3; wsimpl.
    - exists w3. destruct Hdir as [_ Hd]. split; [done|]. unfold w3. wsimpl.
      by rewrite (Hm32 Hd).
    - eexists. split; [by apply Hmk|]. by unfold w3; wsimpl. }
  destruct Hor as (w4 & Hor & Hf4 & Hl4 & Hq4).
  assert (Hm3t : Fs.node_at m3 target = Some (File old)).
  { unfold m3, m2. by rewrite !node_at_insert_ne. }
  assert (Hm3p : Fs.node_at m3 backupPath = None).
  { unfold m3, m2. by rewrite !node_at_insert_ne. }
  assert (Hm3d : Fs.is_dir m3 dir = true).
  { unfold Fs.is_dir, m3. apply bool_decide_eq_true. by apply node_at_insert. }
  destruct (atomicCopy_file_ok win32 entropy target backupPath None old
              (log (SysAccess backupPath) w4))
    as (w6 & Hc6 & Hf6 & Hl6 & Hq6 & _); try done.
  { wsimpl. rewrite Hl4. apply not_elem_of_empty. }
  { wsimpl. by rewrite Hq4. }
  { wsimpl. rewrite Hf4. unfold backupPath, join. by rewrite dirname_snoc. }
  { wsimpl. by rewrite Hf4, Hm3p. }
  { wsimpl. rewrite Hf4. by apply unmarked_lock_absent. }
  { wsimpl. rewrite Hf4. by apply unmarked_temp_absent. }
  { wsimpl. by rewrite Hf4. }
  wsimpl_in Hf6. wsimpl_in Hl6. wsimpl_in Hq6. rewrite Hf4 in Hf6. fold m4 in Hf6.
  rewrite Hl4 in Hl6. rewrite Hq4 in Hq6.
  assert (Hm4t : Fs.node_at m4 target = Some (File old)).
  { unfold m4. by rewrite node_at_insert_ne. }
  assert (Hm4p : Fs.node_at m4 backupPath = Some (File old)).
  { unfold m4. apply node_at_insert. unfold backupPath, join. by destruct dir. }
  assert (Hum4 : unmarked m4).
  { apply unmarked_insert; [done|]. unfold backupPath, join. rewrite basename_snoc.
    apply agents_public. }
  assert (Hm4s : Fs.read m4 (resolve source) = inr content).
  { unfold Fs.read, m4, m3, m2. rewrite !node_at_insert_ne; [by rewrite HSn| | |].
    - intros H. by rewrite <- H, Hb in HSn.
    - intros H. rewrite <- H in HSn. unfold Fs.is_file in Hdf. by rewrite HSn in Hdf.
    - intros H. by rewrite <- H, HB in HSn. }
  assert (Hm2t : Fs.node_at m2 target = Some (File old)).
  { unfold m2. by rewrite node_at_insert_ne. }
  assert (Hinit := init_run [] tmpdir name (set_draws (S (draws w)) w)
                     Htree Htmp (plain_tx _) Htmpd).
  change (join tmpdir name) with bdir in Hinit. change (tmpdir ++ [name]) with bdir in Hinit.
  specialize (Hinit ltac:(unfold Fs.is_file; wsimpl; by rewrite Hb)).
  unfold copyAdditionalFiles. rewrite bind_run, new_tx_run. fold bdir.
  pose (w8 := log (SysRead source)
                (log (SysRead backupPath) (log (SysRead target) (log (SysStat target) w6)))).
  destruct rendered as [e|processed] eqn:Hproc.
  { (* the rendering throws *)
    destruct (rollback_rm win32 dev entropy copy_op backupPath w8)
      as (w9 & Hr9 & Hf9 & Hl9 & Hq9); try done.
    { change (fs w8) with (fs w6). by rewrite Hf6, Hm4p. }
    change (fs w8) with (fs w6) in Hf9. rewrite Hf6 in Hf9.
    unfold m4 in Hf9. rewrite delete_insert_id in Hf9 by (by apply node_at_None_lookup).
  eexists. split; [|split].
  - eapply with_tx_run.
    rewrite bind_run, Hinit. wsimpl. fold m2.
    unfold try_catch at 1.
    rewrite bind_run, liftW_run, Hinfo. cbn [fst snd for_fold].
    rewrite !bind_run, liftW_run.
    rewrite (validatePathSecurity_below projectPath ["AGENTS.md"]) by (by repeat constructor).
    cbn [fst snd].
    rewrite bind_run, liftW_run, exists_run. cbn [fst snd].
    fold target. rewrite (resolve_canonical target) by done. wsimpl. rewrite Hm2t.
    rewrite bool_decide_true by eauto.
    fold w3.
    rewrite bind_run. rewrite bind_run, liftW_run, Hor. cbn [fst snd]. fold backupPath.
    rewrite bind_run, liftW_run, Hinfo. cbn [fst snd].
    rewrite bind_run. unfold copy at 1.
    rewrite bind_run, backup_absent_run
      by (rewrite (resolve_canonical backupPath) by done; by rewrite Hf4).
    rewrite bind_run, liftW_run, Hc6. cbn [fst snd]. rewrite push_run, app_nil_l.
    rewrite bind_run, liftW_run, (verifyBackup_file sha256 target backupPath w6 old old)
      by (rewrite resolve_canonical, Hf6 by done; done).
    rewrite bool_decide_false by (by intros H). cbn [fst snd].
    unfold mret at 1, ST_ret at 1.
    rewrite bind_run, liftW_run. fold source.
    rewrite (read_run source _ content) by (wsimpl; rewrite Hf6; exact Hm4s). cbn [fst snd].
    rewrite bind_run. unfold rendered in Hproc. rewrite Hproc.
    unfold outcome at 1, throw at 1.
    rewrite bind_run, liftW_run, Herror. cbn [fst snd].
    rewrite bind_run. fold w8.
    change (rollback win32 dev entropy (mkTx [mkOp copy_op backupPath None] bdir, w8))
      with (for_of [mkOp copy_op backupPath None]
              (λ op, liftW (rollback_step win32 dev entropy op))
              (mkTx [mkOp copy_op backupPath None] bdir, w8)).
    cbn [for_of]. rewrite bind_run, liftW_run, Hr9. reflexivity.
  - cbn [fst snd]. by rewrite Hf9.
  - change (locks w8) with (locks w6) in Hl9. change (lockQueue w8) with (lockQueue w6) in Hq9.
    unfold idle. split_and!; try done; cbn [fst snd]; congruence. }
  (* the rendering returns *)
  set (b2 := join bdir (hex 16 (entropy (draws w8)))).
  assert (Hb2 : Fs.below bdir b2).
  { split; [by exists [hex 16 (entropy (draws w8))]|].
    intros H. apply (f_equal length) in H. unfold b2, join in H.
    rewrite length_app in H. simpl in H. lia. }
  assert (Hm4b : Fs.node_at m4 b2 = None).
  { destruct Hb2 as [Hb2 Hb2']. unfold m4, m3, m2. rewrite !node_at_insert_ne.
    - rewrite node_at_nonroot by (unfold b2, join; by destruct bdir). by apply Hout.
    - done.
    - intros H. apply Hnd. by rewrite H.
    - intros H. apply Hnp. by rewrite H. }
  destruct (backup_present_run win32 entropy target bdir
              [mkOp copy_op backupPath None] old w8)
    as (w11 & Hb11 & Hf11 & [Hl11 Hq11] & _); try done.
  { unfold w8. wsimpl. by rewrite Hf6. }
  { unfold w8. wsimpl. rewrite Hf6. unfold m4, m3. rewrite !is_dir_insert_ne by done.
    unfold Fs.is_dir, m2. apply bool_decide_eq_true. by apply node_at_insert. }
  { change (fs w8) with (fs w6). rewrite Hf6. fold b2. by rewrite Hm4b. }
  { unfold w8. wsimpl. by rewrite Hf6. }
  fold b2 in Hb11, Hf11. unfold w8 in Hf11. wsimpl_in Hf11. rewrite Hf6 in Hf11.
  set (m5 := <[b2 := File old]> m4) in *.
  assert (Hb2t : b2 ≠ target) by (intros H; apply Hnt; rewrite <- H; apply Hb2).
  destruct (atomicWrite_ok win32 entropy target processed w11)
    as (w12 & Hw12 & Hf12 & Hl12 & Hq12 & _); try done.
  { rewrite Hl11. apply not_elem_of_empty. }
  { by rewrite Hq11. }
  { rewrite Hf11. unfold target at 1, join. rewrite dirname_snoc.
    unfold m5. rewrite is_dir_insert_file; [done| |by rewrite Hm4b].
    unfold m4. rewrite is_dir_insert_file; [done| |by rewrite Hm3p].
    unfold m3, m2. rewrite !is_dir_insert_ne; [done| |].
    - intros H. apply (Hin projectPath); [|by rewrite H].
      apply bool_decide_eq_true in HPd. by rewrite HPd.
    - intros H. apply Hpt. unfold backupPath, target. by rewrite H. }
  { rewrite Hf11. unfold m5. rewrite node_at_insert_ne by done. by rewrite Hm4t. }
  { rewrite Hf11. apply unmarked_lock_absent. apply unmarked_insert; [done|].
    unfold b2, join. rewrite basename_snoc. apply (hex_not_private 15). }
  { rewrite Hf11. apply unmarked_temp_absent. apply unmarked_insert; [done|].
    unfold b2, join. rewrite basename_snoc. apply (hex_not_private 15). }
  rewrite Hf11 in Hf12. rewrite Hl11 in Hl12. rewrite Hq11 in Hq12.
  eexists. split; [|split].
  - eapply with_tx_run.
    rewrite bind_run, Hinit. wsimpl. fold m2.
    unfold try_catch at 1.
    rewrite bind_run, liftW_run, Hinfo. cbn [fst snd for_fold].
    rewrite !bind_run, liftW_run.
    rewrite (validatePathSecurity_below projectPath ["AGENTS.md"]) by (by repeat constructor).
    cbn [fst snd].
    rewrite bind_run, liftW_run, exists_run. cbn [fst snd].
    fold target. rewrite (resolve_canonical target) by done. wsimpl. rewrite Hm2t.
    rewrite bool_decide_true by eauto.
    fold w3.
    rewrite bind_run. rewrite bind_run, liftW_run, Hor. cbn [fst snd]. fold backupPath.
    rewrite bind_run, liftW_run, Hinfo. cbn [fst snd].
    rewrite bind_run. unfold copy at 1.
    rewrite bind_run, backup_absent_run
      by (rewrite (resolve_canonical backupPath) by done; by rewrite Hf4).
    rewrite bind_run, liftW_run, Hc6. cbn [fst snd]. rewrite push_run, app_nil_l.
    rewrite bind_run, liftW_run, (verifyBackup_file sha256 target backupPath w6 old old)
      by (rewrite resolve_canonical, Hf6 by done; done).
    rewrite bool_decide_false by (by intros H). cbn [fst snd].
    unfold mret at 1, ST_ret at 1.
    rewrite bind_run, liftW_run. fold source.
    rewrite (read_run source _ content) by (wsimpl; rewrite Hf6; exact Hm4s). cbn [fst snd].
    rewrite bind_run. unfold rendered in Hproc. rewrite Hproc.
    unfold outcome at 1, mret at 1, ST_ret at 1.
    rewrite bind_run. unfold write at 1.
    rewrite bind_run. fold w8. rewrite Hb11.
    rewrite bind_run, liftW_run, Hw12. cbn [fst snd].
    rewrite push_run. unfold mret at 1 2, ST_ret at 1 2.
    rewrite bind_run, commit_run; try done.
    + rewrite bind_run, liftW_run, Hinfo. reflexivity.
    + rewrite Hf12. rewrite node_at_insert_ne by done. unfold m5.
      rewrite node_at_insert_ne by (intros H; by apply Hb2). unfold m4, m3.
      rewrite !node_at_insert_ne by done. by apply node_at_insert.
  - cbn [fst snd]. wsimpl. rewrite Hf12. apply map_eq. intros k. rewrite without_lookup.
    destruct (decide (bdir `prefix_of` k)) as [Hk|Hk].
    + symmetry. rewrite !lookup_insert_ne; [by apply Hout| | |]; by intros <-.
    + destruct (decide (target = k)) as [<-|Hne]; [by rewrite !lookup_insert_eq|].
      rewrite !(lookup_insert_ne _ target) by done. unfold m5.
      rewrite lookup_insert_ne by (intros <-; apply Hk, Hb2). unfold m4, m3, m2.
      destruct (decide (backupPath = k)) as [<-|Hne2]; [by rewrite !lookup_insert_eq|].
      rewrite !(lookup_insert_ne _ backupPath) by done.
      destruct (decide (dir = k)) as [<-|Hne3]; [by rewrite !lookup_insert_eq|].
      rewrite !(lookup_insert_ne _ dir) by done.
      rewrite lookup_insert_ne; [done|]. intros <-. by apply Hk.
  - unfold idle. split_and!; try done; cbn [fst snd]; wsimpl; congruence.
Qed.


(** X25: a project whose AGENTS.md is a regular file.  The
    conditions: the info and the error logger leave no trace in the
    world; every entry of the disk lies in a directory; no entry is
    named like a lock marker or a temporary file (".lock", ".tmp"); no
    lock is held and nobody waits for one; the temporary directory is a
    resolved path and a directory, the project path a resolved path;
    the name of the directory of the transaction is not taken; a shared
    backup directory is a resolved path and a directory, and without one
    the name of the backup directory is not that of a regular file; the
    backup directory has no AGENTS.md; the skeleton file can be read and
    is processed without an error.  Then [copyAdditionalFiles] returns 1
    and changes the disk in three places: the backup directory (the
    shared one, or one made for the occasion) is a directory, AGENTS.md
    in it holds the text the project's file had, and the project's file
    holds the text of the skeleton file, rendered when it contains a
    tag.  The directory of the transaction, with the second copy of the
    old file in it, is gone again, and no lock is left. *)
Theorem copyAdditionalFiles_backs_up_existing (projectPath : list string)
    (variables : TemplateVariables) (sharedBackupDir : option (list string))
    (old content processed : string) (w : World) :
  let target := join projectPath "AGENTS.md" in
  let source := join (getSourceDir moduleFile) "AGENTS.md" in
  let dir := match sharedBackupDir with
             | Some (s :: r) => s :: r
             | _ => user_backup_dir toISOString projectPath (now w)
             end in
  let backupPath := join dir "AGENTS.md" in
  mute logger_info → mute logger_error →
  tree (fs w) → unmarked (fs w) → idle w →
  canonical tmpdir → Fs.is_dir (fs w) tmpdir = true →
  canonical projectPath →
  Fs.node_at (fs w) (tx_dir tmpdir entropy (now w) (draws w)) = None →
  Fs.node_at (fs w) target = Some (File old) →
  match sharedBackupDir with
  | Some (s :: r) => canonical (s :: r) ∧ Fs.is_dir (fs w) (s :: r) = true
  | _ => Fs.is_file (fs w) dir = false
  end →
  Fs.node_at (fs w) backupPath = None →
  Fs.read (fs w) (resolve source) = inr content →
  process renderTemplate content (validateTemplateVariables variables) = inr processed →
  ∃ w', additional projectPath variables sharedBackupDir w = (inr 1, w')
    ∧ fs w' = <[target := File processed]>
                (<[backupPath := File old]> (<[dir := Dir]> (fs w)))
    ∧ idle w'.
Proof.
  intros target source dir backupPath Hinfo Herror Htree Hum Hidle Htmp Htmpd HP Hb HT Hdir
    HB HS Hproc.
  destruct (additional_existing projectPath variables sharedBackupDir old content w)
    as (w' & Hrun & Hfs & Hi & _); try done.
  rewrite Hproc in Hrun, Hfs. by exists w'.
Qed.

(** X26: the processing of the skeleton file throws.  The conditions:
    the info and the error logger leave no trace in the world; every
    entry of the disk lies in a directory; no entry is named like a lock
    marker or a temporary file (".lock", ".tmp"); no lock is held and
    nobody waits for one; the temporary directory is a resolved path and
    a directory, the project path a resolved path; the name of the
    directory of the transaction is not taken; the project's AGENTS.md
    is a regular file; a shared backup directory is a resolved path and
    a directory, and without one the name of the backup directory is not
    that of a regular file; the backup directory has no AGENTS.md; the
    skeleton file can be read.  Then [copyAdditionalFiles] throws the
    error of the processing after its rollback: the project's AGENTS.md
    was never touched and the backup copy is deleted again, but the
    backup directory stays, and so does the directory of the
    transaction, which [rollback] does not remove; no lock is left. *)
Theorem copyAdditionalFiles_rolls_back (projectPath : list string)
    (variables : TemplateVariables) (sharedBackupDir : option (list string))
    (old content : string) (e : error) (w : World) :
  let target := join projectPath "AGENTS.md" in
  let source := join (getSourceDir moduleFile) "AGENTS.md" in
  let dir := match sharedBackupDir with
             | Some (s :: r) => s :: r
             | _ => user_backup_dir toISOString projectPath (now w)
             end in
  let backupPath := join dir "AGENTS.md" in
  let bdir := tx_dir tmpdir entropy (now w) (draws w) in
  mute logger_info → mute logger_error →
  tree (fs w) → unmarked (fs w) → idle w →
  canonical tmpdir → Fs.is_dir (fs w) tmpdir = true →
  canonical projectPath →
  Fs.node_at (fs w) bdir = None →
  Fs.node_at (fs w) target = Some (File old) →
  match sharedBackupDir with
  | Some (s :: r) => canonical (s :: r) ∧ Fs.is_dir (fs w) (s :: r) = true
  | _ => Fs.is_file (fs w) dir = false
  end →
  Fs.node_at (fs w) backupPath = None →
  Fs.read (fs w) (resolve source) = inr content →
  process renderTemplate content (validateTemplateVariables variables) = inl e →
  ∃ w', additional projectPath variables sharedBackupDir w = (inl e, w')
    ∧ fs w' = <[dir := Dir]> (<[bdir := Dir]> (fs w))
    ∧ Fs.node_at (fs w') target = Some (File old)
    ∧ Fs.node_at (fs w') backupPath = None
    ∧ Fs.is_dir (fs w') bdir = true
    ∧ idle w'.
Proof.
  intros target source dir backupPath bdir Hinfo Herror Htree Hum Hidle Htmp Htmpd HP Hb HT
    Hdir HB HS Hproc.
  destruct (additional_existing projectPath variables sharedBackupDir old content w)
    as (w' & Hrun & Hfs & Hi & Hbd & Hbt & Hbp & Hdt & Hpd); try done.
  rewrite Hproc in Hrun, Hfs. exists w'. split_and!; try done.
  - rewrite Hfs. by rewrite !node_at_insert_ne.
  - rewrite Hfs. by rewrite !node_at_insert_ne.
  - rewrite Hfs. unfold Fs.is_dir. apply bool_decide_eq_true.
    rewrite node_at_insert_ne by done. apply node_at_insert.
    by eapply node_at_None_nonroot.
Qed.

(** X27: when the skeleton file cannot be read, in a project that has
    no AGENTS.md, [copyAdditionalFiles] throws the error of the read
    as it is.  Nothing in the project has changed, no lock is left
    behind; what stays on the disk is the directory of the transaction,
    which [rollback] does not remove. *)
Theorem copyAdditionalFiles_skeleton_missing (projectPath : list string)
    (variables : TemplateVariables) (sharedBackupDir : option (list string)) (w : World) :
  let target := join projectPath "AGENTS.md" in
  let source := join (getSourceDir moduleFile) "AGENTS.md" in
  let bdir := tx_dir tmpdir entropy (now w) (draws w) in
  mute logger_info → mute logger_error →
  tree (fs w) →
  canonical tmpdir → Fs.is_dir (fs w) tmpdir = true →
  canonical projectPath →
  Fs.node_at (fs w) bdir = None →
  Fs.node_at (fs w) target = None →
  Fs.node_at (fs w) (resolve source) = None →
  ∃ errno w',
    additional projectPath variables sharedBackupDir w
    = (inl (Error (errno +:+ ": read") (Some errno)), w')
    ∧ fs w' = <[bdir := Dir]> (fs w)
    ∧ locks w' = locks w ∧ lockQueue w' = lockQueue w.
Proof.
  intros target source bdir Hinfo Herror Htree Htmp Htmpd HP Hb HT HS.
  set (name := ".create-codex-tx-" +:+ pretty (now w) +:+ "-" +:+ hex 8 (entropy (draws w))).
  assert (Hct : canonical target).
  { apply canonical_snoc; [done|]. apply plain_long. simpl. lia. }
  assert (Hbt : bdir ≠ target).
  { intros H. unfold bdir, target, tx_dir, join in H. apply app_inj_tail in H as [_ H].
    by apply tx_name_not_agents in H. }
  assert (Hbne : bdir ≠ []) by (by eapply node_at_None_nonroot).
  set (m2 := <[bdir := Dir]> (fs w)).
  assert (Ht2 : Fs.node_at m2 target = None).
  { unfold m2. by rewrite node_at_insert_ne. }
  assert (Hread : ∃ errno, Fs.read m2 (resolve source) = inl errno).
  { unfold Fs.read, m2. destruct (decide (bdir = resolve source)) as [<-|Hne].
    - rewrite node_at_insert by done. eauto.
    - rewrite node_at_insert_ne by done. rewrite HS. eauto. }
  destruct Hread as [errno Hread].
  assert (Hinit := init_run [] tmpdir name (set_draws (S (draws w)) w)
                     Htree Htmp (plain_tx _) Htmpd).
  change (join tmpdir name) with bdir in Hinit. change (tmpdir ++ [name]) with bdir in Hinit.
  specialize (Hinit ltac:(unfold Fs.is_file; wsimpl; by rewrite Hb)).
  unfold copyAdditionalFiles. rewrite bind_run, new_tx_run. fold bdir.
  exists errno. eexists. split; [|split].
  - eapply with_tx_run.
    rewrite bind_run, Hinit. wsimpl. fold m2.
    unfold try_catch at 1.
    rewrite bind_run, liftW_run, Hinfo. cbn [fst snd for_fold].
    rewrite !bind_run, liftW_run.
    rewrite (validatePathSecurity_below projectPath ["AGENTS.md"]) by (by repeat constructor).
    cbn [fst snd].
    rewrite bind_run, liftW_run, exists_run. cbn [fst snd].
    fold target. rewrite (resolve_canonical target) by done. wsimpl. rewrite Ht2.
    rewrite bool_decide_false by (by intros [? ?]).
    rewrite bind_run. unfold mret at 1, ST_ret at 1.
    rewrite bind_run, liftW_run. fold source.
    unfold fs_promises.read, sysread. wsimpl. rewrite Hread. cbn [fst snd].
    rewrite bind_run, liftW_run, Herror. cbn [fst snd].
    rewrite bind_run. reflexivity.
  - done.
  - done.
Qed.

End Additional.

Lemma copyAdditionalFiles_writes_new_file_witness :
  ∃ w', copyAdditionalFiles false one_device ["tmp"] counting (λ c, c) installed_module
          sample_clock (fixed_render "# app") silent_logger silent_logger
          ["app"] ∅ None fresh_project
        = (inr 1, w')
    ∧ fs w' = <[join ["app"] "AGENTS.md" := File "# app"]> (fs fresh_project)
    ∧ idle w'.
Proof.
  apply (copyAdditionalFiles_writes_new_file false one_device ["tmp"] counting (λ c, c)
           installed_module sample_clock (fixed_render "# app") silent_logger silent_logger
           ["app"] ∅ None "# {{PROJECT_NAME}}" "# app" fresh_project).
  - intros msg w. reflexivity.
  - apply (bool_decide_unpack _). vm_compute. exact I.
  - apply (bool_decide_unpack _). vm_compute. exact I.
  - apply (bool_decide_unpack _). vm_compute. exact I.
  - apply (bool_decide_unpack _). vm_compute. exact I.
  - vm_compute. reflexivity.
  - apply (bool_decide_unpack _). vm_compute. exact I.
  - vm_compute. reflexivity.
  - vm_compute. reflexivity.
  - vm_compute. reflexivity.
  - vm_compute. reflexivity.
  - vm_compute. reflexivity.
Defined.

Lemma copyAdditionalFiles_backs_up_existing_witness :
  ∃ w', copyAdditionalFiles false one_device ["tmp"] counting (λ c, c) installed_module
          sample_clock (fixed_render "# app") silent_logger silent_logger
          ["app"] ∅ None used_project
        = (inr 1, w')
    ∧ fs w' = <[join ["app"] "AGENTS.md" := File "# app"]>
                (<[join (user_backup_dir sample_clock ["app"] (now used_project)) "AGENTS.md"
                   := File "old"]>
                   (<[user_backup_dir sample_clock ["app"] (now used_project) := Dir]>
                      (fs used_project)))
    ∧ idle w'.
Proof.
  apply (copyAdditionalFiles_backs_up_existing false one_device ["tmp"] counting (λ c, c)
           installed_module sample_clock (fixed_render "# app") silent_logger silent_logger
           ["app"] ∅ None "old" "# {{PROJECT_NAME}}" "# app" used_project).
  - intros msg w. reflexivity.
  - intros msg w. reflexivity.
  - apply (bool_decide_unpack _). vm_compute. exact I.
  - apply (bool_decide_unpack _). vm_compute. exact I.
  - apply (bool_decide_unpack _). vm_compute. exact I.
  - apply (bool_decide_unpack _). vm_compute. exact I.
  - vm_compute. reflexivity.
  - apply (bool_decide_unpack _). vm_compute. exact I.
  - vm_compute. reflexivity.
  - vm_compute. reflexivity.
  - vm_compute. reflexivity.
  - vm_compute. reflexivity.
  - vm_compute. reflexivity.
  - vm_compute. reflexivity.
Defined.

Lemma copyAdditionalFiles_rolls_back_witness :
  ∃ w', copyAdditionalFiles false one_device ["tmp"] counting (λ c, c) installed_module
          sample_clock failing_render silent_logger silent_logger
          ["app"] ∅ None used_project
        = (inl (Error "Template rendering exceeded maximum iterations - possible infinite loop"
                  None), w')
    ∧ fs w' = <[user_backup_dir sample_clock ["app"] (now used_project) := Dir]>
                (<[tx_dir ["tmp"] counting (now used_project) (draws used_project) := Dir]>
                   (fs used_project))
    ∧ Fs.node_at (fs w') (join ["app"] "AGENTS.md") = Some (File "old")
    ∧ Fs.node_at (fs w')
        (join (user_backup_dir sample_clock ["app"] (now used_project)) "AGENTS.md") = None
    ∧ Fs.is_dir (fs w') (tx_dir ["tmp"] counting (now used_project) (draws used_project))
      = true
    ∧ idle w'.
Proof.
  apply (copyAdditionalFiles_rolls_back false one_device ["tmp"] counting (λ c, c)
           installed_module sample_clock failing_render silent_logger silent_logger
           ["app"] ∅ None "old" "# {{PROJECT_NAME}}" _ used_project).
  - intros msg w. reflexivity.
  - intros msg w. reflexivity.
  - apply (bool_decide_unpack _). vm_compute. exact I.
  - apply (bool_decide_unpack _). vm_compute. exact I.
  - apply (bool_decide_unpack _). vm_compute. exact I.
  - apply (bool_decide_unpack _). vm_compute. exact I.
  - vm_compute. reflexivity.
  - apply (bool_decide_unpack _). vm_compute. exact I.
  - vm_compute. reflexivity.
  - vm_compute. reflexivity.
  - vm_compute. reflexivity.
  - vm_compute. reflexivity.
  - vm_compute. reflexivity.
  - vm_compute. reflexivity.
Defined.

Lemma copyAdditionalFiles_skeleton_missing_witness :
  ∃ errno w',
    copyAdditionalFiles false one_device ["tmp"] counting (λ c, c) installed_module
      sample_clock (fixed_render "# app") silent_logger silent_logger
      ["app"] ∅ None bare_project
    = (inl (Error (errno +:+ ": read") (Some errno)), w')
    ∧ fs w' = <[tx_dir ["tmp"] counting (now bare_project) (draws bare_project) := Dir]>
                (fs bare_project)
    ∧ locks w' = locks bare_project ∧ lockQueue w' = lockQueue bare_project.
Proof.
  apply (copyAdditionalFiles_skeleton_missing false one_device ["tmp"] counting (λ c, c)
           installed_module sample_clock (fixed_render "# app") silent_logger silent_logger
           ["app"] ∅ None bare_project).
  - intros msg w. reflexivity.
  - intros msg w. reflexivity.
  - apply (bool_decide_unpack _). vm_compute. exact I.
  - apply (bool_decide_unpack _). vm_compute. exact I.
  - vm_compute. reflexivity.
  - apply (bool_decide_unpack _). vm_compute. exact I.
  - vm_compute. reflexivity.
  - vm_compute. reflexivity.
  - vm_compute. reflexivity.
Defined.

(** X28: when the package has no ".codex" skeleton, [copyCodexDirectory]
    returns after the one [stat] that looked for it: it reports no file
    processed and hands the shared backup directory back as it got it;
    no transaction is started and the path check is not reached. *)
Theorem copyCodexDirectory_without_skeleton (win32 : bool) (dev : list string → nat)
    (tmpdir : list string) (entropy : nat → N) (sha256 : string → string)
    (moduleFile : list string) (toISOString : N → string)
    (renderTemplate : string → TemplateVariables → error + string)
    (logger_debug logger_info logger_error : string → M unit)
    (projectPath : list string) (variables : TemplateVariables)
    (sharedBackupDir : option (list string)) (w : World) :
  let sourceDir := join (getSourceDir moduleFile) ".codex" in
  mute logger_debug →
  Fs.node_at (fs w) (resolve sourceDir) = None →
  copyCodexDirectory win32 dev tmpdir entropy sha256 moduleFile toISOString renderTemplate
    logger_debug logger_info logger_error projectPath variables sharedBackupDir w
  = (inr (0, sharedBackupDir), log (SysStat sourceDir) w).
Proof.
  intros sourceDir Hdebug Hnone. unfold copyCodexDirectory.
  rewrite bind_run, exists_run. fold sourceDir. rewrite Hnone.
  rewrite bool_decide_false by (by intros [? ?]). cbn [negb].
  by rewrite bind_run, Hdebug.
Qed.

Lemma copyCodexDirectory_without_skeleton_witness :
  copyCodexDirectory false one_device ["tmp"] counting (λ c, c) installed_module sample_clock
    (fixed_render "# app") silent_logger silent_logger silent_logger
    ["app"] ∅ (Some ["app"; "saved"]) fresh_project
  = (inr (0, Some ["app"; "saved"]),
     log (SysStat (join (getSourceDir installed_module) ".codex")) fresh_project).
Proof.
  apply (copyCodexDirectory_without_skeleton false one_device ["tmp"] counting (λ c, c)
           installed_module sample_clock (fixed_render "# app") silent_logger silent_logger
           silent_logger ["app"] ∅ (Some ["app"; "saved"]) fresh_project).
  - intros msg w. reflexivity.
  - vm_compute. reflexivity.
Defined.

(** * Further properties of [src/template.ts] *)

Lemma validate_entry_run (validated : TemplateVariables) (key : string) (v : value) :
  validate_entry validated (key, v)
  = if bool_decide (key ∈ ALLOWED_TEMPLATE_KEYS) && accepted key v
    then <[key := v]> validated else validated.
Proof. unfold validate_entry. simpl. by case_bool_decide. Qed.

Lemma validate_entries (l : list (string * value)) (acc : TemplateVariables) (k : string) :
  NoDup l.*1 →
  foldl validate_entry acc l !! k
  = match (list_to_map l : TemplateVariables) !! k with
    | Some v =>
        if bool_decide (k ∈ ALLOWED_TEMPLATE_KEYS) && accepted k v then Some v else acc !! k
    | None => acc !! k
    end.
Proof.
  revert acc. induction l as [|[k0 v0] l IH]; intros acc Hnd; simpl; [done|].
  apply NoDup_cons in Hnd as [Hk0 Hnd]. rewrite IH by done. rewrite validate_entry_run.
  destruct (decide (k = k0)) as [->|Hne].
  - rewrite lookup_insert_eq.
    rewrite (not_elem_of_list_to_map_1 (M := gmap string) l k0) by done.
    destruct (_ && _); [apply lookup_insert_eq|done].
  - rewrite lookup_insert_ne by done.
    destruct (bool_decide (k0 ∈ ALLOWED_TEMPLATE_KEYS) && accepted k0 v0); [|done].
    by rewrite (lookup_insert_ne acc).
Qed.

Lemma digit_unit (c : Ascii.ascii) :
  is_digit c = true → is_continuation c = false ∧ is_pair c = false.
Proof.
  unfold is_digit, is_continuation, is_pair.
  intros [H1%Nat.leb_le H2%Nat.leb_le]%andb_true_iff. split.
  - apply andb_false_iff. left. apply Nat.leb_gt. lia.
  - apply Nat.leb_gt. lia.
Qed.

(** A text that matches a pattern of digits and one-byte characters
    has one unit for each position of the pattern. *)
Lemma matches_length (pattern : list char_class) (s : string) :
  Forall (λ cl, match cl with
                | Digit => True
                | Char x => is_continuation x = false ∧ is_pair x = false
                end) pattern →
  matches pattern s = true → utf16_length s = length pattern.
Proof.
  intros Hp. revert s. induction Hp as [|cl pattern Hcl _ IH]; intros [|a s]; simpl; try done.
  - by destruct cl.
  - destruct cl as [|x].
    + intros [[-> ->]%digit_unit H]%andb_true_iff. by rewrite (IH s H).
    + intros [->%bool_decide_eq_true H]%andb_true_iff. destruct Hcl as [-> ->].
      by rewrite (IH s H).
Qed.

(** What the switch lets through: booleans, and strings shorter than
    the limit, under allowed keys only. *)
Lemma accepted_kind (key : string) (v : value) :
  accepted key v = true →
  key ∈ ALLOWED_TEMPLATE_KEYS
  ∧ ((∃ b, v = Bool b) ∨ (∃ s, v = Str s ∧ utf16_length s < MAX_VALUE_LENGTH)).
Proof.
  assert (Hsub : ∀ l : list string,
            bool_decide (l ⊆ ALLOWED_TEMPLATE_KEYS) = true → key ∈ l →
            key ∈ ALLOWED_TEMPLATE_KEYS).
  { intros l Hl%bool_decide_eq_true Hk. by apply Hl. }
  unfold accepted. repeat case_bool_decide; try done; destruct v as [|b|s|t]; try done;
    intros Hv;
    (split; [first [ match goal with
                     | Hk : key ∈ _ |- _ => (eapply Hsub; [|exact Hk]); by vm_compute
                     end
                   | subst; apply (bool_decide_unpack _); by vm_compute ]|]).
  - right. exists s. split; [done|]. rewrite (matches_length iso_timestamp s); [| |exact Hv].
    + unfold MAX_VALUE_LENGTH. simpl. lia.
    + repeat constructor.
  - right. exists s. split; [done|]. apply andb_true_iff in Hv as [_ Hv%Nat.ltb_lt].
    unfold MAX_VALUE_LENGTH. lia.
  - by eauto.
  - right. exists s. split; [done|]. by apply Nat.ltb_lt.
  - right. exists s. split; [done|]. by apply Nat.ltb_lt.
Qed.

Local Abbreviation blank :=
  (list_to_map [("PROJECT_NAME", Str ""); ("PACKAGE_MANAGER", Str ""); ("RUNTIME", Str "");
                ("TIMESTAMP", Str ""); ("VERSION_CONTROL", Str ""); ("FRAMEWORK", Str "")]
   : TemplateVariables).

Lemma validated_lookup (variables : TemplateVariables) (k : string) :
  validateTemplateVariables variables !! k
  = match variables !! k with
    | Some v => if accepted k v then Some v else blank !! k
    | None => blank !! k
    end.
Proof.
  unfold validateTemplateVariables. rewrite validate_entries by apply NoDup_fst_map_to_list.
  rewrite list_to_map_to_list. destruct (variables !! k) as [v|]; [|done].
  destruct (accepted k v) eqn:Ha; [|by rewrite andb_false_r].
  apply accepted_kind in Ha as [Hk _]. by rewrite bool_decide_true.
Qed.

Lemma blank_lookup (k : string) (v : value) :
  blank !! k = Some v →
  v = Str ""
  ∧ k ∈ ["PROJECT_NAME"; "PACKAGE_MANAGER"; "RUNTIME"; "TIMESTAMP"; "VERSION_CONTROL";
         "FRAMEWORK"].
Proof.
  intros H%elem_of_list_to_map_2.
  repeat (apply elem_of_cons in H as [[= -> ->]|H]; [split; [done|set_solver]|]).
  by apply elem_of_nil in H.
Qed.

Lemma validated_kind (variables : TemplateVariables) (key : string) (v : value) :
  validateTemplateVariables variables !! key = Some v →
  key ∈ ALLOWED_TEMPLATE_KEYS
  ∧ ((∃ b, v = Bool b) ∨ (∃ s, v = Str s ∧ utf16_length s < MAX_VALUE_LENGTH)).
Proof.
  rewrite validated_lookup.
  assert (Hblank : blank !! key = Some v →
            key ∈ ALLOWED_TEMPLATE_KEYS
            ∧ ((∃ b, v = Bool b)
               ∨ (∃ s, v = Str s ∧ utf16_length s < MAX_VALUE_LENGTH))).
  { intros [-> Hk]%blank_lookup. split.
    - revert key Hk. apply Forall_forall. apply (bool_decide_unpack _). by vm_compute.
    - right. exists "". split; [done|]. unfold MAX_VALUE_LENGTH. simpl. lia. }
  destruct (variables !! key) as [u|]; [|done].
  destruct (accepted key u) eqn:Ha; [|done]. intros [= ->]. by apply accepted_kind.
Qed.

(** X29: whatever object it is given, [validateTemplateVariables]
    returns one that holds only allowed keys, each with a boolean or a
    string of fewer than 1000 UTF-16 code units (the [length] of the
    code); the six required keys are always there, with a string; and
    validating the result again changes nothing. *)
Theorem validateTemplateVariables_sound (variables : TemplateVariables) :
  let validated := validateTemplateVariables variables in
  (∀ key v, validated !! key = Some v →
     key ∈ ALLOWED_TEMPLATE_KEYS
     ∧ ((∃ b, v = Bool b) ∨ (∃ s, v = Str s ∧ utf16_length s < MAX_VALUE_LENGTH)))
  ∧ (∀ key, key ∈ ["PROJECT_NAME"; "PACKAGE_MANAGER"; "RUNTIME"; "TIMESTAMP";
                    "VERSION_CONTROL"; "FRAMEWORK"] →
       ∃ s, validated !! key = Some (Str s))
  ∧ validateTemplateVariables validated = validated.
Proof.
  intros validated. unfold validated. split_and!.
  - apply validated_kind.
  - intros key Hk. rewrite validated_lookup.
    assert (Hblank : ∃ s, blank !! key = Some (Str s)).
    { exists "". repeat (apply elem_of_cons in Hk as [->|Hk]; [done|]).
      by apply elem_of_nil in Hk. }
    destruct (variables !! key) as [u|]; [|done].
    destruct (accepted key u) eqn:Ha; [|done].
    assert (Hstr : ∃ s, u = Str s); [|destruct Hstr as [s ->]; by exists s].
    unfold accepted in Ha.
    repeat (apply elem_of_cons in Hk as [->|Hk];
            [destruct u; try done; by eauto|]).
    by apply elem_of_nil in Hk.
  - apply map_eq. intros k.
    pose proof (validated_lookup variables k) as Hin.
    rewrite (validated_lookup (validateTemplateVariables variables) k).
    destruct (validateTemplateVariables variables !! k) as [u|].
    + destruct (variables !! k) as [v|].
      * destruct (accepted k v) eqn:Ha.
        -- injection Hin as ->. by rewrite Ha.
        -- rewrite <- Hin. by destruct (accepted k u).
      * rewrite <- Hin. by destruct (accepted k u).
    + destruct (variables !! k) as [v|]; [|done]. by destruct (accepted k v).
Qed.

Local Abbreviation chars := String.list_ascii_of_string.

Local Abbreviation escape_closers := (replace_pair "}" "}" "\}\}").

Lemma string_of_chars_app (l k : list Ascii.ascii) :
  String.string_of_list_ascii (l ++ k)
  = String.string_of_list_ascii l +:+ String.string_of_list_ascii k.
Proof.
  induction l as [|a l IH]; [done|].
  change (String a (String.string_of_list_ascii (l ++ k))
          = String a (String.string_of_list_ascii l +:+ String.string_of_list_ascii k)).
  by rewrite IH.
Qed.

Lemma escape_closers_head (t : string) (q : list Ascii.ascii) :
  chars (escape_closers t) = "}"%char :: q → ∃ t', t = String "}" t'.
Proof.
  destruct t as [|x [|y rest]]; simpl; [done|intros [= ->]; by eauto|].
  case_bool_decide as Hm.
  - rewrite list_ascii_of_string_app. simpl. done.
  - simpl. intros [= ->]. by eauto.
Qed.

(** In what the last replacement of [sanitizeValue] returns, a pair of
    closing braces always follows a backslash. *)
Lemma escape_closers_guarded (n : nat) : ∀ (t : string) (p q : list Ascii.ascii),
  String.length t ≤ n →
  chars (escape_closers t) = p ++ "}"%char :: "}"%char :: q →
  ∃ p', p = p' ++ ["\"%char].
Proof.
  induction n as [n IH] using lt_wf_ind. intros t p q Hlen.
  destruct t as [|x [|y rest]].
  - simpl. intros H. by destruct p.
  - simpl. intros H. by destruct p as [|? [|? ?]].
  - simpl. simpl in Hlen. case_bool_decide as Hm.
    + rewrite list_ascii_of_string_app. simpl. intros H.
      destruct p as [|a1 [|a2 [|a3 [|a4 p]]]]; simpl in H; try (by injection H).
      * injection H as <- <- <- _. by exists ["\"%char; "}"%char].
      * injection H as <- <- <- <- H.
        destruct (IH (String.length rest) ltac:(lia) rest p q ltac:(lia) H) as [p' ->].
        by exists ("\"%char :: "}"%char :: "\"%char :: "}"%char :: p').
    + simpl. intros H. destruct p as [|a p]; simpl in H.
      * injection H as -> H.
        destruct (escape_closers_head (String y rest) q H) as [t' Ht'].
        injection Ht' as -> _. by destruct Hm.
      * injection H as <- H. destruct (IH (S (String.length rest)) ltac:(lia) (String y rest) p q ltac:(simpl; lia))
          as [p' ->]; [done|].
        by exists (x :: p').
Qed.

(** X30: in the text [sanitizeValue] makes of a validated variable,
    two closing braces in a row always come directly after a
    backslash.  The text of a variable can therefore not hold a
    complete tag of the template language, whose name would have to
    end right before the braces. *)
Theorem sanitizeValue_guards_closers (variables : TemplateVariables)
    (key pre post : string) :
  sanitizeValue (validateTemplateVariables variables !! key) = pre +:+ "}}" +:+ post →
  ∃ pre', pre = pre' +:+ "\".
Proof.
  intros H. apply (f_equal chars) in H. rewrite !list_ascii_of_string_app in H. simpl in H.
  assert (Hpre : ∃ p', chars pre = p' ++ ["\"%char]).
  { destruct (validateTemplateVariables variables !! key) as [v|] eqn:Hv.
    - destruct (validated_kind _ _ _ Hv) as [_ [[b ->]|(s & -> & _)]].
      + destruct b; simpl in H; [|by destruct (chars pre)].
        by destruct (chars pre) as [|? [|? [|? [|? [|? ?]]]]].
      + simpl in H. by eapply (escape_closers_guarded _ _ _ _ (le_n _)).
    - simpl in H. by destruct (chars pre). }
  destruct Hpre as [p' Hp]. exists (String.string_of_list_ascii p').
  rewrite <- (String.string_of_list_ascii_of_string pre), Hp.
  by rewrite string_of_chars_app.
Qed.

Lemma sanitizeValue_guards_closers_witness :
  sanitizeValue (validateTemplateVariables {["PROJECT_NAME" := Str "}}}"]} !! "PROJECT_NAME")
  = "\}\" +:+ "}}" +:+ ""
  ∧ ∃ pre', "\}\" = pre' +:+ "\".
Proof.
  assert (H : sanitizeValue
                (validateTemplateVariables {["PROJECT_NAME" := Str "}}}"]} !! "PROJECT_NAME")
              = "\}\" +:+ "}}" +:+ "").
  { vm_compute. reflexivity. }
  split; [exact H|].
  exact (sanitizeValue_guards_closers {["PROJECT_NAME" := Str "}}}"]} "PROJECT_NAME"
           "\}\" "" H).
Defined.
